(** * Channel-constrained shortest paths (routing and spectrum assignment)

    A shallow embedding of the five engine variants of the repository
    ([ChannelGraph.cpp], [ChannelGraph2.cpp], [OptimizedEfficientGraph.cpp],
    [OptimizedEfficientGraph1.cpp], [OptimizedEfficientGraph3.cpp]), one
    module per source file; then the vocabulary of the specification, the
    invariants of the search loops and the test networks; then the lemmas,
    one module per source file again; and last the properties the
    specification states, C1 to C10, and further properties of the code.

    Conventions of the embedding:
    - a C++ [int] is a [Z] between [INT_MIN] and [INT_MAX]; the sums of
      costs are taken with [int_add], the addition of the 32-bit machine,
      which wraps around when the sum leaves that range;
    - a [vector] indexed by node identifier ([adj_list], [dist], [prev],
      [node_support_convert], ...) is a finite map from the index to the
      element, read with the value the constructor filled it with when the
      index was never written;
    - a [throw] is the outcome [Thrown], an out-of-bounds [operator[]] is the
      outcome [Undefined];
    - a [while] loop takes a fuel argument and answers [None] when the fuel
      runs out before the loop ends. *)

From Stdlib Require Import ZArith Lia List Permutation.
From stdpp Require Import gmap list.

Local Open Scope Z_scope.

(** ** Shared vocabulary *)

Definition CHANNELS : Z := 100.
Definition MAX_SEGMENTS : Z := 3.
Definition INT_MAX : Z := 2147483647.
Definition INT_MIN : Z := -2147483648.

(** The [int] that the low 32 bits of [z] stand for in two's complement. *)
Definition wrap (z : Z) : Z := (z + 2147483648) mod 4294967296 - 2147483648.

(** [a + b] on two [int]s. *)
Definition int_add (a b : Z) : Z := wrap (a + b).

Inductive exn := invalid_argument | out_of_range | runtime_error.

Inductive outcome (A : Type) :=
| Returned (a : A)
| Thrown (e : exn)
| Undefined.
Arguments Returned {A} a.
Arguments Thrown {A} e.
Arguments Undefined {A}.

(** [for (int i = 0; i <= hi; ++i)]: the values taken by [i]. *)
Definition upto (hi : Z) : list Z := seqZ 0 (hi + 1).

(** [costs[i]] on a [vector<int>] or [array<int, CHANNELS>]. *)
Definition vget (costs : list Z) (i : Z) : Z := nth (Z.to_nat i) costs 0.

(** Two entries next to each other in a path. *)
Definition adjacent {A} (x y : A) (l : list A) : Prop :=
  ∃ l1 l2, l = l1 ++ x :: y :: l2.

(** The sum of [costs[start..start+width)], as the specification words the
    cost of a segment. *)
Definition segment_sum (costs : list Z) (start width : Z) : Z :=
  foldr Z.add 0 (take (Z.to_nat width) (drop (Z.to_nat start) costs)).

(** *** [std::priority_queue<T, vector<T>, greater<T>>]

    The queue is the list of its elements; [pq_pop] takes a least element out.
    Among elements that compare equal the first one of the list is taken. *)
Section PriorityQueue.
Context {T : Type} (leb : T → T → bool).

Fixpoint pq_extract (x : T) (l : list T) : T * list T :=
  match l with
  | [] => (x, [])
  | y :: l' =>
      let '(m, r) := pq_extract y l' in
      if leb x m then (x, m :: r) else (m, x :: r)
  end.

Definition pq_pop (q : list T) : option (T * list T) :=
  match q with
  | [] => None
  | x :: l => Some (pq_extract x l)
  end.

Definition pq_push (x : T) (q : list T) : list T := x :: q.
End PriorityQueue.

(** ** ChannelGraph.cpp *)
Module ChannelGraph.

Definition INF : Z := INT_MAX.

Record Edge := mkEdge { to : Z; channel_costs : list Z }.

Record Graph := mkGraph {
  node_count : Z;
  adj_list : gmap Z (list Edge);
  node_support_convert : gmap Z bool
}.

(** [ChannelGraph(int n)] *)
Definition create (n : Z) : Graph :=
  {| node_count := n; adj_list := ∅; node_support_convert := ∅ |}.

Definition adj (g : Graph) (u : Z) : list Edge :=
  default [] (adj_list g !! u).

Definition supports (g : Graph) (u : Z) : bool :=
  default false (node_support_convert g !! u).

Definition addEdge (g : Graph) (u v : Z) (costs : list Z) : outcome Graph :=
  if (u <? 0) || (u >=? node_count g) || (v <? 0) || (v >=? node_count g)
  then Thrown out_of_range
  else if negb (Z.of_nat (length costs) =? CHANNELS)
  then Thrown invalid_argument
  else
    let a1 := <[u := default [] (adj_list g !! u) ++ [mkEdge v costs]]> (adj_list g) in
    let a2 := <[v := default [] (a1 !! v) ++ [mkEdge u costs]]> a1 in
    Returned {| node_count := node_count g;
                adj_list := a2;
                node_support_convert := node_support_convert g |}.

Definition setNodeConversion (g : Graph) (node : Z) (support : bool)
  : outcome Graph :=
  if (node <? 0) || (node >=? node_count g)
  then Thrown out_of_range
  else Returned {| node_count := node_count g;
                   adj_list := adj_list g;
                   node_support_convert :=
                     <[node := support]> (node_support_convert g) |}.

Definition calculateChannelCost (costs : list Z) (start_ch width : Z) : Z :=
  if start_ch + width >? CHANNELS then INF
  else fold_left (λ total i, int_add total (vget costs (start_ch + i)))
                 (upto (width - 1)) 0.

(** The locals of [findShortestPath]: [dist], [prev] and the queue of
    [(cost, node, start channel)] tuples. *)
Record Search := mkSearch {
  dist : gmap (Z * Z) Z;
  prev : gmap (Z * Z) (Z * Z);
  pq : list (Z * Z * Z)
}.

Definition dist_at (d : gmap (Z * Z) Z) (v c : Z) : Z :=
  default INF (d !! (v, c)).

Definition prev_at (p : gmap (Z * Z) (Z * Z)) (v c : Z) : Z * Z :=
  default (-1, -1) (p !! (v, c)).

(** [greater<tuple<int,int,int>>]: the least tuple in lexicographic order
    is on top. *)
Definition tuple_leb (x y : Z * Z * Z) : bool :=
  let '(c1, n1, s1) := x in
  let '(c2, n2, s2) := y in
  (c1 <? c2) || ((c1 =? c2) && ((n1 <? n2) || ((n1 =? n2) && (s1 <=? s2)))).

Fixpoint walk_back (fuel : nat) (p : gmap (Z * Z) (Z * Z))
    (current_node current_ch : Z) : option (list (Z * Z)) :=
  match fuel with
  | O => None
  | S fuel' =>
      if current_node =? -1 then Some []
      else
        let '(prev_node, prev_ch) := prev_at p current_node current_ch in
        match walk_back fuel' p prev_node prev_ch with
        | Some l => Some ((current_node, current_ch) :: l)
        | None => None
        end
  end.

Definition reconstructPath (fuel : nat) (p : gmap (Z * Z) (Z * Z))
    (source target target_ch cost : Z) : option (list (Z * Z) * Z) :=
  match walk_back fuel p target target_ch with
  | Some l => Some (reverse l, cost)
  | None => None
  end.

Section Query.
Variable g : Graph.
Variables source target channel_width : Z.

Definition init : Search :=
  fold_left
    (λ st start_ch,
       {| dist := <[(source, start_ch) := 0]> (dist st);
          prev := prev st;
          pq := pq_push (0, source, start_ch) (pq st) |})
    (upto (CHANNELS - channel_width))
    {| dist := ∅; prev := ∅; pq := [] |}.

Definition possible_start_channels (u u_start_ch : Z) : list Z :=
  if supports g u || (u =? source)
  then upto (CHANNELS - channel_width)
  else [u_start_ch].

(** Body of the innermost loop, for one candidate start channel. *)
Definition relax (current_cost u u_start_ch : Z) (edge : Edge)
    (st : Search) (v_start_ch : Z) : Search :=
  let v := to edge in
  let channel_cost :=
    calculateChannelCost (channel_costs edge) v_start_ch channel_width in
  if channel_cost =? INF then st
  else
    let new_cost := int_add current_cost channel_cost in
    if new_cost <? dist_at (dist st) v v_start_ch
    then {| dist := <[(v, v_start_ch) := new_cost]> (dist st);
            prev := <[(v, v_start_ch) := (u, u_start_ch)]> (prev st);
            pq := pq_push (new_cost, v, v_start_ch) (pq st) |}
    else st.

Definition expand_edge (current_cost u u_start_ch : Z) (st : Search)
    (edge : Edge) : Search :=
  fold_left (relax current_cost u u_start_ch edge)
            (possible_start_channels u u_start_ch) st.

Definition expand (current_cost u u_start_ch : Z) (st : Search) : Search :=
  fold_left (expand_edge current_cost u u_start_ch) (adj g u) st.

Fixpoint search (fuel0 fuel : nat) (st : Search)
  : option (list (Z * Z) * Z) :=
  match fuel with
  | O => None
  | S fuel' =>
      match pq_pop tuple_leb (pq st) with
      | None => Some ([], INF)
      | Some ((current_cost, u, u_start_ch), rest) =>
          if u =? target
          then reconstructPath fuel0 (prev st) source target
                               u_start_ch current_cost
          else
            let st' := {| dist := dist st; prev := prev st; pq := rest |} in
            if current_cost >? dist_at (dist st) u u_start_ch
            then search fuel0 fuel' st'
            else search fuel0 fuel' (expand current_cost u u_start_ch st')
      end
  end.

Definition findShortestPath (fuel : nat)
  : option (outcome (list (Z * Z) * Z)) :=
  if (channel_width <? 1) || (channel_width >? 3)
  then Some (Thrown invalid_argument)
  else if (source <? 0) || (source >=? node_count g)
          || (target <? 0) || (target >=? node_count g)
  then Some (Thrown out_of_range)
  else Returned <$> search fuel fuel init.
End Query.

End ChannelGraph.

(** ** ChannelGraph2.cpp

    [Edge], the graph, [addEdge], [setNodeConversion] and
    [calculateChannelCost] are textually those of ChannelGraph.cpp; this
    variant adds the [visited] marks and the checks of [reconstructPath]. *)
Module ChannelGraph2.

Abbreviation INF := ChannelGraph.INF.
Abbreviation Edge := ChannelGraph.Edge.
Abbreviation Graph := ChannelGraph.Graph.
Abbreviation adj := ChannelGraph.adj.
Abbreviation supports := ChannelGraph.supports.
Abbreviation addEdge := ChannelGraph.addEdge.
Abbreviation setNodeConversion := ChannelGraph.setNodeConversion.
Abbreviation calculateChannelCost := ChannelGraph.calculateChannelCost.
Abbreviation dist_at := ChannelGraph.dist_at.
Abbreviation prev_at := ChannelGraph.prev_at.
Abbreviation tuple_leb := ChannelGraph.tuple_leb.

Record Search := mkSearch {
  dist : gmap (Z * Z) Z;
  prev : gmap (Z * Z) (Z * Z);
  visited : gset (Z * Z);
  pq : list (Z * Z * Z)
}.

(** The [while (current_node != -1)] loop of [reconstructPath]; the list is
    the path before it is reversed, [None] inside [Some] is the
    [runtime_error] of a repeated node. *)
Fixpoint walk_back (fuel : nat) (p : gmap (Z * Z) (Z * Z))
    (visited_nodes : gset Z) (current_node current_ch : Z)
  : option (option (list (Z * Z))) :=
  match fuel with
  | O => None
  | S fuel' =>
      if current_node =? -1 then Some (Some [])
      else if decide (current_node ∈ visited_nodes) then Some None
      else
        let '(prev_node, prev_ch) := prev_at p current_node current_ch in
        match walk_back fuel' p ({[current_node]} ∪ visited_nodes)
                        prev_node prev_ch with
        | Some (Some l) => Some (Some ((current_node, current_ch) :: l))
        | Some None => Some None
        | None => None
        end
  end.

Definition reconstructPath (fuel : nat) (p : gmap (Z * Z) (Z * Z))
    (source target target_ch cost : Z)
  : option (outcome (list (Z * Z) * Z)) :=
  match walk_back fuel p ∅ target target_ch with
  | None => None
  | Some None => Some (Thrown runtime_error)
  | Some (Some l) =>
      match reverse l with
      | [] => Some Undefined
      | ((first, _) :: _) as path =>
          if negb (first =? source) then Some (Thrown runtime_error)
          else Some (Returned (path, cost))
      end
  end.

Section Query.
Variable g : Graph.
Variables source target channel_width : Z.

Definition init : Search :=
  fold_left
    (λ st start_ch,
       {| dist := <[(source, start_ch) := 0]> (dist st);
          prev := prev st;
          visited := visited st;
          pq := pq_push (0, source, start_ch) (pq st) |})
    (upto (CHANNELS - channel_width))
    {| dist := ∅; prev := ∅; visited := ∅; pq := [] |}.

Definition possible_start_channels (u u_start_ch : Z) : list Z :=
  if supports g u || (u =? source)
  then upto (CHANNELS - channel_width)
  else if u_start_ch <=? CHANNELS - channel_width then [u_start_ch] else [].

Definition relax (current_cost u u_start_ch : Z) (edge : Edge)
    (st : Search) (v_start_ch : Z) : Search :=
  let v := ChannelGraph.to edge in
  if decide ((v, v_start_ch) ∈ visited st) then st
  else
    let channel_cost :=
      calculateChannelCost (ChannelGraph.channel_costs edge) v_start_ch
                           channel_width in
    if channel_cost =? INF then st
    else
      let new_cost := int_add current_cost channel_cost in
      if new_cost <? dist_at (dist st) v v_start_ch
      then {| dist := <[(v, v_start_ch) := new_cost]> (dist st);
              prev := <[(v, v_start_ch) := (u, u_start_ch)]> (prev st);
              visited := visited st;
              pq := pq_push (new_cost, v, v_start_ch) (pq st) |}
      else st.

Definition expand_edge (current_cost u u_start_ch : Z) (st : Search)
    (edge : Edge) : Search :=
  fold_left (relax current_cost u u_start_ch edge)
            (possible_start_channels u u_start_ch) st.

Definition expand (current_cost u u_start_ch : Z) (st : Search) : Search :=
  fold_left (expand_edge current_cost u u_start_ch) (adj g u) st.

Fixpoint search (fuel0 fuel : nat) (st : Search)
  : option (outcome (list (Z * Z) * Z)) :=
  match fuel with
  | O => None
  | S fuel' =>
      match pq_pop tuple_leb (pq st) with
      | None => Some (Returned ([], INF))
      | Some ((current_cost, u, u_start_ch), rest) =>
          if decide ((u, u_start_ch) ∈ visited st)
          then search fuel0 fuel'
                 {| dist := dist st; prev := prev st;
                    visited := visited st; pq := rest |}
          else
            let st' := {| dist := dist st; prev := prev st;
                          visited := {[(u, u_start_ch)]} ∪ visited st;
                          pq := rest |} in
            if u =? target
            then reconstructPath fuel0 (prev st) source target
                                 u_start_ch current_cost
            else search fuel0 fuel' (expand current_cost u u_start_ch st')
      end
  end.

Definition findShortestPath (fuel : nat)
  : option (outcome (list (Z * Z) * Z)) :=
  if (channel_width <? 1) || (channel_width >? 3)
  then Some (Thrown invalid_argument)
  else if (source <? 0) || (source >=? ChannelGraph.node_count g)
          || (target <? 0) || (target >=? ChannelGraph.node_count g)
  then Some (Thrown out_of_range)
  else search fuel fuel init.
End Query.

End ChannelGraph2.

(** ** OptimizedEfficientGraph.cpp *)
Module OptimizedEfficientGraph.

Definition STATE_COUNT : Z := 101.

Record PrecomputedEdge := mkEdge {
  to : Z;
  single_costs : list Z;
  double_costs : list Z;
  triple_costs : list Z
}.

Definition getSegmentCost (e : PrecomputedEdge)
    (start_channel segment_size : Z) : Z :=
  if segment_size =? 1 then vget (single_costs e) start_channel
  else if segment_size =? 2 then vget (double_costs e) start_channel
  else if segment_size =? 3 then vget (triple_costs e) start_channel
  else INT_MAX.

Definition precomputeEdge (to : Z) (costs : list Z) : PrecomputedEdge :=
  {| to := to;
     single_costs := costs;
     double_costs :=
       map (λ i, int_add (vget costs i) (vget costs (i + 1)))
           (upto (CHANNELS - 1 - 1));
     triple_costs :=
       map (λ i, int_add (int_add (vget costs i) (vget costs (i + 1)))
                         (vget costs (i + 2)))
           (upto (CHANNELS - 2 - 1)) |}.

Record Graph := mkGraph {
  n : Z;
  supports_switch : gmap Z bool;
  adj : gmap Z (list PrecomputedEdge)
}.

Definition create (node_count : Z) : Graph :=
  {| n := node_count; supports_switch := ∅; adj := ∅ |}.

Definition adj_at (g : Graph) (u : Z) : list PrecomputedEdge :=
  default [] (adj g !! u).

Definition supports (g : Graph) (u : Z) : bool :=
  default false (supports_switch g !! u).

(** No check in this variant: [supports_switch[node_id]] out of bounds is
    undefined. *)
Definition setChannelSwitchSupport (g : Graph) (node_id : Z) (s : bool)
  : outcome Graph :=
  if (0 <=? node_id) && (node_id <? n g)
  then Returned {| n := n g;
                   supports_switch := <[node_id := s]> (supports_switch g);
                   adj := adj g |}
  else Undefined.

(** No check either: [copy] into the 100-element array needs exactly 100
    costs to leave it initialised and in bounds. *)
Definition addEdge (g : Graph) (u v : Z) (costs : list Z) : outcome Graph :=
  if (Z.of_nat (length costs) =? CHANNELS)
     && (0 <=? u) && (u <? n g) && (0 <=? v) && (v <? n g)
  then
    let a1 := <[u := default [] (adj g !! u) ++ [precomputeEdge v costs]]> (adj g) in
    let a2 := <[v := default [] (a1 !! v) ++ [precomputeEdge u costs]]> a1 in
    Returned {| n := n g; supports_switch := supports_switch g; adj := a2 |}
  else Undefined.

Record Search := mkSearch {
  dist : gmap Z Z;
  pq : list (Z * Z)
}.

Definition dist_at (d : gmap Z Z) (s : Z) : Z := default INT_MAX (d !! s).

(** [greater<pair<int,int>>] *)
Definition pair_leb (x y : Z * Z) : bool :=
  (x.1 <? y.1) || ((x.1 =? y.1) && (x.2 <=? y.2)).

(** The candidates [(new_state, new_cost)] of the double loop that starts a
    new segment on [edge], in the order the loop meets them. *)
Definition start_segments (edge : PrecomputedEdge) (cost : Z)
  : list (Z * Z) :=
  flat_map
    (λ seg_size,
       map (λ start,
              let segment_cost := getSegmentCost edge start seg_size in
              let new_channel := start + seg_size - 1 in
              (to edge * STATE_COUNT + new_channel,
               int_add cost segment_cost))
           (upto (CHANNELS - seg_size)))
    [1; 2; 3].

(** The candidate that continues the running sequence by one channel. *)
Definition continue_segment (edge : PrecomputedEdge) (channel cost : Z)
  : list (Z * Z) :=
  if channel <? CHANNELS - 1
  then
    let next_channel := channel + 1 in
    let channel_cost := vget (single_costs edge) next_channel in
    [(to edge * STATE_COUNT + next_channel, int_add cost channel_cost)]
  else [].

Section Query.
Variable g : Graph.
Variables source target : Z.

(** All the candidates tried over [edge] from [(u, channel)], in order. *)
Definition transitions (u channel cost : Z) (edge : PrecomputedEdge)
  : list (Z * Z) :=
  if channel =? 100 then start_segments edge cost
  else
    continue_segment edge channel cost
    ++ (if supports g u || (channel >=? CHANNELS - 1)
        then start_segments edge cost else []).

(** [if (new_cost < dist[new_state]) { dist[new_state] = new_cost; push }] *)
Definition relax (st : Search) (cand : Z * Z) : Search :=
  let '(new_state, new_cost) := cand in
  if new_cost <? dist_at (dist st) new_state
  then {| dist := <[new_state := new_cost]> (dist st);
          pq := pq_push (new_cost, new_state) (pq st) |}
  else st.

Definition expand (u channel cost : Z) (st : Search) : Search :=
  fold_left (λ st edge, fold_left relax (transitions u channel cost edge) st)
            (adj_at g u) st.

Fixpoint search (fuel : nat) (st : Search) : option Z :=
  match fuel with
  | O => None
  | S fuel' =>
      match pq_pop pair_leb (pq st) with
      | None => Some (-1)
      | Some ((cost, state_id), rest) =>
          let st' := {| dist := dist st; pq := rest |} in
          if cost >? dist_at (dist st) state_id then search fuel' st'
          else
            let u := Z.quot state_id STATE_COUNT in
            let channel := Z.rem state_id STATE_COUNT in
            if (u =? target) && negb (channel =? 100) then Some cost
            else search fuel' (expand u channel cost st')
      end
  end.

Definition findMinCost (fuel : nat) : option Z :=
  let start_state := source * STATE_COUNT + 100 in
  search fuel {| dist := <[start_state := 0]> ∅;
                 pq := pq_push (0, start_state) [] |}.
End Query.

End OptimizedEfficientGraph.

(** ** OptimizedEfficientGraph1.cpp *)
Module OptimizedEfficientGraph1.

Definition STATE_COUNT : Z := 101.

Record Edge := mkEdge { to : Z; costs : list Z }.

Definition getSegmentCost (e : Edge) (start_channel segment_size : Z) : Z :=
  fold_left (λ total i, int_add total (vget (costs e) (start_channel + i)))
            (upto (segment_size - 1)) 0.

Record Graph := mkGraph {
  n : Z;
  supports_switch : gmap Z bool;
  adj : gmap Z (list Edge)
}.

Definition create (node_count : Z) : Graph :=
  {| n := node_count; supports_switch := ∅; adj := ∅ |}.

Definition adj_at (g : Graph) (u : Z) : list Edge := default [] (adj g !! u).

Definition supports (g : Graph) (u : Z) : bool :=
  default false (supports_switch g !! u).

Definition setChannelSwitchSupport (g : Graph) (node_id : Z) (s : bool)
  : Graph :=
  if (node_id >=? 0) && (node_id <? n g)
  then {| n := n g;
          supports_switch := <[node_id := s]> (supports_switch g);
          adj := adj g |}
  else g.

Definition addEdge (g : Graph) (u v : Z) (cost_vector : list Z)
  : outcome Graph :=
  if negb (Z.of_nat (length cost_vector) =? CHANNELS)
  then Thrown invalid_argument
  else if (0 <=? u) && (u <? n g) && (0 <=? v) && (v <? n g)
  then
    let a1 := <[u := default [] (adj g !! u) ++ [mkEdge v cost_vector]]> (adj g) in
    let a2 := <[v := default [] (a1 !! v) ++ [mkEdge u cost_vector]]> a1 in
    Returned {| n := n g; supports_switch := supports_switch g; adj := a2 |}
  else Undefined.

Record PathState := mkPathState {
  cost : Z;
  state : Z;
  prev_state : Z;
  start_channel : Z
}.

(** [PathState::operator>] compares the costs only. *)
Definition path_leb (x y : PathState) : bool := cost x <=? cost y.

(** The locals of [findMinCostPath]. *)
Record Search := mkSearch {
  dist : gmap Z Z;
  prev_states : gmap Z Z;
  start_channels : gmap Z Z;
  pq : list PathState;
  min_cost : Z;
  best_final_state : Z
}.

Definition dist_at (d : gmap Z Z) (s : Z) : Z := default INT_MAX (d !! s).
Definition link_at (p : gmap Z Z) (s : Z) : Z := default (-1) (p !! s).

Definition with_pq (st : Search) (q : list PathState) : Search :=
  {| dist := dist st; prev_states := prev_states st;
     start_channels := start_channels st; pq := q;
     min_cost := min_cost st; best_final_state := best_final_state st |}.

(** [if (new_cost < dist[new_state]) { dist[new_state] = new_cost; push }] *)
Definition relax (st : Search) (p : PathState) : Search :=
  if cost p <? dist_at (dist st) (state p)
  then {| dist := <[state p := cost p]> (dist st);
          prev_states := prev_states st;
          start_channels := start_channels st;
          pq := pq_push p (pq st);
          min_cost := min_cost st;
          best_final_state := best_final_state st |}
  else st.

Fixpoint walk_back (fuel : nat) (prev_state_v start_channel_v : gmap Z Z)
    (current_state : Z) : option (list (Z * Z)) :=
  match fuel with
  | O => None
  | S fuel' =>
      if current_state =? -1 then Some []
      else
        let node := Z.quot current_state STATE_COUNT in
        let channel_start := link_at start_channel_v current_state in
        match walk_back fuel' prev_state_v start_channel_v
                        (link_at prev_state_v current_state) with
        | Some l => Some ((node, channel_start) :: l)
        | None => None
        end
  end.

Definition reconstructPath (fuel : nat) (final_state : Z)
    (prev_state_v start_channel_v : gmap Z Z) (source target : Z)
  : option (list (Z * Z)) :=
  if final_state =? -1 then Some []
  else
    match walk_back fuel prev_state_v start_channel_v final_state with
    | Some reverse_path =>
        Some (map (λ '(node, channel),
                     if (node =? source) || (node =? target)
                     then (node, -1) else (node, channel))
                  (reverse reverse_path))
    | None => None
    end.

Section Query.
Variable g : Graph.
Variables source target : Z.

Definition start_segments (current : PathState) (edge : Edge) (st : Search)
  : Search :=
  fold_left
    (λ st seg_size,
       fold_left
         (λ st start,
            let segment_cost := getSegmentCost edge start seg_size in
            let new_cost := int_add (cost current) segment_cost in
            if new_cost >=? min_cost st then st
            else
              let new_channel := start + seg_size - 1 in
              let new_state := to edge * STATE_COUNT + new_channel in
              relax st (mkPathState new_cost new_state (state current) start))
         (upto (CHANNELS - seg_size)) st)
    [1; 2; 3] st.

Definition continue_segment (current : PathState) (current_channel : Z)
    (edge : Edge) (st : Search) : Search :=
  if current_channel <? CHANNELS - 1
  then
    let next_channel := current_channel + 1 in
    let channel_cost := vget (costs edge) next_channel in
    let new_cost := int_add (cost current) channel_cost in
    if new_cost <? min_cost st
    then
      let new_state := to edge * STATE_COUNT + next_channel in
      let continued_start_channel :=
        if start_channel current =? -1 then current_channel
        else start_channel current in
      relax st (mkPathState new_cost new_state (state current)
                            continued_start_channel)
    else st
  else st.

Definition expand_edge (current : PathState) (u channel : Z) (st : Search)
    (edge : Edge) : Search :=
  if channel =? 100 then start_segments current edge st
  else
    let st1 := continue_segment current channel edge st in
    let can_restart := supports g u || (channel >=? CHANNELS - 1) in
    if can_restart then start_segments current edge st1 else st1.

(** "Record the predecessor on the first arrival". *)
Definition record_predecessor (current : PathState) (st : Search) : Search :=
  if negb (prev_state current =? -1)
     && (link_at (prev_states st) (state current) =? -1)
  then {| dist := dist st;
          prev_states := <[state current := prev_state current]> (prev_states st);
          start_channels :=
            <[state current := start_channel current]> (start_channels st);
          pq := pq st; min_cost := min_cost st;
          best_final_state := best_final_state st |}
  else st.

Fixpoint search (fuel : nat) (st : Search) : option Search :=
  match fuel with
  | O => None
  | S fuel' =>
      match pq_pop path_leb (pq st) with
      | None => Some st
      | Some (current, rest) =>
          let st' := with_pq st rest in
          if cost current >? dist_at (dist st) (state current)
          then search fuel' st'
          else if cost current >? min_cost st then search fuel' st'
          else
            let u := Z.quot (state current) STATE_COUNT in
            let channel := Z.rem (state current) STATE_COUNT in
            let st1 := record_predecessor current st' in
            if (u =? target) && negb (channel =? 100)
            then
              if cost current <? min_cost st1
              then search fuel'
                     {| dist := dist st1; prev_states := prev_states st1;
                        start_channels := start_channels st1; pq := pq st1;
                        min_cost := cost current;
                        best_final_state := state current |}
              else search fuel' st1
            else search fuel' (fold_left (expand_edge current u channel)
                                         (adj_at g u) st1)
      end
  end.

Definition findMinCostPath (fuel : nat) : option (list (Z * Z)) :=
  let start_state := source * STATE_COUNT + 100 in
  match search fuel
          {| dist := <[start_state := 0]> ∅; prev_states := ∅;
             start_channels := ∅;
             pq := pq_push (mkPathState 0 start_state (-1) (-1)) [];
             min_cost := INT_MAX; best_final_state := -1 |} with
  | Some st =>
      reconstructPath fuel (best_final_state st) (prev_states st)
                      (start_channels st) source target
  | None => None
  end.
End Query.

End OptimizedEfficientGraph1.

(** ** OptimizedEfficientGraph3.cpp *)
Module OptimizedEfficientGraph3.

Record Edge := mkEdge { to : Z; costs : list Z }.

Definition getSegmentCost (e : Edge) (start_channel segment_size : Z) : Z :=
  fold_left (λ total i, int_add total (vget (costs e) (start_channel + i)))
            (upto (segment_size - 1)) 0.

Record Graph := mkGraph {
  n : Z;
  supports_switch : gmap Z bool;
  adj : gmap Z (list Edge)
}.

(** [OptimizedEfficientGraph(int node_count)] *)
Definition create (node_count : Z) : Graph :=
  {| n := node_count; supports_switch := ∅; adj := ∅ |}.

Definition adj_at (g : Graph) (u : Z) : list Edge := default [] (adj g !! u).

Definition supports (g : Graph) (u : Z) : bool :=
  default false (supports_switch g !! u).

Record State := mkState {
  cost : Z;
  node : Z;
  channel : Z;
  consecutive : Z;
  visited : gset Z
}.

Definition setChannelSwitchSupport (g : Graph) (node_id : Z) (s : bool)
  : Graph :=
  if (node_id >=? 0) && (node_id <? n g)
  then {| n := n g;
          supports_switch := <[node_id := s]> (supports_switch g);
          adj := adj g |}
  else g.

Definition addEdge (g : Graph) (u v : Z) (cost_vector : list Z)
  : outcome Graph :=
  if negb (Z.of_nat (length cost_vector) =? CHANNELS)
  then Thrown invalid_argument
  else if (0 <=? u) && (u <? n g) && (0 <=? v) && (v <? n g)
  then
    let a1 := <[u := default [] (adj g !! u) ++ [mkEdge v cost_vector]]> (adj g) in
    let a2 := <[v := default [] (a1 !! v) ++ [mkEdge u cost_vector]]> a1 in
    Returned {| n := n g; supports_switch := supports_switch g; adj := a2 |}
  else Undefined.

(** [State::operator>] compares the costs only. *)
Definition state_leb (x y : State) : bool := cost x <=? cost y.

(** The locals of [findMinCostPath]. *)
Record Search := mkSearch {
  pq : list State;
  min_cost : Z;
  best_state : option State;
  best_predecessor : gmap Z State
}.

Definition state_key (v ch cons : Z) : Z := v * 1000 + ch * 10 + cons.

Section Query.
Variable g : Graph.
Variables source target : Z.

(** Push the state reached over [edge] and record [current] as the
    predecessor of its key. *)
Definition push_state (current : State) (v new_cost ch cons : Z)
    (st : Search) : Search :=
  {| pq := pq_push (mkState new_cost v ch cons ({[v]} ∪ visited current))
                   (pq st);
     min_cost := min_cost st;
     best_state := best_state st;
     best_predecessor :=
       <[state_key v ch cons := current]> (best_predecessor st) |}.

(** The two nested loops over [seg_size] and [start]. *)
Definition start_segments (current : State) (edge : Edge) (st : Search)
  : Search :=
  fold_left
    (λ st seg_size,
       fold_left
         (λ st start,
            let segment_cost := getSegmentCost edge start seg_size in
            let new_cost := int_add (cost current) segment_cost in
            if new_cost >=? min_cost st then st
            else push_state current (to edge) new_cost
                            (start + seg_size - 1) seg_size st)
         (upto (CHANNELS - seg_size)) st)
    [1; 2; 3] st.

Definition continue_segment (current : State) (edge : Edge) (st : Search)
  : Search :=
  let current_channel := channel current in
  if (current_channel <? CHANNELS - 1) && (consecutive current <? MAX_SEGMENTS)
  then
    let next_channel := current_channel + 1 in
    let channel_cost := vget (costs edge) next_channel in
    let new_cost := int_add (cost current) channel_cost in
    if new_cost <? min_cost st
    then push_state current (to edge) new_cost next_channel
                    (consecutive current + 1) st
    else st
  else st.

Definition expand_edge (current : State) (st : Search) (edge : Edge)
  : Search :=
  let v := to edge in
  if decide (v ∈ visited current) then st
  else if channel current =? -1 then start_segments current edge st
  else
    let st1 := continue_segment current edge st in
    let can_restart :=
      supports g (node current)
      || (channel current >=? CHANNELS - 1)
      || (consecutive current =? MAX_SEGMENTS) in
    if can_restart then start_segments current edge st1 else st1.

Fixpoint search (fuel : nat) (st : Search) : option Search :=
  match fuel with
  | O => None
  | S fuel' =>
      match pq_pop state_leb (pq st) with
      | None => Some st
      | Some (current, rest) =>
          let st' := {| pq := rest; min_cost := min_cost st;
                        best_state := best_state st;
                        best_predecessor := best_predecessor st |} in
          if cost current >? min_cost st then search fuel' st'
          else if node current =? target then
            if cost current <? min_cost st
            then search fuel'
                   {| pq := rest; min_cost := cost current;
                      best_state := Some current;
                      best_predecessor := best_predecessor st |}
            else search fuel' st'
          else search fuel' (fold_left (expand_edge current)
                                       (adj_at g (node current)) st')
      end
  end.

(** The [while (current)] loop: the states from the final one back. *)
Fixpoint trace_back (fuel : nat) (predecessor : gmap Z State)
    (current : State) : option (list State) :=
  match fuel with
  | O => None
  | S fuel' =>
      if node current =? source then Some [current]
      else
        match predecessor !! state_key (node current) (channel current)
                                       (consecutive current) with
        | None => Some [current]
        | Some p =>
            match trace_back fuel' predecessor p with
            | Some l => Some (current :: l)
            | None => None
            end
        end
  end.

Definition path_entry (state : State) : Z * Z :=
  let start_channel :=
    if negb (channel state =? -1)
    then channel state - consecutive state + 1
    else -1 in
  if (node state =? source) || (node state =? target)
  then (node state, -1)
  else (node state, start_channel).

Definition reconstructPath (fuel : nat) (final_state : option State)
    (predecessor : gmap Z State) : option (list (Z * Z)) :=
  match final_state with
  | None => Some []
  | Some final =>
      match trace_back fuel predecessor final with
      | Some reverse_states => Some (map path_entry (reverse reverse_states))
      | None => None
      end
  end.

Definition findMinCostPath (fuel : nat) : option (list (Z * Z)) :=
  if source =? target then Some [(source, -1)]
  else
    let start := mkState 0 source (-1) 0 {[source]} in
    match search fuel {| pq := pq_push start []; min_cost := INT_MAX;
                         best_state := None; best_predecessor := ∅ |} with
    | Some st => reconstructPath fuel (best_state st) (best_predecessor st)
    | None => None
    end.
End Query.

(** The loop of [validatePath] over the entries, with the set of the nodes
    met so far. *)
Fixpoint nodes_distinct (visited_nodes : gset Z) (path : list (Z * Z))
  : bool :=
  match path with
  | [] => true
  | p :: rest =>
      if decide (p.1 ∈ visited_nodes) then false
      else nodes_distinct ({[p.1]} ∪ visited_nodes) rest
  end.

(** [validatePath], the check the tests run on a returned path (what it
    prints is left out). *)
Definition validatePath (path : list (Z * Z)) (source target : Z) : bool :=
  match path with
  | [] => false
  | front :: _ =>
      if negb (front.1 =? source) then false
      else
        match last path with
        | Some back =>
            if negb (back.1 =? target) then false
            else nodes_distinct ∅ path
        | None => false
        end
  end.

End OptimizedEfficientGraph3.

(** * The searches over the integers

    [findShortestPath] of ChannelGraph.cpp and of ChannelGraph2.cpp once
    more, with the sums taken in [Z]: what the loops compute as long as no
    sum leaves the range of [int]. The invariants of the loops are stated
    and proved on these; the lemmas [cg_exact] and [cg2_exact] below carry
    them over to the code on the graphs whose costs are [modest]. *)
Module ChannelGraphExact.
Import ChannelGraph.

Definition calculateChannelCost (costs : list Z) (start_ch width : Z) : Z :=
  if start_ch + width >? CHANNELS then INF
  else fold_left (λ total i, total + vget costs (start_ch + i))
                 (upto (width - 1)) 0.

Section Query.
Variable g : Graph.
Variables source target channel_width : Z.

Definition relax (current_cost u u_start_ch : Z) (edge : Edge)
    (st : Search) (v_start_ch : Z) : Search :=
  let v := to edge in
  let channel_cost :=
    calculateChannelCost (channel_costs edge) v_start_ch channel_width in
  if channel_cost =? INF then st
  else
    let new_cost := current_cost + channel_cost in
    if new_cost <? dist_at (dist st) v v_start_ch
    then {| dist := <[(v, v_start_ch) := new_cost]> (dist st);
            prev := <[(v, v_start_ch) := (u, u_start_ch)]> (prev st);
            pq := pq_push (new_cost, v, v_start_ch) (pq st) |}
    else st.

Definition expand_edge (current_cost u u_start_ch : Z) (st : Search)
    (edge : Edge) : Search :=
  fold_left (relax current_cost u u_start_ch edge)
            (possible_start_channels g source channel_width u u_start_ch) st.

Definition expand (current_cost u u_start_ch : Z) (st : Search) : Search :=
  fold_left (expand_edge current_cost u u_start_ch) (adj g u) st.

Fixpoint search (fuel0 fuel : nat) (st : Search)
  : option (list (Z * Z) * Z) :=
  match fuel with
  | O => None
  | S fuel' =>
      match pq_pop tuple_leb (pq st) with
      | None => Some ([], INF)
      | Some ((current_cost, u, u_start_ch), rest) =>
          if u =? target
          then reconstructPath fuel0 (prev st) source target
                               u_start_ch current_cost
          else
            let st' := {| dist := dist st; prev := prev st; pq := rest |} in
            if current_cost >? dist_at (dist st) u u_start_ch
            then search fuel0 fuel' st'
            else search fuel0 fuel' (expand current_cost u u_start_ch st')
      end
  end.

Definition findShortestPath (fuel : nat)
  : option (outcome (list (Z * Z) * Z)) :=
  if (channel_width <? 1) || (channel_width >? 3)
  then Some (Thrown invalid_argument)
  else if (source <? 0) || (source >=? node_count g)
          || (target <? 0) || (target >=? node_count g)
  then Some (Thrown out_of_range)
  else Returned <$> search fuel fuel (init source channel_width).
End Query.

End ChannelGraphExact.

Module ChannelGraph2Exact.
Import ChannelGraph2.

Abbreviation calculateChannelCost := ChannelGraphExact.calculateChannelCost.

Section Query.
Variable g : Graph.
Variables source target channel_width : Z.

Definition relax (current_cost u u_start_ch : Z) (edge : Edge)
    (st : Search) (v_start_ch : Z) : Search :=
  let v := ChannelGraph.to edge in
  if decide ((v, v_start_ch) ∈ visited st) then st
  else
    let channel_cost :=
      calculateChannelCost (ChannelGraph.channel_costs edge) v_start_ch
                           channel_width in
    if channel_cost =? INF then st
    else
      let new_cost := current_cost + channel_cost in
      if new_cost <? dist_at (dist st) v v_start_ch
      then {| dist := <[(v, v_start_ch) := new_cost]> (dist st);
              prev := <[(v, v_start_ch) := (u, u_start_ch)]> (prev st);
              visited := visited st;
              pq := pq_push (new_cost, v, v_start_ch) (pq st) |}
      else st.

Definition expand_edge (current_cost u u_start_ch : Z) (st : Search)
    (edge : Edge) : Search :=
  fold_left (relax current_cost u u_start_ch edge)
            (possible_start_channels g source channel_width u u_start_ch) st.

Definition expand (current_cost u u_start_ch : Z) (st : Search) : Search :=
  fold_left (expand_edge current_cost u u_start_ch) (adj g u) st.

Fixpoint search (fuel0 fuel : nat) (st : Search)
  : option (outcome (list (Z * Z) * Z)) :=
  match fuel with
  | O => None
  | S fuel' =>
      match pq_pop tuple_leb (pq st) with
      | None => Some (Returned ([], INF))
      | Some ((current_cost, u, u_start_ch), rest) =>
          if decide ((u, u_start_ch) ∈ visited st)
          then search fuel0 fuel'
                 {| dist := dist st; prev := prev st;
                    visited := visited st; pq := rest |}
          else
            let st' := {| dist := dist st; prev := prev st;
                          visited := {[(u, u_start_ch)]} ∪ visited st;
                          pq := rest |} in
            if u =? target
            then reconstructPath fuel0 (prev st) source target
                                 u_start_ch current_cost
            else search fuel0 fuel' (expand current_cost u u_start_ch st')
      end
  end.

Definition findShortestPath (fuel : nat)
  : option (outcome (list (Z * Z) * Z)) :=
  if (channel_width <? 1) || (channel_width >? 3)
  then Some (Thrown invalid_argument)
  else if (source <? 0) || (source >=? ChannelGraph.node_count g)
          || (target <? 0) || (target >=? ChannelGraph.node_count g)
  then Some (Thrown out_of_range)
  else search fuel fuel (init source channel_width).
End Query.

End ChannelGraph2Exact.

(** * Vocabulary of the specification and invariants of the loops *)

(** ** For ChannelGraph.cpp *)
Module ChannelGraphSpec.
Import ChannelGraph.
Import ChannelGraphExact.

Definition set_pq (st : Search) (q : list (Z * Z * Z)) : Search :=
  {| dist := dist st; prev := prev st; pq := q |}.

(** Every start channel in the queue or in [prev] leaves room for the
    requested width. *)
Definition channels_in_range (w : Z) (st : Search) : Prop :=
  (∀ k v c, (k, v, c) ∈ pq st → 0 ≤ c ≤ CHANNELS - w) ∧
  (∀ v c u cu, prev st !! (v, c) = Some (u, cu) →
               0 ≤ c ≤ CHANNELS - w ∧ 0 ≤ cu ≤ CHANNELS - w).

(** A predecessor that neither converts nor is the source hands its own start
    channel on. *)
Definition continuity (g : Graph) (source : Z) (st : Search) : Prop :=
  ∀ v c u cu, prev st !! (v, c) = Some (u, cu) →
              supports g u = true ∨ u = source ∨ c = cu.

(** Graphs as the constructor and [addEdge] build them: every edge leads to
    a node of the graph and carries one cost per channel. *)
Definition well_formed (g : Graph) : Prop :=
  ∀ u e, e ∈ adj g u →
         0 ≤ to e < node_count g ∧
         Z.of_nat (length (channel_costs e)) = CHANNELS.

(** No channel has a negative cost. *)
Definition nonnegative (g : Graph) : Prop :=
  ∀ u e, e ∈ adj g u → Forall (λ c, 0 ≤ c) (channel_costs e).

(** The number of states of the search, and one more, times the three
    channels of the widest segment. *)
Definition limit (g : Graph) : Z := 3 * (node_count g * CHANNELS + 1).

(** What a segment may cost at most on a [modest] graph. *)
Definition hop (g : Graph) : Z := 3 * (INT_MAX / limit g).

(** Costs that keep every sum of the search inside the range of [int]: no
    cost is negative, and none is above [INT_MAX / limit g], so that a path
    through all the states of the search still costs less than [INT_MAX]. *)
Definition modest (g : Graph) : Prop :=
  ∀ u e, e ∈ adj g u →
         Forall (λ c, 0 ≤ c ≤ INT_MAX / limit g) (channel_costs e).

(** [path_cost g w path total]: [total] is the sum, over the consecutive
    entries [(u, _)], [(v, c)] of [path], of the cost of the [w] channels from
    [c] on an edge from [u] to [v]. *)
Inductive path_cost (g : Graph) (w : Z) : list (Z * Z) → Z → Prop :=
| path_cost_one x : path_cost g w [x] 0
| path_cost_snoc p u cu v c e total :
    path_cost g w (p ++ [(u, cu)]) total →
    e ∈ adj g u → to e = v →
    path_cost g w (p ++ [(u, cu); (v, c)])
              (total
               + ChannelGraphExact.calculateChannelCost (channel_costs e) c w).

(** The same with the segment cost worded as the specification does: the
    sum of the [w] per-channel costs from the start channel. *)
Inductive path_sum (g : Graph) (w : Z) : list (Z * Z) → Z → Prop :=
| path_sum_one x : path_sum g w [x] 0
| path_sum_snoc p u cu v c e total :
    path_sum g w (p ++ [(u, cu)]) total →
    e ∈ adj g u → to e = v →
    path_sum g w (p ++ [(u, cu); (v, c)])
             (total + segment_sum (channel_costs e) c w).

(** The label-setting invariant: [L] is the cost of the last tuple popped. *)
Record settled (g : Graph) (source target w : Z) (L : Z) (st : Search)
  : Prop := {
  settled_queue : ∀ k v c, (k, v, c) ∈ pq st →
    L ≤ k ∧ dist_at (dist st) v c ≤ k ∧ k < INF ∧ 0 ≤ v;
  settled_prev : ∀ v c u cu, prev st !! (v, c) = Some (u, cu) →
    u ≠ -1 ∧ dist_at (dist st) u cu ≤ L ∧
    ∃ e, e ∈ adj g u ∧ to e = v ∧
         dist_at (dist st) v c =
           dist_at (dist st) u cu + calculateChannelCost (channel_costs e) c w;
  settled_root : ∀ v c, prev st !! (v, c) = None →
    dist_at (dist st) v c = INF ∨ (v = source ∧ dist_at (dist st) v c = 0);
  settled_low : 0 ≤ L;
  settled_target : ∀ c,
    dist_at (dist st) target c = INF ∨
    (dist_at (dist st) target c, target, c) ∈ pq st;
  settled_bound : ∀ v c, dist_at (dist st) v c ≤ INF
}.

(** [walk g w s v c]: some sequence of edges leads from [s] to [v], each
    edge carrying [w] channels from a start channel inside the spectrum, the
    last one from [c], and the start channel changes only at nodes that
    convert. *)
Inductive walk (g : Graph) (w s : Z) : Z → Z → Prop :=
| walk_first e c :
    e ∈ adj g s → 0 ≤ c ≤ CHANNELS - w → walk g w s (to e) c
| walk_step u cu e c :
    walk g w s u cu → e ∈ adj g u → 0 ≤ c ≤ CHANNELS - w →
    supports g u = true ∨ c = cu →
    walk g w s (to e) c.

Definition connected (g : Graph) (w s t : Z) : Prop :=
  s = t ∨ ∃ c, walk g w s t c.

Definition zsum (f : Z → Z) (l : list Z) : Z := foldr (λ x a, f x + a) 0 l.

(** The sum of all the entries of [dist]. *)
Definition total_dist (node_count : Z) (d : gmap (Z * Z) Z) : Z :=
  zsum (λ v, zsum (λ c, dist_at d v c) (upto (CHANNELS - 1)))
       (upto (node_count - 1)).

(** The quantity every turn of the loop decreases. *)
Definition potential (node_count : Z) (st : Search) : Z :=
  2 * total_dist node_count (dist st) + Z.of_nat (length (pq st)).

(** What the queue holds was reached along a [walk]. *)
Record exploring (g : Graph) (source w : Z) (st : Search) : Prop := {
  exploring_dist : ∀ v c, 0 ≤ dist_at (dist st) v c;
  exploring_queue : ∀ k v c, (k, v, c) ∈ pq st →
    0 ≤ k ∧ 0 ≤ c ≤ CHANNELS - w ∧ (v = source ∨ walk g w source v c)
}.

(** The labels of the source are never improved, so no state of the source
    gets a predecessor. *)
Definition rooted (source w : Z) (st : Search) : Prop :=
  (∀ c, prev st !! (source, c) = None) ∧
  (∀ c, 0 ≤ c ≤ CHANNELS - w → dist_at (dist st) source c ≤ 0).

(** The order in which the states were expanded: [rank] numbers them, [n] is
    the next number. A predecessor was expanded before its successor, and
    the label of an expanded state is final. *)
Record ranked (L : Z) (rank : gmap (Z * Z) nat) (n : nat) (st : Search)
  : Prop := {
  ranked_prev : ∀ v c u cu, prev st !! (v, c) = Some (u, cu) →
    ∃ r, rank !! (u, cu) = Some r ∧
         ∀ r', rank !! (v, c) = Some r' → (r < r')%nat;
  ranked_dist : ∀ v c r, rank !! (v, c) = Some r →
    dist_at (dist st) v c ≤ L ∧ (r < n)%nat
}.

(** All the invariants the termination of the query rests on; [P0] bounds
    the number of turns of the loop. *)
Definition progressing (g : Graph) (source target w : Z) (P0 : Z)
    (st : Search) : Prop :=
  ∃ L rank n,
    settled g source target w L st ∧
    exploring g source w st ∧
    ranked L rank n st ∧
    Z.of_nat n + potential (node_count g) st ≤ P0.

(** The same while the neighbours of the popped state [(u, ch)], of label
    [c], are relaxed; [B] bounds the potential. *)
Definition expanding (g : Graph) (source target w : Z) (c u ch : Z) (B : Z)
    (rank : gmap (Z * Z) nat) (n : nat) (st : Search) : Prop :=
  (settled g source target w c st ∧ dist_at (dist st) u ch = c) ∧
  (exploring g source w st ∧ potential (node_count g) st ≤ B) ∧
  ranked c rank n st ∧
  is_Some (rank !! (u, ch)) ∧
  0 ≤ c ∧ 0 ≤ u ∧ 0 ≤ ch ≤ CHANNELS - w ∧
  (u = source ∨ walk g w source u ch).

End ChannelGraphSpec.

(** ** For ChannelGraph2.cpp *)
Module ChannelGraph2Spec.
Import ChannelGraph2.
Import ChannelGraph2Exact.
Import ChannelGraphSpec.

Definition forget (st : Search) : ChannelGraph.Search :=
  {| ChannelGraph.dist := dist st;
     ChannelGraph.prev := prev st;
     ChannelGraph.pq := pq st |}.

Definition pop_stale (st : Search) (rest : list (Z * Z * Z)) : Search :=
  {| dist := dist st; prev := prev st; visited := visited st; pq := rest |}.

Definition pop_fresh (st : Search) (u ch : Z) (rest : list (Z * Z * Z))
  : Search :=
  {| dist := dist st; prev := prev st;
     visited := {[(u, ch)]} ∪ visited st; pq := rest |}.

(** A state without mark is either unlabelled or waiting in the queue with
    its label; the target is never marked. *)
Definition fresh (target : Z) (vis : gset (Z * Z)) (st : ChannelGraph.Search)
  : Prop :=
  (∀ v c, (v, c) ∉ vis →
          dist_at (ChannelGraph.dist st) v c = INF ∨
          (dist_at (ChannelGraph.dist st) v c, v, c) ∈ ChannelGraph.pq st) ∧
  (∀ v c, (v, c) ∈ vis → v ≠ target).

(** The invariants of the loop of ChannelGraph.cpp, with the marks. *)
Definition labelled (g : Graph) (source target w : Z) (L : Z) (st : Search)
  : Prop :=
  settled g source target w L (forget st) ∧
  fresh target (visited st) (forget st).

End ChannelGraph2Spec.

(** ** Least cost *)
Module ShortestPathSpec.
Import ChannelGraph.
Import ChannelGraphExact.
Import ChannelGraphSpec.

(** [route g w s v c D]: a sequence of edges from [s] to [v] that the
    connection may take, and what it costs. Every edge carries [w] channels
    from a start channel inside the spectrum, the last one from [c]; the
    start channel of the first edge is free, afterwards it changes only at
    nodes that convert; [D] adds up, over the integers, the cost of the
    segment on every edge ([ChannelGraphExact.calculateChannelCost]). *)
Inductive route (g : Graph) (w s : Z) : Z → Z → Z → Prop :=
| route_first e c :
    e ∈ adj g s → 0 ≤ c ≤ CHANNELS - w →
    route g w s (to e) c
          (ChannelGraphExact.calculateChannelCost (channel_costs e) c w)
| route_step u cu D e c :
    route g w s u cu D → e ∈ adj g u → 0 ≤ c ≤ CHANNELS - w →
    supports g u = true ∨ c = cu →
    route g w s (to e) c
          (D + ChannelGraphExact.calculateChannelCost (channel_costs e) c w).

(** What waits in the queue was reached along a [route] of that cost. *)
Definition routed (g : Graph) (source w : Z) (st : Search) : Prop :=
  ∀ k v c, (k, v, c) ∈ pq st →
           (v = source ∧ k = 0) ∨ (v ≠ source ∧ route g w source v c k).

(** Every state is expanded already, or unlabelled, or waiting in the queue
    with its label. *)
Definition covered (expanded : gset (Z * Z)) (st : Search) : Prop :=
  ∀ v c, (v, c) ∈ expanded ∨ dist_at (dist st) v c = INF ∨
         (dist_at (dist st) v c, v, c) ∈ pq st.

(** The label of an expanded state is final, and no edge out of it leads to
    a label it could still improve. *)
Definition relaxed (g : Graph) (source target w : Z) (L : Z)
    (expanded : gset (Z * Z)) (st : Search) : Prop :=
  ∀ v c, (v, c) ∈ expanded →
    v ≠ target ∧ dist_at (dist st) v c ≤ L ∧
    ∀ e c', e ∈ adj g v → c' ∈ possible_start_channels g source w v c →
            dist_at (dist st) (to e) c'
            ≤ dist_at (dist st) v c
              + calculateChannelCost (channel_costs e) c' w.

(** The invariant of the loop of [findShortestPath] that its answer being a
    least cost rests on. *)
Definition searched (g : Graph) (source target w : Z) (st : Search) : Prop :=
  ∃ L expanded,
    settled g source target w L st ∧
    exploring g source w st ∧
    rooted source w st ∧
    routed g source w st ∧
    covered expanded st ∧
    relaxed g source target w L expanded st.

(** The same while the neighbours of the popped state [(u, ch)] are
    relaxed. *)
Definition searching (g : Graph) (source target w : Z) (c u ch : Z)
    (expanded : gset (Z * Z)) (st : Search) : Prop :=
  (settled g source target w c st ∧ dist_at (dist st) u ch = c) ∧
  exploring g source w st ∧
  rooted source w st ∧
  routed g source w st ∧
  covered ({[(u, ch)]} ∪ expanded) st ∧
  relaxed g source target w c expanded st.

(** The expanded states are states of the graph, and what waits in the
    queue costs at most one [hop] for each of them. *)
Definition shallow (g : Graph) (expanded : gset (Z * Z))
    (queue : list (Z * Z * Z)) : Prop :=
  (∀ v c, (v, c) ∈ expanded → 0 ≤ v < node_count g ∧ 0 ≤ c < CHANNELS) ∧
  (∀ k v c, (k, v, c) ∈ queue → k ≤ Z.of_nat (size expanded) * hop g).

(** The invariant of the loop on a [modest] graph: no label is large enough
    for a sum to leave the range of [int]. *)
Definition searched_within (g : Graph) (source target w : Z) (st : Search)
  : Prop :=
  ∃ L expanded,
    (settled g source target w L st ∧
     exploring g source w st ∧
     rooted source w st ∧
     routed g source w st ∧
     covered expanded st ∧
     relaxed g source target w L expanded st) ∧
    shallow g expanded (pq st).

(** The invariant of the loop of ChannelGraph2.cpp: the expanded states are
    the marked ones. *)
Definition searched2 (g : Graph) (source target w : Z)
    (st : ChannelGraph2.Search) : Prop :=
  ∃ L,
    settled g source target w L (ChannelGraph2Spec.forget st) ∧
    exploring g source w (ChannelGraph2Spec.forget st) ∧
    rooted source w (ChannelGraph2Spec.forget st) ∧
    routed g source w (ChannelGraph2Spec.forget st) ∧
    covered (ChannelGraph2.visited st) (ChannelGraph2Spec.forget st) ∧
    relaxed g source target w L (ChannelGraph2.visited st)
      (ChannelGraph2Spec.forget st).

Definition searched2_within (g : Graph) (source target w : Z)
    (st : ChannelGraph2.Search) : Prop :=
  searched2 g source target w st ∧
  shallow g (ChannelGraph2.visited st) (ChannelGraph2.pq st).

(** Every edge has its twin in the other direction, with the same costs:
    what [addEdge] maintains. *)
Definition symmetric (g : Graph) : Prop :=
  ∀ u e, e ∈ adj g u → mkEdge u (channel_costs e) ∈ adj g (to e).

End ShortestPathSpec.

(** ** For the predecessor links of OptimizedEfficientGraph1.cpp and
    OptimizedEfficientGraph3.cpp *)
Module FindMinCostPathSpec.

(** Every edge leads to a node of the graph. *)
Definition in_range (g : OptimizedEfficientGraph1.Graph) : Prop :=
  ∀ u e, e ∈ OptimizedEfficientGraph1.adj_at g u →
         0 ≤ OptimizedEfficientGraph1.to e < OptimizedEfficientGraph1.n g.

(** A state whose links lead on: the start state, or a state with a
    predecessor on record. *)
Definition linked (source : Z) (prev_state_v : gmap Z Z) (s : Z) : Prop :=
  s = source * OptimizedEfficientGraph1.STATE_COUNT + 100 ∨
  OptimizedEfficientGraph1.link_at prev_state_v s ≠ -1.

(** The invariant of the loop of [findMinCostPath] in
    OptimizedEfficientGraph1.cpp on the predecessor links. *)
Definition rooted1 (source : Z) (st : OptimizedEfficientGraph1.Search)
  : Prop :=
  (∀ x, x ∈ OptimizedEfficientGraph1.pq st →
        0 ≤ OptimizedEfficientGraph1.state x ∧
        (OptimizedEfficientGraph1.prev_state x = -1 →
         OptimizedEfficientGraph1.state x
         = source * OptimizedEfficientGraph1.STATE_COUNT + 100) ∧
        (OptimizedEfficientGraph1.prev_state x ≠ -1 →
         linked source (OptimizedEfficientGraph1.prev_states st)
                (OptimizedEfficientGraph1.prev_state x))) ∧
  (∀ s p, OptimizedEfficientGraph1.prev_states st !! s = Some p →
          p ≠ -1 ∧
          linked source (OptimizedEfficientGraph1.prev_states st) p) ∧
  (OptimizedEfficientGraph1.best_final_state st = -1 ∨
   linked source (OptimizedEfficientGraph1.prev_states st)
          (OptimizedEfficientGraph1.best_final_state st)).

(** [joined g s v]: a sequence of edges of the graph leads from [s] to
    [v]. *)
Inductive joined (g : OptimizedEfficientGraph1.Graph) (s : Z) : Z → Prop :=
| joined_here : joined g s s
| joined_step u e :
    joined g s u → e ∈ OptimizedEfficientGraph1.adj_at g u →
    joined g s (OptimizedEfficientGraph1.to e).

(** What the queue holds is joined to the source, and so is the target once
    a final state is on record. *)
Definition reached1 (g : OptimizedEfficientGraph1.Graph) (source target : Z)
    (st : OptimizedEfficientGraph1.Search) : Prop :=
  (∀ x, x ∈ OptimizedEfficientGraph1.pq st →
        0 ≤ OptimizedEfficientGraph1.state x ∧
        joined g source
          (Z.quot (OptimizedEfficientGraph1.state x)
                  OptimizedEfficientGraph1.STATE_COUNT)) ∧
  (OptimizedEfficientGraph1.best_final_state st = -1 ∨
   joined g source target).

(** Every label is an [int], and the states in the queue are not
    negative. *)
Definition bounded1 (st : OptimizedEfficientGraph1.Search) : Prop :=
  (∀ s, INT_MIN ≤ OptimizedEfficientGraph1.dist_at
                    (OptimizedEfficientGraph1.dist st) s ≤ INT_MAX) ∧
  (∀ x, x ∈ OptimizedEfficientGraph1.pq st →
        0 ≤ OptimizedEfficientGraph1.state x).

(** The quantity every turn of the loop of [findMinCostPath] in
    OptimizedEfficientGraph1.cpp decreases: twice the sum, over the states
    of the graph, of what the label lies above [INT_MIN], plus the length of
    the queue. An entry is pushed only when it lowers a label. *)
Definition weight1 (g : OptimizedEfficientGraph1.Graph)
    (st : OptimizedEfficientGraph1.Search) : Z :=
  2 * ChannelGraphSpec.zsum
        (λ s, OptimizedEfficientGraph1.dist_at
                (OptimizedEfficientGraph1.dist st) s - INT_MIN)
        (upto (OptimizedEfficientGraph1.n g
               * OptimizedEfficientGraph1.STATE_COUNT - 1))
  + Z.of_nat (length (OptimizedEfficientGraph1.pq st)).

(** The same for OptimizedEfficientGraph3.cpp: a state at the source, or a
    state whose key has a predecessor on record. *)
Definition linked3 (source : Z)
    (predecessor : gmap Z OptimizedEfficientGraph3.State)
    (s : OptimizedEfficientGraph3.State) : Prop :=
  OptimizedEfficientGraph3.node s = source ∨
  is_Some (predecessor !!
             OptimizedEfficientGraph3.state_key
               (OptimizedEfficientGraph3.node s)
               (OptimizedEfficientGraph3.channel s)
               (OptimizedEfficientGraph3.consecutive s)).

Definition rooted3 (source : Z) (st : OptimizedEfficientGraph3.Search)
  : Prop :=
  (∀ x, x ∈ OptimizedEfficientGraph3.pq st →
        linked3 source (OptimizedEfficientGraph3.best_predecessor st) x) ∧
  (∀ k p, OptimizedEfficientGraph3.best_predecessor st !! k = Some p →
          linked3 source (OptimizedEfficientGraph3.best_predecessor st) p) ∧
  (∀ s, OptimizedEfficientGraph3.best_state st = Some s →
        linked3 source (OptimizedEfficientGraph3.best_predecessor st) s).

End FindMinCostPathSpec.

(** ** Test networks *)
Module Examples.

(** A call that is expected to succeed, one after the other. *)
Definition and_then {A B} (o : outcome A) (f : A → outcome B) : outcome B :=
  match o with
  | Returned a => f a
  | Thrown e => Thrown e
  | Undefined => Undefined
  end.

(** [vector<int> costs(100, other); costs[i] = v;] *)
Definition costs_with (other : Z) (i : nat) (v : Z) : list Z :=
  <[i := v]> (replicate 100 other).

Definition cg_grow (o : outcome ChannelGraph.Graph) : ChannelGraph.Graph :=
  match o with Returned g => g | _ => ChannelGraph.create 0 end.

(** The chain 0 - 1 - 2 with constant costs 5 and 3; node 1 does not
    convert. *)
Definition cg_chain_build : outcome ChannelGraph.Graph :=
  and_then (ChannelGraph.addEdge (ChannelGraph.create 3) 0 1 (replicate 100 5))
    (λ g, and_then (ChannelGraph.addEdge g 1 2 (replicate 100 3))
    (λ g, and_then (ChannelGraph.setNodeConversion g 0 true)
    (λ g, and_then (ChannelGraph.setNodeConversion g 1 false)
    (λ g, ChannelGraph.setNodeConversion g 2 false)))).

Definition cg_chain : ChannelGraph.Graph := cg_grow cg_chain_build.

(** Three nodes, one edge 0 - 1: node 2 is out of reach. *)
Definition cg_island_build : outcome ChannelGraph.Graph :=
  ChannelGraph.addEdge (ChannelGraph.create 3) 0 1 (replicate 100 1).

Definition cg_island : ChannelGraph.Graph := cg_grow cg_island_build.

(** Source 0, target 3, node 1 between them does not convert, node 2 hangs
    off node 1 and converts. Edge 0 - 1 is cheap on channel 0 only, edge
    1 - 3 on channel 5 only. *)
Definition cg_detour_build : outcome ChannelGraph.Graph :=
  and_then (ChannelGraph.addEdge (ChannelGraph.create 4) 0 1 (costs_with 1000 0 1))
    (λ g, and_then (ChannelGraph.addEdge g 1 2 (replicate 100 1))
    (λ g, and_then (ChannelGraph.addEdge g 1 3 (costs_with 1000 5 1))
    (λ g, ChannelGraph.setNodeConversion g 2 true))).

Definition cg_detour : ChannelGraph.Graph := cg_grow cg_detour_build.

(** Source 0, target 3; edges 0 - 1, 0 - 2, 1 - 2 and 1 - 3, each cheap on
    one channel; only node 1 converts. *)
Definition oeg3_detour_build : outcome OptimizedEfficientGraph3.Graph :=
  let g := OptimizedEfficientGraph3.setChannelSwitchSupport
             (OptimizedEfficientGraph3.create 4) 1 true in
  and_then (OptimizedEfficientGraph3.addEdge g 0 1 (costs_with 1000 5 1))
    (λ g, and_then (OptimizedEfficientGraph3.addEdge g 0 2 (costs_with 1000 0 3))
    (λ g, and_then (OptimizedEfficientGraph3.addEdge g 1 2 (costs_with 1000 1 1))
    (λ g, OptimizedEfficientGraph3.addEdge g 1 3 (costs_with 1000 0 10)))).

Definition oeg3_detour : OptimizedEfficientGraph3.Graph :=
  match oeg3_detour_build with
  | Returned g => g
  | _ => OptimizedEfficientGraph3.create 0
  end.

Definition oeg3_detour_start : OptimizedEfficientGraph3.Search :=
  {| OptimizedEfficientGraph3.pq :=
       [OptimizedEfficientGraph3.mkState 0 0 (-1) 0 {[0]}];
     OptimizedEfficientGraph3.min_cost := INT_MAX;
     OptimizedEfficientGraph3.best_state := None;
     OptimizedEfficientGraph3.best_predecessor := ∅ |}.

(** The networks of the asserted tests of ChannelGraph2.cpp. Test 2: node 1
    converts, channel 1 is cheap on the first edge and channel 0 on the
    second. *)
Definition cg_test2_build : outcome ChannelGraph.Graph :=
  and_then (ChannelGraph.addEdge (ChannelGraph.create 3) 0 1
              (<[1%nat := 1]> (<[0%nat := 100]> (replicate 100 10))))
    (λ g, and_then (ChannelGraph.addEdge g 1 2
                      (<[1%nat := 100]> (<[0%nat := 1]> (replicate 100 10))))
    (λ g, and_then (ChannelGraph.setNodeConversion g 0 true)
    (λ g, and_then (ChannelGraph.setNodeConversion g 1 true)
    (λ g, ChannelGraph.setNodeConversion g 2 false)))).

(** Test 3: costs 1, 2, ..., 100 on both edges, node 1 does not convert. *)
Definition cg_test3_build : outcome ChannelGraph.Graph :=
  and_then (ChannelGraph.addEdge (ChannelGraph.create 3) 0 1
              (map (λ i, 1 + i) (upto 99)))
    (λ g, and_then (ChannelGraph.addEdge g 1 2 (map (λ i, 1 + i) (upto 99)))
    (λ g, and_then (ChannelGraph.setNodeConversion g 0 true)
    (λ g, and_then (ChannelGraph.setNodeConversion g 1 false)
    (λ g, ChannelGraph.setNodeConversion g 2 false)))).

(** Test 5: one edge, channels 10 to 12 cost 1 and the others 10. *)
Definition cg_test5_build : outcome ChannelGraph.Graph :=
  and_then (ChannelGraph.addEdge (ChannelGraph.create 2) 0 1
              (<[12%nat := 1]> (<[11%nat := 1]> (<[10%nat := 1]>
                 (replicate 100 10)))))
    (λ g, and_then (ChannelGraph.setNodeConversion g 0 true)
    (λ g, ChannelGraph.setNodeConversion g 1 false)).

(** Test 8: a chain with a loop edge at node 1, all nodes convert. *)
Definition cg_test8_build : outcome ChannelGraph.Graph :=
  and_then (ChannelGraph.addEdge (ChannelGraph.create 3) 0 1 (replicate 100 1))
    (λ g, and_then (ChannelGraph.addEdge g 1 2 (replicate 100 1))
    (λ g, and_then (ChannelGraph.addEdge g 1 1 (replicate 100 1))
    (λ g, and_then (ChannelGraph.setNodeConversion g 0 true)
    (λ g, and_then (ChannelGraph.setNodeConversion g 1 true)
    (λ g, ChannelGraph.setNodeConversion g 2 true))))).

(** Three nodes and the edge 0 - 1, for OptimizedEfficientGraph1.cpp. *)
Definition oeg1_island_build : outcome OptimizedEfficientGraph1.Graph :=
  OptimizedEfficientGraph1.addEdge (OptimizedEfficientGraph1.create 3) 0 1
    (replicate 100 1).

Definition oeg1_island : OptimizedEfficientGraph1.Graph :=
  match oeg1_island_build with
  | Returned g => g
  | _ => OptimizedEfficientGraph1.create 0
  end.

(** The detour network with conversion switched on at node 1. *)
Definition cg_detour_conv : ChannelGraph.Graph :=
  cg_grow (ChannelGraph.setNodeConversion cg_detour 1 true).

(** The island network with the edge 1 - 2 added. *)
Definition cg_island_bridge : ChannelGraph.Graph :=
  cg_grow (ChannelGraph.addEdge cg_island 1 2 (replicate 100 1)).

Definition cg_test8 : ChannelGraph.Graph := cg_grow cg_test8_build.

(** Three nodes and the edge 0 - 1, for OptimizedEfficientGraph3.cpp. *)
Definition oeg3_pair_build : outcome OptimizedEfficientGraph3.Graph :=
  OptimizedEfficientGraph3.addEdge (OptimizedEfficientGraph3.create 3) 0 1
    (replicate 100 1).

Definition oeg3_pair : OptimizedEfficientGraph3.Graph :=
  match oeg3_pair_build with
  | Returned g => g
  | _ => OptimizedEfficientGraph3.create 0
  end.

(** Two nodes and the edge 0 - 1, for OptimizedEfficientGraph.cpp. *)
Definition oeg_pair_build : outcome OptimizedEfficientGraph.Graph :=
  OptimizedEfficientGraph.addEdge (OptimizedEfficientGraph.create 2) 0 1
    (replicate 100 1).

Definition oeg_pair : OptimizedEfficientGraph.Graph :=
  match oeg_pair_build with
  | Returned g => g
  | _ => OptimizedEfficientGraph.create 0
  end.

(** Three nodes in a row with costs whose sum is no [int]:
    1500000000 on every channel of the edges 0 - 1 and 1 - 2. *)
Definition cg_heavy_build : outcome ChannelGraph.Graph :=
  and_then (ChannelGraph.addEdge (ChannelGraph.create 3) 0 1
              (replicate 100 1500000000))
    (λ g, ChannelGraph.addEdge g 1 2 (replicate 100 1500000000)).

Definition cg_heavy : ChannelGraph.Graph := cg_grow cg_heavy_build.

(** A valid graph: built as [addEdge] builds it, without negative cost. *)
Definition valid (g : ChannelGraph.Graph) : Prop :=
  ChannelGraphSpec.well_formed g ∧ ChannelGraphSpec.nonnegative g.

End Examples.

(** * Properties *)

(** ** Lists, ranges and the priority queue *)

Lemma elem_of_upto (hi k : Z) : k ∈ upto hi ↔ 0 ≤ k ≤ hi.
Proof. unfold upto. rewrite elem_of_seqZ. lia. Qed.

Lemma fold_left_preserves {A B} (f : A → B → A) (Q : A → Prop) (l : list B) :
  (∀ a b, b ∈ l → Q a → Q (f a b)) → ∀ a, Q a → Q (fold_left f l a).
Proof.
  induction l as [|b l IH]; intros Hf a Ha; simpl; [done|].
  apply IH.
  - intros a' b' Hb'. apply Hf. by right.
  - apply Hf; [by left | done].
Qed.

Lemma adjacent_reverse {A} (x y : A) (l : list A) :
  adjacent x y (reverse l) → adjacent y x l.
Proof.
  intros (l1 & l2 & Hl). exists (reverse l2), (reverse l1).
  rewrite <- (reverse_involutive l), Hl.
  rewrite reverse_app, !reverse_cons, <- !app_assoc. done.
Qed.

Lemma adjacent_cons_inv {A} (x y a : A) (l : list A) :
  adjacent x y (a :: l) →
  (x = a ∧ ∃ l', l = y :: l') ∨ adjacent x y l.
Proof.
  intros ([|b l1] & l2 & Hl); simpl in Hl; inversion Hl; subst.
  - left. eauto.
  - right. by exists l1, l2.
Qed.

Lemma vget_lookup (costs : list Z) (i x : Z) :
  0 ≤ i → costs !! Z.to_nat i = Some x → vget costs i = x.
Proof. intros _ H. unfold vget. by rewrite nth_lookup, H. Qed.

Lemma vget_map_upto (f : Z → Z) (hi i : Z) :
  0 ≤ i ≤ hi → vget (map f (upto hi)) i = f i.
Proof.
  intros Hi. apply vget_lookup; [lia|].
  change (map f (upto hi)) with (f <$> upto hi).
  unfold upto. rewrite list_lookup_fmap, lookup_seqZ_lt by lia.
  simpl. f_equal. f_equal. lia.
Qed.

Lemma drop_vget (costs : list Z) (i : Z) :
  0 ≤ i < Z.of_nat (length costs) →
  drop (Z.to_nat i) costs = vget costs i :: drop (S (Z.to_nat i)) costs.
Proof.
  intros Hi.
  destruct (lookup_lt_is_Some_2 costs (Z.to_nat i)) as [x Hx]; [lia|].
  rewrite (vget_lookup _ _ x) by (lia || done). by apply drop_S.
Qed.

Lemma segment_sum_1 (costs : list Z) (start : Z) :
  0 ≤ start → start + 1 ≤ Z.of_nat (length costs) →
  segment_sum costs start 1 = vget costs start.
Proof.
  intros H0 H1. unfold segment_sum. rewrite drop_vget by lia.
  change (Z.to_nat 1) with 1%nat. simpl. lia.
Qed.

Lemma segment_sum_2 (costs : list Z) (start : Z) :
  0 ≤ start → start + 2 ≤ Z.of_nat (length costs) →
  segment_sum costs start 2 = vget costs start + vget costs (start + 1).
Proof.
  intros H0 H1. unfold segment_sum. rewrite drop_vget by lia.
  replace (S (Z.to_nat start)) with (Z.to_nat (start + 1)) by lia.
  rewrite drop_vget by lia.
  change (Z.to_nat 2) with 2%nat. simpl. lia.
Qed.

Lemma segment_sum_3 (costs : list Z) (start : Z) :
  0 ≤ start → start + 3 ≤ Z.of_nat (length costs) →
  segment_sum costs start 3
  = vget costs start + vget costs (start + 1) + vget costs (start + 2).
Proof.
  intros H0 H1. unfold segment_sum. rewrite drop_vget by lia.
  replace (S (Z.to_nat start)) with (Z.to_nat (start + 1)) by lia.
  rewrite drop_vget by lia.
  replace (S (Z.to_nat (start + 1))) with (Z.to_nat (start + 2)) by lia.
  rewrite drop_vget by lia.
  change (Z.to_nat 3) with 3%nat. simpl. lia.
Qed.

Section PriorityQueueFacts.
Context {T : Type} (leb : T → T → bool).

Lemma pq_extract_perm (x : T) (l : list T) (m : T) (r : list T) :
  pq_extract leb x l = (m, r) → Permutation (x :: l) (m :: r).
Proof.
  revert x m r. induction l as [|y l IH]; intros x m r; simpl.
  - intros [= <- <-]. done.
  - destruct (pq_extract leb y l) as [m' r'] eqn:E.
    specialize (IH _ _ _ E).
    destruct (leb x m'); intros [= <- <-].
    + by rewrite IH.
    + rewrite IH. apply perm_swap.
Qed.

Lemma pq_pop_perm (q : list T) (m : T) (r : list T) :
  pq_pop leb q = Some (m, r) → Permutation q (m :: r).
Proof.
  destruct q as [|x l]; simpl; [done|].
  intros [= H]. by apply pq_extract_perm.
Qed.

Lemma pq_pop_elem (q : list T) (m : T) (r : list T) :
  pq_pop leb q = Some (m, r) → ∀ y, y ∈ q ↔ y = m ∨ y ∈ r.
Proof.
  intros H y. rewrite (pq_pop_perm _ _ _ H). apply elem_of_cons.
Qed.

Lemma pq_pop_length (q : list T) (m : T) (r : list T) :
  pq_pop leb q = Some (m, r) → length q = S (length r).
Proof. intros H. by rewrite (pq_pop_perm _ _ _ H). Qed.

Lemma pq_pop_None (q : list T) : pq_pop leb q = None → q = [].
Proof. by destruct q. Qed.

Hypothesis leb_total : ∀ x y, leb x y = true ∨ leb y x = true.
Hypothesis leb_trans : ∀ x y z, leb x y = true → leb y z = true → leb x z = true.

Lemma pq_extract_least (x : T) (l : list T) (m : T) (r : list T) :
  pq_extract leb x l = (m, r) → ∀ y, y ∈ x :: l → leb m y = true.
Proof.
  revert x m r. induction l as [|z l IH]; intros x m r; simpl.
  - intros [= <- <-] y ->%list_elem_of_singleton.
    by destruct (leb_total x x).
  - destruct (pq_extract leb z l) as [m' r'] eqn:E.
    specialize (IH _ _ _ E).
    destruct (leb x m') eqn:Hx; intros [= <- <-] y [->|Hy]%elem_of_cons.
    + by destruct (leb_total x x).
    + eauto.
    + destruct (leb_total x m') as [?|?]; [congruence|done].
    + eauto.
Qed.

Lemma pq_pop_least (q : list T) (m : T) (r : list T) :
  pq_pop leb q = Some (m, r) → ∀ y, y ∈ q → leb m y = true.
Proof.
  destruct q as [|x l]; simpl; [done|].
  intros [= H]. by apply pq_extract_least with r.
Qed.
End PriorityQueueFacts.

(** ** ChannelGraph.cpp: the search loop and its invariants

    The invariants are those of the loop over the integers,
    [ChannelGraphExact]. *)
Module ChannelGraphFacts.
Import ChannelGraph.
Import ChannelGraphExact.
Import ChannelGraphSpec.

Lemma tuple_leb_total (x y : Z * Z * Z) :
  tuple_leb x y = true ∨ tuple_leb y x = true.
Proof.
  destruct x as [[c1 n1] s1], y as [[c2 n2] s2]. unfold tuple_leb.
  rewrite !orb_true_iff, !andb_true_iff, !orb_true_iff, !andb_true_iff,
    !Z.ltb_lt, !Z.eqb_eq, !Z.leb_le. lia.
Qed.

Lemma tuple_leb_trans (x y z : Z * Z * Z) :
  tuple_leb x y = true → tuple_leb y z = true → tuple_leb x z = true.
Proof.
  destruct x as [[c1 n1] s1], y as [[c2 n2] s2], z as [[c3 n3] s3].
  unfold tuple_leb.
  rewrite !orb_true_iff, !andb_true_iff, !orb_true_iff, !andb_true_iff,
    !Z.ltb_lt, !Z.eqb_eq, !Z.leb_le. lia.
Qed.

Lemma tuple_leb_cost (c1 n1 s1 c2 n2 s2 : Z) :
  tuple_leb (c1, n1, s1) (c2, n2, s2) = true → c1 ≤ c2.
Proof.
  unfold tuple_leb.
  rewrite !orb_true_iff, !andb_true_iff, !orb_true_iff, !andb_true_iff,
    !Z.ltb_lt, !Z.eqb_eq, !Z.leb_le. lia.
Qed.

Lemma tuple_leb_channel (c n s1 s2 : Z) :
  tuple_leb (c, n, s1) (c, n, s2) = true → s1 ≤ s2.
Proof.
  unfold tuple_leb.
  rewrite !orb_true_iff, !andb_true_iff, !orb_true_iff, !andb_true_iff,
    !Z.ltb_lt, !Z.eqb_eq, !Z.leb_le. lia.
Qed.

Lemma prev_at_Some (p : gmap (Z * Z) (Z * Z)) (v c u cu : Z) :
  prev_at p v c = (u, cu) → u ≠ -1 → p !! (v, c) = Some (u, cu).
Proof.
  unfold prev_at. destruct (p !! (v, c)) as [x|]; simpl.
  - by intros ->.
  - intros [= <- <-]. done.
Qed.

Lemma walk_back_end (fuel : nat) (p : gmap (Z * Z) (Z * Z)) (c : Z)
    (l : list (Z * Z)) :
  walk_back fuel p (-1) c = Some l → l = [].
Proof. destruct fuel; simpl; [done|]. by intros [= <-]. Qed.

Lemma walk_back_head (fuel : nat) (p : gmap (Z * Z) (Z * Z)) (n c : Z)
    (y : Z * Z) (l : list (Z * Z)) :
  walk_back fuel p n c = Some (y :: l) → y = (n, c) ∧ n ≠ -1.
Proof.
  destruct fuel; simpl; [done|].
  destruct (Z.eqb_spec n (-1)); [done|].
  destruct (prev_at p n c) as [pn pc].
  destruct (walk_back fuel p pn pc); [|done].
  by intros [= <- <-].
Qed.

Lemma walk_back_Forall (R : Z * Z → Prop) (p : gmap (Z * Z) (Z * Z)) :
  (∀ x y, R x → p !! x = Some y → R y) →
  ∀ fuel n c l, walk_back fuel p n c = Some l → R (n, c) → Forall R l.
Proof.
  intros Hstep. induction fuel as [|fuel IH]; intros n c l; simpl; [done|].
  destruct (Z.eqb_spec n (-1)); [by intros [= <-]|].
  destruct (prev_at p n c) as [pn pc] eqn:Hp.
  destruct (walk_back fuel p pn pc) as [l'|] eqn:Hw; [|done].
  intros [= <-] HR. constructor; [done|].
  destruct (decide (pn = -1)) as [->|Hpn].
  - apply walk_back_end in Hw as ->. constructor.
  - eapply IH; [done|]. eapply Hstep; [done|]. by apply prev_at_Some.
Qed.

Lemma walk_back_adjacent (p : gmap (Z * Z) (Z * Z)) (x y : Z * Z) :
  ∀ fuel n c l, walk_back fuel p n c = Some l → adjacent x y l →
                p !! x = Some y.
Proof.
  induction fuel as [|fuel IH]; intros n c l; simpl; [done|].
  destruct (Z.eqb_spec n (-1)).
  { intros [= <-] ([|??] & ? & ?); done. }
  destruct (prev_at p n c) as [pn pc] eqn:Hp.
  destruct (walk_back fuel p pn pc) as [l'|] eqn:Hw; [|done].
  intros [= <-] [[-> [l'' ->]]|Hadj]%adjacent_cons_inv.
  - apply walk_back_head in Hw as [-> Hpn]. by apply prev_at_Some.
  - by eapply IH.
Qed.

Section Facts.
Variable g : Graph.
Variables source target channel_width : Z.

Local Abbreviation relax := (relax channel_width).
Local Abbreviation possible_start_channels :=
  (possible_start_channels g source channel_width).
Local Abbreviation expand := (expand g source channel_width).
Local Abbreviation search := (search g source target channel_width).
Local Abbreviation init := (init source channel_width).

Lemma relax_cases (c u uch : Z) (e : Edge) (st : Search) (vch : Z) :
  relax c u uch e st vch = st ∨
  (calculateChannelCost (channel_costs e) vch channel_width ≠ INF ∧
   c + calculateChannelCost (channel_costs e) vch channel_width
     < dist_at (dist st) (to e) vch ∧
   relax c u uch e st vch =
     {| dist := <[(to e, vch) :=
                   c + calculateChannelCost (channel_costs e) vch channel_width]>
                  (dist st);
        prev := <[(to e, vch) := (u, uch)]> (prev st);
        pq := (c + calculateChannelCost (channel_costs e) vch channel_width,
               to e, vch) :: pq st |}).
Proof.
  unfold ChannelGraphExact.relax.
  destruct (Z.eqb_spec (calculateChannelCost (channel_costs e) vch channel_width) INF);
    [by left|].
  destruct (Z.ltb_spec
              (c + calculateChannelCost (channel_costs e) vch channel_width)
              (dist_at (dist st) (to e) vch)); [|by left].
  right. done.
Qed.

Lemma expand_preserves (Q : Search → Prop) (c u uch : Z) :
  (∀ st e vch, e ∈ adj g u → vch ∈ possible_start_channels u uch →
               Q st → Q (relax c u uch e st vch)) →
  ∀ st, Q st → Q (expand c u uch st).
Proof.
  intros H st Hst. unfold ChannelGraphExact.expand.
  apply fold_left_preserves; [|done].
  intros a e He Ha. unfold expand_edge.
  apply fold_left_preserves; [|done].
  intros a' vch Hv Ha'. by apply H.
Qed.

(** What [search] answers comes from a state that every invariant of the
    loop holds in. *)
Lemma search_reaches (P : Search → Prop) (fuel0 : nat) :
  (∀ st c u ch rest,
     P st → pq_pop tuple_leb (pq st) = Some ((c, u, ch), rest) → u ≠ target →
     dist_at (dist st) u ch < c → P (set_pq st rest)) →
  (∀ st c u ch rest,
     P st → pq_pop tuple_leb (pq st) = Some ((c, u, ch), rest) → u ≠ target →
     c ≤ dist_at (dist st) u ch → P (expand c u ch (set_pq st rest))) →
  ∀ fuel st r, P st → search fuel0 fuel st = Some r →
    (r = ([], INF) ∧ ∃ st', P st' ∧ pq st' = []) ∨
    (∃ st' c ch rest,
       P st' ∧ pq_pop tuple_leb (pq st') = Some ((c, target, ch), rest) ∧
       reconstructPath fuel0 (prev st') source target ch c = Some r).
Proof.
  intros Hstale Hexp. induction fuel as [|fuel IH]; intros st r HP; simpl; [done|].
  destruct (pq_pop tuple_leb (pq st)) as [[[[c u] ch] rest]|] eqn:Hpop.
  - destruct (Z.eqb_spec u target) as [->|Hu].
    + intros Hr. right. by exists st, c, ch, rest.
    + destruct (Z.gtb_spec c (dist_at (dist st) u ch)).
      * apply IH. eapply Hstale; eauto.
      * apply IH. eapply Hexp; eauto.
  - intros [= <-]. left. split; [done|]. exists st. split; [done|].
    by apply pq_pop_None in Hpop.
Qed.

Lemma init_preserves (Q : Search → Prop) :
  Q {| dist := ∅; prev := ∅; pq := [] |} →
  (∀ st ch, 0 ≤ ch ≤ CHANNELS - channel_width → Q st →
            Q {| dist := <[(source, ch) := 0]> (dist st);
                 prev := prev st;
                 pq := (0, source, ch) :: pq st |}) →
  Q init.
Proof.
  intros H0 Hs. unfold ChannelGraph.init.
  apply fold_left_preserves; [|done].
  intros st ch Hch%elem_of_upto Hst. by apply Hs.
Qed.

(** *** Start channels stay in range *)

Lemma channels_in_range_init : channels_in_range channel_width init.
Proof.
  apply init_preserves.
  - split; simpl; [intros ??? H; by apply elem_of_nil in H|].
    intros ????. by rewrite lookup_empty.
  - intros st ch Hch [Hq Hp]. split; simpl; [|done].
    intros k v c [[= -> -> ->]|H]%elem_of_cons; [done|]. eauto.
Qed.

Lemma channels_in_range_pop (st : Search) (x : Z * Z * Z)
    (rest : list (Z * Z * Z)) :
  channels_in_range channel_width st →
  pq_pop tuple_leb (pq st) = Some (x, rest) →
  channels_in_range channel_width (set_pq st rest).
Proof.
  intros [Hq Hp] Hpop. split; simpl; [|done].
  intros k v c H. apply (Hq k v c).
  apply (pq_pop_elem _ _ _ _ Hpop). by right.
Qed.

Lemma possible_start_channels_range (u uch vch : Z) :
  0 ≤ uch ≤ CHANNELS - channel_width →
  vch ∈ possible_start_channels u uch →
  0 ≤ vch ≤ CHANNELS - channel_width.
Proof.
  intros Hu. unfold ChannelGraph.possible_start_channels.
  destruct (supports g u || (u =? source)).
  - by intros ?%elem_of_upto.
  - by intros ->%list_elem_of_singleton.
Qed.

Lemma channels_in_range_relax (c u uch : Z) (e : Edge) (st : Search) (vch : Z) :
  0 ≤ uch ≤ CHANNELS - channel_width →
  0 ≤ vch ≤ CHANNELS - channel_width →
  channels_in_range channel_width st →
  channels_in_range channel_width (relax c u uch e st vch).
Proof.
  intros Hu Hv [Hq Hp].
  destruct (relax_cases c u uch e st vch) as [->|(_ & _ & ->)]; [done|].
  split; simpl.
  - intros k v c' [[= -> -> ->]|H]%elem_of_cons; [done|]. eauto.
  - intros v c' u' cu' [[[= <- <-] [= <- <-]]|[_ H]]%lookup_insert_Some; [done|].
    eauto.
Qed.

Lemma channels_in_range_step (st : Search) (c u ch : Z)
    (rest : list (Z * Z * Z)) :
  channels_in_range channel_width st →
  pq_pop tuple_leb (pq st) = Some ((c, u, ch), rest) →
  channels_in_range channel_width (expand c u ch (set_pq st rest)).
Proof.
  intros Hst Hpop.
  assert (0 ≤ ch ≤ CHANNELS - channel_width) as Hch.
  { apply (proj1 Hst c u ch). apply (pq_pop_elem _ _ _ _ Hpop). by left. }
  apply expand_preserves; [|by eapply channels_in_range_pop].
  intros st' e vch _ Hv. apply channels_in_range_relax; [done|].
  by eapply possible_start_channels_range.
Qed.

(** *** Continuity through non-converting nodes *)

Lemma continuity_init : continuity g source init.
Proof.
  apply init_preserves.
  - intros ????; simpl. by rewrite lookup_empty.
  - intros st ch _ H. exact H.
Qed.

Lemma continuity_relax (c u uch : Z) (e : Edge) (st : Search) (vch : Z) :
  vch ∈ possible_start_channels u uch →
  continuity g source st →
  continuity g source (relax c u uch e st vch).
Proof.
  intros Hv Hst.
  destruct (relax_cases c u uch e st vch) as [->|(_ & _ & ->)]; [done|].
  intros v c' u' cu'; simpl.
  intros [[[= <- <-] [= <- <-]]|[_ H]]%lookup_insert_Some; [|eauto].
  revert Hv. unfold ChannelGraph.possible_start_channels.
  destruct (supports g u) eqn:Hs; simpl; [by left|].
  destruct (Z.eqb_spec u source); [by right; left|].
  intros ->%list_elem_of_singleton. by right; right.
Qed.

(** *** The state before the loop *)

Lemma init_labels :
  prev init = ∅ ∧
  (∀ v c, dist_at (dist init) v c = INF ∨
          (v = source ∧ dist_at (dist init) v c = 0 ∧
           (0, source, c) ∈ pq init)) ∧
  (∀ k v c, (k, v, c) ∈ pq init →
            k = 0 ∧ v = source ∧ dist_at (dist init) v c = 0).
Proof.
  apply init_preserves; simpl.
  - split; [done|]. split; [by left|]. intros ??? H. by apply elem_of_nil in H.
  - intros st ch _ (Hp & Hd & Hq). split; [done|]. split.
    + intros v c. unfold dist_at. rewrite lookup_insert.
      destruct (decide _) as [[= <- <-]|Hne]; simpl.
      * right. split_and!; [done..|]. by left.
      * destruct (Hd v c) as [?|(? & ? & ?)]; [by left|right].
        split_and!; [done..|]. by right.
    + intros k v c [[= -> -> ->]|H]%elem_of_cons.
      * unfold dist_at. by rewrite lookup_insert, decide_True.
      * destruct (Hq _ _ _ H) as (-> & -> & Hz). split_and!; [done..|].
        unfold dist_at. rewrite lookup_insert. by destruct (decide _).
Qed.

(** *** Costs: the label-setting invariant *)

Lemma vget_nonneg (costs : list Z) (i : Z) :
  Forall (λ c, 0 ≤ c) costs → 0 ≤ vget costs i.
Proof.
  intros H. unfold vget.
  destruct (nth_in_or_default (Z.to_nat i) costs 0) as [Hin| ->]; [|done].
  rewrite Forall_forall in H. apply H. by apply list_elem_of_In.
Qed.

Lemma sum_costs_nonneg (costs : list Z) (start : Z) (l : list Z) (a : Z) :
  Forall (λ c, 0 ≤ c) costs → 0 ≤ a →
  0 ≤ fold_left (λ total i, total + vget costs (start + i)) l a.
Proof.
  intros H. revert a. induction l as [|i l IH]; intros a Ha; simpl; [done|].
  apply IH. pose proof (vget_nonneg costs (start + i) H). lia.
Qed.

Lemma calculateChannelCost_nonneg (costs : list Z) (start w : Z) :
  Forall (λ c, 0 ≤ c) costs → 0 ≤ calculateChannelCost costs start w.
Proof.
  intros H. unfold calculateChannelCost.
  destruct (start + w >? CHANNELS); [done|]. by apply sum_costs_nonneg.
Qed.

Lemma dist_at_insert (d : gmap (Z * Z) Z) (v c x v' c' : Z) :
  dist_at (<[(v, c) := x]> d) v' c' =
  if decide ((v, c) = (v', c')) then x else dist_at d v' c'.
Proof.
  unfold dist_at. rewrite lookup_insert. by destruct (decide _).
Qed.

Section Settled.
Hypothesis g_wf : well_formed g.
Hypothesis g_nonneg : nonnegative g.
Hypothesis source_nonneg : 0 ≤ source.

Local Abbreviation settled := (settled g source target channel_width).

Lemma settled_init : settled 0 init.
Proof.
  destruct init_labels as (Hp & Hd & Hq).
  split.
  - intros k v c H. destruct (Hq _ _ _ H) as (-> & -> & ->).
    unfold INF, INT_MAX. lia.
  - intros v c u cu. by rewrite Hp, lookup_empty.
  - intros v c _. destruct (Hd v c) as [?|(? & ? & ?)]; [by left|by right].
  - done.
  - intros c. destruct (Hd target c) as [?|(-> & -> & ?)]; [by left|by right].
  - intros v c. destruct (Hd v c) as [->|(_ & -> & _)]; [done|].
    unfold INF, INT_MAX. lia.
Qed.

Lemma settled_pop (L : Z) (st : Search) (c u ch : Z) (rest : list (Z * Z * Z)) :
  settled L st →
  pq_pop tuple_leb (pq st) = Some ((c, u, ch), rest) →
  u ≠ target →
  settled c (set_pq st rest).
Proof.
  intros [Hq Hp Hr Hl Ht Hb] Hpop Hu.
  assert ((c, u, ch) ∈ pq st) as Hin
    by (apply (pq_pop_elem _ _ _ _ Hpop); by left).
  destruct (Hq _ _ _ Hin) as (HL & _).
  split; simpl; [| |done|lia| |done].
  - intros k v c' H.
    assert ((k, v, c') ∈ pq st) as Hin'
      by (apply (pq_pop_elem _ _ _ _ Hpop); by right).
    destruct (Hq _ _ _ Hin') as (_ & ? & ? & ?). split_and!; [|done..].
    eapply tuple_leb_cost, (pq_pop_least _ tuple_leb_total tuple_leb_trans);
      [exact Hpop|exact Hin'].
  - intros v c' u' cu' H. destruct (Hp _ _ _ _ H) as (? & ? & ?).
    split_and!; [done|lia|done].
  - intros c'. destruct (Ht c') as [?|H]; [by left|right].
    apply (pq_pop_elem _ _ _ _ Hpop) in H as [[= _ ? _]|H]; done.
Qed.

Lemma settled_relax (c u uch : Z) (e : Edge) (st : Search) (vch : Z) :
  e ∈ adj g u → 0 ≤ u →
  settled c st ∧ dist_at (dist st) u uch = c →
  settled c (relax c u uch e st vch) ∧
  dist_at (dist (relax c u uch e st vch)) u uch = c.
Proof.
  intros He Hu [[Hq Hp Hr Hl Ht Hb] Hd].
  destruct (relax_cases c u uch e st vch) as [->|(_ & Hlt & ->)]; [done|].
  set (seg := calculateChannelCost (channel_costs e) vch channel_width) in *.
  assert (0 ≤ seg) as Hseg
    by (apply calculateChannelCost_nonneg; by eapply g_nonneg).
  assert (∀ x y, dist_at (dist st) x y ≤ c →
                 dist_at (<[(to e, vch) := c + seg]> (dist st)) x y
                 = dist_at (dist st) x y) as Hkeep.
  { intros x y Hxy. rewrite dist_at_insert.
    destruct (decide _) as [[= <- <-]|]; [lia|done]. }
  assert (∀ x y, dist_at (<[(to e, vch) := c + seg]> (dist st)) x y
                 ≤ dist_at (dist st) x y) as Hle.
  { intros x y. rewrite dist_at_insert.
    destruct (decide _) as [[= <- <-]|]; lia. }
  split; [|simpl; rewrite Hkeep; lia].
  split; simpl.
  - intros k v c' [[= -> -> ->]|H]%elem_of_cons.
    + rewrite dist_at_insert, decide_True by done.
      pose proof (Hb (to e) vch). destruct (g_wf _ _ He) as [? _].
      split_and!; lia.
    + destruct (Hq _ _ _ H) as (? & ? & ? & ?). pose proof (Hle v c').
      split_and!; lia.
  - intros v c' u' cu' [[[= <- <-] [= <- <-]]|[Hne H]]%lookup_insert_Some.
    + split; [lia|]. rewrite Hkeep by lia. split; [lia|].
      exists e. split_and!; [done..|].
      rewrite dist_at_insert, decide_True by done. lia.
    + destruct (Hp _ _ _ _ H) as (? & ? & e' & ? & ? & Heq).
      split; [done|]. rewrite (Hkeep u' cu') by done. split; [done|].
      exists e'. split_and!; [done..|].
      rewrite dist_at_insert, decide_False by done. done.
  - intros v c' [Hne H]%lookup_insert_None.
    rewrite dist_at_insert, decide_False by done. by apply Hr.
  - done.
  - intros c'. rewrite dist_at_insert.
    destruct (decide _) as [[= <- <-]|Hne].
    + right. by left.
    + destruct (Ht c') as [?|?]; [by left|right; by right].
  - intros v c'. pose proof (Hle v c'). pose proof (Hb v c'). lia.
Qed.

Lemma settled_step (L : Z) (st : Search) (c u ch : Z)
    (rest : list (Z * Z * Z)) :
  settled L st →
  pq_pop tuple_leb (pq st) = Some ((c, u, ch), rest) →
  u ≠ target →
  c ≤ dist_at (dist st) u ch →
  settled c (expand c u ch (set_pq st rest)).
Proof.
  intros Hst Hpop Hu Hc.
  assert ((c, u, ch) ∈ pq st) as Hin
    by (apply (pq_pop_elem _ _ _ _ Hpop); by left).
  destruct (settled_queue _ _ _ _ _ _ Hst _ _ _ Hin) as (_ & ? & _ & ?).
  refine (proj1 (expand_preserves
    (λ st', settled c st' ∧ dist_at (dist st') u ch = c) c u ch _ _ _)).
  - intros st' e vch He _ Hs. by apply settled_relax.
  - split; [by eapply settled_pop|]. simpl. lia.
Qed.

(** The chain of predecessors of a labelled state adds up to its label. *)
Lemma walk_back_cost (L : Z) (st : Search) :
  settled L st →
  ∀ fuel n c l,
    walk_back fuel (prev st) n c = Some l → n ≠ -1 →
    dist_at (dist st) n c < INF →
    path_cost g channel_width (reverse l) (dist_at (dist st) n c) ∧
    ∃ l', l = (n, c) :: l'.
Proof.
  intros [Hq Hp Hr Hl Ht Hb].
  induction fuel as [|fuel IH]; intros n c l; simpl; [done|].
  destruct (Z.eqb_spec n (-1)); [done|].
  destruct (prev_at (prev st) n c) as [pn pc] eqn:Hpr.
  destruct (walk_back fuel (prev st) pn pc) as [l'|] eqn:Hw; [|done].
  intros [= <-] _ Hinf. split; [|by eexists].
  destruct (decide (pn = -1)) as [->|Hpn].
  - apply walk_back_end in Hw as ->.
    assert (prev st !! (n, c) = None) as Hnone.
    { revert Hpr. unfold prev_at.
      destruct (prev st !! (n, c)) as [[u cu]|] eqn:E; [|done].
      simpl. intros [= -> ->]. by destruct (Hp _ _ _ _ E). }
    destruct (Hr _ _ Hnone) as [?|[_ ->]]; [lia|]. constructor.
  - apply prev_at_Some in Hpr; [|done].
    destruct (Hp _ _ _ _ Hpr) as (_ & HL & e & He & Hto & Heq).
    pose proof (calculateChannelCost_nonneg (channel_costs e) c channel_width
                  (g_nonneg _ _ He)).
    assert (dist_at (dist st) pn pc < INF) as Hpinf by lia.
    rewrite Heq.
    destruct (IH _ _ _ Hw Hpn Hpinf) as [Hcost [l'' ->]].
    rewrite reverse_cons in Hcost. rewrite !reverse_cons, <- app_assoc.
    by eapply path_cost_snoc.
Qed.

Lemma settled_target_cost (L : Z) (st : Search) (c ch : Z)
    (rest : list (Z * Z * Z)) :
  settled L st →
  pq_pop tuple_leb (pq st) = Some ((c, target, ch), rest) →
  dist_at (dist st) target ch = c ∧ c < INF.
Proof.
  intros [Hq Hp Hr Hl Ht Hb] Hpop.
  assert ((c, target, ch) ∈ pq st) as Hin
    by (apply (pq_pop_elem _ _ _ _ Hpop); by left).
  destruct (Hq _ _ _ Hin) as (_ & Hle & Hinf & _). split; [|done].
  destruct (Ht ch) as [?|Hd]; [lia|].
  pose proof (pq_pop_least _ tuple_leb_total tuple_leb_trans _ _ _ Hpop _ Hd)
    as Hleast.
  apply tuple_leb_cost in Hleast. lia.
Qed.

Lemma search_cost (fuel0 fuel : nat) (path : list (Z * Z)) (cost : Z) :
  0 ≤ target →
  search fuel0 fuel init = Some (path, cost) →
  path ≠ [] →
  path_cost g channel_width path cost.
Proof.
  intros Ht Hs Hne.
  assert (∃ L, settled L init) as Hinit by (exists 0; apply settled_init).
  destruct (search_reaches (λ st, ∃ L, settled L st) fuel0) with (4 := Hs)
    as [[[= -> _] _]|(st & c & ch & rest & [L Hst] & Hpop & Hrec)]; [| |done..|].
  - intros st c u ch rest [L Hst] Hpop Hu _. exists c. by eapply settled_pop.
  - intros st c u ch rest [L Hst] Hpop Hu Hc. exists c. by eapply settled_step.
  - unfold reconstructPath in Hrec.
    destruct (walk_back fuel0 (prev st) target ch) as [l|] eqn:Hw; [|done].
    injection Hrec as <- <-.
    destruct (settled_target_cost _ _ _ _ _ Hst Hpop) as [<- Hinf].
    eapply walk_back_cost; eauto. lia.
Qed.

End Settled.

(** *** Same source and target *)

Lemma init_shape :
  prev init = ∅ ∧
  (∀ k v c, (k, v, c) ∈ pq init ↔
            k = 0 ∧ v = source ∧ 0 ≤ c ≤ CHANNELS - channel_width) ∧
  (∀ c, 0 ≤ c ≤ CHANNELS - channel_width → dist_at (dist init) source c = 0).
Proof.
  unfold ChannelGraph.init.
  assert (∀ l st,
    let st' := fold_left
      (λ st start_ch,
         {| dist := <[(source, start_ch) := 0]> (dist st); prev := prev st;
            pq := pq_push (0, source, start_ch) (pq st) |}) l st in
    prev st' = prev st ∧
    (∀ x, x ∈ pq st' ↔ (∃ c, c ∈ l ∧ x = (0, source, c)) ∨ x ∈ pq st) ∧
    (∀ c, c ∈ l ∨ dist_at (dist st) source c = 0 →
          dist_at (dist st') source c = 0)) as H.
  { induction l as [|a l IH]; intros st; simpl.
    - split; [done|]. split.
      + intros x. split; [by right|].
        intros [(c & Hc & _)|?]; [by apply elem_of_nil in Hc|done].
      + intros c [Hc|?]; [by apply elem_of_nil in Hc|done].
    - destruct (IH {| dist := <[(source, a) := 0]> (dist st); prev := prev st;
                      pq := pq_push (0, source, a) (pq st) |})
        as (Hp & Hq & Hd).
      split; [done|]. split.
      + intros x. rewrite Hq. simpl. unfold pq_push.
        rewrite elem_of_cons. split.
        * intros [(c & Hc & ->)|[->|?]].
          -- left. exists c. split; [by right|done].
          -- left. exists a. split; [by left|done].
          -- by right.
        * intros [(c & [->|Hc]%elem_of_cons & ->)|?].
          -- right. by left.
          -- left. by exists c.
          -- right. by right.
      + intros c Hc. apply Hd. simpl. rewrite dist_at_insert.
        destruct (decide _) as [|Hne]; [by right|].
        destruct Hc as [[->|?]%elem_of_cons|?]; [done|by left|by right]. }
  destruct (H (upto (CHANNELS - channel_width))
              {| dist := ∅; prev := ∅; pq := [] |}) as (Hp & Hq & Hd).
  split; [done|]. split.
  - intros k v c. rewrite Hq. simpl. split.
    + intros [(c' & Hc & [= -> -> ->])|?%elem_of_nil]; [|done].
      by apply elem_of_upto in Hc.
    + intros (-> & -> & Hc). left. exists c. by rewrite elem_of_upto.
  - intros c Hc. apply Hd. left. by apply elem_of_upto.
Qed.

Lemma search_same_node (fuel0 fuel : nat) :
  source = target → 0 ≤ source → channel_width ≤ CHANNELS →
  search (S (S fuel0)) (S fuel) init = Some ([(source, 0)], 0).
Proof.
  intros <- Hs Hw. destruct init_shape as (Hp & Hq & _).
  cbn [ChannelGraphExact.search].
  destruct (pq_pop tuple_leb (pq init)) as [[[[k v] c] rest]|] eqn:Hpop.
  - assert ((k, v, c) ∈ pq init) as Hin
      by (apply (pq_pop_elem _ _ _ _ Hpop); by left).
    apply Hq in Hin as (-> & -> & Hc).
    assert ((0, source, 0) ∈ pq init) as H0 by (apply Hq; lia).
    pose proof (pq_pop_least _ tuple_leb_total tuple_leb_trans _ _ _ Hpop _ H0)
      as Hle%tuple_leb_channel.
    assert (c = 0) as -> by lia.
    rewrite Z.eqb_refl. unfold reconstructPath. rewrite Hp.
    cbn [walk_back]. destruct (Z.eqb_spec source (-1)) as [->|_]; [lia|].
    unfold prev_at. rewrite lookup_empty. simpl. done.
  - apply pq_pop_None in Hpop.
    assert ((0, source, 0) ∈ pq init) as H0 by (apply Hq; lia).
    rewrite Hpop in H0. by apply elem_of_nil in H0.
Qed.

(** *** Termination, and the answer when the target is out of reach *)

Lemma zsum_nonneg (f : Z → Z) (l : list Z) :
  (∀ x, 0 ≤ f x) → 0 ≤ zsum f l.
Proof.
  intros H. induction l as [|x l IH]; simpl; [done|]. specialize (H x). lia.
Qed.

Lemma zsum_ext (f f' : Z → Z) (l : list Z) :
  (∀ x, x ∈ l → f' x = f x) → zsum f' l = zsum f l.
Proof.
  induction l as [|x l IH]; intros H; simpl; [done|].
  rewrite H by (by left). rewrite IH; [done|]. intros y Hy. apply H. by right.
Qed.

Lemma zsum_update (f f' : Z → Z) (l : list Z) (x : Z) :
  NoDup l → x ∈ l → (∀ y, y ≠ x → f' y = f y) →
  zsum f' l = zsum f l - f x + f' x.
Proof.
  intros Hnd Hx Hf. induction Hnd as [|a l Ha Hnd IH]; simpl.
  - by apply elem_of_nil in Hx.
  - apply elem_of_cons in Hx as [<-|Hx].
    + rewrite (zsum_ext f f' l); [lia|]. intros y Hy. apply Hf. by intros ->.
    + rewrite IH by done. rewrite Hf; [lia|]. by intros ->.
Qed.

Lemma NoDup_upto (hi : Z) : NoDup (upto hi).
Proof. apply NoDup_seqZ. Qed.

Lemma total_dist_insert (d : gmap (Z * Z) Z) (v c x : Z) :
  0 ≤ v < node_count g → 0 ≤ c ≤ CHANNELS - 1 →
  total_dist (node_count g) (<[(v, c) := x]> d)
  = total_dist (node_count g) d - dist_at d v c + x.
Proof.
  intros Hv Hc. unfold total_dist.
  set (d' := <[(v, c) := x]> d).
  assert (zsum (λ c', dist_at d' v c') (upto (CHANNELS - 1))
          = zsum (λ c', dist_at d v c') (upto (CHANNELS - 1))
            - dist_at d v c + x) as Hrow.
  { rewrite (zsum_update (λ c', dist_at d v c') (λ c', dist_at d' v c')
                         (upto (CHANNELS - 1)) c).
    - unfold d'. rewrite dist_at_insert, decide_True by done. lia.
    - apply NoDup_upto.
    - by apply elem_of_upto.
    - intros y Hy. unfold d'.
      rewrite dist_at_insert, decide_False; [done|]. congruence. }
  rewrite (zsum_update
             (λ v', zsum (λ c', dist_at d v' c') (upto (CHANNELS - 1)))
             (λ v', zsum (λ c', dist_at d' v' c') (upto (CHANNELS - 1)))
             (upto (node_count g - 1)) v).
  - cbv beta. rewrite Hrow. lia.
  - apply NoDup_upto.
  - apply elem_of_upto. lia.
  - intros y Hy. apply zsum_ext. intros c' _. unfold d'.
    rewrite dist_at_insert, decide_False; [done|]. congruence.
Qed.

Lemma total_dist_nonneg (d : gmap (Z * Z) Z) :
  (∀ v c, 0 ≤ dist_at d v c) → 0 ≤ total_dist (node_count g) d.
Proof.
  intros H. unfold total_dist. apply zsum_nonneg. intros v.
  apply zsum_nonneg. intros c. apply H.
Qed.

Section Exploring.
Hypothesis g_wf : well_formed g.
Hypothesis g_nonneg : nonnegative g.
Hypothesis width_pos : 1 ≤ channel_width.

Local Abbreviation exploring := (exploring g source channel_width).
Local Abbreviation potential := (potential (node_count g)).

Lemma exploring_init : exploring init.
Proof.
  apply init_preserves.
  - split; simpl.
    + intros v c. unfold dist_at. rewrite lookup_empty. simpl.
      unfold INF, INT_MAX. lia.
    + intros ??? H. by apply elem_of_nil in H.
  - intros st ch Hch [Hd Hq]. split; simpl.
    + intros v c. rewrite dist_at_insert. destruct (decide _); [lia|done].
    + intros k v c [[= -> -> ->]|H]%elem_of_cons; [|eauto].
      split_and!; [lia..|]. by left.
Qed.

Lemma exploring_pop (st : Search) (x : Z * Z * Z) (rest : list (Z * Z * Z)) :
  exploring st → pq_pop tuple_leb (pq st) = Some (x, rest) →
  exploring (set_pq st rest) ∧
  potential (set_pq st rest) = potential st - 1.
Proof.
  intros [Hd Hq] Hpop. split.
  - split; simpl; [done|]. intros k v c H. apply Hq.
    apply (pq_pop_elem _ _ _ _ Hpop). by right.
  - unfold ChannelGraphSpec.potential. simpl.
    rewrite (pq_pop_length _ _ _ _ Hpop). lia.
Qed.

Lemma exploring_relax (c u uch : Z) (e : Edge) (st : Search) (vch : Z) :
  e ∈ adj g u →
  vch ∈ possible_start_channels u uch →
  0 ≤ c → 0 ≤ uch ≤ CHANNELS - channel_width →
  u = source ∨ walk g channel_width source u uch →
  exploring st →
  exploring (relax c u uch e st vch) ∧
  potential (relax c u uch e st vch) ≤ potential st.
Proof.
  intros He Hv Hc Huch Hu [Hd Hq].
  destruct (relax_cases c u uch e st vch) as [->|(_ & Hlt & ->)]; [done|].
  set (seg := calculateChannelCost (channel_costs e) vch channel_width) in *.
  assert (0 ≤ seg) as Hseg
    by (apply calculateChannelCost_nonneg; by eapply g_nonneg).
  pose proof (possible_start_channels_range _ _ _ Huch Hv) as Hvch.
  split.
  - split; simpl.
    + intros v c'. rewrite dist_at_insert. destruct (decide _); [lia|done].
    + intros k v c' [[= -> -> ->]|H]%elem_of_cons; [|eauto].
      split_and!; [lia..|]. right.
      destruct (decide (u = source)) as [->|Hne]; [by apply walk_first|].
      destruct Hu as [?|Hwalk]; [done|].
      eapply walk_step; [done..|].
      revert Hv. unfold ChannelGraph.possible_start_channels.
      destruct (supports g u); simpl; [by left|].
      destruct (Z.eqb_spec u source); [done|].
      intros ->%list_elem_of_singleton. by right.
  - unfold ChannelGraphSpec.potential. simpl.
    rewrite total_dist_insert.
    + lia.
    + by destruct (g_wf _ _ He).
    + lia.
Qed.

Lemma exploring_step (st : Search) (c u ch : Z) (rest : list (Z * Z * Z)) :
  exploring st → pq_pop tuple_leb (pq st) = Some ((c, u, ch), rest) →
  exploring (expand c u ch (set_pq st rest)) ∧
  potential (expand c u ch (set_pq st rest)) ≤ potential st - 1.
Proof.
  intros Hst Hpop.
  assert ((c, u, ch) ∈ pq st) as Hin
    by (apply (pq_pop_elem _ _ _ _ Hpop); by left).
  destruct (exploring_queue _ _ _ _ Hst _ _ _ Hin) as (Hc & Hch & Hu).
  destruct (exploring_pop _ _ _ Hst Hpop) as [Hst' Hpot].
  apply (expand_preserves
    (λ st', exploring st' ∧ potential st' ≤ potential st - 1)).
  - intros st' e vch He Hv [Hs Hp'].
    destruct (exploring_relax c u ch e st' vch) as [? ?]; try done.
    split; [done|lia].
  - split; [done|lia].
Qed.

Lemma rooted_init : rooted source channel_width init.
Proof.
  destruct init_shape as (Hp & _ & Hd). split.
  - intros c. by rewrite Hp, lookup_empty.
  - intros c Hc. by rewrite Hd.
Qed.

Lemma rooted_relax (c u uch : Z) (e : Edge) (st : Search) (vch : Z) :
  e ∈ adj g u → 0 ≤ c → 0 ≤ vch ≤ CHANNELS - channel_width →
  rooted source channel_width st →
  rooted source channel_width (relax c u uch e st vch).
Proof.
  intros He Hc Hv [Hp Hd].
  destruct (relax_cases c u uch e st vch) as [->|(_ & Hlt & ->)]; [done|].
  pose proof (calculateChannelCost_nonneg (channel_costs e) vch channel_width
                (g_nonneg _ _ He)) as Hseg.
  assert (to e ≠ source) as Hne.
  { intros Heq. rewrite Heq in Hlt. specialize (Hd vch Hv). lia. }
  split; simpl.
  - intros c'. rewrite lookup_insert_ne by congruence. apply Hp.
  - intros c' Hc'. rewrite dist_at_insert, decide_False by congruence.
    by apply Hd.
Qed.

Lemma rooted_step (st : Search) (c u ch : Z) (rest : list (Z * Z * Z)) :
  exploring st → rooted source channel_width st →
  pq_pop tuple_leb (pq st) = Some ((c, u, ch), rest) →
  rooted source channel_width (expand c u ch (set_pq st rest)).
Proof.
  intros Hst Hr Hpop.
  assert ((c, u, ch) ∈ pq st) as Hin
    by (apply (pq_pop_elem _ _ _ _ Hpop); by left).
  destruct (exploring_queue _ _ _ _ Hst _ _ _ Hin) as (Hc & Hch & _).
  apply expand_preserves; [|done].
  intros st' e vch He Hv Hs. apply rooted_relax; [done..| |done].
  by eapply possible_start_channels_range.
Qed.

(** A node entered from another one along the returned path is not the
    source. *)
Lemma search_source_first (fuel0 fuel : nat) (path : list (Z * Z)) (cost : Z)
    (x : Z * Z) (b cb : Z) :
  search fuel0 fuel init = Some (path, cost) →
  adjacent x (b, cb) path →
  b ≠ source.
Proof.
  intros Hs Hadj.
  destruct (search_reaches
              (λ st, exploring st ∧ rooted source channel_width st) fuel0)
    with (4 := Hs)
    as [[[= -> _] _]|(st & k & ch & rest & [_ Hst] & Hpop & Hrec)].
  - intros st k u ch rest [He Hr] Hpop _ _.
    split; [by eapply exploring_pop|exact Hr].
  - intros st k u ch rest [He Hr] Hpop _ _.
    split; [by eapply exploring_step|by eapply rooted_step].
  - split; [apply exploring_init|apply rooted_init].
  - destruct Hadj as ([|??] & ? & ?); done.
  - unfold reconstructPath in Hrec.
    destruct (walk_back fuel0 (prev st) target ch) as [l|] eqn:Hw; [|done].
    injection Hrec as <- <-. apply adjacent_reverse in Hadj.
    pose proof (walk_back_adjacent _ _ _ _ _ _ _ Hw Hadj) as Hp.
    intros ->. by rewrite (proj1 Hst) in Hp.
Qed.

Lemma search_unreachable (fuel0 : nat) :
  ¬ connected g channel_width source target →
  ∀ fuel st, exploring st → potential st < Z.of_nat fuel →
             search fuel0 fuel st = Some ([], INF).
Proof.
  intros Hcon. induction fuel as [|fuel IH]; intros st Hst Hpot.
  { pose proof (total_dist_nonneg (dist st) (exploring_dist _ _ _ _ Hst)).
    unfold ChannelGraphSpec.potential in Hpot. lia. }
  cbn [ChannelGraphExact.search].
  destruct (pq_pop tuple_leb (pq st)) as [[[[c u] ch] rest]|] eqn:Hpop; [|done].
  assert ((c, u, ch) ∈ pq st) as Hin
    by (apply (pq_pop_elem _ _ _ _ Hpop); by left).
  destruct (exploring_queue _ _ _ _ Hst _ _ _ Hin) as (_ & _ & Hu).
  destruct (Z.eqb_spec u target) as [->|_].
  { exfalso. apply Hcon. destruct Hu as [->|?]; [by left|right; eauto]. }
  destruct (c >? dist_at (dist st) u ch).
  - destruct (exploring_pop _ _ _ Hst Hpop) as [? ?].
    unfold set_pq in *. apply IH; [done|lia].
  - destruct (exploring_step _ _ _ _ _ Hst Hpop) as [? ?].
    unfold set_pq in *. apply IH; [done|lia].
Qed.

End Exploring.

(** *** Termination of the query *)

Lemma walk_back_S (fuel : nat) (p : gmap (Z * Z) (Z * Z)) (n c : Z) :
  walk_back (S fuel) p n c =
  if n =? -1 then Some []
  else
    let '(prev_node, prev_ch) := prev_at p n c in
    match walk_back fuel p prev_node prev_ch with
    | Some l => Some ((n, c) :: l)
    | None => None
    end.
Proof. done. Qed.

Lemma walk_back_mono (p : gmap (Z * Z) (Z * Z)) :
  ∀ fuel fuel' n c l,
    walk_back fuel p n c = Some l → (fuel ≤ fuel')%nat →
    walk_back fuel' p n c = Some l.
Proof.
  induction fuel as [|fuel IH]; intros fuel' n c l; simpl; [done|].
  destruct fuel' as [|fuel']; [lia|]. simpl.
  destruct (n =? -1); [done|].
  destruct (prev_at p n c) as [pn pc].
  destruct (walk_back fuel p pn pc) as [l'|] eqn:Hw; [|done].
  intros [= <-] Hle. rewrite (IH fuel' _ _ _ Hw); [done|lia].
Qed.

Section Progress.
Hypothesis g_wf : well_formed g.
Hypothesis g_nonneg : nonnegative g.
Hypothesis width_pos : 1 ≤ channel_width.
Hypothesis source_nonneg : 0 ≤ source.

Local Abbreviation settled := (settled g source target channel_width).
Local Abbreviation exploring := (exploring g source channel_width).
Local Abbreviation potential := (potential (node_count g)).
Local Abbreviation progressing :=
  (progressing g source target channel_width).
Local Abbreviation expanding :=
  (expanding g source target channel_width).

Lemma walk_back_ranked (L : Z) (rank : gmap (Z * Z) nat) (n : nat)
    (st : Search) :
  settled L st → ranked L rank n st →
  ∀ r v c, rank !! (v, c) = Some r → v ≠ -1 →
           ∃ l, walk_back (S (S r)) (prev st) v c = Some l.
Proof.
  intros Hs Hr r. induction (lt_wf r) as [r _ IH]. intros v c Hrank Hv.
  rewrite walk_back_S. destruct (Z.eqb_spec v (-1)); [done|].
  destruct (prev_at (prev st) v c) as [pn pc] eqn:Hp.
  destruct (decide (pn = -1)) as [->|Hpn].
  - rewrite walk_back_S. simpl. by eexists.
  - apply prev_at_Some in Hp; [|done].
    destruct (ranked_prev _ _ _ _ Hr _ _ _ _ Hp) as (r0 & Hr0 & Hlt).
    specialize (Hlt _ Hrank).
    destruct (IH r0 Hlt pn pc Hr0 Hpn) as [l Hl].
    rewrite (walk_back_mono _ _ (S r) _ _ _ Hl) by lia. by eexists.
Qed.

(** From any state in the queue the walk along [prev] ends. *)
Lemma walk_back_total (L : Z) (rank : gmap (Z * Z) nat) (n : nat)
    (st : Search) (fuel : nat) (v c : Z) :
  settled L st → ranked L rank n st →
  v ≠ -1 → (n + 3 ≤ fuel)%nat →
  ∃ l, walk_back fuel (prev st) v c = Some l.
Proof.
  intros Hs Hr Hv Hfuel.
  destruct fuel as [|fuel]; [lia|]. rewrite walk_back_S.
  destruct (Z.eqb_spec v (-1)); [done|].
  destruct (prev_at (prev st) v c) as [pn pc] eqn:Hp.
  destruct (decide (pn = -1)) as [->|Hpn].
  - destruct fuel; [lia|]. rewrite walk_back_S. simpl. by eexists.
  - apply prev_at_Some in Hp; [|done].
    destruct (ranked_prev _ _ _ _ Hr _ _ _ _ Hp) as (r0 & Hr0 & _).
    destruct (ranked_dist _ _ _ _ Hr _ _ _ Hr0) as [_ Hlt].
    destruct (walk_back_ranked _ _ _ _ Hs Hr _ _ _ Hr0 Hpn) as [l Hl].
    rewrite (walk_back_mono _ _ fuel _ _ _ Hl) by lia. by eexists.
Qed.

Lemma ranked_relax (c u uch : Z) (e : Edge) (st : Search) (vch : Z)
    (rank : gmap (Z * Z) nat) (n : nat) :
  e ∈ adj g u → is_Some (rank !! (u, uch)) →
  ranked c rank n st →
  ranked c rank n (relax c u uch e st vch).
Proof.
  intros He [ru Hru] [Hp Hd].
  destruct (relax_cases c u uch e st vch) as [->|(_ & Hlt & ->)]; [done|].
  pose proof (calculateChannelCost_nonneg (channel_costs e) vch channel_width
                (g_nonneg _ _ He)) as Hseg.
  assert (rank !! (to e, vch) = None) as Hnone.
  { destruct (rank !! (to e, vch)) as [r|] eqn:E; [|done].
    destruct (Hd _ _ _ E) as [? _]. lia. }
  split; simpl.
  - intros v c' u' cu' [[[= <- <-] [= <- <-]]|[Hne H]]%lookup_insert_Some.
    + exists ru. split; [done|]. intros r'. by rewrite Hnone.
    + by apply Hp.
  - intros v c' r Hr. rewrite dist_at_insert.
    destruct (decide _) as [[= <- <-]|]; [congruence|by apply Hd].
Qed.

Lemma progressing_init :
  progressing (potential init) init.
Proof.
  exists 0, ∅, 0%nat. split_and!.
  - by apply settled_init.
  - by apply exploring_init.
  - destruct init_shape as (Hp & _ & _). split.
    + intros v c u cu. by rewrite Hp, lookup_empty.
    + intros v c r. by rewrite lookup_empty.
  - lia.
Qed.

Lemma progressing_stale (P0 : Z) (st : Search) (c u ch : Z)
    (rest : list (Z * Z * Z)) :
  progressing P0 st →
  pq_pop tuple_leb (pq st) = Some ((c, u, ch), rest) → u ≠ target →
  progressing P0 (set_pq st rest) ∧
  potential (set_pq st rest) = potential st - 1.
Proof.
  intros (L & rank & n & Hs & He & Hr & Hn) Hpop Hu.
  destruct (exploring_pop _ _ _ He Hpop) as [He' Hpot].
  split; [|done]. exists c, rank, n. split_and!; [|done| |lia].
  - by eapply settled_pop.
  - assert ((c, u, ch) ∈ pq st) as Hin
      by (apply (pq_pop_elem _ _ _ _ Hpop); by left).
    destruct (settled_queue _ _ _ _ _ _ Hs _ _ _ Hin) as (HL & _).
    destruct Hr as [Hp Hd]. split; simpl; [done|].
    intros v c' r Hrk. destruct (Hd _ _ _ Hrk). split; [lia|done].
Qed.

Lemma expanding_pop (P0 : Z) (st : Search) (c u ch : Z)
    (rest : list (Z * Z * Z)) :
  progressing P0 st →
  pq_pop tuple_leb (pq st) = Some ((c, u, ch), rest) → u ≠ target →
  c ≤ dist_at (dist st) u ch →
  ∃ rank n,
    expanding c u ch (potential st - 1) rank n (set_pq st rest) ∧
    Z.of_nat n + (potential st - 1) ≤ P0.
Proof.
  intros (L & rank & n & Hs & He & Hr & Hn) Hpop Hu Hc.
  assert ((c, u, ch) ∈ pq st) as Hin
    by (apply (pq_pop_elem _ _ _ _ Hpop); by left).
  destruct (settled_queue _ _ _ _ _ _ Hs _ _ _ Hin) as (HL & Hle & _ & Hu0).
  destruct (exploring_queue _ _ _ _ He _ _ _ Hin) as (Hc0 & Hch & Hwalk).
  destruct (exploring_pop _ _ _ He Hpop) as [He' Hpot].
  set (rank' := match rank !! (u, ch) with
                | Some _ => rank
                | None => <[(u, ch) := n]> rank
                end).
  assert (is_Some (rank' !! (u, ch))) as Hsome.
  { unfold rank'. destruct (rank !! (u, ch)) eqn:E; [by rewrite E|].
    rewrite lookup_insert_eq. by eexists. }
  assert (∀ x r, rank !! x = Some r → rank' !! x = Some r) as Hold.
  { intros x r Hx. unfold rank'.
    destruct (rank !! (u, ch)) eqn:E; [done|].
    rewrite lookup_insert_ne; [done|]. intros <-. congruence. }
  assert (∀ x r, rank' !! x = Some r →
                 rank !! x = Some r ∨ (x = (u, ch) ∧ r = n)) as Hnew.
  { intros x r. unfold rank'.
    destruct (rank !! (u, ch)) eqn:E; [by left|].
    intros [[<- <-]|[_ ?]]%lookup_insert_Some; [by right|by left]. }
  exists rank', (S n). split; [|lia].
  split_and!; try done;
    [by eapply settled_pop|simpl; lia|lia| |lia|lia].
  destruct Hr as [Hp Hd]. split; simpl.
  - intros v c' u' cu' H. destruct (Hp _ _ _ _ H) as (r & Hr1 & Hr2).
    exists r. split; [by apply Hold|].
    intros r' [?|[[= -> ->] ->]]%Hnew; [by apply Hr2|].
    by destruct (Hd _ _ _ Hr1).
  - intros v c' r [Hrk|[[= -> ->] ->]]%Hnew.
    + destruct (Hd _ _ _ Hrk). split; lia.
    + split; lia.
Qed.

Lemma expanding_relax (c u ch B : Z) (rank : gmap (Z * Z) nat) (n : nat)
    (e : Edge) (st : Search) (vch : Z) :
  e ∈ adj g u → vch ∈ possible_start_channels u ch →
  expanding c u ch B rank n st →
  expanding c u ch B rank n (relax c u ch e st vch).
Proof.
  intros He Hv (Hsd & [He1 Hp1] & Hrk & Hsome & Hc & Hu & Hch & Hw).
  destruct (exploring_relax g_wf g_nonneg width_pos c u ch e st vch)
    as [He2 Hp2]; try done.
  split; [by apply settled_relax|].
  split; [split; [done|lia]|].
  split; [by apply ranked_relax|done].
Qed.

Lemma expanding_done (P0 : Z) (c u ch B : Z) (rank : gmap (Z * Z) nat)
    (n : nat) (st : Search) :
  expanding c u ch B rank n st → Z.of_nat n + B ≤ P0 →
  progressing P0 st ∧ potential st ≤ B.
Proof.
  intros ([Hs _] & [He Hp] & Hr & _) Hn. split; [|done].
  exists c, rank, n. split_and!; [done..|lia].
Qed.

Lemma progressing_step (P0 : Z) (st : Search) (c u ch : Z)
    (rest : list (Z * Z * Z)) :
  progressing P0 st →
  pq_pop tuple_leb (pq st) = Some ((c, u, ch), rest) → u ≠ target →
  c ≤ dist_at (dist st) u ch →
  progressing P0 (expand c u ch (set_pq st rest)) ∧
  potential (expand c u ch (set_pq st rest)) ≤ potential st - 1.
Proof.
  intros Hst Hpop Hu Hc.
  destruct (expanding_pop _ _ _ _ _ _ Hst Hpop Hu Hc)
    as (rank & n & Hex & Hn).
  eapply expanding_done; [|exact Hn].
  apply (expand_preserves
           (expanding c u ch (potential st - 1) rank n)); [|done].
  intros st' e vch He Hv. by apply expanding_relax.
Qed.

Lemma search_total (fuel0 : nat) (P0 : Z) :
  0 ≤ target →
  P0 + 3 ≤ Z.of_nat fuel0 →
  ∀ fuel st, progressing P0 st → potential st < Z.of_nat fuel →
             ∃ r, search fuel0 fuel st = Some r.
Proof.
  intros Ht Hfuel0. induction fuel as [|fuel IH]; intros st Hst Hpot.
  { destruct Hst as (L & rank & n & _ & He & _ & _).
    pose proof (total_dist_nonneg (dist st) (exploring_dist _ _ _ _ He)).
    unfold ChannelGraphSpec.potential in Hpot. lia. }
  cbn [ChannelGraphExact.search].
  destruct (pq_pop tuple_leb (pq st)) as [[[[c u] ch] rest]|] eqn:Hpop;
    [|by eexists].
  destruct (Z.eqb_spec u target) as [->|Hu].
  - destruct Hst as (L & rank & n & Hs & He & Hr & Hn).
    pose proof (total_dist_nonneg (dist st) (exploring_dist _ _ _ _ He)).
    destruct (walk_back_total L rank n st fuel0 target ch) as [l Hl];
      [done..|lia| |].
    { unfold ChannelGraphSpec.potential in Hn. lia. }
    unfold reconstructPath. rewrite Hl. by eexists.
  - destruct (Z.gtb_spec c (dist_at (dist st) u ch)).
    + destruct (progressing_stale _ _ _ _ _ _ Hst Hpop Hu) as [? ?].
      unfold set_pq in *. apply IH; [done|lia].
    + destruct (progressing_step _ _ _ _ _ _ Hst Hpop Hu) as [? ?]; [lia|].
      unfold set_pq in *. apply IH; [done|lia].
Qed.

End Progress.

(** *** The query as a whole *)

Local Abbreviation findShortestPath :=
  (findShortestPath g source target channel_width).

Lemma findShortestPath_valid (fuel : nat) :
  1 ≤ channel_width ≤ 3 →
  0 ≤ source < node_count g → 0 ≤ target < node_count g →
  findShortestPath fuel = Returned <$> search fuel fuel init.
Proof.
  intros Hw Hs Ht. unfold ChannelGraphExact.findShortestPath.
  destruct (Z.ltb_spec channel_width 1); [lia|].
  destruct (Z.gtb_spec channel_width 3); [lia|].
  destruct (Z.ltb_spec source 0); [lia|].
  destruct (Z.geb_spec source (node_count g)); [lia|].
  destruct (Z.ltb_spec target 0); [lia|].
  destruct (Z.geb_spec target (node_count g)); [lia|].
  done.
Qed.

Lemma findShortestPath_Returned (fuel : nat) (r : list (Z * Z) * Z) :
  findShortestPath fuel = Some (Returned r) →
  1 ≤ channel_width ≤ 3 ∧
  0 ≤ source < node_count g ∧ 0 ≤ target < node_count g ∧
  search fuel fuel init = Some r.
Proof.
  unfold ChannelGraphExact.findShortestPath.
  destruct (Z.ltb_spec channel_width 1); [done|].
  destruct (Z.gtb_spec channel_width 3); [done|].
  destruct (Z.ltb_spec source 0); [done|].
  destruct (Z.geb_spec source (node_count g)); [done|].
  destruct (Z.ltb_spec target 0); [done|].
  destruct (Z.geb_spec target (node_count g)); [done|].
  simpl. destruct (search fuel fuel init) as [r'|]; [|done].
  intros [= <-]. split_and!; (lia || done).
Qed.

End Facts.

(** The four results on [findShortestPath] that the claims below rest on. *)

Lemma cg_channels (g : Graph) (source target w : Z) (fuel : nat)
    (path : list (Z * Z)) (cost : Z) :
  findShortestPath g source target w fuel = Some (Returned (path, cost)) →
  ∀ n c, (n, c) ∈ path → 0 ≤ c ≤ CHANNELS - w.
Proof.
  intros (_ & _ & _ & Hs)%findShortestPath_Returned.
  destruct (search_reaches g source target w (channels_in_range w) fuel)
    with (4 := Hs)
    as [[[= -> _] _]|(st & k & ch & rest & Hst & Hpop & Hrec)].
  - intros st c u ch rest Hst Hpop _ _. by eapply channels_in_range_pop.
  - intros st c u ch rest Hst Hpop _ _. by eapply channels_in_range_step.
  - apply channels_in_range_init.
  - intros n c H. by apply elem_of_nil in H.
  - unfold reconstructPath in Hrec.
    destruct (walk_back fuel (prev st) target ch) as [l|] eqn:Hw; [|done].
    injection Hrec as <- <-. intros n c Hn. rewrite elem_of_reverse in Hn.
    assert (Forall (λ x, 0 ≤ x.2 ≤ CHANNELS - w) l) as Hall.
    { eapply walk_back_Forall; [|exact Hw|].
      - intros [v c'] [u cu] _ Hp. simpl.
        by destruct (proj2 Hst _ _ _ _ Hp).
      - simpl. apply (proj1 Hst k target ch).
        apply (pq_pop_elem _ _ _ _ Hpop). by left. }
    rewrite Forall_forall in Hall. by apply (Hall (n, c)).
Qed.

Lemma cg_continuity (g : Graph) (source target w : Z) (fuel : nat)
    (path : list (Z * Z)) (cost : Z) (b cb c cc : Z) :
  findShortestPath g source target w fuel = Some (Returned (path, cost)) →
  adjacent (b, cb) (c, cc) path →
  supports g b = false → b ≠ source →
  cc = cb.
Proof.
  intros (_ & _ & _ & Hs)%findShortestPath_Returned Hadj Hb Hsrc.
  destruct (search_reaches g source target w (continuity g source) fuel)
    with (4 := Hs)
    as [[[= -> _] _]|(st & k & ch & rest & Hst & Hpop & Hrec)].
  - intros st k u ch rest Hst Hpop _ _. exact Hst.
  - intros st k u ch rest Hst Hpop _ _.
    apply expand_preserves; [|exact Hst].
    intros st' e vch _ Hv. by apply continuity_relax.
  - apply continuity_init.
  - destruct Hadj as ([|??] & ? & ?); done.
  - unfold reconstructPath in Hrec.
    destruct (walk_back fuel (prev st) target ch) as [l|] eqn:Hw; [|done].
    injection Hrec as <- <-. apply adjacent_reverse in Hadj.
    pose proof (walk_back_adjacent _ _ _ _ _ _ _ Hw Hadj) as Hp.
    destruct (Hst _ _ _ _ Hp) as [?|[?|?]]; congruence.
Qed.

Lemma cg_source_first (g : Graph) (source target w : Z) (fuel : nat)
    (path : list (Z * Z)) (cost : Z) (x : Z * Z) (b cb : Z) :
  well_formed g → nonnegative g →
  findShortestPath g source target w fuel = Some (Returned (path, cost)) →
  adjacent x (b, cb) path →
  b ≠ source.
Proof.
  intros Hwf Hnn (Hw & _ & _ & Hs)%findShortestPath_Returned Hadj.
  eapply search_source_first; eauto. lia.
Qed.

Lemma cg_cost (g : Graph) (source target w : Z) (fuel : nat)
    (path : list (Z * Z)) (cost : Z) :
  well_formed g → nonnegative g →
  findShortestPath g source target w fuel = Some (Returned (path, cost)) →
  path ≠ [] →
  path_cost g w path cost.
Proof.
  intros Hwf Hnn (_ & Hs & Ht & Hr)%findShortestPath_Returned Hne.
  eapply search_cost; eauto; lia.
Qed.

Lemma cg_same_node (g : Graph) (source w : Z) (fuel : nat) :
  1 ≤ w ≤ 3 → 0 ≤ source < node_count g →
  findShortestPath g source source w (S (S fuel))
  = Some (Returned ([(source, 0)], 0)).
Proof.
  intros Hw Hs. rewrite findShortestPath_valid by done.
  rewrite search_same_node; [done..|lia|unfold CHANNELS; lia].
Qed.

(** On a valid graph and a valid query the search always comes to an end
    and returns, with no exception: the loop of [findShortestPath] and the
    loop of [reconstructPath] both terminate. *)
Lemma cg_terminates (g : Graph) (source target w : Z) :
  well_formed g → nonnegative g →
  1 ≤ w ≤ 3 → 0 ≤ source < node_count g → 0 ≤ target < node_count g →
  ∃ fuel0, ∀ fuel, (fuel0 ≤ fuel)%nat →
    ∃ path cost,
      findShortestPath g source target w fuel = Some (Returned (path, cost)).
Proof.
  intros Hwf Hnn Hw Hs Ht.
  assert (0 ≤ source) as Hs0 by lia.
  pose proof (progressing_init g source target w Hs0) as Hinit.
  assert (0 ≤ potential (node_count g) (init source w)) as Hpot.
  { destruct Hinit as (L & rank & n & _ & He & _ & _).
    pose proof (total_dist_nonneg g _ (exploring_dist _ _ _ _ He)).
    unfold potential. lia. }
  exists (Z.to_nat (potential (node_count g) (init source w)) + 3)%nat.
  intros fuel Hfuel. rewrite findShortestPath_valid by done.
  destruct (search_total g source target w Hwf Hnn) with
    (fuel0 := fuel) (fuel := fuel) (st := init source w)
    (P0 := potential (node_count g) (init source w)) as [[path cost] Hr];
    [lia|lia|lia|done|lia|].
  exists path, cost. by rewrite Hr.
Qed.

Lemma cg_unreachable (g : Graph) (source target w : Z) :
  well_formed g → nonnegative g →
  1 ≤ w ≤ 3 → 0 ≤ source < node_count g → 0 ≤ target < node_count g →
  ¬ connected g w source target →
  ∃ fuel0, ∀ fuel, (fuel0 ≤ fuel)%nat →
    findShortestPath g source target w fuel = Some (Returned ([], INF)).
Proof.
  intros Hwf Hnn Hw Hs Ht Hcon.
  exists (S (Z.to_nat (potential (node_count g) (init source w)))).
  intros fuel Hfuel. rewrite findShortestPath_valid by done.
  rewrite (search_unreachable g source target w Hwf Hnn); [done|lia|done| |].
  - by apply exploring_init.
  - lia.
Qed.

(** *** Segment costs as sums of slices *)

Lemma calculateChannelCost_sum (costs : list Z) (start w : Z) :
  Z.of_nat (length costs) = CHANNELS →
  1 ≤ w ≤ 3 → 0 ≤ start → start + w ≤ CHANNELS →
  calculateChannelCost costs start w = segment_sum costs start w.
Proof.
  intros Hlen Hw H0 H1. unfold calculateChannelCost.
  destruct (Z.gtb_spec (start + w) CHANNELS); [lia|].
  assert (w = 1 ∨ w = 2 ∨ w = 3) as [-> | [-> | ->]] by lia.
  - change (upto (1 - 1)) with [0]. cbn [fold_left].
    rewrite segment_sum_1, Z.add_0_r by lia. lia.
  - change (upto (2 - 1)) with [0; 1]. cbn [fold_left].
    rewrite segment_sum_2, Z.add_0_r by lia. lia.
  - change (upto (3 - 1)) with [0; 1; 2]. cbn [fold_left].
    rewrite segment_sum_3, Z.add_0_r by lia. lia.
Qed.

Lemma path_cost_sum (g : Graph) (w : Z) (path : list (Z * Z)) (total : Z) :
  well_formed g → 1 ≤ w ≤ 3 →
  (∀ n c, (n, c) ∈ path → 0 ≤ c ≤ CHANNELS - w) →
  path_cost g w path total → path_sum g w path total.
Proof.
  intros Hwf Hw Hch Hpc. induction Hpc as [x|p u cu v c e total Hpc IH He Hto].
  - constructor.
  - rewrite calculateChannelCost_sum.
    + eapply path_sum_snoc; [|done..]. apply IH.
      intros n c' Hin. apply (Hch n c').
      rewrite elem_of_app in Hin. rewrite elem_of_app.
      destruct Hin as [?|Hin]; [by left|right].
      apply list_elem_of_singleton in Hin as ->. by left.
    + by destruct (Hwf _ _ He).
    + done.
    + apply (Hch v c). rewrite elem_of_app. right. right. by left.
    + assert (0 ≤ c ≤ CHANNELS - w) as Hc; [|lia].
      apply (Hch v c). rewrite elem_of_app. right. right. by left.
Qed.

(** *** Building the graph *)

Lemma addEdge_out_of_range (g : Graph) (u v : Z) (costs : list Z) :
  u < 0 ∨ node_count g ≤ u ∨ v < 0 ∨ node_count g ≤ v →
  addEdge g u v costs = Thrown out_of_range.
Proof.
  intros H. unfold addEdge.
  destruct (Z.ltb_spec u 0), (Z.geb_spec u (node_count g)),
    (Z.ltb_spec v 0), (Z.geb_spec v (node_count g)); simpl; (done || lia).
Qed.

Lemma addEdge_bad_length (g : Graph) (u v : Z) (costs : list Z) :
  0 ≤ u < node_count g → 0 ≤ v < node_count g →
  Z.of_nat (length costs) ≠ CHANNELS →
  addEdge g u v costs = Thrown invalid_argument.
Proof.
  intros Hu Hv Hlen. unfold addEdge.
  destruct (Z.ltb_spec u 0), (Z.geb_spec u (node_count g)),
    (Z.ltb_spec v 0), (Z.geb_spec v (node_count g)); simpl; try lia.
  by destruct (Z.eqb_spec (Z.of_nat (length costs)) CHANNELS).
Qed.

Lemma addEdge_Returned (g g' : Graph) (u v : Z) (costs : list Z) :
  addEdge g u v costs = Returned g' →
  0 ≤ u < node_count g ∧ 0 ≤ v < node_count g ∧
  Z.of_nat (length costs) = CHANNELS ∧
  node_count g' = node_count g ∧
  node_support_convert g' = node_support_convert g ∧
  ∀ x e, e ∈ adj g' x ↔
         e ∈ adj g x ∨ (x = u ∧ e = mkEdge v costs)
                     ∨ (x = v ∧ e = mkEdge u costs).
Proof.
  unfold addEdge.
  destruct (Z.ltb_spec u 0), (Z.geb_spec u (node_count g)),
    (Z.ltb_spec v 0), (Z.geb_spec v (node_count g)); simpl; try done.
  destruct (Z.eqb_spec (Z.of_nat (length costs)) CHANNELS) as [Hlen|];
    simpl; [|done].
  intros [= <-]. split_and!; try (lia || done).
  intros x e. unfold adj; simpl.
  rewrite !lookup_insert.
  destruct (decide (v = x)) as [->|Hv], (decide (u = x)) as [->|Hu]; simpl;
    rewrite ?lookup_insert, ?decide_True, ?decide_False by done; simpl;
    rewrite ?elem_of_app, ?list_elem_of_singleton; naive_solver.
Qed.

Lemma addEdge_succeeds (g : Graph) (u v : Z) (costs : list Z) :
  0 ≤ u < node_count g → 0 ≤ v < node_count g →
  Z.of_nat (length costs) = CHANNELS →
  ∃ g', addEdge g u v costs = Returned g'.
Proof.
  intros Hu Hv Hlen. unfold addEdge.
  destruct (Z.ltb_spec u 0), (Z.geb_spec u (node_count g)),
    (Z.ltb_spec v 0), (Z.geb_spec v (node_count g)); simpl; try lia.
  destruct (Z.eqb_spec (Z.of_nat (length costs)) CHANNELS); [|done].
  simpl. eauto.
Qed.

Lemma setNodeConversion_out_of_range (g : Graph) (node : Z) (b : bool) :
  node < 0 ∨ node_count g ≤ node →
  setNodeConversion g node b = Thrown out_of_range.
Proof.
  intros H. unfold setNodeConversion.
  destruct (Z.ltb_spec node 0), (Z.geb_spec node (node_count g)); simpl;
    (done || lia).
Qed.

Lemma setNodeConversion_Returned (g g' : Graph) (node : Z) (b : bool) :
  setNodeConversion g node b = Returned g' →
  0 ≤ node < node_count g ∧
  node_count g' = node_count g ∧
  (∀ x, adj g' x = adj g x) ∧
  ∀ x, supports g' x = if decide (x = node) then b else supports g x.
Proof.
  unfold setNodeConversion.
  destruct (Z.ltb_spec node 0), (Z.geb_spec node (node_count g)); simpl;
    try done.
  intros [= <-]. split_and!; try (lia || done).
  intros x. unfold supports; simpl. rewrite lookup_insert.
  destruct (decide (node = x)), (decide (x = node)); simpl; congruence.
Qed.

Lemma well_formed_create (n : Z) : well_formed (create n).
Proof.
  intros u e. unfold adj, create; simpl. rewrite lookup_empty; simpl.
  by intros ?%elem_of_nil.
Qed.

Lemma nonnegative_create (n : Z) : nonnegative (create n).
Proof.
  intros u e. unfold adj, create; simpl. rewrite lookup_empty; simpl.
  by intros ?%elem_of_nil.
Qed.

Lemma well_formed_addEdge (g g' : Graph) (u v : Z) (costs : list Z) :
  addEdge g u v costs = Returned g' → well_formed g → well_formed g'.
Proof.
  intros (Hu & Hv & Hlen & Hn & _ & Hadj)%addEdge_Returned Hwf x e.
  rewrite Hadj, Hn. intros [He|[[-> ->]|[-> ->]]]; simpl; [by eapply Hwf|done..].
Qed.

Lemma nonnegative_addEdge (g g' : Graph) (u v : Z) (costs : list Z) :
  addEdge g u v costs = Returned g' → Forall (λ c, 0 ≤ c) costs →
  nonnegative g → nonnegative g'.
Proof.
  intros (_ & _ & _ & _ & _ & Hadj)%addEdge_Returned Hc Hnn x e.
  rewrite Hadj. intros [He|[[-> ->]|[-> ->]]]; simpl; [by eapply Hnn|done..].
Qed.

Lemma well_formed_setNodeConversion (g g' : Graph) (node : Z) (b : bool) :
  setNodeConversion g node b = Returned g' → well_formed g → well_formed g'.
Proof.
  intros (_ & Hn & Hadj & _)%setNodeConversion_Returned Hwf x e.
  rewrite Hadj, Hn. apply Hwf.
Qed.

Lemma nonnegative_setNodeConversion (g g' : Graph) (node : Z) (b : bool) :
  setNodeConversion g node b = Returned g' → nonnegative g → nonnegative g'.
Proof.
  intros (_ & _ & Hadj & _)%setNodeConversion_Returned Hnn x e.
  rewrite Hadj. apply Hnn.
Qed.

End ChannelGraphFacts.

(** ** The addition of [int]s *)
Module IntFacts.
Import ChannelGraphFacts.

Lemma wrap_exact (z : Z) : INT_MIN ≤ z ≤ INT_MAX → wrap z = z.
Proof.
  unfold wrap, INT_MIN, INT_MAX. intros H. rewrite Z.mod_small by lia. lia.
Qed.

Lemma wrap_range (z : Z) : INT_MIN ≤ wrap z ≤ INT_MAX.
Proof.
  unfold wrap, INT_MIN, INT_MAX.
  pose proof (Z.mod_pos_bound (z + 2147483648) 4294967296). lia.
Qed.

Lemma wrap_add_l (a b : Z) : wrap (wrap a + b) = wrap (a + b).
Proof.
  unfold wrap. f_equal.
  replace ((a + 2147483648) mod 4294967296 - 2147483648 + b + 2147483648)
    with ((a + 2147483648) mod 4294967296 + b) by lia.
  rewrite Z.add_mod_idemp_l by lia. f_equal. lia.
Qed.

Lemma int_add_exact (a b : Z) :
  INT_MIN ≤ a + b ≤ INT_MAX → int_add a b = a + b.
Proof. apply wrap_exact. Qed.

Lemma int_add_0_l (a : Z) : INT_MIN ≤ a ≤ INT_MAX → int_add 0 a = a.
Proof. intros H. by apply int_add_exact. Qed.

Lemma int_add_add_l (a b c : Z) :
  int_add (int_add a b) c = wrap (a + b + c).
Proof. unfold int_add. apply wrap_add_l. Qed.

(** The sum of non-negative costs only grows along the loop. *)
Lemma sum_costs_le (costs : list Z) (start : Z) (l : list Z) (a : Z) :
  Forall (λ c, 0 ≤ c) costs →
  a ≤ fold_left (λ total i, total + vget costs (start + i)) l a.
Proof.
  intros H. revert a. induction l as [|i l IH]; intros a; simpl; [done|].
  pose proof (vget_nonneg costs (start + i) H). specialize (IH (a + vget costs (start + i))). lia.
Qed.

(** A loop that adds up non-negative costs computes their sum when the sum is
    an [int]. *)
Lemma sum_costs_exact (costs : list Z) (start : Z) (l : list Z) (a : Z) :
  Forall (λ c, 0 ≤ c) costs → 0 ≤ a →
  fold_left (λ total i, total + vget costs (start + i)) l a ≤ INT_MAX →
  fold_left (λ total i, int_add total (vget costs (start + i))) l a
  = fold_left (λ total i, total + vget costs (start + i)) l a.
Proof.
  intros H. revert a. induction l as [|i l IH]; intros a Ha Hmax; simpl; [done|].
  simpl in Hmax.
  pose proof (vget_nonneg costs (start + i) H).
  pose proof (sum_costs_le costs start l (a + vget costs (start + i)) H).
  rewrite int_add_exact by (unfold INT_MIN; lia).
  apply IH; [lia|done].
Qed.

End IntFacts.

(** ** OptimizedEfficientGraph.cpp: the segment cost index *)
Module OptimizedEfficientGraphFacts.
Import OptimizedEfficientGraph.

(** The index holds what the loop of [calculateChannelCost] adds up, wrapped
    around or not. *)
Lemma getSegmentCost_direct (to : Z) (costs : list Z) (start w : Z) :
  Forall (λ c, INT_MIN ≤ c ≤ INT_MAX) costs →
  1 ≤ w ≤ 3 → 0 ≤ start → start + w ≤ CHANNELS →
  getSegmentCost (precomputeEdge to costs) start w
  = ChannelGraph.calculateChannelCost costs start w.
Proof.
  intros Hint Hw H0 H1. unfold ChannelGraph.calculateChannelCost.
  destruct (Z.gtb_spec (start + w) CHANNELS); [lia|].
  assert (INT_MIN ≤ vget costs start ≤ INT_MAX) as Hc.
  { unfold vget.
    destruct (nth_in_or_default (Z.to_nat start) costs 0) as [Hin| ->];
      [|unfold INT_MIN, INT_MAX; lia].
    rewrite Forall_forall in Hint. apply Hint. by apply list_elem_of_In. }
  assert (w = 1 ∨ w = 2 ∨ w = 3) as [-> | [-> | ->]] by lia;
    unfold getSegmentCost, precomputeEdge;
    cbn [single_costs double_costs triple_costs Z.eqb Pos.eqb].
  - change (upto (1 - 1)) with [0]. cbn [fold_left].
    rewrite Z.add_0_r. by rewrite IntFacts.int_add_0_l.
  - rewrite vget_map_upto by (unfold CHANNELS in *; lia).
    change (upto (2 - 1)) with [0; 1]. cbn [fold_left].
    rewrite Z.add_0_r. by rewrite IntFacts.int_add_0_l.
  - rewrite vget_map_upto by (unfold CHANNELS in *; lia).
    change (upto (3 - 1)) with [0; 1; 2]. cbn [fold_left].
    rewrite Z.add_0_r. by rewrite IntFacts.int_add_0_l.
Qed.

(** And that is the sum of the slice when the sum is an [int]. *)
Lemma calculateChannelCost_exact (costs : list Z) (start w : Z) :
  Forall (λ c, 0 ≤ c) costs →
  ChannelGraphExact.calculateChannelCost costs start w ≤ INT_MAX →
  ChannelGraph.calculateChannelCost costs start w
  = ChannelGraphExact.calculateChannelCost costs start w.
Proof.
  unfold ChannelGraph.calculateChannelCost,
    ChannelGraphExact.calculateChannelCost.
  intros Hnn Hmax. destruct (start + w >? CHANNELS); [done|].
  by apply IntFacts.sum_costs_exact.
Qed.

Lemma getSegmentCost_precomputed (to : Z) (costs : list Z) (start w : Z) :
  Z.of_nat (length costs) = CHANNELS →
  1 ≤ w ≤ 3 → 0 ≤ start → start + w ≤ CHANNELS →
  Forall (λ c, 0 ≤ c ≤ INT_MAX) costs →
  segment_sum costs start w ≤ INT_MAX →
  getSegmentCost (precomputeEdge to costs) start w = segment_sum costs start w.
Proof.
  intros Hlen Hw H0 H1 Hc Hmax.
  rewrite getSegmentCost_direct; [|  |done..].
  2: { eapply Forall_impl; [exact Hc|]. unfold INT_MIN. simpl. lia. }
  assert (Forall (λ c, 0 ≤ c) costs) as Hnn.
  { eapply Forall_impl; [exact Hc|]. simpl. lia. }
  rewrite calculateChannelCost_exact; [| done |].
  - by apply ChannelGraphFacts.calculateChannelCost_sum.
  - by rewrite ChannelGraphFacts.calculateChannelCost_sum.
Qed.

(** Out of a node that does not convert, with a sequence running below the
    last channel, the only candidate is the continuation by one channel. *)
Lemma transitions_continue_only (g : Graph) (u channel cost : Z)
    (edge : PrecomputedEdge) :
  supports g u = false → channel ≠ 100 → channel < CHANNELS - 1 →
  transitions g u channel cost edge
  = [(to edge * STATE_COUNT + (channel + 1),
      int_add cost (vget (single_costs edge) (channel + 1)))].
Proof.
  intros Hs Hc Hlt. unfold transitions, continue_segment.
  destruct (Z.eqb_spec channel 100); [done|].
  destruct (Z.ltb_spec channel (CHANNELS - 1)); [|lia].
  rewrite Hs. destruct (Z.geb_spec channel (CHANNELS - 1)); [lia|]. done.
Qed.

End OptimizedEfficientGraphFacts.

(** ** ChannelGraph2.cpp

    The loop of this variant is the one of ChannelGraph.cpp with the
    [visited] marks added; forgetting the marks carries the invariants
    over. Here too the loop is the one over the integers,
    [ChannelGraph2Exact]. *)
Module ChannelGraph2Facts.
Import ChannelGraph2.
Import ChannelGraph2Exact.
Import ChannelGraphSpec ChannelGraph2Spec.
Import ChannelGraphFacts.

Lemma walk_back_forget (p : gmap (Z * Z) (Z * Z)) :
  ∀ fuel vis n c l,
    walk_back fuel p vis n c = Some (Some l) →
    ChannelGraph.walk_back fuel p n c = Some l.
Proof.
  induction fuel as [|fuel IH]; intros vis n c l; simpl; [done|].
  destruct (n =? -1); [by intros [= <-]|].
  destruct (decide (n ∈ vis)); [done|].
  destruct (ChannelGraph.prev_at p n c) as [pn pc].
  destruct (walk_back fuel p ({[n]} ∪ vis) pn pc) as [[l'|]|] eqn:Hw; try done.
  intros [= <-]. by rewrite (IH _ _ _ _ Hw).
Qed.

Lemma walk_back_NoDup (p : gmap (Z * Z) (Z * Z)) :
  ∀ fuel vis n c l,
    walk_back fuel p vis n c = Some (Some l) →
    NoDup l.*1 ∧ ∀ x, x ∈ l.*1 → x ∉ vis.
Proof.
  induction fuel as [|fuel IH]; intros vis n c l; simpl; [done|].
  destruct (n =? -1).
  { intros [= <-]. split; [constructor|]. intros x H. by apply elem_of_nil in H. }
  destruct (decide (n ∈ vis)) as [|Hn]; [done|].
  destruct (prev_at p n c) as [pn pc].
  destruct (walk_back fuel p ({[n]} ∪ vis) pn pc) as [[l'|]|] eqn:Hw; try done.
  intros [= <-]. destruct (IH _ _ _ _ Hw) as [Hnd Hvis]. simpl. split.
  - constructor; [|done]. intros Hin. apply (Hvis _ Hin). set_solver.
  - intros x [->|Hx]%elem_of_cons; [done|].
    specialize (Hvis _ Hx). set_solver.
Qed.

(** [reconstructPath] never hands out a path that repeats a node or does not
    start at the source. *)
Lemma reconstructPath_checked (fuel : nat) (p : gmap (Z * Z) (Z * Z))
    (source target target_ch cost : Z) (path : list (Z * Z)) (c : Z) :
  reconstructPath fuel p source target target_ch cost
    = Some (Returned (path, c)) →
  NoDup path.*1 ∧ (∃ ch rest, path = (source, ch) :: rest) ∧ c = cost ∧
  ∃ l, ChannelGraph.walk_back fuel p target target_ch = Some l ∧
       path = reverse l.
Proof.
  unfold reconstructPath.
  destruct (walk_back fuel p ∅ target target_ch) as [[l|]|] eqn:Hw; try done.
  destruct (reverse l) as [|[first ch] rest] eqn:Hrev; [done|].
  destruct (Z.eqb_spec first source) as [->|]; simpl; [|done].
  intros [= <- <-]. split_and!.
  - destruct (walk_back_NoDup _ _ _ _ _ _ Hw) as [Hnd _].
    rewrite <- Hrev, fmap_reverse. by rewrite reverse_Permutation.
  - by exists ch, rest.
  - done.
  - exists l. split; [by eapply walk_back_forget|done].
Qed.

(** The loop of [reconstructPath] ends wherever the loop of ChannelGraph.cpp
    does: the check on repeated nodes only stops it earlier. *)
Lemma walk_back2_total (p : gmap (Z * Z) (Z * Z)) :
  ∀ fuel vis n c l,
    ChannelGraph.walk_back fuel p n c = Some l →
    ∃ o, walk_back fuel p vis n c = Some o.
Proof.
  induction fuel as [|fuel IH]; intros vis n c l; simpl; [done|].
  destruct (n =? -1); [by eexists|].
  destruct (decide (n ∈ vis)); [by eexists|].
  destruct (ChannelGraph.prev_at p n c) as [pn pc].
  destruct (ChannelGraph.walk_back fuel p pn pc) as [l'|] eqn:Hw; [|done].
  intros _. destruct (IH ({[n]} ∪ vis) _ _ _ Hw) as [[o|] ->]; by eexists.
Qed.

Lemma reconstructPath2_total (fuel : nat) (p : gmap (Z * Z) (Z * Z))
    (source target target_ch cost : Z) (l : list (Z * Z)) :
  ChannelGraph.walk_back fuel p target target_ch = Some l →
  target ≠ -1 →
  ∃ r, reconstructPath fuel p source target target_ch cost = Some r ∧
       r ≠ Undefined.
Proof.
  intros Hl Ht. unfold reconstructPath.
  destruct fuel as [|fuel]; [done|]. simpl in *.
  destruct (Z.eqb_spec target (-1)); [done|].
  rewrite decide_False by set_solver.
  destruct (ChannelGraph.prev_at p target target_ch) as [pn pc].
  destruct (ChannelGraph.walk_back fuel p pn pc) as [l'|] eqn:Hw; [|done].
  destruct (walk_back2_total p fuel ({[target]} ∪ ∅) _ _ _ Hw) as [[o|] ->].
  - rewrite reverse_cons.
    destruct (reverse o ++ [(target, target_ch)]) as [|[first ch] rest] eqn:E.
    { by destruct (reverse o). }
    destruct (negb (first =? source)); by eexists.
  - by eexists.
Qed.

Section Facts.
Variable g : Graph.
Variables source target channel_width : Z.

Local Abbreviation relax := (relax channel_width).
Local Abbreviation expand := (expand g source channel_width).
Local Abbreviation search := (search g source target channel_width).
Local Abbreviation init := (init source channel_width).

Lemma relax_forget (c u uch : Z) (e : Edge) (st : Search) (vch : Z) :
  visited (relax c u uch e st vch) = visited st ∧
  (relax c u uch e st vch = st ∨
   (((ChannelGraph.to e, vch) ∉ visited st) ∧
    forget (relax c u uch e st vch)
    = ChannelGraphExact.relax channel_width c u uch e (forget st) vch)).
Proof.
  unfold ChannelGraph2Exact.relax, ChannelGraphExact.relax.
  destruct (decide _) as [|Hv]; [by split; [|left]|].
  simpl.
  destruct (_ =? _); [by split; [|left]|].
  destruct (_ <? _); [|by split; [|left]].
  split; [done|]. by right.
Qed.

Lemma possible_start_channels_forget (u uch vch : Z) :
  vch ∈ possible_start_channels g source channel_width u uch →
  vch ∈ ChannelGraph.possible_start_channels g source channel_width u uch.
Proof.
  unfold possible_start_channels, ChannelGraph.possible_start_channels.
  destruct (ChannelGraph.supports g u || (u =? source)); [done|].
  destruct (uch <=? CHANNELS - channel_width); [done|].
  by intros ?%elem_of_nil.
Qed.

(** An invariant of the loop of ChannelGraph.cpp is one of this loop. *)
Lemma expand2_preserves (Q : Search → Prop) (c u uch : Z) :
  (∀ st e vch,
     e ∈ adj g u →
     vch ∈ ChannelGraph.possible_start_channels g source channel_width u uch →
     Q st → Q (relax c u uch e st vch)) →
  ∀ st, Q st → Q (expand c u uch st).
Proof.
  intros H st Hst. unfold ChannelGraph2Exact.expand.
  apply fold_left_preserves; [|done].
  intros a e He Ha. unfold expand_edge.
  apply fold_left_preserves; [|done].
  intros a' vch Hv Ha'. apply H; [done| |done].
  by apply possible_start_channels_forget.
Qed.

Lemma expand_forget (Q : ChannelGraph.Search → Prop) (c u uch : Z) :
  (∀ st e vch,
     e ∈ adj g u →
     vch ∈ ChannelGraph.possible_start_channels g source channel_width u uch →
     Q st → Q (ChannelGraphExact.relax channel_width c u uch e st vch)) →
  ∀ st, Q (forget st) →
        Q (forget (expand c u uch st)) ∧
        visited (expand c u uch st) = visited st.
Proof.
  intros H st Hst.
  apply (expand2_preserves
           (λ st', Q (forget st') ∧ visited st' = visited st)); [|done].
  intros st' e vch He Hv [HQ Hvis].
  destruct (relax_forget c u uch e st' vch) as [Hvis' [->|[_ ->]]].
  - done.
  - split; [by apply H|congruence].
Qed.

Lemma search2_reaches (P : Search → Prop) (fuel0 : nat) :
  (∀ st c u ch rest,
     P st → pq_pop tuple_leb (pq st) = Some ((c, u, ch), rest) →
     (u, ch) ∈ visited st → P (pop_stale st rest)) →
  (∀ st c u ch rest,
     P st → pq_pop tuple_leb (pq st) = Some ((c, u, ch), rest) →
     (u, ch) ∉ visited st → u ≠ target →
     P (expand c u ch (pop_fresh st u ch rest))) →
  ∀ fuel st r, P st → search fuel0 fuel st = Some r →
    (r = Returned ([], INF) ∧ ∃ st', P st' ∧ pq st' = []) ∨
    (∃ st' c ch rest,
       P st' ∧ pq_pop tuple_leb (pq st') = Some ((c, target, ch), rest) ∧
       ((target, ch) ∉ visited st') ∧
       reconstructPath fuel0 (prev st') source target ch c = Some r).
Proof.
  intros Hstale Hexp. induction fuel as [|fuel IH]; intros st r HP; simpl; [done|].
  destruct (pq_pop tuple_leb (pq st)) as [[[[c u] ch] rest]|] eqn:Hpop.
  - destruct (decide ((u, ch) ∈ visited st)) as [Hv|Hv].
    + apply IH. eapply Hstale; eauto.
    + destruct (Z.eqb_spec u target) as [->|Hu].
      * intros Hr. right. by exists st, c, ch, rest.
      * apply IH. eapply Hexp; eauto.
  - intros [= <-]. left. split; [done|]. exists st. split; [done|].
    by apply pq_pop_None in Hpop.
Qed.

Lemma init_forget :
  forget init = ChannelGraph.init source channel_width ∧ visited init = ∅.
Proof.
  unfold ChannelGraph2.init, ChannelGraph.init.
  generalize (upto (CHANNELS - channel_width)). intros l.
  assert (∀ st,
    forget (fold_left
      (λ st start_ch,
         {| dist := <[(source, start_ch) := 0]> (dist st); prev := prev st;
            visited := visited st;
            pq := pq_push (0, source, start_ch) (pq st) |}) l st)
    = fold_left
      (λ st start_ch,
         {| ChannelGraph.dist := <[(source, start_ch) := 0]> (ChannelGraph.dist st);
            ChannelGraph.prev := ChannelGraph.prev st;
            ChannelGraph.pq := pq_push (0, source, start_ch) (ChannelGraph.pq st) |})
      l (forget st) ∧
    visited (fold_left
      (λ st start_ch,
         {| dist := <[(source, start_ch) := 0]> (dist st); prev := prev st;
            visited := visited st;
            pq := pq_push (0, source, start_ch) (pq st) |}) l st)
    = visited st) as H.
  { induction l as [|a l IH]; intros st; simpl; [done|].
    destruct (IH {| dist := <[(source, a) := 0]> (dist st); prev := prev st;
                    visited := visited st;
                    pq := pq_push (0, source, a) (pq st) |}) as [-> ->].
    done. }
  apply (H {| dist := ∅; prev := ∅; visited := ∅; pq := [] |}).
Qed.

Lemma forget_pop_stale (st : Search) (rest : list (Z * Z * Z)) :
  forget (pop_stale st rest) = set_pq (forget st) rest.
Proof. done. Qed.

Lemma forget_pop_fresh (st : Search) (u ch : Z) (rest : list (Z * Z * Z)) :
  forget (pop_fresh st u ch rest) = set_pq (forget st) rest.
Proof. done. Qed.

Lemma popped_in_queue (st : Search) (c u ch : Z) (rest : list (Z * Z * Z)) :
  pq_pop tuple_leb (pq st) = Some ((c, u, ch), rest) →
  (c, u, ch) ∈ ChannelGraph.pq (forget st).
Proof. intros Hpop. apply (pq_pop_elem _ _ _ _ Hpop). by left. Qed.

(** *** Start channels and continuity *)

Lemma channels_in_range_step2 (st : Search) (c u ch : Z)
    (rest : list (Z * Z * Z)) :
  channels_in_range channel_width (forget st) →
  pq_pop tuple_leb (pq st) = Some ((c, u, ch), rest) →
  channels_in_range channel_width
    (forget (expand c u ch (pop_fresh st u ch rest))).
Proof.
  intros Hst Hpop.
  pose proof (proj1 Hst _ _ _ (popped_in_queue _ _ _ _ _ Hpop)) as Hch.
  apply expand_forget.
  - intros st' e vch _ Hv. apply channels_in_range_relax; [done|].
    by eapply possible_start_channels_range.
  - rewrite forget_pop_fresh. by eapply channels_in_range_pop.
Qed.

Lemma continuity_step (st : Search) (c u ch : Z) (rest : list (Z * Z * Z)) :
  continuity g source (forget st) →
  continuity g source (forget (expand c u ch (pop_fresh st u ch rest))).
Proof.
  intros Hst. apply expand_forget; [|done].
  intros st' e vch _ Hv. by apply continuity_relax.
Qed.

(** *** Costs *)

Lemma fresh_pop (vis : gset (Z * Z)) (st : ChannelGraph.Search) (c u ch : Z)
    (rest : list (Z * Z * Z)) :
  fresh target vis st →
  pq_pop tuple_leb (ChannelGraph.pq st) = Some ((c, u, ch), rest) →
  ((u, ch) ∈ vis → fresh target vis (set_pq st rest)) ∧
  (u ≠ target → fresh target ({[(u, ch)]} ∪ vis) (set_pq st rest)).
Proof.
  intros [Hf Ht] Hpop.
  assert (∀ v c', (v, c') ≠ (u, ch) →
            (dist_at (ChannelGraph.dist st) v c', v, c') ∈ ChannelGraph.pq st →
            (dist_at (ChannelGraph.dist st) v c', v, c') ∈ rest) as Hrest.
  { intros v c' Hne Hin.
    apply (pq_pop_elem _ _ _ _ Hpop) in Hin as [Heq|?]; [|done].
    injection Heq as _ ? ?. by subst. }
  split.
  - intros Hu. split; simpl; [|done].
    intros v c' Hv. destruct (Hf _ _ Hv) as [?|Hin]; [by left|right].
    apply Hrest; [|done]. intros [= ? ?]. by subst.
  - intros Hu. split; simpl.
    + intros v c' Hv. destruct (Hf v c') as [?|Hin]; [set_solver|by left|right].
      apply Hrest; [|done]. set_solver.
    + intros v c' [[= -> ->]%elem_of_singleton|?]%elem_of_union;
        [done|by eapply Ht].
Qed.

Lemma fresh_relax (vis : gset (Z * Z)) (c u uch : Z) (e : Edge)
    (st : ChannelGraph.Search) (vch : Z) :
  fresh target vis st →
  fresh target vis (ChannelGraphExact.relax channel_width c u uch e st vch).
Proof.
  intros [Hf Ht].
  destruct (ChannelGraphFacts.relax_cases channel_width c u uch e st vch)
    as [->|(_ & _ & ->)]; [done|].
  split; simpl; [|done].
  intros v c' Hv. rewrite dist_at_insert.
  destruct (decide _) as [[= <- <-]|Hne].
  - right. by left.
  - destruct (Hf _ _ Hv) as [?|?]; [by left|right; by right].
Qed.

Section Settled.
Hypothesis g_wf : well_formed g.
Hypothesis g_nonneg : nonnegative g.
Hypothesis source_nonneg : 0 ≤ source.

Local Abbreviation settled := (settled g source target channel_width).

Lemma fresh_init : fresh target ∅ (ChannelGraph.init source channel_width).
Proof.
  destruct (init_labels source channel_width) as (_ & Hd & _).
  split; [|set_solver].
  intros v c _. destruct (Hd v c) as [?|(-> & -> & ?)]; [by left|by right].
Qed.

Local Abbreviation labelled :=
  (labelled g source target channel_width).

Lemma labelled_init : labelled 0 init.
Proof.
  destruct init_forget as [Hf Hv]. unfold labelled. rewrite Hf, Hv.
  split; [by apply settled_init|apply fresh_init].
Qed.

Lemma labelled_stale (L : Z) (st : Search) (c u ch : Z)
    (rest : list (Z * Z * Z)) :
  labelled L st →
  pq_pop tuple_leb (pq st) = Some ((c, u, ch), rest) →
  (u, ch) ∈ visited st →
  labelled c (pop_stale st rest).
Proof.
  intros [Hs Hf] Hpop Hv. split.
  - rewrite forget_pop_stale. eapply settled_pop; [done..|].
    by eapply (proj2 Hf).
  - rewrite forget_pop_stale. by apply (fresh_pop _ _ _ _ _ _ Hf Hpop).
Qed.

Lemma labelled_cost (L : Z) (st : Search) (c u ch : Z)
    (rest : list (Z * Z * Z)) :
  labelled L st →
  pq_pop tuple_leb (pq st) = Some ((c, u, ch), rest) →
  (u, ch) ∉ visited st →
  dist_at (dist st) u ch = c ∧ c < INF ∧ 0 ≤ u.
Proof.
  intros [Hs Hf] Hpop Hv.
  destruct (settled_queue _ _ _ _ _ _ Hs _ _ _ (popped_in_queue _ _ _ _ _ Hpop))
    as (_ & Hle & Hinf & Hu).
  split_and!; [|done..].
  destruct (proj1 Hf _ _ Hv) as [?|Hd]; [simpl in *; lia|].
  pose proof (pq_pop_least _ tuple_leb_total tuple_leb_trans _ _ _ Hpop _ Hd)
    as Hleast%tuple_leb_cost.
  simpl in *. lia.
Qed.

Lemma labelled_step (L : Z) (st : Search) (c u ch : Z)
    (rest : list (Z * Z * Z)) :
  labelled L st →
  pq_pop tuple_leb (pq st) = Some ((c, u, ch), rest) →
  (u, ch) ∉ visited st → u ≠ target →
  labelled c (expand c u ch (pop_fresh st u ch rest)).
Proof.
  intros Hst Hpop Hv Hu.
  destruct (labelled_cost _ _ _ _ _ _ Hst Hpop Hv) as (Hd & _ & Hu0).
  destruct Hst as [Hs Hf].
  set (V := {[(u, ch)]} ∪ visited st).
  assert ((settled c (forget (expand c u ch (pop_fresh st u ch rest))) ∧
           dist_at (dist (expand c u ch (pop_fresh st u ch rest))) u ch = c) ∧
          fresh target V (forget (expand c u ch (pop_fresh st u ch rest))) ∧
          visited (expand c u ch (pop_fresh st u ch rest)) = V)
    as ([? _] & ? & Hvis).
  { apply (expand2_preserves
      (λ st', (settled c (forget st') ∧ dist_at (dist st') u ch = c) ∧
              fresh target V (forget st') ∧ visited st' = V)).
    - intros st' e vch He _ (Hsd & Hfr & Hvis).
      destruct (relax_forget c u ch e st' vch) as [Hvis' [->|[_ Heq]]]; [done|].
      split_and!.
      + rewrite Heq. by apply (settled_relax g source target channel_width).
      + change (dist (relax c u ch e st' vch))
          with (ChannelGraph.dist (forget (relax c u ch e st' vch))).
        rewrite Heq.
        by apply (settled_relax g source target channel_width).
      + rewrite Heq. by apply fresh_relax.
      + congruence.
    - split_and!; [| | |done].
      + rewrite forget_pop_fresh. by eapply settled_pop.
      + done.
      + by apply (fresh_pop _ _ _ _ _ _ Hf Hpop). }
  split; [done|]. by rewrite Hvis.
Qed.

Lemma search2_cost (fuel0 fuel : nat) (path : list (Z * Z)) (cost : Z) :
  0 ≤ target →
  search fuel0 fuel init = Some (Returned (path, cost)) →
  path ≠ [] →
  path_cost g channel_width path cost.
Proof.
  intros Ht Hs Hne.
  destruct (search2_reaches (λ st, ∃ L, labelled L st) fuel0) with (4 := Hs)
    as [[[= -> _] _]|(st & c & ch & rest & [L Hst] & Hpop & Hv & Hrec)];
    [| |by exists 0; apply labelled_init|done|].
  - intros st c u ch rest [L Hst] Hpop Hv. exists c. by eapply labelled_stale.
  - intros st c u ch rest [L Hst] Hpop Hv Hu. exists c. by eapply labelled_step.
  - apply reconstructPath_checked in Hrec as (_ & _ & -> & l & Hw & ->).
    destruct (labelled_cost _ _ _ _ _ _ Hst Hpop Hv) as (<- & Hinf & _).
    eapply (walk_back_cost g source target channel_width g_nonneg L (forget st));
      [apply Hst|exact Hw|lia|done].
Qed.

End Settled.

(** *** Same source and target; target out of reach *)

Lemma search2_same_node (fuel0 fuel : nat) :
  source = target → 0 ≤ source → channel_width ≤ CHANNELS →
  search (S (S fuel0)) (S fuel) init
  = Some (Returned ([(source, 0)], 0)).
Proof.
  intros <- Hs Hw. destruct init_forget as [Hf Hv].
  destruct (init_shape source channel_width) as (Hp & Hq & _).
  assert (pq init = ChannelGraph.pq (ChannelGraph.init source channel_width))
    as Hpq by (by rewrite <- Hf).
  assert (prev init = ∅) as Hprev.
  { change (prev init) with (ChannelGraph.prev (forget init)).
    by rewrite Hf. }
  cbn [ChannelGraph2Exact.search]. rewrite Hpq.
  destruct (pq_pop tuple_leb
              (ChannelGraph.pq (ChannelGraph.init source channel_width)))
    as [[[[k v] c] rest]|] eqn:Hpop.
  - assert ((k, v, c) ∈ ChannelGraph.pq (ChannelGraph.init source channel_width))
      as Hin by (apply (pq_pop_elem _ _ _ _ Hpop); by left).
    apply Hq in Hin as (-> & -> & Hc).
    assert ((0, source, 0)
              ∈ ChannelGraph.pq (ChannelGraph.init source channel_width))
      as H0 by (apply Hq; lia).
    pose proof (pq_pop_least _ tuple_leb_total tuple_leb_trans _ _ _ Hpop _ H0)
      as Hle%tuple_leb_channel.
    assert (c = 0) as -> by lia.
    rewrite Hv. rewrite decide_False by set_solver.
    rewrite Z.eqb_refl. unfold reconstructPath. rewrite Hprev.
    cbn [walk_back]. destruct (Z.eqb_spec source (-1)) as [->|_]; [lia|].
    rewrite decide_False by set_solver.
    unfold ChannelGraph.prev_at. rewrite lookup_empty. simpl.
    by rewrite Z.eqb_refl.
  - apply pq_pop_None in Hpop.
    assert ((0, source, 0)
              ∈ ChannelGraph.pq (ChannelGraph.init source channel_width))
      as H0 by (apply Hq; lia).
    rewrite Hpop in H0. by apply elem_of_nil in H0.
Qed.

Section Exploring.
Hypothesis g_wf : well_formed g.
Hypothesis g_nonneg : nonnegative g.
Hypothesis width_pos : 1 ≤ channel_width.

Local Abbreviation exploring := (exploring g source channel_width).
Local Abbreviation potential := (potential (ChannelGraph.node_count g)).

Lemma exploring_step2 (st : Search) (c u ch : Z) (rest : list (Z * Z * Z)) :
  exploring (forget st) →
  pq_pop tuple_leb (pq st) = Some ((c, u, ch), rest) →
  exploring (forget (expand c u ch (pop_fresh st u ch rest))) ∧
  potential (forget (expand c u ch (pop_fresh st u ch rest)))
    ≤ potential (forget st) - 1.
Proof.
  intros Hst Hpop.
  destruct (exploring_queue _ _ _ _ Hst _ _ _ (popped_in_queue _ _ _ _ _ Hpop))
    as (Hc & Hch & Hu).
  destruct (ChannelGraphFacts.exploring_pop g source channel_width
              (forget st) _ _ Hst Hpop) as [Hst' Hpot].
  apply (expand_forget
    (λ st', exploring st' ∧ potential st' ≤ potential (forget st) - 1)).
  - intros st' e vch He Hv [Hs Hp'].
    destruct (ChannelGraphFacts.exploring_relax g source channel_width
                g_wf g_nonneg width_pos c u ch e st' vch) as [? ?]; try done.
    split; [done|lia].
  - rewrite forget_pop_fresh. split; [done|lia].
Qed.

Lemma search2_unreachable (fuel0 : nat) :
  ¬ connected g channel_width source target →
  ∀ fuel st, exploring (forget st) → potential (forget st) < Z.of_nat fuel →
             search fuel0 fuel st = Some (Returned ([], INF)).
Proof.
  intros Hcon. induction fuel as [|fuel IH]; intros st Hst Hpot.
  { pose proof (total_dist_nonneg g _ (exploring_dist _ _ _ _ Hst)).
    unfold ChannelGraphSpec.potential in Hpot. lia. }
  cbn [ChannelGraph2Exact.search].
  destruct (pq_pop tuple_leb (pq st)) as [[[[c u] ch] rest]|] eqn:Hpop; [|done].
  destruct (exploring_queue _ _ _ _ Hst _ _ _ (popped_in_queue _ _ _ _ _ Hpop))
    as (_ & _ & Hu).
  destruct (decide ((u, ch) ∈ visited st)).
  - destruct (ChannelGraphFacts.exploring_pop g source channel_width
                (forget st) _ _ Hst Hpop) as [? ?].
    apply IH; [done|]. unfold set_pq, forget in *. simpl in *. lia.
  - destruct (Z.eqb_spec u target) as [->|_].
    { exfalso. apply Hcon. destruct Hu as [->|?]; [by left|right; eauto]. }
    destruct (exploring_step2 _ _ _ _ _ Hst Hpop) as [? ?].
    unfold pop_fresh in *. apply IH; [done|lia].
Qed.

Lemma rooted_step2 (st : Search) (c u ch : Z) (rest : list (Z * Z * Z)) :
  exploring (forget st) → rooted source channel_width (forget st) →
  pq_pop tuple_leb (pq st) = Some ((c, u, ch), rest) →
  rooted source channel_width
    (forget (expand c u ch (pop_fresh st u ch rest))).
Proof.
  intros Hst Hr Hpop.
  destruct (exploring_queue _ _ _ _ Hst _ _ _ (popped_in_queue _ _ _ _ _ Hpop))
    as (Hc & Hch & _).
  apply expand_forget; [|done].
  intros st' e vch He Hv Hs.
  apply (ChannelGraphFacts.rooted_relax g source channel_width g_nonneg);
    [done..| |done].
  by eapply possible_start_channels_range.
Qed.

Lemma search2_source_first (fuel0 fuel : nat) (path : list (Z * Z)) (cost : Z)
    (x : Z * Z) (b cb : Z) :
  search fuel0 fuel init = Some (Returned (path, cost)) →
  adjacent x (b, cb) path →
  b ≠ source.
Proof.
  intros Hs Hadj.
  destruct (search2_reaches
              (λ st, exploring (forget st) ∧
                     rooted source channel_width (forget st)) fuel0)
    with (4 := Hs)
    as [[[= -> _] _]|(st & k & ch & rest & [_ Hst] & Hpop & _ & Hrec)].
  - intros st k u ch rest [He Hr] Hpop _.
    split; [|exact Hr]. rewrite forget_pop_stale.
    by eapply ChannelGraphFacts.exploring_pop.
  - intros st k u ch rest [He Hr] Hpop _ _.
    split; [by eapply exploring_step2|by eapply rooted_step2].
  - destruct init_forget as [-> _].
    split; [by apply exploring_init|apply rooted_init].
  - destruct Hadj as ([|??] & ? & ?); done.
  - apply reconstructPath_checked in Hrec as (_ & _ & _ & l & Hw & ->).
    apply adjacent_reverse in Hadj.
    pose proof (walk_back_adjacent _ _ _ _ _ _ _ Hw Hadj) as Hp.
    intros ->. by rewrite (proj1 Hst) in Hp.
Qed.

End Exploring.

(** *** Termination of the query *)

Section Progress.
Hypothesis g_wf : well_formed g.
Hypothesis g_nonneg : nonnegative g.
Hypothesis width_pos : 1 ≤ channel_width.
Hypothesis source_nonneg : 0 ≤ source.

Local Abbreviation progressing :=
  (progressing g source target channel_width).
Local Abbreviation expanding :=
  (expanding g source target channel_width).
Local Abbreviation potential := (potential (ChannelGraph.node_count g)).

Lemma progressing2_init :
  progressing (potential (forget init)) (forget init) ∧
  fresh target (visited init) (forget init).
Proof.
  destruct init_forget as [-> ->].
  split; [by apply progressing_init|by apply fresh_init].
Qed.

Lemma progressing2_stale (P0 : Z) (st : Search) (c u ch : Z)
    (rest : list (Z * Z * Z)) :
  progressing P0 (forget st) → fresh target (visited st) (forget st) →
  pq_pop tuple_leb (pq st) = Some ((c, u, ch), rest) →
  (u, ch) ∈ visited st →
  (progressing P0 (forget (pop_stale st rest)) ∧
   fresh target (visited (pop_stale st rest)) (forget (pop_stale st rest))) ∧
  potential (forget (pop_stale st rest)) = potential (forget st) - 1.
Proof.
  intros Hst Hf Hpop Hv. rewrite forget_pop_stale.
  destruct (ChannelGraphFacts.progressing_stale g source target channel_width
              P0 (forget st) c u ch rest) as [? ?]; [done..| |].
  { by eapply (proj2 Hf). }
  split_and!; [done| |done].
  by apply (fresh_pop _ _ _ _ _ _ Hf Hpop).
Qed.

Lemma progressing2_step (P0 : Z) (st : Search) (c u ch : Z)
    (rest : list (Z * Z * Z)) :
  progressing P0 (forget st) → fresh target (visited st) (forget st) →
  pq_pop tuple_leb (pq st) = Some ((c, u, ch), rest) →
  (u, ch) ∉ visited st → u ≠ target →
  (progressing P0 (forget (expand c u ch (pop_fresh st u ch rest))) ∧
   fresh target (visited (expand c u ch (pop_fresh st u ch rest)))
         (forget (expand c u ch (pop_fresh st u ch rest)))) ∧
  potential (forget (expand c u ch (pop_fresh st u ch rest)))
    ≤ potential (forget st) - 1.
Proof.
  intros Hst Hf Hpop Hv Hu.
  assert (dist_at (dist st) u ch = c) as Hd.
  { destruct Hst as (L & _ & _ & Hs & _).
    by destruct (labelled_cost L st c u ch rest). }
  destruct (ChannelGraphFacts.expanding_pop g source target channel_width
              P0 (forget st) c u ch rest) as (rank & n & Hex & Hn);
    [done..|simpl; lia|].
  set (B := potential (forget st) - 1) in *.
  set (V := {[(u, ch)]} ∪ visited st).
  assert (expanding c u ch B rank n
            (forget (expand c u ch (pop_fresh st u ch rest))) ∧
          fresh target V (forget (expand c u ch (pop_fresh st u ch rest))) ∧
          visited (expand c u ch (pop_fresh st u ch rest)) = V)
    as (Hex' & Hf' & Hvis).
  { apply (expand2_preserves
      (λ st', expanding c u ch B rank n (forget st') ∧
              fresh target V (forget st') ∧ visited st' = V)).
    - intros st' e vch He Hvch (Hx & Hfr & Hvis).
      destruct (relax_forget c u ch e st' vch) as [Hvis' [->|[_ Heq]]]; [done|].
      rewrite Heq. split_and!.
      + by apply (ChannelGraphFacts.expanding_relax g source target
                    channel_width).
      + by apply fresh_relax.
      + congruence.
    - rewrite forget_pop_fresh. split_and!; [done| |done].
      by apply (fresh_pop _ _ _ _ _ _ Hf Hpop). }
  rewrite Hvis.
  destruct (ChannelGraphFacts.expanding_done g source target channel_width
              P0 c u ch B rank n _ Hex' Hn) as [? ?].
  by split_and!.
Qed.

Lemma search2_total (fuel0 : nat) (P0 : Z) :
  0 ≤ target →
  P0 + 3 ≤ Z.of_nat fuel0 →
  ∀ fuel st,
    progressing P0 (forget st) → fresh target (visited st) (forget st) →
    potential (forget st) < Z.of_nat fuel →
    ∃ r, search fuel0 fuel st = Some r ∧ r ≠ Undefined.
Proof.
  intros Ht Hfuel0. induction fuel as [|fuel IH]; intros st Hst Hf Hpot.
  { destruct Hst as (L & rank & n & _ & He & _ & _).
    pose proof (total_dist_nonneg g _ (exploring_dist _ _ _ _ He)).
    unfold ChannelGraphSpec.potential in Hpot. lia. }
  cbn [ChannelGraph2Exact.search].
  destruct (pq_pop tuple_leb (pq st)) as [[[[c u] ch] rest]|] eqn:Hpop;
    [|by eexists].
  destruct (decide ((u, ch) ∈ visited st)) as [Hv|Hv].
  - destruct (progressing2_stale _ _ _ _ _ _ Hst Hf Hpop Hv) as [[? ?] ?].
    unfold pop_stale in *. apply IH; [done..|lia].
  - destruct (Z.eqb_spec u target) as [->|Hu].
    + destruct Hst as (L & rank & n & Hs & He & Hr & Hn).
      pose proof (total_dist_nonneg g _ (exploring_dist _ _ _ _ He)).
      destruct (ChannelGraphFacts.walk_back_total g source target
                  channel_width L rank n (forget st) fuel0 target ch)
        as [l Hl]; [done..|lia| |].
      { unfold ChannelGraphSpec.potential in Hn. lia. }
      apply (reconstructPath2_total _ _ _ _ _ _ _ Hl). lia.
    + destruct (progressing2_step _ _ _ _ _ _ Hst Hf Hpop Hv Hu) as [[? ?] ?].
      unfold pop_fresh in *. apply IH; [done..|lia].
Qed.

End Progress.

(** *** The query as a whole *)

Local Abbreviation findShortestPath :=
  (findShortestPath g source target channel_width).

Lemma findShortestPath2_valid (fuel : nat) :
  1 ≤ channel_width ≤ 3 →
  0 ≤ source < ChannelGraph.node_count g →
  0 ≤ target < ChannelGraph.node_count g →
  findShortestPath fuel = search fuel fuel init.
Proof.
  intros Hw Hs Ht. unfold ChannelGraph2Exact.findShortestPath.
  destruct (Z.ltb_spec channel_width 1); [lia|].
  destruct (Z.gtb_spec channel_width 3); [lia|].
  destruct (Z.ltb_spec source 0); [lia|].
  destruct (Z.geb_spec source (ChannelGraph.node_count g)); [lia|].
  destruct (Z.ltb_spec target 0); [lia|].
  destruct (Z.geb_spec target (ChannelGraph.node_count g)); [lia|].
  done.
Qed.

Lemma findShortestPath2_Returned (fuel : nat) (r : list (Z * Z) * Z) :
  findShortestPath fuel = Some (Returned r) →
  1 ≤ channel_width ≤ 3 ∧
  0 ≤ source < ChannelGraph.node_count g ∧
  0 ≤ target < ChannelGraph.node_count g ∧
  search fuel fuel init = Some (Returned r).
Proof.
  unfold ChannelGraph2Exact.findShortestPath.
  destruct (Z.ltb_spec channel_width 1); [done|].
  destruct (Z.gtb_spec channel_width 3); [done|].
  destruct (Z.ltb_spec source 0); [done|].
  destruct (Z.geb_spec source (ChannelGraph.node_count g)); [done|].
  destruct (Z.ltb_spec target 0); [done|].
  destruct (Z.geb_spec target (ChannelGraph.node_count g)); [done|].
  simpl. intros Hs. split_and!; (lia || done).
Qed.

End Facts.

Lemma cg2_channels (g : Graph) (source target w : Z) (fuel : nat)
    (path : list (Z * Z)) (cost : Z) :
  findShortestPath g source target w fuel = Some (Returned (path, cost)) →
  ∀ n c, (n, c) ∈ path → 0 ≤ c ≤ CHANNELS - w.
Proof.
  intros (_ & _ & _ & Hs)%findShortestPath2_Returned.
  destruct (search2_reaches g source target w
              (λ st, channels_in_range w (forget st)) fuel)
    with (4 := Hs)
    as [[[= -> _] _]|(st & k & ch & rest & Hst & Hpop & _ & Hrec)].
  - intros st c u ch rest Hst Hpop _. rewrite forget_pop_stale.
    by eapply channels_in_range_pop.
  - intros st c u ch rest Hst Hpop _ _. by eapply channels_in_range_step2.
  - destruct (init_forget source w) as [-> _]. apply channels_in_range_init.
  - intros n c H. by apply elem_of_nil in H.
  - apply reconstructPath_checked in Hrec as (_ & _ & _ & l & Hw & ->).
    intros n c Hn. rewrite elem_of_reverse in Hn.
    assert (Forall (λ x, 0 ≤ x.2 ≤ CHANNELS - w) l) as Hall.
    { eapply walk_back_Forall; [|exact Hw|].
      - intros [v c'] [u cu] _ Hp. simpl.
        by destruct (proj2 Hst _ _ _ _ Hp).
      - simpl. apply (proj1 Hst k target ch).
        by eapply popped_in_queue. }
    rewrite Forall_forall in Hall. by apply (Hall (n, c)).
Qed.

Lemma cg2_continuity (g : Graph) (source target w : Z) (fuel : nat)
    (path : list (Z * Z)) (cost : Z) (b cb c cc : Z) :
  findShortestPath g source target w fuel = Some (Returned (path, cost)) →
  adjacent (b, cb) (c, cc) path →
  ChannelGraph.supports g b = false → b ≠ source →
  cc = cb.
Proof.
  intros (_ & _ & _ & Hs)%findShortestPath2_Returned Hadj Hb Hsrc.
  destruct (search2_reaches g source target w
              (λ st, continuity g source (forget st)) fuel)
    with (4 := Hs)
    as [[[= -> _] _]|(st & k & ch & rest & Hst & Hpop & _ & Hrec)].
  - intros st k u ch rest Hst Hpop _. exact Hst.
  - intros st k u ch rest Hst Hpop _ _. by apply continuity_step.
  - destruct (init_forget source w) as [-> _]. apply continuity_init.
  - destruct Hadj as ([|??] & ? & ?); done.
  - apply reconstructPath_checked in Hrec as (_ & _ & _ & l & Hw & ->).
    apply adjacent_reverse in Hadj.
    pose proof (walk_back_adjacent _ _ _ _ _ _ _ Hw Hadj) as Hp.
    destruct (Hst _ _ _ _ Hp) as [?|[?|?]]; congruence.
Qed.

Lemma cg2_source_first (g : Graph) (source target w : Z) (fuel : nat)
    (path : list (Z * Z)) (cost : Z) (x : Z * Z) (b cb : Z) :
  well_formed g → nonnegative g →
  findShortestPath g source target w fuel = Some (Returned (path, cost)) →
  adjacent x (b, cb) path →
  b ≠ source.
Proof.
  intros Hwf Hnn (Hw & _ & _ & Hs)%findShortestPath2_Returned Hadj.
  eapply search2_source_first; eauto. lia.
Qed.

Lemma cg2_cost (g : Graph) (source target w : Z) (fuel : nat)
    (path : list (Z * Z)) (cost : Z) :
  well_formed g → nonnegative g →
  findShortestPath g source target w fuel = Some (Returned (path, cost)) →
  path ≠ [] →
  path_cost g w path cost.
Proof.
  intros Hwf Hnn (_ & Hs & Ht & Hr)%findShortestPath2_Returned Hne.
  eapply search2_cost; eauto; lia.
Qed.

Lemma cg2_same_node (g : Graph) (source w : Z) (fuel : nat) :
  1 ≤ w ≤ 3 → 0 ≤ source < ChannelGraph.node_count g →
  findShortestPath g source source w (S (S fuel))
  = Some (Returned ([(source, 0)], 0)).
Proof.
  intros Hw Hs. rewrite findShortestPath2_valid by done.
  rewrite search2_same_node; [done..|lia|unfold CHANNELS; lia].
Qed.

(** ChannelGraph2.cpp comes to an end as well, with a result or with the
    [runtime_error] of its path check, never with undefined behaviour. *)
Lemma cg2_terminates (g : Graph) (source target w : Z) :
  well_formed g → nonnegative g →
  1 ≤ w ≤ 3 →
  0 ≤ source < ChannelGraph.node_count g →
  0 ≤ target < ChannelGraph.node_count g →
  ∃ fuel0, ∀ fuel, (fuel0 ≤ fuel)%nat →
    ∃ r, findShortestPath g source target w fuel = Some r ∧ r ≠ Undefined.
Proof.
  intros Hwf Hnn Hw Hs Ht.
  assert (0 ≤ source) as Hs0 by lia.
  destruct (progressing2_init g source target w) as [Hinit Hfresh];
    [done..|].
  set (P0 := potential (ChannelGraph.node_count g) (forget (init source w)))
    in *.
  assert (0 ≤ P0) as Hpot.
  { destruct Hinit as (L & rank & n & _ & He & _ & _).
    pose proof (total_dist_nonneg g _ (exploring_dist _ _ _ _ He)).
    unfold P0, potential. lia. }
  exists (Z.to_nat P0 + 3)%nat.
  intros fuel Hfuel. rewrite findShortestPath2_valid by done.
  apply (search2_total g source target w Hwf Hnn) with (P0 := P0);
    [lia|lia|lia|done|done|fold P0; lia].
Qed.

Lemma cg2_unreachable (g : Graph) (source target w : Z) :
  well_formed g → nonnegative g →
  1 ≤ w ≤ 3 →
  0 ≤ source < ChannelGraph.node_count g →
  0 ≤ target < ChannelGraph.node_count g →
  ¬ connected g w source target →
  ∃ fuel0, ∀ fuel, (fuel0 ≤ fuel)%nat →
    findShortestPath g source target w fuel = Some (Returned ([], INF)).
Proof.
  intros Hwf Hnn Hw Hs Ht Hcon.
  exists (S (Z.to_nat (potential (ChannelGraph.node_count g)
                         (ChannelGraph.init source w)))).
  intros fuel Hfuel. rewrite findShortestPath2_valid by done.
  destruct (init_forget source w) as [Hf _].
  rewrite (search2_unreachable g source target w Hwf Hnn); [done|lia|done| |].
  - rewrite Hf. by apply exploring_init.
  - rewrite Hf. lia.
Qed.

(** No path this variant returns repeats a node. *)
Lemma cg2_no_duplicate (g : Graph) (source target w : Z) (fuel : nat)
    (path : list (Z * Z)) (cost : Z) :
  findShortestPath g source target w fuel = Some (Returned (path, cost)) →
  NoDup path.*1.
Proof.
  intros (_ & _ & _ & Hs)%findShortestPath2_Returned.
  destruct (search2_reaches g source target w (λ _, True) fuel) with (4 := Hs)
    as [[[= -> _] _]|(st & k & ch & rest & _ & _ & _ & Hrec)]; try done.
  - constructor.
  - by apply reconstructPath_checked in Hrec as (? & _).
Qed.

End ChannelGraph2Facts.

(** ** Least cost

    The loops over the integers return a least cost; on graphs with modest
    costs the loops of the code make the same steps, sum for sum. *)
Module ShortestPathFacts.
Import ChannelGraph.
Import ChannelGraphExact.
Import ChannelGraphSpec ShortestPathSpec.
Import ChannelGraphFacts.

(** After a loop over [l], what every turn establishes for its element and
    no turn undoes holds for all the elements. *)
Lemma fold_left_establishes {A B} (f : A → B → A) (Q : A → Prop)
    (R : B → A → Prop) (l : list B) :
  (∀ a b, b ∈ l → Q a → Q (f a b)) →
  (∀ a b, b ∈ l → Q a → R b (f a b)) →
  (∀ a b b', b ∈ l → Q a → R b' a → R b' (f a b)) →
  ∀ a, Q a → Q (fold_left f l a) ∧ ∀ b, b ∈ l → R b (fold_left f l a).
Proof.
  induction l as [|x l IH]; intros HQ HR Hkeep a Ha; simpl.
  - split; [done|]. intros b Hb. by apply elem_of_nil in Hb.
  - assert (Q (f a x)) as Hax by (apply HQ; [by left|done]).
    destruct (IH) with (a := f a x) as [HQ' HR']; [| | |done|].
    + intros a' b Hb. apply HQ. by right.
    + intros a' b Hb. apply HR. by right.
    + intros a' b b' Hb. apply Hkeep. by right.
    + split; [done|]. intros b [->|Hb]%elem_of_cons; [|by apply HR'].
      apply (fold_left_preserves f (λ a', Q a' ∧ R x a')).
      * intros a' b' Hb' [? ?]. split.
        -- apply HQ; [by right|done].
        -- apply Hkeep; [by right|done..].
      * split; [done|]. apply HR; [by left|done].
Qed.

Lemma walk_back_nonempty (fuel : nat) (p : gmap (Z * Z) (Z * Z)) (n c : Z)
    (l : list (Z * Z)) :
  walk_back fuel p n c = Some l → n ≠ -1 → ∃ l', l = (n, c) :: l'.
Proof.
  destruct fuel; [done|]. rewrite walk_back_S.
  destruct (Z.eqb_spec n (-1)); [done|].
  destruct (prev_at p n c) as [pn pc].
  destruct (walk_back fuel p pn pc) as [l'|]; [|done].
  intros [= <-] _. by eexists.
Qed.

Section Facts.
Variable g : Graph.
Variables source target channel_width : Z.
Hypothesis g_wf : well_formed g.
Hypothesis g_nonneg : nonnegative g.
Hypothesis width_pos : 1 ≤ channel_width.
Hypothesis source_nonneg : 0 ≤ source.

Local Abbreviation relax := (relax channel_width).
Local Abbreviation possible_start_channels :=
  (possible_start_channels g source channel_width).
Local Abbreviation expand := (expand g source channel_width).
Local Abbreviation search := (search g source target channel_width).
Local Abbreviation init := (init source channel_width).
Local Abbreviation route := (route g channel_width source).
Local Abbreviation settled := (settled g source target channel_width).
Local Abbreviation exploring := (exploring g source channel_width).
Local Abbreviation rooted := (rooted source channel_width).
Local Abbreviation routed := (routed g source channel_width).
Local Abbreviation relaxed := (relaxed g source target channel_width).
Local Abbreviation searched := (searched g source target channel_width).
Local Abbreviation searching := (searching g source target channel_width).
Local Abbreviation segment e c :=
  (calculateChannelCost (channel_costs e) c channel_width).

Lemma route_nonneg (v c D : Z) : route v c D → 0 ≤ D.
Proof.
  induction 1 as [e c He Hc|u cu D e c _ IH He Hc _].
  - apply calculateChannelCost_nonneg. by eapply g_nonneg.
  - pose proof (calculateChannelCost_nonneg (channel_costs e) c channel_width
                  (g_nonneg _ _ He)). lia.
Qed.

Lemma route_walk (v c D : Z) : route v c D → walk g channel_width source v c.
Proof.
  induction 1 as [e c He Hc|u cu D e c _ IH He Hc Hs].
  - by apply walk_first.
  - by eapply walk_step.
Qed.

Lemma walk_route (v c : Z) :
  walk g channel_width source v c → ∃ D, route v c D.
Proof.
  induction 1 as [e c He Hc|u cu e c _ [D IH] He Hc Hs].
  - eexists. by apply route_first.
  - eexists. by eapply route_step.
Qed.

(** A change of start channel that a route makes is one the loop tries. *)
Lemma route_tried (u cu c : Z) :
  0 ≤ c ≤ CHANNELS - channel_width →
  u = source ∨ supports g u = true ∨ c = cu →
  c ∈ possible_start_channels u cu.
Proof.
  intros Hc Hu. unfold ChannelGraph.possible_start_channels.
  destruct (supports g u) eqn:Hs; simpl; [by apply elem_of_upto|].
  destruct (Z.eqb_spec u source); [by apply elem_of_upto|].
  destruct Hu as [?|[?| ->]]; [done..|]. by apply list_elem_of_singleton.
Qed.

(** *** What one relaxation does to the labels *)

Lemma relax_dist_le (c u uch : Z) (e : Edge) (st : Search) (vch x y : Z) :
  dist_at (dist (relax c u uch e st vch)) x y ≤ dist_at (dist st) x y.
Proof.
  destruct (relax_cases channel_width c u uch e st vch)
    as [->|(_ & Hlt & ->)]; [done|].
  simpl. rewrite dist_at_insert. destruct (decide _) as [[= <- <-]|]; lia.
Qed.

Lemma relax_dist_keep (c u uch : Z) (e : Edge) (st : Search) (vch x y : Z) :
  e ∈ adj g u → dist_at (dist st) x y ≤ c →
  dist_at (dist (relax c u uch e st vch)) x y = dist_at (dist st) x y.
Proof.
  intros He Hxy.
  destruct (relax_cases channel_width c u uch e st vch)
    as [->|(_ & Hlt & ->)]; [done|].
  pose proof (calculateChannelCost_nonneg (channel_costs e) vch channel_width
                (g_nonneg _ _ He)).
  simpl. rewrite dist_at_insert. destruct (decide _) as [[= <- <-]|]; [lia|done].
Qed.

Lemma relax_dist_reached (c u uch : Z) (e : Edge) (st : Search) (vch : Z) :
  0 ≤ c → dist_at (dist st) (to e) vch ≤ INF →
  dist_at (dist (relax c u uch e st vch)) (to e) vch ≤ c + segment e vch.
Proof.
  intros Hc Hb. unfold ChannelGraphExact.relax.
  destruct (Z.eqb_spec (segment e vch) INF) as [->|_]; [lia|].
  destruct (Z.ltb_spec (c + segment e vch) (dist_at (dist st) (to e) vch));
    [|done].
  simpl. rewrite dist_at_insert, decide_True by done. lia.
Qed.

Lemma covered_relax (closed : gset (Z * Z)) (c u uch : Z) (e : Edge)
    (st : Search) (vch : Z) :
  covered closed st → covered closed (relax c u uch e st vch).
Proof.
  intros Hcov.
  destruct (relax_cases channel_width c u uch e st vch)
    as [->|(_ & _ & ->)]; [done|].
  intros v c'. simpl. rewrite dist_at_insert.
  destruct (decide _) as [[= <- <-]|Hne].
  - right. right. by left.
  - destruct (Hcov v c') as [?|[?|?]]; [by left|by right; left|].
    right. right. by right.
Qed.

Lemma relaxed_relax (closed : gset (Z * Z)) (c u uch : Z) (e : Edge)
    (st : Search) (vch : Z) :
  e ∈ adj g u →
  relaxed c closed st → relaxed c closed (relax c u uch e st vch).
Proof.
  intros He Hrel v c0 Hin. destruct (Hrel v c0 Hin) as (Hv & Hd & Hedges).
  rewrite (relax_dist_keep c u uch e st vch v c0) by done.
  split_and!; [done..|]. intros e' c' He' Hc'.
  pose proof (relax_dist_le c u uch e st vch (to e') c').
  specialize (Hedges e' c' He' Hc'). lia.
Qed.

Lemma routed_relax (c u uch : Z) (e : Edge) (st : Search) (vch : Z) :
  e ∈ adj g u → vch ∈ possible_start_channels u uch →
  0 ≤ c → 0 ≤ uch ≤ CHANNELS - channel_width →
  (u = source ∧ c = 0) ∨ (u ≠ source ∧ route u uch c) →
  rooted st → routed st → routed (relax c u uch e st vch).
Proof.
  intros He Hv Hc Huch Hu [_ Hroot] Hq.
  destruct (relax_cases channel_width c u uch e st vch)
    as [->|(_ & Hlt & ->)]; [done|].
  pose proof (calculateChannelCost_nonneg (channel_costs e) vch channel_width
                (g_nonneg _ _ He)) as Hseg.
  pose proof (possible_start_channels_range g source channel_width
                _ _ _ Huch Hv) as Hvch.
  intros k v c'. simpl. intros [[= -> -> ->]|H]%elem_of_cons; [|by apply Hq].
  right. split.
  - intros Heq. rewrite Heq in Hlt. specialize (Hroot vch Hvch). lia.
  - destruct Hu as [[-> ->]|[Hne Hr]].
    + rewrite Z.add_0_l. by apply route_first.
    + eapply route_step; [done..|].
      revert Hv. unfold ChannelGraph.possible_start_channels.
      destruct (supports g u); simpl; [by left|].
      destruct (Z.eqb_spec u source); [done|].
      intros ->%list_elem_of_singleton. by right.
Qed.

(** *** The loop over the neighbours *)

Lemma expand_establishes (Q : Search → Prop) (R : Edge → Z → Search → Prop)
    (c u uch : Z) :
  (∀ st e vch, e ∈ adj g u → vch ∈ possible_start_channels u uch →
               Q st → Q (relax c u uch e st vch)) →
  (∀ st e vch, e ∈ adj g u → vch ∈ possible_start_channels u uch →
               Q st → R e vch (relax c u uch e st vch)) →
  (∀ st e vch e' vch', e ∈ adj g u → Q st → R e' vch' st →
                       R e' vch' (relax c u uch e st vch)) →
  ∀ st, Q st →
    Q (expand c u uch st) ∧
    ∀ e vch, e ∈ adj g u → vch ∈ possible_start_channels u uch →
             R e vch (expand c u uch st).
Proof.
  intros HQ HR Hkeep st Hst. unfold ChannelGraphExact.expand.
  destruct (fold_left_establishes (expand_edge g source channel_width c u uch)
              Q (λ e a, ∀ vch, vch ∈ possible_start_channels u uch → R e vch a)
              (adj g u)) with (a := st) as [H1 H2]; [| | |done|].
  - intros a e He Ha. unfold expand_edge.
    apply fold_left_preserves; [|done]. intros a' vch Hv Ha'. by apply HQ.
  - intros a e He Ha. unfold expand_edge.
    by apply (fold_left_establishes (ChannelGraphExact.relax channel_width c u uch e)
                Q (R e) (possible_start_channels u uch));
      [intros; apply HQ|intros; apply HR|intros; apply Hkeep|].
  - intros a e e' He Ha Hr vch' Hv'. unfold expand_edge.
    apply (fold_left_preserves (ChannelGraphExact.relax channel_width c u uch e)
             (λ a', Q a' ∧ R e' vch' a')); [|by split; [|apply Hr]].
    intros a' vch Hv [? ?]. split; [by apply HQ|by apply Hkeep].
  - split; [done|]. intros e vch He Hv. by apply H2.
Qed.

(** *** The invariant *)

Lemma searched_init : searched init.
Proof.
  destruct (init_labels source channel_width) as (Hp & Hd & Hq).
  exists 0, ∅. split_and!.
  - by apply settled_init.
  - by apply exploring_init.
  - apply rooted_init.
  - intros k v c H. destruct (Hq _ _ _ H) as (-> & -> & _). by left.
  - intros v c. destruct (Hd v c) as [?|(-> & -> & ?)]; [by right; left|].
    by right; right.
  - intros v c H. by apply elem_of_empty in H.
Qed.

Lemma searched_stale_at (L : Z) (closed : gset (Z * Z)) (st : Search)
    (c u ch : Z) (rest : list (Z * Z * Z)) :
  settled L st ∧ exploring st ∧ rooted st ∧ routed st ∧
  covered closed st ∧ relaxed L closed st →
  pq_pop tuple_leb (pq st) = Some ((c, u, ch), rest) → u ≠ target →
  dist_at (dist st) u ch < c →
  settled c (set_pq st rest) ∧ exploring (set_pq st rest) ∧
  rooted (set_pq st rest) ∧ routed (set_pq st rest) ∧
  covered closed (set_pq st rest) ∧ relaxed c closed (set_pq st rest).
Proof.
  intros (Hs & He & Hr & Hq & Hcov & Hrel) Hpop Hu Hlt.
  assert ((c, u, ch) ∈ pq st) as Hin
    by (apply (pq_pop_elem _ _ _ _ Hpop); by left).
  destruct (settled_queue _ _ _ _ _ _ Hs _ _ _ Hin) as (HL & _).
  split_and!.
  - by eapply settled_pop.
  - by eapply exploring_pop.
  - exact Hr.
  - intros k v c' H. apply Hq. apply (pq_pop_elem _ _ _ _ Hpop). by right.
  - intros v c'. destruct (Hcov v c') as [?|[?|H]]; [by left|by right; left|].
    right. right. simpl.
    apply (pq_pop_elem _ _ _ _ Hpop) in H as [[= ? -> ->]|H]; [lia|done].
  - intros v c' H. destruct (Hrel v c' H) as (? & ? & ?).
    split_and!; [done|simpl; lia|done].
Qed.

Lemma searched_stale (st : Search) (c u ch : Z) (rest : list (Z * Z * Z)) :
  searched st →
  pq_pop tuple_leb (pq st) = Some ((c, u, ch), rest) → u ≠ target →
  dist_at (dist st) u ch < c →
  searched (set_pq st rest).
Proof.
  intros (L & closed & Hst) Hpop Hu Hlt. exists c, closed.
  by eapply searched_stale_at.
Qed.

Lemma searching_relax (closed : gset (Z * Z)) (c u ch : Z) (e : Edge)
    (st : Search) (vch : Z) :
  e ∈ adj g u → vch ∈ possible_start_channels u ch →
  0 ≤ u → 0 ≤ ch ≤ CHANNELS - channel_width →
  u = source ∨ walk g channel_width source u ch →
  (u = source ∧ c = 0) ∨ (u ≠ source ∧ route u ch c) →
  searching c u ch closed st →
  searching c u ch closed (relax c u ch e st vch).
Proof.
  intros He Hv Hu Hch Hwalk Hroute (Hsd & Hex & Hr & Hq & Hcov & Hrel).
  pose proof (settled_low _ _ _ _ _ _ (proj1 Hsd)) as Hc.
  pose proof (possible_start_channels_range g source channel_width
                _ _ _ Hch Hv) as Hvch.
  split_and!.
  - by apply (settled_relax g source target channel_width).
  - by apply (settled_relax g source target channel_width).
  - by apply (exploring_relax g source channel_width).
  - by apply (rooted_relax g source channel_width).
  - by apply routed_relax.
  - by apply covered_relax.
  - by apply relaxed_relax.
Qed.

Lemma searched_step_at (L : Z) (closed : gset (Z * Z)) (st : Search)
    (c u ch : Z) (rest : list (Z * Z * Z)) :
  settled L st ∧ exploring st ∧ rooted st ∧ routed st ∧
  covered closed st ∧ relaxed L closed st →
  pq_pop tuple_leb (pq st) = Some ((c, u, ch), rest) → u ≠ target →
  c ≤ dist_at (dist st) u ch →
  settled c (expand c u ch (set_pq st rest)) ∧
  exploring (expand c u ch (set_pq st rest)) ∧
  rooted (expand c u ch (set_pq st rest)) ∧
  routed (expand c u ch (set_pq st rest)) ∧
  covered ({[(u, ch)]} ∪ closed) (expand c u ch (set_pq st rest)) ∧
  relaxed c ({[(u, ch)]} ∪ closed) (expand c u ch (set_pq st rest)).
Proof.
  intros (Hs & He & Hr & Hq & Hcov & Hrel) Hpop Hu Hle.
  assert ((c, u, ch) ∈ pq st) as Hin
    by (apply (pq_pop_elem _ _ _ _ Hpop); by left).
  destruct (settled_queue _ _ _ _ _ _ Hs _ _ _ Hin) as (HL & Hd & _ & Hu0).
  destruct (exploring_queue _ _ _ _ He _ _ _ Hin) as (Hc & Hch & Hwalk).
  pose proof (Hq _ _ _ Hin) as Hroute.
  destruct (expand_establishes
              (searching c u ch closed)
              (λ e vch st', dist_at (dist st') (to e) vch ≤ c + segment e vch)
              c u ch) with (st := set_pq st rest)
    as [(Hsd & Hex' & Hr' & Hq' & Hcov' & Hrel') Hedges].
  - intros st' e vch He' Hv Hst'. by apply searching_relax.
  - intros st' e vch He' Hv (Hsd & _). apply relax_dist_reached; [done|].
    apply (settled_bound _ _ _ _ _ _ (proj1 Hsd)).
  - intros st' e vch e' vch' He' _ Hr0.
    pose proof (relax_dist_le c u ch e st' vch (to e') vch'). lia.
  - split_and!.
    + by eapply settled_pop.
    + simpl. lia.
    + by eapply exploring_pop.
    + exact Hr.
    + intros k v c' H. apply Hq. apply (pq_pop_elem _ _ _ _ Hpop). by right.
    + intros v c'. destruct (decide ((v, c') = (u, ch))) as [[= -> ->]|Hne].
      { left. set_solver. }
      destruct (Hcov v c') as [?|[?|H]]; [left; set_solver|by right; left|].
      right. right. simpl.
      apply (pq_pop_elem _ _ _ _ Hpop) in H as [[= ? -> ->]|H]; done.
    + intros v c' H. destruct (Hrel v c' H) as (? & ? & ?).
      split_and!; [done|simpl; lia|done].
  - split_and!; [by destruct Hsd|done..|].
    intros v c' [[= -> ->]%elem_of_singleton|H]%elem_of_union.
    + destruct Hsd as [_ Hd']. split_and!; [done|lia|].
      intros e c'' He' Hc''. rewrite Hd'. by apply Hedges.
    + by apply Hrel'.
Qed.

Lemma searched_step (st : Search) (c u ch : Z) (rest : list (Z * Z * Z)) :
  searched st →
  pq_pop tuple_leb (pq st) = Some ((c, u, ch), rest) → u ≠ target →
  c ≤ dist_at (dist st) u ch →
  searched (expand c u ch (set_pq st rest)).
Proof.
  intros (L & closed & Hst) Hpop Hu Hle. exists c, ({[(u, ch)]} ∪ closed).
  by eapply searched_step_at.
Qed.

(** *** When the queue holds nothing cheaper than [B], every route cheaper
    than [B] ends in an expanded state. *)
Lemma route_closed (L B : Z) (closed : gset (Z * Z)) (st : Search) :
  exploring st → rooted st → covered closed st → relaxed L closed st →
  (∀ k v c, (k, v, c) ∈ pq st → B ≤ k) → B ≤ INF →
  ∀ v c D, route v c D → D < B →
           (v, c) ∈ closed ∧ dist_at (dist st) v c ≤ D.
Proof.
  intros He [_ Hroot] Hcov Hrel Hmin HB.
  assert (∀ v c D, dist_at (dist st) v c ≤ D → D < B → (v, c) ∈ closed)
    as Hin.
  { intros v c D Hd HD. destruct (Hcov v c) as [?|[?|H]]; [done|lia|].
    specialize (Hmin _ _ _ H). lia. }
  induction 1 as [e c He' Hc|u cu D e c Hr IH He' Hc Hs]; intros HD.
  - pose proof (calculateChannelCost_nonneg (channel_costs e) c channel_width
                  (g_nonneg _ _ He')) as Hseg.
    specialize (Hroot c Hc).
    pose proof (exploring_dist _ _ _ _ He source c) as H0.
    assert ((source, c) ∈ closed) as Hsrc by (apply (Hin _ _ 0); lia).
    destruct (Hrel _ _ Hsrc) as (_ & _ & Hedges).
    specialize (Hedges e c He'
                  (route_tried source c c Hc (or_introl eq_refl))).
    assert (dist_at (dist st) (to e) c ≤ segment e c) as Hd by lia.
    split; [by eapply Hin|done].
  - pose proof (calculateChannelCost_nonneg (channel_costs e) c channel_width
                  (g_nonneg _ _ He')) as Hseg.
    destruct IH as [Hu Hdu]; [lia|].
    destruct (Hrel _ _ Hu) as (_ & _ & Hedges).
    specialize (Hedges e c He' (route_tried u cu c Hc (or_intror Hs))).
    assert (dist_at (dist st) (to e) c ≤ D + segment e c) as Hd by lia.
    split; [by eapply Hin|done].
Qed.

(** *** The answer of the loop *)

Lemma search_least (fuel0 fuel : nat) (path : list (Z * Z)) (cost : Z) :
  0 ≤ target → channel_width ≤ CHANNELS →
  search fuel0 fuel init = Some (path, cost) →
  (path ≠ [] →
   cost < INF ∧
   ((source = target ∧ cost = 0) ∨
    (source ≠ target ∧ ∃ ch, route target ch cost)) ∧
   ∀ ch D, route target ch D → cost ≤ D) ∧
  (path = [] →
   cost = INF ∧ source ≠ target ∧ ∀ ch D, route target ch D → INF ≤ D).
Proof.
  intros Ht Hwid Hs.
  destruct (search_reaches g source target channel_width searched fuel0)
    with (4 := Hs)
    as [[[= -> ->] (st & (L & closed & Hst & He & Hr & Hq & Hcov & Hrel) & Hpq)]
       |(st & c & ch & rest & (L & closed & Hst & He & Hr & Hq & Hcov & Hrel)
           & Hpop & Hrec)].
  - intros st c u ch rest Hst Hpop Hu Hlt. by eapply searched_stale.
  - intros st c u ch rest Hst Hpop Hu Hle. by eapply searched_step.
  - apply searched_init.
  - split; [done|]. intros _. split_and!; [done| |].
    + intros <-.
      destruct (settled_target _ _ _ _ _ _ Hst 0) as [Hinf|Hin].
      * pose proof (proj2 Hr 0). unfold INF, INT_MAX, CHANNELS in *. lia.
      * rewrite Hpq in Hin. by apply elem_of_nil in Hin.
    + intros ch D HD. destruct (Z.le_gt_cases INF D) as [|Hlt]; [done|].
      destruct (route_closed L INF closed st) with (v := target) (c := ch)
        (D := D) as [Hin _]; try done.
      * intros k v c H. rewrite Hpq in H. by apply elem_of_nil in H.
      * by destruct (Hrel _ _ Hin).
  - assert ((c, target, ch) ∈ pq st) as Hin
      by (apply (pq_pop_elem _ _ _ _ Hpop); by left).
    destruct (settled_queue _ _ _ _ _ _ Hst _ _ _ Hin) as (_ & _ & Hinf & _).
    unfold reconstructPath in Hrec.
    destruct (walk_back fuel0 (prev st) target ch) as [l|] eqn:Hw; [|done].
    injection Hrec as <- <-.
    destruct (walk_back_nonempty _ _ _ _ _ Hw) as [l' ->]; [lia|].
    split.
    + intros _. split_and!; [done| |].
      * destruct (Hq _ _ _ Hin) as [[<- ->]|[? ?]]; [by left|right; eauto].
      * intros ch' D HD. destruct (Z.le_gt_cases c D) as [|Hlt]; [done|].
        destruct (route_closed L c closed st) with (v := target) (c := ch')
          (D := D) as [Hin' _]; try done.
        -- intros k v c' H.
           eapply tuple_leb_cost,
             (pq_pop_least _ tuple_leb_total tuple_leb_trans);
             [exact Hpop|exact H].
        -- lia.
        -- by destruct (Hrel _ _ Hin').
    + rewrite reverse_cons. intros H. by destruct (reverse l').
Qed.

(** *** Where the returned path starts and ends *)

Lemma walk_back_root (L : Z) (st : Search) :
  settled L st →
  ∀ fuel n c l,
    walk_back fuel (prev st) n c = Some l → n ≠ -1 →
    dist_at (dist st) n c < INF →
    ∃ l' c0, l = l' ++ [(source, c0)].
Proof.
  intros [Hq Hp Hr Hl Ht Hb].
  induction fuel as [|fuel IH]; intros n c l; [done|]. rewrite walk_back_S.
  destruct (Z.eqb_spec n (-1)); [done|].
  destruct (prev_at (prev st) n c) as [pn pc] eqn:Hpr.
  destruct (walk_back fuel (prev st) pn pc) as [l0|] eqn:Hw; [|done].
  intros [= <-] _ Hinf.
  destruct (decide (pn = -1)) as [->|Hpn].
  - apply walk_back_end in Hw as ->.
    assert (prev st !! (n, c) = None) as Hnone.
    { revert Hpr. unfold prev_at.
      destruct (prev st !! (n, c)) as [[u cu]|] eqn:E; [|done].
      simpl. intros [= -> ->]. by destruct (Hp _ _ _ _ E). }
    destruct (Hr _ _ Hnone) as [?|[-> _]]; [lia|]. by exists [], c.
  - apply prev_at_Some in Hpr; [|done].
    destruct (Hp _ _ _ _ Hpr) as (_ & HL & e & He & Hto & Heq).
    pose proof (calculateChannelCost_nonneg (channel_costs e) c channel_width
                  (g_nonneg _ _ He)).
    destruct (IH _ _ _ Hw Hpn) as (l' & c0 & ->); [lia|].
    by exists ((n, c) :: l'), c0.
Qed.

Lemma search_endpoints (fuel0 fuel : nat) (path : list (Z * Z)) (cost : Z) :
  0 ≤ target →
  search fuel0 fuel init = Some (path, cost) → path ≠ [] →
  ∃ c0 ct, head path = Some (source, c0) ∧ last path = Some (target, ct).
Proof.
  intros Ht Hs Hne.
  assert (∃ L, settled L init) as Hinit by (exists 0; by apply settled_init).
  destruct (search_reaches g source target channel_width
              (λ st, ∃ L, settled L st) fuel0) with (4 := Hs)
    as [[[= -> _] _]|(st & c & ch & rest & [L Hst] & Hpop & Hrec)]; [| |done..|].
  - intros st c u ch rest [L Hst] Hpop Hu _. exists c. by eapply settled_pop.
  - intros st c u ch rest [L Hst] Hpop Hu Hc. exists c. by eapply settled_step.
  - unfold reconstructPath in Hrec.
    destruct (walk_back fuel0 (prev st) target ch) as [l|] eqn:Hw; [|done].
    injection Hrec as <- <-.
    destruct (settled_target_cost g source target channel_width
                _ _ _ _ _ Hst Hpop) as [Hd Hinf].
    destruct (walk_back_root L st Hst _ _ _ _ Hw) as (l' & c0 & Hl); [lia..|].
    destruct (walk_back_nonempty _ _ _ _ _ Hw) as [l'' Hl'']; [lia|].
    exists c0, ch. split.
    + rewrite Hl, reverse_app. done.
    + rewrite last_reverse, Hl''. done.
Qed.

Lemma search2_endpoints (fuel0 fuel : nat) (path : list (Z * Z)) (cost : Z) :
  0 ≤ target →
  ChannelGraph2Exact.search g source target channel_width fuel0 fuel
    (ChannelGraph2.init source channel_width)
    = Some (Returned (path, cost)) →
  path ≠ [] →
  ∃ c0 ct, head path = Some (source, c0) ∧ last path = Some (target, ct).
Proof.
  intros Ht Hs Hne.
  destruct (ChannelGraph2Facts.search2_reaches g source target channel_width
              (λ _, True) fuel0) with (4 := Hs)
    as [[[= -> _] _]|(st & c & ch & rest & _ & Hpop & _ & Hrec)]; [done..|].
  apply ChannelGraph2Facts.reconstructPath_checked in Hrec
    as (_ & (c0 & rest0 & Hp) & _ & l & Hw & Hl).
  destruct (walk_back_nonempty _ _ _ _ _ Hw) as [l'' Hl'']; [lia|].
  exists c0, ch. split; [by rewrite Hp|].
  by rewrite Hl, last_reverse, Hl''.
Qed.

(** *** The same for ChannelGraph2.cpp *)

Local Abbreviation forget := ChannelGraph2Spec.forget.
Local Abbreviation searched2 := (searched2 g source target channel_width).
Local Abbreviation relax2 := (ChannelGraph2Exact.relax channel_width).
Local Abbreviation expand2 := (ChannelGraph2Exact.expand g source channel_width).
Local Abbreviation possible_start_channels2 :=
  (ChannelGraph2.possible_start_channels g source channel_width).

Lemma relax2_cases (c u uch : Z) (e : Edge) (st : ChannelGraph2.Search)
    (vch : Z) :
  ((to e, vch) ∈ ChannelGraph2.visited st ∧ relax2 c u uch e st vch = st) ∨
  (((to e, vch) ∉ ChannelGraph2.visited st) ∧
   ChannelGraph2.visited (relax2 c u uch e st vch)
     = ChannelGraph2.visited st ∧
   forget (relax2 c u uch e st vch) = relax c u uch e (forget st) vch).
Proof.
  unfold ChannelGraph2Exact.relax, ChannelGraphExact.relax.
  destruct (decide _) as [Hv|Hv]; [by left|right]. split; [done|].
  simpl. destruct (_ =? _); [done|]. by destruct (_ <? _).
Qed.

Lemma possible_start_channels2_tried (u uch vch : Z) :
  0 ≤ uch ≤ CHANNELS - channel_width →
  vch ∈ possible_start_channels u uch →
  vch ∈ possible_start_channels2 u uch.
Proof.
  intros Hu.
  unfold ChannelGraph.possible_start_channels,
    ChannelGraph2.possible_start_channels.
  destruct (supports g u || (u =? source)); [done|].
  destruct (Z.leb_spec uch (CHANNELS - channel_width)); [done|lia].
Qed.

Lemma expand2_establishes (Q : ChannelGraph2.Search → Prop)
    (R : Edge → Z → ChannelGraph2.Search → Prop) (c u uch : Z) :
  (∀ st e vch, e ∈ adj g u → vch ∈ possible_start_channels2 u uch →
               Q st → Q (relax2 c u uch e st vch)) →
  (∀ st e vch, e ∈ adj g u → vch ∈ possible_start_channels2 u uch →
               Q st → R e vch (relax2 c u uch e st vch)) →
  (∀ st e vch e' vch', e ∈ adj g u → Q st → R e' vch' st →
                       R e' vch' (relax2 c u uch e st vch)) →
  ∀ st, Q st →
    Q (expand2 c u uch st) ∧
    ∀ e vch, e ∈ adj g u → vch ∈ possible_start_channels2 u uch →
             R e vch (expand2 c u uch st).
Proof.
  intros HQ HR Hkeep st Hst. unfold ChannelGraph2Exact.expand.
  destruct (fold_left_establishes
              (ChannelGraph2Exact.expand_edge g source channel_width c u uch)
              Q (λ e a, ∀ vch, vch ∈ possible_start_channels2 u uch → R e vch a)
              (adj g u)) with (a := st) as [H1 H2]; [| | |done|].
  - intros a e He Ha. unfold ChannelGraph2Exact.expand_edge.
    apply fold_left_preserves; [|done]. intros a' vch Hv Ha'. by apply HQ.
  - intros a e He Ha. unfold ChannelGraph2Exact.expand_edge.
    by apply (fold_left_establishes
                (ChannelGraph2Exact.relax channel_width c u uch e)
                Q (R e) (possible_start_channels2 u uch));
      [intros; apply HQ|intros; apply HR|intros; apply Hkeep|].
  - intros a e e' He Ha Hr vch' Hv'. unfold ChannelGraph2Exact.expand_edge.
    apply (fold_left_preserves (ChannelGraph2Exact.relax channel_width c u uch e)
             (λ a', Q a' ∧ R e' vch' a')); [|by split; [|apply Hr]].
    intros a' vch Hv [? ?]. split; [by apply HQ|by apply Hkeep].
  - split; [done|]. intros e vch He Hv. by apply H2.
Qed.

Lemma searched2_init :
  searched2 (ChannelGraph2.init source channel_width).
Proof.
  destruct (ChannelGraph2Facts.init_forget source channel_width) as [Hf Hv].
  destruct searched_init as (L & closed & Hs & He & Hr & Hq & _ & _).
  destruct (init_labels source channel_width) as (_ & Hd & _).
  exists L. rewrite Hf, Hv. split_and!; [done..| |].
  - intros v c. destruct (Hd v c) as [?|(-> & -> & ?)]; [by right; left|].
    by right; right.
  - intros v c H. by apply elem_of_empty in H.
Qed.

Lemma searched2_stale (st : ChannelGraph2.Search) (c u ch : Z)
    (rest : list (Z * Z * Z)) :
  searched2 st →
  pq_pop tuple_leb (ChannelGraph2.pq st) = Some ((c, u, ch), rest) →
  (u, ch) ∈ ChannelGraph2.visited st →
  searched2 (ChannelGraph2Spec.pop_stale st rest).
Proof.
  intros (L & Hs & He & Hr & Hq & Hcov & Hrel) Hpop Hv.
  pose proof (ChannelGraph2Facts.popped_in_queue _ _ _ _ _ Hpop) as Hin.
  destruct (settled_queue _ _ _ _ _ _ Hs _ _ _ Hin) as (HL & _).
  destruct (Hrel _ _ Hv) as (Hu & _).
  exists c. change (forget (ChannelGraph2Spec.pop_stale st rest))
    with (set_pq (forget st) rest). split_and!.
  - by eapply settled_pop.
  - by eapply exploring_pop.
  - exact Hr.
  - intros k v c' H. apply Hq. apply (pq_pop_elem _ _ _ _ Hpop). by right.
  - intros v c'. destruct (Hcov v c') as [?|[?|H]]; [by left|by right; left|].
    simpl in H.
    apply (pq_pop_elem _ _ _ _ Hpop) in H as [[= ? -> ->]|H]; [by left|].
    by right; right.
  - intros v c' H. destruct (Hrel v c' H) as (? & ? & ?).
    split_and!; [done|simpl in *; lia|done].
Qed.

Lemma searched2_cost (st : ChannelGraph2.Search) (c u ch : Z)
    (rest : list (Z * Z * Z)) :
  searched2 st →
  pq_pop tuple_leb (ChannelGraph2.pq st) = Some ((c, u, ch), rest) →
  (u, ch) ∉ ChannelGraph2.visited st →
  dist_at (ChannelGraph2.dist st) u ch = c.
Proof.
  intros (L & Hs & He & Hr & Hq & Hcov & Hrel) Hpop Hv.
  pose proof (ChannelGraph2Facts.popped_in_queue _ _ _ _ _ Hpop) as Hin.
  destruct (settled_queue _ _ _ _ _ _ Hs _ _ _ Hin) as (_ & Hle & Hinf & _).
  destruct (Hcov u ch) as [?|[Hd|Hd]]; [done|simpl in *; lia|].
  pose proof (pq_pop_least _ tuple_leb_total tuple_leb_trans _ _ _ Hpop _ Hd)
    as Hleast%tuple_leb_cost.
  simpl in *. lia.
Qed.

Lemma searched2_step (st : ChannelGraph2.Search) (c u ch : Z)
    (rest : list (Z * Z * Z)) :
  searched2 st →
  pq_pop tuple_leb (ChannelGraph2.pq st) = Some ((c, u, ch), rest) →
  (u, ch) ∉ ChannelGraph2.visited st → u ≠ target →
  searched2 (expand2 c u ch (ChannelGraph2Spec.pop_fresh st u ch rest)).
Proof.
  intros Hst Hpop Hv Hu.
  pose proof (searched2_cost _ _ _ _ _ Hst Hpop Hv) as Hd.
  destruct Hst as (L & Hs & He & Hr & Hq & Hcov & Hrel).
  pose proof (ChannelGraph2Facts.popped_in_queue _ _ _ _ _ Hpop) as Hin.
  destruct (settled_queue _ _ _ _ _ _ Hs _ _ _ Hin) as (HL & _ & _ & Hu0).
  destruct (exploring_queue _ _ _ _ He _ _ _ Hin) as (Hc & Hch & Hwalk).
  pose proof (Hq _ _ _ Hin) as Hroute.
  set (V := {[(u, ch)]} ∪ ChannelGraph2.visited st).
  destruct (expand2_establishes
              (λ st', searching c u ch (ChannelGraph2.visited st) (forget st') ∧
                      ChannelGraph2.visited st' = V)
              (λ e vch st',
                 dist_at (ChannelGraph2.dist st') (to e) vch
                 ≤ c + segment e vch)
              c u ch)
    with (st := ChannelGraph2Spec.pop_fresh st u ch rest)
    as [[(Hsd & Hex' & Hr' & Hq' & Hcov' & Hrel') Hvis] Hedges].
  - intros st' e vch He' Hvch [Hst' Hvis].
    destruct (relax2_cases c u ch e st' vch) as [[_ ->]|(_ & Hvis' & ->)];
      [done|].
    split; [|congruence]. apply searching_relax; try done.
    by apply ChannelGraph2Facts.possible_start_channels_forget.
  - intros st' e vch He' Hvch [(Hsd & _ & _ & _ & _ & Hrel') Hvis].
    pose proof (calculateChannelCost_nonneg (channel_costs e) vch channel_width
                  (g_nonneg _ _ He')) as Hseg.
    destruct (relax2_cases c u ch e st' vch) as [[Hin' ->]|(_ & _ & Heq)].
    + rewrite Hvis in Hin'.
      apply elem_of_union in Hin' as [[= -> ->]%elem_of_singleton|Hin'].
      * destruct Hsd as [_ Hd']. simpl in Hd'. lia.
      * destruct (Hrel' _ _ Hin') as (_ & ? & _). simpl in *. lia.
    + change (ChannelGraph2.dist (relax2 c u ch e st' vch))
        with (dist (forget (relax2 c u ch e st' vch))).
      rewrite Heq. apply relax_dist_reached; [done|].
      apply (settled_bound _ _ _ _ _ _ (proj1 Hsd)).
  - intros st' e vch e' vch' He' _ Hr0.
    destruct (relax2_cases c u ch e st' vch) as [[_ ->]|(_ & _ & Heq)]; [done|].
    change (ChannelGraph2.dist (relax2 c u ch e st' vch))
      with (dist (forget (relax2 c u ch e st' vch))).
    rewrite Heq.
    pose proof (relax_dist_le c u ch e (forget st') vch (to e') vch').
    simpl in *. lia.
  - split; [|done].
    change (forget (ChannelGraph2Spec.pop_fresh st u ch rest))
      with (set_pq (forget st) rest).
    split_and!.
    + by eapply settled_pop.
    + simpl. lia.
    + by eapply exploring_pop.
    + exact Hr.
    + intros k v c' H. apply Hq. apply (pq_pop_elem _ _ _ _ Hpop). by right.
    + intros v c'. destruct (decide ((v, c') = (u, ch))) as [[= -> ->]|Hne].
      { left. set_solver. }
      destruct (Hcov v c') as [?|[?|H]]; [left; set_solver|by right; left|].
      right. right. simpl in *.
      apply (pq_pop_elem _ _ _ _ Hpop) in H as [[= ? -> ->]|H]; done.
    + intros v c' H. destruct (Hrel v c' H) as (? & ? & ?).
      split_and!; [done|simpl in *; lia|done].
  - exists c. rewrite Hvis. split_and!; [by destruct Hsd|done..|].
    intros v c' [[= -> ->]%elem_of_singleton|H]%elem_of_union.
    + destruct Hsd as [_ Hd']. split_and!; [done|lia|].
      intros e c'' He' Hc''. rewrite Hd'. apply Hedges; [done|].
      by apply possible_start_channels2_tried.
    + by apply Hrel'.
Qed.

Lemma search2_least (fuel0 fuel : nat) (path : list (Z * Z)) (cost : Z) :
  0 ≤ target → channel_width ≤ CHANNELS →
  ChannelGraph2Exact.search g source target channel_width fuel0 fuel
    (ChannelGraph2.init source channel_width)
    = Some (Returned (path, cost)) →
  (path ≠ [] →
   cost < INF ∧
   ((source = target ∧ cost = 0) ∨
    (source ≠ target ∧ ∃ ch, route target ch cost)) ∧
   ∀ ch D, route target ch D → cost ≤ D) ∧
  (path = [] →
   cost = INF ∧ source ≠ target ∧ ∀ ch D, route target ch D → INF ≤ D).
Proof.
  intros Ht Hwid Hs.
  destruct (ChannelGraph2Facts.search2_reaches g source target channel_width
              searched2 fuel0)
    with (4 := Hs)
    as [[[= -> ->] (st & (L & Hst & He & Hr & Hq & Hcov & Hrel) & Hpq)]
       |(st & c & ch & rest & (L & Hst & He & Hr & Hq & Hcov & Hrel)
           & Hpop & _ & Hrec)].
  - intros st c u ch rest Hst Hpop Hv. by eapply searched2_stale.
  - intros st c u ch rest Hst Hpop Hv Hu. by eapply searched2_step.
  - apply searched2_init.
  - split; [done|]. intros _. split_and!; [done| |].
    + intros <-.
      destruct (settled_target _ _ _ _ _ _ Hst 0) as [Hinf|Hin].
      * pose proof (proj2 Hr 0). unfold INF, INT_MAX, CHANNELS in *. lia.
      * simpl in Hin. rewrite Hpq in Hin. by apply elem_of_nil in Hin.
    + intros ch D HD. destruct (Z.le_gt_cases INF D) as [|Hlt]; [done|].
      destruct (route_closed L INF (ChannelGraph2.visited st) (forget st))
        with (v := target) (c := ch) (D := D) as [Hin _]; try done.
      * intros k v c H. simpl in H. rewrite Hpq in H.
        by apply elem_of_nil in H.
      * by destruct (Hrel _ _ Hin).
  - pose proof (ChannelGraph2Facts.popped_in_queue _ _ _ _ _ Hpop) as Hin.
    destruct (settled_queue _ _ _ _ _ _ Hst _ _ _ Hin) as (_ & _ & Hinf & _).
    apply ChannelGraph2Facts.reconstructPath_checked in Hrec
      as (_ & (ch0 & rest0 & ->) & -> & _).
    split; [|done].
    intros _. split_and!; [done| |].
    + destruct (Hq _ _ _ Hin) as [[<- ->]|[? ?]]; [by left|right; eauto].
    + intros ch' D HD. destruct (Z.le_gt_cases c D) as [|Hlt]; [done|].
      destruct (route_closed L c (ChannelGraph2.visited st) (forget st))
        with (v := target) (c := ch') (D := D) as [Hin' _]; try done.
      * intros k v c' H.
        eapply tuple_leb_cost,
          (pq_pop_least _ tuple_leb_total tuple_leb_trans);
          [exact Hpop|exact H].
      * lia.
      * by destruct (Hrel _ _ Hin').
Qed.

(** *** Modest costs: the sums of the search are [int]s *)

Section Modest.
Hypothesis g_modest : modest g.
Hypothesis width_max : channel_width ≤ 3.
Hypothesis source_max : source < node_count g.

Local Abbreviation shallow := (shallow g).
Local Abbreviation searched_within :=
  (searched_within g source target channel_width).
Local Abbreviation searched2_within :=
  (searched2_within g source target channel_width).

Lemma limit_pos : 0 < limit g.
Proof. unfold limit, CHANNELS. lia. Qed.

Lemma hop_nonneg : 0 ≤ hop g.
Proof.
  unfold hop. pose proof limit_pos.
  assert (0 ≤ INT_MAX / limit g); [|lia].
  apply Z.div_pos; [unfold INT_MAX|]; lia.
Qed.

Lemma hop_limit : hop g * (node_count g * CHANNELS + 1) ≤ INT_MAX.
Proof.
  replace (hop g * (node_count g * CHANNELS + 1))
    with (limit g * (INT_MAX / limit g)) by (unfold hop, limit; ring).
  apply Z.mul_div_le, limit_pos.
Qed.

Lemma vget_le (costs : list Z) (B i : Z) :
  Forall (λ c, 0 ≤ c ≤ B) costs → 0 ≤ B → vget costs i ≤ B.
Proof.
  intros H HB. unfold vget.
  destruct (nth_in_or_default (Z.to_nat i) costs 0) as [Hin| ->]; [|done].
  rewrite Forall_forall in H. apply H. by apply list_elem_of_In.
Qed.

Lemma sum_costs_bound (costs : list Z) (B start : Z) (l : list Z) (a : Z) :
  Forall (λ c, 0 ≤ c ≤ B) costs → 0 ≤ B →
  fold_left (λ total i, total + vget costs (start + i)) l a
  ≤ a + Z.of_nat (length l) * B.
Proof.
  intros H HB. revert a. induction l as [|i l IH]; intros a; simpl; [lia|].
  pose proof (vget_le costs B (start + i) H HB).
  specialize (IH (a + vget costs (start + i))). lia.
Qed.

(** A segment of an edge of the graph costs one [hop] at most. *)
Lemma segment_small (u : Z) (e : Edge) (c : Z) :
  e ∈ adj g u → segment e c = INF ∨ 0 ≤ segment e c ≤ hop g.
Proof.
  intros He. pose proof hop_nonneg as Hh. unfold hop in *.
  unfold ChannelGraphExact.calculateChannelCost.
  destruct (c + channel_width >? CHANNELS); [by left|right]. split.
  - apply sum_costs_nonneg; [by eapply g_nonneg|done].
  - pose proof (sum_costs_bound (channel_costs e) (INT_MAX / limit g) c
                  (upto (channel_width - 1)) 0 (g_modest _ _ He)) as Hb.
    unfold upto in Hb. rewrite length_seqZ in Hb.
    assert (Z.of_nat (Z.to_nat (channel_width - 1 + 1)) * (INT_MAX / limit g)
            ≤ 3 * (INT_MAX / limit g)); [|unfold upto; lia].
    apply Z.mul_le_mono_nonneg_r; lia.
Qed.

Lemma hop_small : hop g < INT_MAX.
Proof.
  pose proof hop_limit. pose proof hop_nonneg.
  assert (hop g * 2 ≤ hop g * (node_count g * CHANNELS + 1)).
  { apply Z.mul_le_mono_nonneg_l; [done|unfold CHANNELS; lia]. }
  destruct (decide (hop g = 0)) as [->|]; [done|]. lia.
Qed.

Lemma segment_int (u : Z) (e : Edge) (c : Z) :
  e ∈ adj g u →
  ChannelGraph.calculateChannelCost (channel_costs e) c channel_width
  = segment e c.
Proof.
  intros He.
  apply OptimizedEfficientGraphFacts.calculateChannelCost_exact;
    [by eapply g_nonneg|].
  pose proof hop_small.
  destruct (segment_small u e c He) as [->|?]; [done|lia].
Qed.

(** One relaxation of the code is the one over the integers when the label
    of the expanded state leaves room for one more [hop]. *)
Lemma relax_modest (c u uch : Z) (e : Edge) (st : Search) (vch : Z) :
  e ∈ adj g u → 0 ≤ c → c + hop g ≤ INT_MAX →
  ChannelGraph.relax channel_width c u uch e st vch
  = relax c u uch e st vch.
Proof.
  intros He Hc Hroom. unfold ChannelGraph.relax, ChannelGraphExact.relax.
  rewrite (segment_int u) by done.
  destruct (Z.eqb_spec (segment e vch) INF) as [|Hne]; [done|].
  destruct (segment_small u e vch He) as [?|?]; [done|].
  rewrite IntFacts.int_add_exact; [done|unfold INT_MIN; lia].
Qed.

Lemma fold_left_agree {A B} (f f' : A → B → A) (l : list B) :
  (∀ a b, b ∈ l → f a b = f' a b) →
  ∀ a, fold_left f l a = fold_left f' l a.
Proof.
  induction l as [|b l IH]; intros H a; simpl; [done|].
  rewrite H by (by left). apply IH. intros a' b' Hb'. apply H. by right.
Qed.

Lemma expand_modest (c u uch : Z) (st : Search) :
  0 ≤ c → c + hop g ≤ INT_MAX →
  ChannelGraph.expand g source channel_width c u uch st = expand c u uch st.
Proof.
  intros Hc Hroom. unfold ChannelGraph.expand, ChannelGraphExact.expand.
  apply fold_left_agree. intros a e He.
  unfold ChannelGraph.expand_edge, ChannelGraphExact.expand_edge.
  apply fold_left_agree. intros a' vch _. by apply relax_modest.
Qed.

(** The states of the graph are [node_count g * CHANNELS] at most. *)
Lemma size_states (X : gset (Z * Z)) :
  (∀ v c, (v, c) ∈ X → 0 ≤ v < node_count g ∧ 0 ≤ c < CHANNELS) →
  Z.of_nat (size X) ≤ node_count g * CHANNELS.
Proof.
  intros H.
  set (l := (λ i, (i `div` CHANNELS, i `mod` CHANNELS))
              <$> seqZ 0 (node_count g * CHANNELS)).
  assert (elements X ⊆+ l) as Hsub.
  { apply NoDup_submseteq; [apply NoDup_elements|].
    intros [v c] Hx%elem_of_elements. apply H in Hx.
    apply list_elem_of_fmap. exists (v * CHANNELS + c). split.
    - unfold CHANNELS in *. f_equal.
      + apply Z.div_unique with c; lia.
      + apply Z.mod_unique with v; lia.
    - apply elem_of_seqZ. unfold CHANNELS in *. lia. }
  apply submseteq_length in Hsub.
  unfold l in Hsub. rewrite length_fmap, length_seqZ in Hsub.
  unfold size, set_size. simpl. unfold CHANNELS in *. lia.
Qed.

(** What waits in the queue leaves room for one more [hop]. *)
Lemma shallow_room (closed : gset (Z * Z)) (queue : list (Z * Z * Z))
    (k v c : Z) :
  shallow closed queue → (k, v, c) ∈ queue → k + hop g ≤ INT_MAX.
Proof.
  intros [Hin Hq] H. specialize (Hq _ _ _ H).
  pose proof (size_states closed Hin). pose proof hop_limit.
  pose proof hop_nonneg.
  assert (Z.of_nat (size closed) * hop g ≤ node_count g * CHANNELS * hop g)
    by (by apply Z.mul_le_mono_nonneg_r).
  lia.
Qed.

Lemma walk_in_range (v c : Z) :
  walk g channel_width source v c → 0 ≤ v < node_count g.
Proof. intros [e c' He _|u cu e c' _ He _ _]; by destruct (g_wf _ _ He). Qed.

(** Expanding a state once more changes nothing. *)
Lemma expand_again (L : Z) (closed : gset (Z * Z)) (c u ch : Z)
    (st : Search) :
  relaxed L closed st → (u, ch) ∈ closed → dist_at (dist st) u ch = c →
  expand c u ch st = st.
Proof.
  intros Hrel Hin Hd. destruct (Hrel _ _ Hin) as (_ & _ & Hedges).
  apply (expand_preserves g source channel_width (λ st', st' = st));
    [|done].
  intros st' e vch He Hv ->.
  destruct (relax_cases channel_width c u ch e st vch)
    as [->|(_ & Hlt & _)]; [done|].
  specialize (Hedges e vch He Hv). lia.
Qed.

Lemma searched_within_init : searched_within init.
Proof.
  destruct (init_labels source channel_width) as (Hp & Hd & Hq).
  pose proof hop_nonneg.
  exists 0, ∅. split; [split_and!|split].
  - by apply settled_init.
  - by apply exploring_init.
  - apply rooted_init.
  - intros k v c H'. destruct (Hq _ _ _ H') as (-> & -> & _). by left.
  - intros v c. destruct (Hd v c) as [?|(-> & -> & ?)]; [by right; left|].
    by right; right.
  - intros v c H'. by apply elem_of_empty in H'.
  - intros v c H'. by apply elem_of_empty in H'.
  - intros k v c H'. destruct (Hq _ _ _ H') as (-> & _). lia.
Qed.

Lemma searched_within_stale (st : Search) (c u ch : Z)
    (rest : list (Z * Z * Z)) :
  searched_within st →
  pq_pop tuple_leb (pq st) = Some ((c, u, ch), rest) → u ≠ target →
  dist_at (dist st) u ch < c →
  searched_within (set_pq st rest).
Proof.
  intros (L & closed & Hst & Hin & Hq) Hpop Hu Hlt.
  exists c, closed. split; [by eapply searched_stale_at|]. split; [done|].
  intros k v c' H'. apply (Hq k v c').
  apply (pq_pop_elem _ _ _ _ Hpop). by right.
Qed.

Lemma searched_within_step (st : Search) (c u ch : Z)
    (rest : list (Z * Z * Z)) :
  searched_within st →
  pq_pop tuple_leb (pq st) = Some ((c, u, ch), rest) → u ≠ target →
  c ≤ dist_at (dist st) u ch →
  searched_within (expand c u ch (set_pq st rest)).
Proof.
  intros (L & closed & Hst & Hin & Hq) Hpop Hu Hle.
  pose proof (searched_step_at L closed st c u ch rest Hst Hpop Hu Hle)
    as Hst'.
  exists c, ({[(u, ch)]} ∪ closed). split; [done|].
  destruct Hst as (Hs & He & Hr & Hrt & Hcov & Hrel).
  assert ((c, u, ch) ∈ pq st) as Hpq
    by (apply (pq_pop_elem _ _ _ _ Hpop); by left).
  destruct (settled_queue _ _ _ _ _ _ Hs _ _ _ Hpq) as (HL & Hd & _ & Hu0).
  destruct (exploring_queue _ _ _ _ He _ _ _ Hpq) as (Hc & Hch & Hwalk).
  pose proof hop_nonneg as Hhop.
  assert (∀ k v c', (k, v, c') ∈ rest → k ≤ Z.of_nat (size closed) * hop g)
    as Hrest.
  { intros k v c' H'. apply (Hq k v c').
    apply (pq_pop_elem _ _ _ _ Hpop). by right. }
  destruct (decide ((u, ch) ∈ closed)) as [Hold|Hnew].
  - rewrite (expand_again c closed c u ch); [| |done|simpl; lia].
    + replace ({[(u, ch)]} ∪ closed) with closed by set_solver.
      by split.
    + intros v c' H'. destruct (Hrel v c' H') as (? & ? & ?).
      split_and!; [done|simpl; lia|done].
  - assert (size ({[(u, ch)]} ∪ closed) = S (size closed)) as Hsize.
    { rewrite size_union by set_solver. by rewrite size_singleton. }
    split.
    + intros v c' [[= -> ->]%elem_of_singleton|H']%elem_of_union;
        [|by apply Hin].
      split; [|unfold CHANNELS in *; lia].
      destruct Hwalk as [->|Hw]; [lia|]. by eapply walk_in_range.
    + rewrite Hsize.
      apply (expand_preserves g source channel_width
               (λ st', ∀ k v c', (k, v, c') ∈ pq st' →
                                 k ≤ Z.of_nat (S (size closed)) * hop g)).
      * intros st' e vch He' Hv Hst''.
        destruct (relax_cases channel_width c u ch e st' vch)
          as [->|(Hne & _ & ->)]; [done|].
        intros k v c'. simpl.
        intros [[= -> -> ->]|H']%elem_of_cons; [|by apply (Hst'' _ _ _ H')].
        destruct (segment_small u e vch He') as [?|?]; [done|].
        specialize (Hq _ _ _ Hpq). lia.
      * intros k v c' H'. simpl in H'. specialize (Hrest _ _ _ H'). lia.
Qed.

(** On a modest graph the loop of the code and the loop over the integers
    are the same. *)
Lemma search_modest (fuel0 : nat) :
  ∀ fuel st, searched_within st →
    ChannelGraph.search g source target channel_width fuel0 fuel st
    = search fuel0 fuel st.
Proof.
  induction fuel as [|fuel IH]; intros st Hst; [done|].
  cbn [ChannelGraph.search ChannelGraphExact.search].
  destruct (pq_pop tuple_leb (pq st)) as [[[[c u] ch] rest]|] eqn:Hpop;
    [|done].
  destruct (Z.eqb_spec u target) as [->|Hu]; [done|].
  destruct (Z.gtb_spec c (dist_at (dist st) u ch)).
  - apply IH. by eapply searched_within_stale.
  - assert ((c, u, ch) ∈ pq st) as Hpq
      by (apply (pq_pop_elem _ _ _ _ Hpop); by left).
    destruct Hst as (L & closed & Hsix & Hsh).
    destruct (exploring_queue _ _ _ _ (proj1 (proj2 Hsix)) _ _ _ Hpq)
      as (Hc & _).
    rewrite expand_modest; [|done|by eapply shallow_room].
    apply IH. eapply searched_within_step; [|done..].
    by exists L, closed.
Qed.

(** The same for ChannelGraph2.cpp. *)

Lemma relax2_modest (c u uch : Z) (e : Edge) (st : ChannelGraph2.Search)
    (vch : Z) :
  e ∈ adj g u → 0 ≤ c → c + hop g ≤ INT_MAX →
  ChannelGraph2.relax channel_width c u uch e st vch
  = relax2 c u uch e st vch.
Proof.
  intros He Hc Hroom. unfold ChannelGraph2.relax, ChannelGraph2Exact.relax.
  destruct (decide _); [done|].
  rewrite (segment_int u) by done.
  destruct (Z.eqb_spec (segment e vch) INF) as [|Hne]; [done|].
  destruct (segment_small u e vch He) as [?|?]; [done|].
  rewrite IntFacts.int_add_exact; [done|unfold INT_MIN; lia].
Qed.

Lemma expand2_modest (c u uch : Z) (st : ChannelGraph2.Search) :
  0 ≤ c → c + hop g ≤ INT_MAX →
  ChannelGraph2.expand g source channel_width c u uch st
  = expand2 c u uch st.
Proof.
  intros Hc Hroom. unfold ChannelGraph2.expand, ChannelGraph2Exact.expand.
  apply fold_left_agree. intros a e He.
  unfold ChannelGraph2.expand_edge, ChannelGraph2Exact.expand_edge.
  apply fold_left_agree. intros a' vch _. by apply relax2_modest.
Qed.

Lemma searched2_within_init :
  searched2_within (ChannelGraph2.init source channel_width).
Proof.
  split; [apply searched2_init|].
  destruct (ChannelGraph2Facts.init_forget source channel_width) as [Hf Hv].
  destruct (init_labels source channel_width) as (_ & _ & Hq).
  pose proof hop_nonneg. rewrite Hv. split.
  - intros v c H'. by apply elem_of_empty in H'.
  - intros k v c H'.
    change (ChannelGraph2.pq (ChannelGraph2.init source channel_width))
      with (pq (forget (ChannelGraph2.init source channel_width))) in H'.
    rewrite Hf in H'. destruct (Hq _ _ _ H') as (-> & _). lia.
Qed.

Lemma searched2_within_stale (st : ChannelGraph2.Search) (c u ch : Z)
    (rest : list (Z * Z * Z)) :
  searched2_within st →
  pq_pop tuple_leb (ChannelGraph2.pq st) = Some ((c, u, ch), rest) →
  (u, ch) ∈ ChannelGraph2.visited st →
  searched2_within (ChannelGraph2Spec.pop_stale st rest).
Proof.
  intros [Hst [Hin Hq]] Hpop Hv. split; [by eapply searched2_stale|].
  split; [done|]. simpl. intros k v c' H'. apply (Hq k v c').
  apply (pq_pop_elem _ _ _ _ Hpop). by right.
Qed.

Lemma searched2_within_step (st : ChannelGraph2.Search) (c u ch : Z)
    (rest : list (Z * Z * Z)) :
  searched2_within st →
  pq_pop tuple_leb (ChannelGraph2.pq st) = Some ((c, u, ch), rest) →
  (u, ch) ∉ ChannelGraph2.visited st → u ≠ target →
  searched2_within (expand2 c u ch (ChannelGraph2Spec.pop_fresh st u ch rest)).
Proof.
  intros [Hst [Hin Hq]] Hpop Hv Hu.
  split; [by eapply searched2_step|].
  destruct Hst as (L & Hs & He & _).
  pose proof (ChannelGraph2Facts.popped_in_queue _ _ _ _ _ Hpop) as Hpq.
  destruct (settled_queue _ _ _ _ _ _ Hs _ _ _ Hpq) as (_ & _ & _ & Hu0).
  destruct (exploring_queue _ _ _ _ He _ _ _ Hpq) as (Hc & Hch & Hwalk).
  pose proof hop_nonneg as Hhop.
  set (V := {[(u, ch)]} ∪ ChannelGraph2.visited st).
  assert (size V = S (size (ChannelGraph2.visited st))) as Hsize.
  { unfold V. rewrite size_union by set_solver. by rewrite size_singleton. }
  assert (ChannelGraph2.visited
            (expand2 c u ch (ChannelGraph2Spec.pop_fresh st u ch rest)) = V
          ∧ ∀ k v c',
              (k, v, c') ∈ ChannelGraph2.pq
                 (expand2 c u ch (ChannelGraph2Spec.pop_fresh st u ch rest)) →
              k ≤ Z.of_nat (size V) * hop g) as [-> Hq'].
  { apply (ChannelGraph2Facts.expand2_preserves g source channel_width
             (λ st', ChannelGraph2.visited st' = V ∧
                     ∀ k v c', (k, v, c') ∈ ChannelGraph2.pq st' →
                               k ≤ Z.of_nat (size V) * hop g)).
    - intros st' e vch He' _ [Hvis Hst'].
      destruct (relax2_cases c u ch e st' vch)
        as [[_ ->]|(_ & Hvis' & Heq)]; [done|].
      split; [congruence|].
      change (ChannelGraph2.pq (relax2 c u ch e st' vch))
        with (pq (forget (relax2 c u ch e st' vch))).
      rewrite Heq.
      destruct (relax_cases channel_width c u ch e (forget st') vch)
        as [->|(Hne & _ & ->)]; [done|].
      intros k v c'. simpl.
      intros [[= -> -> ->]|H']%elem_of_cons; [|by apply (Hst' _ _ _ H')].
      destruct (segment_small u e vch He') as [?|?]; [done|].
      specialize (Hq _ _ _ Hpq). lia.
    - split; [done|]. simpl. intros k v c' H'.
      assert (k ≤ Z.of_nat (size (ChannelGraph2.visited st)) * hop g).
      { apply (Hq k v c'). apply (pq_pop_elem _ _ _ _ Hpop). by right. }
      lia. }
  split; [|done].
  intros v c' [[= -> ->]%elem_of_singleton|H']%elem_of_union; [|by apply Hin].
  split; [|unfold CHANNELS in *; lia].
  destruct Hwalk as [->|Hw]; [lia|]. by eapply walk_in_range.
Qed.

Lemma search2_modest (fuel0 : nat) :
  ∀ fuel st, searched2_within st →
    ChannelGraph2.search g source target channel_width fuel0 fuel st
    = ChannelGraph2Exact.search g source target channel_width fuel0 fuel st.
Proof.
  induction fuel as [|fuel IH]; intros st Hst; [done|].
  cbn [ChannelGraph2.search ChannelGraph2Exact.search].
  destruct (pq_pop tuple_leb (ChannelGraph2.pq st))
    as [[[[c u] ch] rest]|] eqn:Hpop; [|done].
  destruct (decide ((u, ch) ∈ ChannelGraph2.visited st)) as [Hv|Hv].
  - apply IH. by eapply searched2_within_stale.
  - destruct (Z.eqb_spec u target) as [->|Hu]; [done|].
    pose proof (ChannelGraph2Facts.popped_in_queue _ _ _ _ _ Hpop) as Hpq.
    destruct Hst as [Hst Hsh].
    assert (0 ≤ c) as Hc.
    { destruct Hst as (L & _ & He & _).
      by destruct (exploring_queue _ _ _ _ He _ _ _ Hpq). }
    rewrite expand2_modest; [|done|by eapply shallow_room].
    apply IH. by eapply searched2_within_step.
Qed.

End Modest.

End Facts.

(** *** The queries *)

Lemma cg_least (g : Graph) (source target w : Z) (fuel : nat)
    (path : list (Z * Z)) (cost : Z) :
  well_formed g → nonnegative g →
  findShortestPath g source target w fuel = Some (Returned (path, cost)) →
  (path ≠ [] →
   cost < INF ∧
   ((source = target ∧ cost = 0) ∨
    (source ≠ target ∧ ∃ ch, route g w source target ch cost)) ∧
   ∀ ch D, route g w source target ch D → cost ≤ D) ∧
  (path = [] →
   cost = INF ∧ source ≠ target ∧
   ∀ ch D, route g w source target ch D → INF ≤ D).
Proof.
  intros Hwf Hnn (Hw & Hs & Ht & Hr)%findShortestPath_Returned.
  eapply search_least; [done|done|lia|lia|lia|unfold CHANNELS; lia|exact Hr].
Qed.

Lemma cg2_least (g : Graph) (source target w : Z) (fuel : nat)
    (path : list (Z * Z)) (cost : Z) :
  well_formed g → nonnegative g →
  ChannelGraph2Exact.findShortestPath g source target w fuel
    = Some (Returned (path, cost)) →
  (path ≠ [] →
   cost < INF ∧
   ((source = target ∧ cost = 0) ∨
    (source ≠ target ∧ ∃ ch, route g w source target ch cost)) ∧
   ∀ ch D, route g w source target ch D → cost ≤ D) ∧
  (path = [] →
   cost = INF ∧ source ≠ target ∧
   ∀ ch D, route g w source target ch D → INF ≤ D).
Proof.
  intros Hwf Hnn
    (Hw & Hs & Ht & Hr)%ChannelGraph2Facts.findShortestPath2_Returned.
  eapply search2_least; [done|done|lia|lia|lia|unfold CHANNELS; lia|exact Hr].
Qed.

Lemma cg_endpoints (g : Graph) (source target w : Z) (fuel : nat)
    (path : list (Z * Z)) (cost : Z) :
  well_formed g → nonnegative g →
  findShortestPath g source target w fuel = Some (Returned (path, cost)) →
  path ≠ [] →
  ∃ c0 ct, head path = Some (source, c0) ∧ last path = Some (target, ct).
Proof.
  intros Hwf Hnn (Hw & Hs & Ht & Hr)%findShortestPath_Returned Hne.
  eapply search_endpoints; [done..|lia|lia|exact Hr|done].
Qed.

Lemma cg2_endpoints (g : Graph) (source target w : Z) (fuel : nat)
    (path : list (Z * Z)) (cost : Z) :
  ChannelGraph2Exact.findShortestPath g source target w fuel
    = Some (Returned (path, cost)) →
  path ≠ [] →
  ∃ c0 ct, head path = Some (source, c0) ∧ last path = Some (target, ct).
Proof.
  intros (Hw & Hs & Ht & Hr)%ChannelGraph2Facts.findShortestPath2_Returned
    Hne.
  eapply search2_endpoints; [|exact Hr|done]. lia.
Qed.

(** A target that a route of a cost below [INT_MAX] leads to is found. *)
Lemma cg_found (g : Graph) (source target w ch D : Z) :
  well_formed g → nonnegative g →
  1 ≤ w ≤ 3 → 0 ≤ source < node_count g → 0 ≤ target < node_count g →
  route g w source target ch D → D < INF →
  ∃ fuel0, ∀ fuel, (fuel0 ≤ fuel)%nat →
    ∃ path cost,
      findShortestPath g source target w fuel = Some (Returned (path, cost)) ∧
      path ≠ [] ∧ cost ≤ D.
Proof.
  intros Hwf Hnn Hw Hs Ht Hroute HD.
  destruct (cg_terminates g source target w) as [fuel0 Hfuel]; [done..|].
  exists fuel0. intros fuel Hle.
  destruct (Hfuel fuel Hle) as (path & cost & Hr).
  exists path, cost. split; [done|].
  destruct (cg_least g source target w fuel path cost) as [H1 H2]; [done..|].
  destruct path as [|x path].
  - destruct H2 as (_ & _ & H2); [done|]. specialize (H2 _ _ Hroute). lia.
  - destruct H1 as (_ & _ & H1); [done|]. split; [done|]. by eapply H1.
Qed.

(** ChannelGraph2.cpp finds it as well, unless the check of its path
    stops it. *)
Lemma cg2_found (g : Graph) (source target w ch D : Z) :
  well_formed g → nonnegative g →
  1 ≤ w ≤ 3 → 0 ≤ source < node_count g → 0 ≤ target < node_count g →
  route g w source target ch D → D < INF →
  ∃ fuel0, ∀ fuel, (fuel0 ≤ fuel)%nat →
    (∃ path cost,
       ChannelGraph2Exact.findShortestPath g source target w fuel
         = Some (Returned (path, cost)) ∧
       path ≠ [] ∧ cost ≤ D) ∨
    ChannelGraph2Exact.findShortestPath g source target w fuel
      = Some (Thrown runtime_error).
Proof.
  intros Hwf Hnn Hw Hs Ht Hroute HD.
  destruct (ChannelGraph2Facts.cg2_terminates g source target w)
    as [fuel0 Hfuel]; [done..|].
  exists fuel0. intros fuel Hle.
  destruct (Hfuel fuel Hle) as (r & Hr & Hdef).
  assert ((∃ path cost, r = Returned (path, cost)) ∨ r = Thrown runtime_error)
    as [(path & cost & ->)| ->]; [|left|by right].
  { pose proof Hr as Hr'.
    rewrite ChannelGraph2Facts.findShortestPath2_valid in Hr' by done.
    destruct (ChannelGraph2Facts.search2_reaches g source target w
                (λ _, True) fuel) with (4 := Hr')
      as [[-> _]|(st & c & ch' & rest & _ & _ & _ & Hrec)]; [done..| |].
    - left. by eexists _, _.
    - unfold ChannelGraph2.reconstructPath in Hrec.
      destruct (ChannelGraph2.walk_back _ _ _ _ _) as [[l|]|]; [| |done].
      + destruct (reverse l) as [|[first c0] rest0].
        { by injection Hrec as <-. }
        destruct (negb _); injection Hrec as <-; [by right|].
        left. by eexists _, _.
      + injection Hrec as <-. by right. }
  exists path, cost. split; [done|].
  destruct (cg2_least g source target w fuel path cost) as [H1 H2]; [done..|].
  destruct path as [|x path].
  - destruct H2 as (_ & _ & H2); [done|]. specialize (H2 _ _ Hroute). lia.
  - destruct H1 as (_ & _ & H1); [done|]. split; [done|]. by eapply H1.
Qed.

(** What the two variants answer to the same query costs the same. *)
Lemma cg_cg2_agree (g : Graph) (source target w : Z) (fuel1 fuel2 : nat)
    (path1 path2 : list (Z * Z)) (cost1 cost2 : Z) :
  well_formed g → nonnegative g →
  findShortestPath g source target w fuel1 = Some (Returned (path1, cost1)) →
  ChannelGraph2Exact.findShortestPath g source target w fuel2
    = Some (Returned (path2, cost2)) →
  cost1 = cost2 ∧ (path1 = [] ↔ path2 = []).
Proof.
  intros Hwf Hnn H1 H2.
  destruct (cg_least g source target w fuel1 path1 cost1) as [Hf1 He1];
    [done..|].
  destruct (cg2_least g source target w fuel2 path2 cost2) as [Hf2 He2];
    [done..|].
  destruct path1 as [|x1 path1], path2 as [|x2 path2].
  - destruct He1 as (-> & _); [done|]. destruct He2 as (-> & _); done.
  - destruct He1 as (-> & Hne & Hall); [done|].
    destruct Hf2 as (Hlt & [[? _]|[_ [ch Hr]]] & _); [done..|].
    specialize (Hall _ _ Hr). lia.
  - destruct He2 as (-> & Hne & Hall); [done|].
    destruct Hf1 as (Hlt & [[? _]|[_ [ch Hr]]] & _); [done..|].
    specialize (Hall _ _ Hr). lia.
  - destruct Hf1 as (_ & Hs1 & Hall1); [done|].
    destruct Hf2 as (_ & Hs2 & Hall2); [done|].
    split; [|done].
    destruct Hs1 as [[? ->]|[? [ch1 Hr1]]], Hs2 as [[? ->]|[? [ch2 Hr2]]];
      try done.
    specialize (Hall1 _ _ Hr2). specialize (Hall2 _ _ Hr1). lia.
Qed.

(** *** The two directions of an edge *)

Lemma symmetric_create (n : Z) : symmetric (create n).
Proof.
  intros u e. unfold adj; simpl. rewrite lookup_empty; simpl.
  by intros ?%elem_of_nil.
Qed.

Lemma symmetric_addEdge (g g' : Graph) (u v : Z) (costs : list Z) :
  addEdge g u v costs = Returned g' → symmetric g → symmetric g'.
Proof.
  intros (_ & _ & _ & _ & _ & Hadj)%addEdge_Returned Hg x e.
  rewrite !Hadj. intros [He|[[-> ->]|[-> ->]]]; simpl.
  - left. by apply Hg.
  - right. right. done.
  - right. left. done.
Qed.

Lemma symmetric_setNodeConversion (g g' : Graph) (node : Z) (b : bool) :
  setNodeConversion g node b = Returned g' → symmetric g → symmetric g'.
Proof.
  intros (_ & _ & Hadj & _)%setNodeConversion_Returned Hg x e.
  rewrite !Hadj. apply Hg.
Qed.

(** A route taken backwards is a route, of the same cost: on its own, and
    after any route that arrives where it starts with a fitting channel. *)
Lemma route_reverse (g : Graph) (w s : Z) :
  symmetric g →
  ∀ x c D, route g w s x c D →
    (∃ c1, route g w x s c1 D) ∧
    ∀ t cl D2, route g w t x cl D2 → supports g x = true ∨ c = cl →
               ∃ c1, route g w t s c1 (D2 + D).
Proof.
  intros Hg x c D Hr.
  induction Hr as [e c He Hc|u cu D e c Hr [IH1 IH2] He Hc Hs].
  - pose proof (Hg _ _ He) as He'. split.
    + exists c. by apply (route_first g w (to e) (mkEdge s (channel_costs e))).
    + intros t cl D2 Ht Hj. exists c.
      by apply (route_step g w t (to e) cl D2 (mkEdge s (channel_costs e))).
  - pose proof (Hg _ _ He) as He'.
    assert (supports g u = true ∨ cu = c) as Hs' by (destruct Hs; auto).
    split.
    + destruct (IH2 (to e) c
                  (calculateChannelCost (channel_costs e) c w)) as [c1 H1];
        [|done|].
      * by apply (route_first g w (to e) (mkEdge u (channel_costs e))).
      * exists c1. by rewrite Z.add_comm.
    + intros t cl D2 Ht Hj.
      destruct (IH2 t c (D2 + calculateChannelCost (channel_costs e) c w))
        as [c1 H1]; [|done|].
      * by apply (route_step g w t (to e) cl D2
                    (mkEdge u (channel_costs e))).
      * exists c1. by rewrite (Z.add_comm D), Z.add_assoc.
Qed.

(** On a graph built by [addEdge] the way there costs what the way back
    costs. *)
Lemma cg_both_ways (g : Graph) (source target w : Z) (fuel1 fuel2 : nat)
    (path1 path2 : list (Z * Z)) (cost1 cost2 : Z) :
  well_formed g → nonnegative g → symmetric g →
  findShortestPath g source target w fuel1 = Some (Returned (path1, cost1)) →
  findShortestPath g target source w fuel2 = Some (Returned (path2, cost2)) →
  cost1 = cost2 ∧ (path1 = [] ↔ path2 = []).
Proof.
  intros Hwf Hnn Hsym H1 H2.
  destruct (cg_least g source target w fuel1 path1 cost1) as [Hf1 He1];
    [done..|].
  destruct (cg_least g target source w fuel2 path2 cost2) as [Hf2 He2];
    [done..|].
  destruct path1 as [|x1 path1], path2 as [|x2 path2].
  - destruct He1 as (-> & _); [done|]. destruct He2 as (-> & _); done.
  - destruct He1 as (-> & Hne & Hall); [done|].
    destruct Hf2 as (Hlt & [[? _]|[_ [ch Hr]]] & _); [done..|].
    destruct (route_reverse g w target Hsym _ _ _ Hr) as [[c1 Hr'] _].
    specialize (Hall _ _ Hr'). lia.
  - destruct He2 as (-> & Hne & Hall); [done|].
    destruct Hf1 as (Hlt & [[? _]|[_ [ch Hr]]] & _); [done..|].
    destruct (route_reverse g w source Hsym _ _ _ Hr) as [[c1 Hr'] _].
    specialize (Hall _ _ Hr'). lia.
  - destruct Hf1 as (_ & Hs1 & Hall1); [done|].
    destruct Hf2 as (_ & Hs2 & Hall2); [done|].
    split; [|done].
    destruct Hs1 as [[? ->]|[? [ch1 Hr1]]], Hs2 as [[? ->]|[? [ch2 Hr2]]];
      try done.
    destruct (route_reverse g w source Hsym _ _ _ Hr1) as [[c1 Hr1'] _].
    destruct (route_reverse g w target Hsym _ _ _ Hr2) as [[c2 Hr2'] _].
    specialize (Hall1 _ _ Hr2'). specialize (Hall2 _ _ Hr1'). lia.
Qed.

(** *** How the least cost moves with the graph and the width *)

Lemma route_mono (g g' : Graph) (w s : Z) :
  (∀ x e, e ∈ adj g x → e ∈ adj g' x) →
  (∀ x, supports g x = true → supports g' x = true) →
  ∀ v c D, route g w s v c D → route g' w s v c D.
Proof.
  intros Hadj Hsup v c D Hr.
  induction Hr as [e c He Hc|u cu D e c _ IH He Hc Hs].
  - apply route_first; [by apply Hadj|done].
  - eapply route_step; [done|by apply Hadj|done|].
    destruct Hs as [?|?]; [left; by apply Hsup|by right].
Qed.

Lemma sum_costs_grows (costs : list Z) (start : Z) (l : list Z) (a : Z) :
  Forall (λ c, 0 ≤ c) costs →
  a ≤ fold_left (λ total i, total + vget costs (start + i)) l a.
Proof.
  intros H. revert a. induction l as [|i l IH]; intros a; simpl; [done|].
  pose proof (vget_nonneg costs (start + i) H).
  specialize (IH (a + vget costs (start + i))). lia.
Qed.

Lemma calculateChannelCost_width (costs : list Z) (c w w' : Z) :
  Forall (λ x, 0 ≤ x) costs → w ≤ w' → c + w' ≤ CHANNELS →
  calculateChannelCost costs c w ≤ calculateChannelCost costs c w'.
Proof.
  intros Hc Hw Hr. unfold calculateChannelCost.
  destruct (Z.gtb_spec (c + w) CHANNELS) as [|_]; [lia|].
  destruct (Z.gtb_spec (c + w') CHANNELS) as [|_]; [lia|].
  unfold upto. destruct (Z.le_gt_cases 0 w) as [Hpos|Hneg].
  - replace (w' - 1 + 1) with ((w - 1 + 1) + (w' - w)) by lia.
    rewrite (seqZ_app 0 (w - 1 + 1) (w' - w)) by lia. rewrite fold_left_app.
    by apply sum_costs_grows.
  - rewrite (seqZ_nil 0 (w - 1 + 1)) by lia. simpl.
    by apply sum_costs_nonneg.
Qed.

Lemma route_narrow (g : Graph) (w w' s : Z) :
  nonnegative g → w ≤ w' →
  ∀ v c D', route g w' s v c D' → ∃ D, route g w s v c D ∧ D ≤ D'.
Proof.
  intros Hnn Hw v c D' Hr.
  induction Hr as [e c He Hc|u cu D' e c _ [D [IH Hle]] He Hc Hs].
  - eexists. split; [apply route_first; [done|lia]|].
    apply calculateChannelCost_width; [by eapply Hnn|done|lia].
  - eexists. split; [eapply route_step; [done|done|lia|done]|].
    pose proof (calculateChannelCost_width (channel_costs e) c w w'
                  (Hnn _ _ He) Hw). lia.
Qed.

Lemma route_append (g : Graph) (w s m c1 D1 : Z) :
  route g w s m c1 D1 → supports g m = true →
  ∀ t c2 D2, route g w m t c2 D2 → route g w s t c2 (D1 + D2).
Proof.
  intros H1 Hm t c2 D2 H2.
  induction H2 as [e c He Hc|u cu D e c _ IH He Hc Hs].
  - eapply route_step; [done..|by left].
  - rewrite Z.add_assoc. by eapply route_step.
Qed.

(** When every route of the one query has a route of the other query that
    costs no more, the other query returns no more. *)
Lemma cg_least_mono (g g' : Graph) (source target w w' : Z)
    (fuel fuel' : nat) (path path' : list (Z * Z)) (cost cost' : Z) :
  well_formed g → nonnegative g → well_formed g' → nonnegative g' →
  (∀ ch D, route g w source target ch D →
           ∃ ch' D', route g' w' source target ch' D' ∧ D' ≤ D) →
  findShortestPath g source target w fuel = Some (Returned (path, cost)) →
  findShortestPath g' source target w' fuel'
    = Some (Returned (path', cost')) →
  cost' ≤ cost.
Proof.
  intros Hwf Hnn Hwf' Hnn' Hroutes H1 H2.
  destruct (cg_least g source target w fuel path cost) as [Hf He]; [done..|].
  destruct (cg_least g' source target w' fuel' path' cost') as [Hf' He'];
    [done..|].
  destruct path as [|x path].
  { destruct He as (-> & _); [done|]. destruct path' as [|x' path'].
    - destruct He' as (-> & _); [done|]. lia.
    - destruct Hf' as (? & _); [done|]. lia. }
  destruct Hf as (Hlt & Hs & _); [done|].
  destruct path' as [|x' path'].
  - destruct He' as (-> & Hne & Hall); [done|].
    destruct Hs as [[? _]|[_ [ch Hr]]]; [done|].
    destruct (Hroutes _ _ Hr) as (ch' & D' & Hr' & Hle).
    specialize (Hall _ _ Hr'). lia.
  - destruct Hf' as (_ & Hs' & Hall); [done|].
    destruct Hs as [[Heq ->]|[Hne [ch Hr]]].
    + destruct Hs' as [[_ ->]|[? _]]; [lia|done].
    + destruct (Hroutes _ _ Hr) as (ch' & D' & Hr' & Hle).
      specialize (Hall _ _ Hr'). lia.
Qed.

(** A node that converts can only help. *)
Lemma cg_conversion_helps (g g' : Graph) (node source target w : Z)
    (fuel fuel' : nat) (path path' : list (Z * Z)) (cost cost' : Z) :
  well_formed g → nonnegative g →
  setNodeConversion g node true = Returned g' →
  findShortestPath g source target w fuel = Some (Returned (path, cost)) →
  findShortestPath g' source target w fuel'
    = Some (Returned (path', cost')) →
  cost' ≤ cost.
Proof.
  intros Hwf Hnn Hset.
  pose proof (well_formed_setNodeConversion _ _ _ _ Hset Hwf) as Hwf'.
  pose proof (nonnegative_setNodeConversion _ _ _ _ Hset Hnn) as Hnn'.
  apply setNodeConversion_Returned in Hset as (_ & _ & Hadj & Hsup).
  apply cg_least_mono; try done.
  intros ch D Hr. exists ch, D. split; [|lia].
  eapply route_mono; [| |exact Hr].
  - intros x e. by rewrite Hadj.
  - intros x Hx. rewrite Hsup. by destruct (decide _).
Qed.

(** One more edge can only help. *)
Lemma cg_edge_helps (g g' : Graph) (u v : Z) (costs : list Z)
    (source target w : Z) (fuel fuel' : nat) (path path' : list (Z * Z))
    (cost cost' : Z) :
  well_formed g → nonnegative g →
  Forall (λ c, 0 ≤ c) costs →
  addEdge g u v costs = Returned g' →
  findShortestPath g source target w fuel = Some (Returned (path, cost)) →
  findShortestPath g' source target w fuel'
    = Some (Returned (path', cost')) →
  cost' ≤ cost.
Proof.
  intros Hwf Hnn Hc Hadd.
  pose proof (well_formed_addEdge _ _ _ _ _ Hadd Hwf) as Hwf'.
  pose proof (nonnegative_addEdge _ _ _ _ _ Hadd Hc Hnn) as Hnn'.
  apply addEdge_Returned in Hadd as (_ & _ & _ & _ & Hsup & Hadj).
  apply cg_least_mono; try done.
  intros ch D Hr. exists ch, D. split; [|lia].
  eapply route_mono; [| |exact Hr].
  - intros x e He. apply Hadj. by left.
  - intros x. unfold supports. by rewrite Hsup.
Qed.

(** A wider connection is never cheaper. *)
Lemma cg_width_costs (g : Graph) (source target w w' : Z)
    (fuel fuel' : nat) (path path' : list (Z * Z)) (cost cost' : Z) :
  well_formed g → nonnegative g → w ≤ w' →
  findShortestPath g source target w fuel = Some (Returned (path, cost)) →
  findShortestPath g source target w' fuel'
    = Some (Returned (path', cost')) →
  cost ≤ cost'.
Proof.
  intros Hwf Hnn Hw H1 H2.
  eapply (cg_least_mono g g source target w' w); try done.
  intros ch D Hr.
  destruct (route_narrow g w w' source Hnn Hw _ _ _ Hr) as (D' & ? & ?).
  by exists ch, D'.
Qed.

(** Through a node that converts the way is at most the two halves, as long
    as the two halves together stay below [INT_MAX]. *)
Lemma cg_triangle (g : Graph) (source middle target w : Z)
    (fuel1 fuel2 fuel : nat) (path1 path2 path : list (Z * Z))
    (cost1 cost2 cost : Z) :
  well_formed g → nonnegative g → supports g middle = true →
  findShortestPath g source middle w fuel1 = Some (Returned (path1, cost1)) →
  findShortestPath g middle target w fuel2 = Some (Returned (path2, cost2)) →
  findShortestPath g source target w fuel = Some (Returned (path, cost)) →
  path1 ≠ [] → path2 ≠ [] → cost1 + cost2 < INF →
  path ≠ [] ∧ cost ≤ cost1 + cost2.
Proof.
  intros Hwf Hnn Hm H1 H2 H Hne1 Hne2 Hsum.
  destruct (cg_least g source middle w fuel1 path1 cost1) as [Hf1 _];
    [done..|].
  destruct (cg_least g middle target w fuel2 path2 cost2) as [Hf2 _];
    [done..|].
  destruct (cg_least g source target w fuel path cost) as [Hf He]; [done..|].
  destruct Hf1 as (Hlt1 & Hs1 & _); [done|].
  destruct Hf2 as (Hlt2 & Hs2 & _); [done|].
  assert (source = target ∨
          ∃ ch D, route g w source target ch D ∧ D ≤ cost1 + cost2)
    as Hway.
  { destruct Hs1 as [[-> ->]|[Hne [ch1 Hr1]]],
      Hs2 as [[<- ->]|[Hne' [ch2 Hr2]]].
    - by left.
    - right. exists ch2, cost2. split; [done|lia].
    - right. exists ch1, cost1. split; [done|lia].
    - right. exists ch2, (cost1 + cost2). split; [|lia].
      by eapply route_append. }
  destruct path as [|x path].
  - destruct He as (-> & Hne & Hall); [done|].
    destruct Hway as [?|(ch & D & Hr & Hle)]; [done|].
    specialize (Hall _ _ Hr). lia.
  - split; [done|]. destruct Hf as (_ & Hs & Hall); [done|].
    destruct Hway as [Heq|(ch & D & Hr & Hle)].
    + destruct Hs as [[_ ->]|[? _]]; [|done].
      assert (0 ≤ cost1 ∧ 0 ≤ cost2) as [? ?]; [|lia].
      split.
      * destruct Hs1 as [[_ ->]|[_ [ch1 Hr1]]]; [done|].
        by eapply route_nonneg.
      * destruct Hs2 as [[_ ->]|[_ [ch2 Hr2]]]; [done|].
        by eapply route_nonneg.
    + specialize (Hall _ _ Hr). lia.
Qed.

(** *** Building the graph *)

(** [addEdge] appends: the edge to [v] at the end of the list of [u], then
    the edge to [u] at the end of the list of [v]. *)
Lemma addEdge_adj (g g' : Graph) (u v : Z) (costs : list Z) :
  addEdge g u v costs = Returned g' →
  adj g' u = adj g u ++ [mkEdge v costs]
             ++ (if decide (u = v) then [mkEdge u costs] else []) ∧
  (u ≠ v → adj g' v = adj g v ++ [mkEdge u costs]) ∧
  (∀ x, x ≠ u → x ≠ v → adj g' x = adj g x).
Proof.
  unfold addEdge.
  destruct ((u <? 0) || (u >=? node_count g) || (v <? 0)
            || (v >=? node_count g)); [done|].
  destruct (negb _); [done|]. intros [= <-]. unfold adj; simpl. split_and!.
  - destruct (decide (u = v)) as [->|Hne].
    + rewrite !lookup_insert_eq. simpl. by rewrite <- app_assoc.
    + rewrite lookup_insert_ne, lookup_insert_eq by done. done.
  - intros Hne. rewrite lookup_insert_eq. simpl.
    by rewrite lookup_insert_ne by done.
  - intros x Hu Hv. by rewrite !lookup_insert_ne by done.
Qed.

Lemma setNodeConversion_succeeds (g : Graph) (node : Z) (b : bool) :
  0 ≤ node < node_count g →
  ∃ g', setNodeConversion g node b = Returned g'.
Proof.
  intros H. unfold setNodeConversion.
  destruct (Z.ltb_spec node 0); [lia|].
  destruct (Z.geb_spec node (node_count g)); [lia|]. by eexists.
Qed.

End ShortestPathFacts.

(** ** ChannelGraph.cpp and ChannelGraph2.cpp on [int]s

    What holds of the code on every graph, whatever the sums of the costs
    come to; and, on graphs with modest costs, that the code computes what
    the loops over the integers compute. *)
Module ChannelGraphIntFacts.
Import ChannelGraph.
Import ChannelGraphSpec ChannelGraph2Spec ShortestPathSpec.
Import ChannelGraphFacts.

Section Facts.
Variable g : Graph.
Variables source target channel_width : Z.

Local Abbreviation relax := (relax channel_width).
Local Abbreviation possible_start_channels :=
  (possible_start_channels g source channel_width).
Local Abbreviation expand := (expand g source channel_width).
Local Abbreviation search := (search g source target channel_width).
Local Abbreviation init := (init source channel_width).
Local Abbreviation findShortestPath :=
  (findShortestPath g source target channel_width).

Lemma int_relax_cases (c u uch : Z) (e : Edge) (st : Search) (vch : Z) :
  relax c u uch e st vch = st ∨
  ∃ k, relax c u uch e st vch =
         {| dist := <[(to e, vch) := k]> (dist st);
            prev := <[(to e, vch) := (u, uch)]> (prev st);
            pq := (k, to e, vch) :: pq st |}.
Proof.
  unfold ChannelGraph.relax.
  destruct (_ =? INF); [by left|]. destruct (_ <? _); [|by left].
  right. by eexists.
Qed.

Lemma int_expand_preserves (Q : Search → Prop) (c u uch : Z) :
  (∀ st e vch, e ∈ adj g u → vch ∈ possible_start_channels u uch →
               Q st → Q (relax c u uch e st vch)) →
  ∀ st, Q st → Q (expand c u uch st).
Proof.
  intros H st Hst. unfold ChannelGraph.expand.
  apply fold_left_preserves; [|done].
  intros a e He Ha. unfold expand_edge.
  apply fold_left_preserves; [|done].
  intros a' vch Hv Ha'. by apply H.
Qed.

Lemma int_search_reaches (P : Search → Prop) (fuel0 : nat) :
  (∀ st c u ch rest,
     P st → pq_pop tuple_leb (pq st) = Some ((c, u, ch), rest) → u ≠ target →
     P (set_pq st rest)) →
  (∀ st c u ch rest,
     P st → pq_pop tuple_leb (pq st) = Some ((c, u, ch), rest) → u ≠ target →
     P (expand c u ch (set_pq st rest))) →
  ∀ fuel st r, P st → search fuel0 fuel st = Some r →
    r = ([], INF) ∨
    (∃ st' c ch rest,
       P st' ∧ pq_pop tuple_leb (pq st') = Some ((c, target, ch), rest) ∧
       reconstructPath fuel0 (prev st') source target ch c = Some r).
Proof.
  intros Hstale Hexp. induction fuel as [|fuel IH]; intros st r HP; simpl;
    [done|].
  destruct (pq_pop tuple_leb (pq st)) as [[[[c u] ch] rest]|] eqn:Hpop.
  - destruct (Z.eqb_spec u target) as [->|Hu].
    + intros Hr. right. by exists st, c, ch, rest.
    + destruct (c >? dist_at (dist st) u ch).
      * apply IH. eapply Hstale; eauto.
      * apply IH. eapply Hexp; eauto.
  - intros [= <-]. by left.
Qed.

Lemma int_channels_in_range_step (st : Search) (c u ch : Z)
    (rest : list (Z * Z * Z)) :
  channels_in_range channel_width st →
  pq_pop tuple_leb (pq st) = Some ((c, u, ch), rest) →
  channels_in_range channel_width (expand c u ch (set_pq st rest)).
Proof.
  intros Hst Hpop.
  assert (0 ≤ ch ≤ CHANNELS - channel_width) as Hch.
  { apply (proj1 Hst c u ch). apply (pq_pop_elem _ _ _ _ Hpop). by left. }
  apply int_expand_preserves; [|by eapply channels_in_range_pop].
  intros st' e vch _ Hv [Hq Hp].
  pose proof (possible_start_channels_range g source channel_width
                _ _ _ Hch Hv) as Hvch.
  destruct (int_relax_cases c u ch e st' vch) as [->|[k ->]]; [done|].
  split; simpl.
  - intros k' v c' [[= -> -> ->]|H]%elem_of_cons; [done|]. eauto.
  - intros v c' u' cu' [[[= <- <-] [= <- <-]]|[_ H]]%lookup_insert_Some;
      [done|].
    eauto.
Qed.

Lemma int_continuity_step (st : Search) (c u ch : Z) :
  continuity g source st → continuity g source (expand c u ch st).
Proof.
  apply int_expand_preserves. intros st' e vch _ Hv Hst.
  destruct (int_relax_cases c u ch e st' vch) as [->|[k ->]]; [done|].
  intros v c' u' cu'; simpl.
  intros [[[= <- <-] [= <- <-]]|[_ H]]%lookup_insert_Some; [|eauto].
  revert Hv. unfold ChannelGraph.possible_start_channels.
  destruct (supports g u) eqn:Hs; simpl; [by left|].
  destruct (Z.eqb_spec u source); [by right; left|].
  intros ->%list_elem_of_singleton. by right; right.
Qed.

Lemma int_search_same_node (fuel0 fuel : nat) :
  source = target → 0 ≤ source → channel_width ≤ CHANNELS →
  search (S (S fuel0)) (S fuel) init = Some ([(source, 0)], 0).
Proof.
  intros <- Hs Hw. destruct (init_shape source channel_width) as (Hp & Hq & _).
  cbn [ChannelGraph.search].
  destruct (pq_pop tuple_leb (pq init)) as [[[[k v] c] rest]|] eqn:Hpop.
  - assert ((k, v, c) ∈ pq init) as Hin
      by (apply (pq_pop_elem _ _ _ _ Hpop); by left).
    apply Hq in Hin as (-> & -> & Hc).
    assert ((0, source, 0) ∈ pq init) as H0 by (apply Hq; lia).
    pose proof (pq_pop_least _ tuple_leb_total tuple_leb_trans _ _ _ Hpop _ H0)
      as Hle%tuple_leb_channel.
    assert (c = 0) as -> by lia.
    rewrite Z.eqb_refl. unfold reconstructPath. rewrite Hp.
    cbn [walk_back]. destruct (Z.eqb_spec source (-1)) as [->|_]; [lia|].
    unfold prev_at. rewrite lookup_empty. simpl. done.
  - apply pq_pop_None in Hpop.
    assert ((0, source, 0) ∈ pq init) as H0 by (apply Hq; lia).
    rewrite Hpop in H0. by apply elem_of_nil in H0.
Qed.

Lemma int_findShortestPath_valid (fuel : nat) :
  1 ≤ channel_width ≤ 3 →
  0 ≤ source < node_count g → 0 ≤ target < node_count g →
  findShortestPath fuel = Returned <$> search fuel fuel init.
Proof.
  intros Hw Hs Ht. unfold ChannelGraph.findShortestPath.
  destruct (Z.ltb_spec channel_width 1); [lia|].
  destruct (Z.gtb_spec channel_width 3); [lia|].
  destruct (Z.ltb_spec source 0); [lia|].
  destruct (Z.geb_spec source (node_count g)); [lia|].
  destruct (Z.ltb_spec target 0); [lia|].
  destruct (Z.geb_spec target (node_count g)); [lia|].
  done.
Qed.

Lemma int_findShortestPath_Returned (fuel : nat) (r : list (Z * Z) * Z) :
  findShortestPath fuel = Some (Returned r) →
  search fuel fuel init = Some r.
Proof.
  unfold ChannelGraph.findShortestPath.
  destruct ((channel_width <? 1) || (channel_width >? 3)); [done|].
  destruct ((source <? 0) || (source >=? node_count g)
            || (target <? 0) || (target >=? node_count g)); [done|].
  destruct (search fuel fuel init) as [r'|]; [|done].
  by intros [= <-].
Qed.

(** *** ChannelGraph2.cpp *)

Local Abbreviation relax2 := (ChannelGraph2.relax channel_width).
Local Abbreviation expand2 := (ChannelGraph2.expand g source channel_width).
Local Abbreviation search2 :=
  (ChannelGraph2.search g source target channel_width).
Local Abbreviation init2 := (ChannelGraph2.init source channel_width).

Lemma int_relax_forget (c u uch : Z) (e : Edge) (st : ChannelGraph2.Search)
    (vch : Z) :
  ChannelGraph2.visited (relax2 c u uch e st vch) = ChannelGraph2.visited st ∧
  (relax2 c u uch e st vch = st ∨
   forget (relax2 c u uch e st vch) = relax c u uch e (forget st) vch).
Proof.
  unfold ChannelGraph2.relax, ChannelGraph.relax.
  destruct (decide _) as [|Hv]; [by split; [|left]|].
  simpl.
  destruct (_ =? _); [by split; [|left]|].
  destruct (_ <? _); [|by split; [|left]].
  split; [done|]. by right.
Qed.

(** An invariant of the loop of ChannelGraph.cpp is one of this loop. *)
Lemma int_expand_forget (Q : Search → Prop) (c u uch : Z) :
  (∀ st e vch,
     e ∈ adj g u → vch ∈ possible_start_channels u uch →
     Q st → Q (relax c u uch e st vch)) →
  ∀ st, Q (forget st) → Q (forget (expand2 c u uch st)).
Proof.
  intros H st Hst. unfold ChannelGraph2.expand.
  apply (fold_left_preserves _ (λ st', Q (forget st'))); [|done].
  intros a e He Ha. unfold ChannelGraph2.expand_edge.
  apply (fold_left_preserves _ (λ st', Q (forget st'))); [|done].
  intros a' vch Hv Ha'.
  destruct (int_relax_forget c u uch e a' vch) as [_ [->| ->]]; [done|].
  apply H; [done| |done].
  by apply ChannelGraph2Facts.possible_start_channels_forget.
Qed.

Lemma int_search2_reaches (P : ChannelGraph2.Search → Prop) (fuel0 : nat) :
  (∀ st c u ch rest,
     P st →
     pq_pop tuple_leb (ChannelGraph2.pq st) = Some ((c, u, ch), rest) →
     P (pop_stale st rest)) →
  (∀ st c u ch rest,
     P st →
     pq_pop tuple_leb (ChannelGraph2.pq st) = Some ((c, u, ch), rest) →
     P (expand2 c u ch (pop_fresh st u ch rest))) →
  ∀ fuel st r, P st → search2 fuel0 fuel st = Some r →
    r = Returned ([], INF) ∨
    (∃ st' c ch rest,
       P st' ∧
       pq_pop tuple_leb (ChannelGraph2.pq st')
         = Some ((c, target, ch), rest) ∧
       ChannelGraph2.reconstructPath fuel0 (ChannelGraph2.prev st') source
         target ch c = Some r).
Proof.
  intros Hstale Hexp. induction fuel as [|fuel IH]; intros st r HP; simpl;
    [done|].
  destruct (pq_pop tuple_leb (ChannelGraph2.pq st))
    as [[[[c u] ch] rest]|] eqn:Hpop.
  - destruct (decide ((u, ch) ∈ ChannelGraph2.visited st)) as [Hv|Hv].
    + apply IH. eapply Hstale; eauto.
    + destruct (Z.eqb_spec u target) as [->|Hu].
      * intros Hr. right. by exists st, c, ch, rest.
      * apply IH. eapply Hexp; eauto.
  - intros [= <-]. by left.
Qed.

Lemma int_search2_same_node (fuel0 fuel : nat) :
  source = target → 0 ≤ source → channel_width ≤ CHANNELS →
  search2 (S (S fuel0)) (S fuel) init2 = Some (Returned ([(source, 0)], 0)).
Proof.
  intros <- Hs Hw.
  destruct (ChannelGraph2Facts.init_forget source channel_width) as [Hf Hv].
  destruct (init_shape source channel_width) as (Hp & Hq & _).
  assert (ChannelGraph2.pq init2 = pq init) as Hpq by (by rewrite <- Hf).
  assert (ChannelGraph2.prev init2 = ∅) as Hprev.
  { change (ChannelGraph2.prev init2) with (prev (forget init2)).
    by rewrite Hf. }
  cbn [ChannelGraph2.search]. rewrite Hpq.
  destruct (pq_pop tuple_leb (pq init)) as [[[[k v] c] rest]|] eqn:Hpop.
  - assert ((k, v, c) ∈ pq init) as Hin
      by (apply (pq_pop_elem _ _ _ _ Hpop); by left).
    apply Hq in Hin as (-> & -> & Hc).
    assert ((0, source, 0) ∈ pq init) as H0 by (apply Hq; lia).
    pose proof (pq_pop_least _ tuple_leb_total tuple_leb_trans _ _ _ Hpop _ H0)
      as Hle%tuple_leb_channel.
    assert (c = 0) as -> by lia.
    rewrite Hv. rewrite decide_False by set_solver.
    rewrite Z.eqb_refl. unfold ChannelGraph2.reconstructPath. rewrite Hprev.
    cbn [ChannelGraph2.walk_back].
    destruct (Z.eqb_spec source (-1)) as [->|_]; [lia|].
    rewrite decide_False by set_solver.
    unfold prev_at. rewrite lookup_empty. simpl.
    by rewrite Z.eqb_refl.
  - apply pq_pop_None in Hpop.
    assert ((0, source, 0) ∈ pq init) as H0 by (apply Hq; lia).
    rewrite Hpop in H0. by apply elem_of_nil in H0.
Qed.

Lemma int_findShortestPath2_valid (fuel : nat) :
  1 ≤ channel_width ≤ 3 →
  0 ≤ source < node_count g → 0 ≤ target < node_count g →
  ChannelGraph2.findShortestPath g source target channel_width fuel
  = search2 fuel fuel init2.
Proof.
  intros Hw Hs Ht. unfold ChannelGraph2.findShortestPath.
  destruct (Z.ltb_spec channel_width 1); [lia|].
  destruct (Z.gtb_spec channel_width 3); [lia|].
  destruct (Z.ltb_spec source 0); [lia|].
  destruct (Z.geb_spec source (node_count g)); [lia|].
  destruct (Z.ltb_spec target 0); [lia|].
  destruct (Z.geb_spec target (node_count g)); [lia|].
  done.
Qed.

Lemma int_findShortestPath2_Returned (fuel : nat) (r : list (Z * Z) * Z) :
  ChannelGraph2.findShortestPath g source target channel_width fuel
    = Some (Returned r) →
  0 ≤ target ∧ search2 fuel fuel init2 = Some (Returned r).
Proof.
  unfold ChannelGraph2.findShortestPath.
  destruct ((channel_width <? 1) || (channel_width >? 3)); [done|].
  destruct (Z.ltb_spec source 0); [done|].
  destruct (Z.geb_spec source (node_count g)); [done|].
  destruct (Z.ltb_spec target 0); [done|].
  destruct (Z.geb_spec target (node_count g)); [done|].
  simpl. by intros ->.
Qed.

End Facts.

(** The results on the code that the claims below rest on. *)

Lemma cg_int_channels (g : Graph) (source target w : Z) (fuel : nat)
    (path : list (Z * Z)) (cost : Z) :
  findShortestPath g source target w fuel = Some (Returned (path, cost)) →
  ∀ n c, (n, c) ∈ path → 0 ≤ c ≤ CHANNELS - w.
Proof.
  intros Hs%int_findShortestPath_Returned.
  destruct (int_search_reaches g source target w (channels_in_range w) fuel)
    with (4 := Hs)
    as [[= -> _]|(st & k & ch & rest & Hst & Hpop & Hrec)].
  - intros st c u ch rest Hst Hpop _. by eapply channels_in_range_pop.
  - intros st c u ch rest Hst Hpop _. by eapply int_channels_in_range_step.
  - apply channels_in_range_init.
  - intros n c H. by apply elem_of_nil in H.
  - unfold reconstructPath in Hrec.
    destruct (walk_back fuel (prev st) target ch) as [l|] eqn:Hw; [|done].
    injection Hrec as <- <-. intros n c Hn. rewrite elem_of_reverse in Hn.
    assert (Forall (λ x, 0 ≤ x.2 ≤ CHANNELS - w) l) as Hall.
    { eapply walk_back_Forall; [|exact Hw|].
      - intros [v c'] [u cu] _ Hp. simpl.
        by destruct (proj2 Hst _ _ _ _ Hp).
      - simpl. apply (proj1 Hst k target ch).
        apply (pq_pop_elem _ _ _ _ Hpop). by left. }
    rewrite Forall_forall in Hall. by apply (Hall (n, c)).
Qed.

(** Out of a node that neither converts nor is the source, the path goes on
    with the start channel it came with. *)
Lemma cg_int_continuity (g : Graph) (source target w : Z) (fuel : nat)
    (path : list (Z * Z)) (cost : Z) (b cb c cc : Z) :
  findShortestPath g source target w fuel = Some (Returned (path, cost)) →
  adjacent (b, cb) (c, cc) path →
  supports g b = false → b ≠ source →
  cc = cb.
Proof.
  intros Hs%int_findShortestPath_Returned Hadj Hb Hsrc.
  destruct (int_search_reaches g source target w (continuity g source) fuel)
    with (4 := Hs)
    as [[= -> _]|(st & k & ch & rest & Hst & Hpop & Hrec)].
  - intros st k u ch rest Hst Hpop _. exact Hst.
  - intros st k u ch rest Hst Hpop _. by apply int_continuity_step.
  - apply continuity_init.
  - destruct Hadj as ([|??] & ? & ?); done.
  - unfold reconstructPath in Hrec.
    destruct (walk_back fuel (prev st) target ch) as [l|] eqn:Hw; [|done].
    injection Hrec as <- <-. apply adjacent_reverse in Hadj.
    pose proof (walk_back_adjacent _ _ _ _ _ _ _ Hw Hadj) as Hp.
    destruct (Hst _ _ _ _ Hp) as [?|[?|?]]; congruence.
Qed.

Lemma cg_int_same_node (g : Graph) (source w : Z) (fuel : nat) :
  1 ≤ w ≤ 3 → 0 ≤ source < node_count g →
  findShortestPath g source source w (S (S fuel))
  = Some (Returned ([(source, 0)], 0)).
Proof.
  intros Hw Hs. rewrite int_findShortestPath_valid by done.
  rewrite int_search_same_node; [done..|lia|unfold CHANNELS; lia].
Qed.

Lemma cg2_int_channels (g : Graph) (source target w : Z) (fuel : nat)
    (path : list (Z * Z)) (cost : Z) :
  ChannelGraph2.findShortestPath g source target w fuel
    = Some (Returned (path, cost)) →
  ∀ n c, (n, c) ∈ path → 0 ≤ c ≤ CHANNELS - w.
Proof.
  intros [_ Hs]%int_findShortestPath2_Returned.
  destruct (int_search2_reaches g source target w
              (λ st, channels_in_range w (forget st)) fuel)
    with (4 := Hs)
    as [[= -> _]|(st & k & ch & rest & Hst & Hpop & Hrec)].
  - intros st c u ch rest Hst Hpop.
    rewrite ChannelGraph2Facts.forget_pop_stale.
    by eapply channels_in_range_pop.
  - intros st c u ch rest Hst Hpop.
    pose proof (proj1 Hst _ _ _
                  (ChannelGraph2Facts.popped_in_queue _ _ _ _ _ Hpop)) as Hch.
    apply (int_expand_forget g source w).
    + intros st' e vch _ Hv [Hq Hp].
      pose proof (possible_start_channels_range g source w _ _ _ Hch Hv)
        as Hvch.
      destruct (int_relax_cases w c u ch e st' vch) as [->|[k' ->]]; [done|].
      split; simpl.
      * intros k'' v c' [[= -> -> ->]|H]%elem_of_cons; [done|]. eauto.
      * intros v c' u' cu'
          [[[= <- <-] [= <- <-]]|[_ H]]%lookup_insert_Some; [done|].
        eauto.
    + rewrite ChannelGraph2Facts.forget_pop_fresh.
      by eapply channels_in_range_pop.
  - destruct (ChannelGraph2Facts.init_forget source w) as [-> _].
    apply channels_in_range_init.
  - intros n c H. by apply elem_of_nil in H.
  - apply ChannelGraph2Facts.reconstructPath_checked in Hrec
      as (_ & _ & _ & l & Hw & ->).
    intros n c Hn. rewrite elem_of_reverse in Hn.
    assert (Forall (λ x, 0 ≤ x.2 ≤ CHANNELS - w) l) as Hall.
    { eapply walk_back_Forall; [|exact Hw|].
      - intros [v c'] [u cu] _ Hp. simpl.
        by destruct (proj2 Hst _ _ _ _ Hp).
      - simpl. apply (proj1 Hst k target ch).
        by eapply ChannelGraph2Facts.popped_in_queue. }
    rewrite Forall_forall in Hall. by apply (Hall (n, c)).
Qed.

Lemma cg2_int_continuity (g : Graph) (source target w : Z) (fuel : nat)
    (path : list (Z * Z)) (cost : Z) (b cb c cc : Z) :
  ChannelGraph2.findShortestPath g source target w fuel
    = Some (Returned (path, cost)) →
  adjacent (b, cb) (c, cc) path →
  supports g b = false → b ≠ source →
  cc = cb.
Proof.
  intros [_ Hs]%int_findShortestPath2_Returned Hadj Hb Hsrc.
  destruct (int_search2_reaches g source target w
              (λ st, continuity g source (forget st)) fuel)
    with (4 := Hs)
    as [[= -> _]|(st & k & ch & rest & Hst & Hpop & Hrec)].
  - intros st k u ch rest Hst Hpop. exact Hst.
  - intros st k u ch rest Hst Hpop.
    apply (int_expand_forget g source w); [|exact Hst].
    intros st' e vch He Hv Hst'.
    change (ChannelGraph.relax w k u ch e st' vch)
      with (fold_left (ChannelGraph.relax w k u ch e) [vch] st').
    apply (fold_left_preserves _ (continuity g source)); [|done].
    intros a vch' ->%list_elem_of_singleton Ha.
    destruct (int_relax_cases w k u ch e a vch) as [->|[k' ->]]; [done|].
    intros v c' u' cu'; simpl.
    intros [[[= <- <-] [= <- <-]]|[_ H]]%lookup_insert_Some; [|eauto].
    revert Hv. unfold ChannelGraph.possible_start_channels.
    destruct (supports g u) eqn:Hsu; simpl; [by left|].
    destruct (Z.eqb_spec u source); [by right; left|].
    intros ->%list_elem_of_singleton. by right; right.
  - destruct (ChannelGraph2Facts.init_forget source w) as [-> _].
    apply continuity_init.
  - destruct Hadj as ([|??] & ? & ?); done.
  - apply ChannelGraph2Facts.reconstructPath_checked in Hrec
      as (_ & _ & _ & l & Hw & ->).
    apply adjacent_reverse in Hadj.
    pose proof (walk_back_adjacent _ _ _ _ _ _ _ Hw Hadj) as Hp.
    destruct (Hst _ _ _ _ Hp) as [?|[?|?]]; congruence.
Qed.

Lemma cg2_int_same_node (g : Graph) (source w : Z) (fuel : nat) :
  1 ≤ w ≤ 3 → 0 ≤ source < node_count g →
  ChannelGraph2.findShortestPath g source source w (S (S fuel))
  = Some (Returned ([(source, 0)], 0)).
Proof.
  intros Hw Hs. rewrite int_findShortestPath2_valid by done.
  rewrite int_search2_same_node; [done..|lia|unfold CHANNELS; lia].
Qed.

(** A path that ChannelGraph2.cpp returns starts at the source, ends at the
    target and holds no node twice: [reconstructPath] has checked it. *)
Lemma cg2_int_simple (g : Graph) (source target w : Z) (fuel : nat)
    (path : list (Z * Z)) (cost : Z) :
  ChannelGraph2.findShortestPath g source target w fuel
    = Some (Returned (path, cost)) →
  path ≠ [] →
  (∃ c0, head path = Some (source, c0)) ∧
  (∃ ct, last path = Some (target, ct)) ∧
  NoDup path.*1.
Proof.
  intros [Ht Hs]%int_findShortestPath2_Returned Hne.
  destruct (int_search2_reaches g source target w (λ _, True) fuel)
    with (4 := Hs)
    as [[= -> _]|(st & k & ch & rest & _ & _ & Hrec)]; try done.
  apply ChannelGraph2Facts.reconstructPath_checked in Hrec
    as (Hnd & (c0 & rest0 & Hp) & _ & l & Hw & Hl).
  destruct (ShortestPathFacts.walk_back_nonempty _ _ _ _ _ Hw)
    as [l'' Hl'']; [lia|].
  split_and!; [|exists ch|done].
  - exists c0. by rewrite Hp.
  - by rewrite Hl, last_reverse, Hl''.
Qed.

(** *** The code on modest graphs *)

(** In ChannelGraph2.cpp the source is the first entry of the path and no
    node comes twice, so no later entry is the source. *)
Lemma cg2_int_continuity_inner (g : Graph) (source target w : Z)
    (fuel : nat) (path : list (Z * Z)) (cost : Z)
    (l1 l2 : list (Z * Z)) (a ca b cb c cc : Z) :
  ChannelGraph2.findShortestPath g source target w fuel
    = Some (Returned (path, cost)) →
  path = l1 ++ (a, ca) :: (b, cb) :: (c, cc) :: l2 →
  supports g b = false →
  cc = cb.
Proof.
  intros Hr Hp Hb.
  destruct (cg2_int_simple g source target w fuel path cost Hr)
    as ([c0 Hh] & _ & Hnd).
  { rewrite Hp. by destruct l1. }
  eapply cg2_int_continuity; [done| |done|].
  - exists (l1 ++ [(a, ca)]), l2. rewrite Hp. by rewrite <- app_assoc.
  - intros ->. rewrite Hp in Hh, Hnd.
    rewrite fmap_app, !fmap_cons in Hnd. simpl in Hnd.
    destruct l1 as [|[x cx] l1]; simpl in Hh, Hnd.
    + injection Hh as -> _. apply NoDup_cons in Hnd as [Hnd _].
      apply Hnd. by left.
    + injection Hh as -> _. apply NoDup_cons in Hnd as [Hnd _].
      apply Hnd. apply elem_of_app. right. right. by left.
Qed.

Lemma modest_nonnegative (g : Graph) : modest g → nonnegative g.
Proof.
  intros H u e He. eapply Forall_impl; [by eapply H|].
  simpl. intros c Hc. lia.
Qed.

(** On a graph with modest costs [findShortestPath] computes what the loop
    over the integers computes: no sum wraps around. *)
Lemma cg_exact (g : Graph) (source target w : Z) (fuel : nat) :
  well_formed g → modest g →
  findShortestPath g source target w fuel
  = ChannelGraphExact.findShortestPath g source target w fuel.
Proof.
  intros Hwf Hm. pose proof (modest_nonnegative g Hm) as Hnn.
  unfold findShortestPath, ChannelGraphExact.findShortestPath.
  destruct (Z.ltb_spec w 1); [done|].
  destruct (Z.gtb_spec w 3); [done|].
  destruct (Z.ltb_spec source 0); [done|].
  destruct (Z.geb_spec source (node_count g)); [done|].
  destruct (Z.ltb_spec target 0); [done|].
  destruct (Z.geb_spec target (node_count g)); [done|].
  cbn [orb]. f_equal.
  apply ShortestPathFacts.search_modest; try (done || lia).
  apply ShortestPathFacts.searched_within_init; (done || lia).
Qed.

Lemma cg2_exact (g : Graph) (source target w : Z) (fuel : nat) :
  well_formed g → modest g →
  ChannelGraph2.findShortestPath g source target w fuel
  = ChannelGraph2Exact.findShortestPath g source target w fuel.
Proof.
  intros Hwf Hm. pose proof (modest_nonnegative g Hm) as Hnn.
  unfold ChannelGraph2.findShortestPath, ChannelGraph2Exact.findShortestPath.
  destruct (Z.ltb_spec w 1); [done|].
  destruct (Z.gtb_spec w 3); [done|].
  destruct (Z.ltb_spec source 0); [done|].
  destruct (Z.geb_spec source (node_count g)); [done|].
  destruct (Z.ltb_spec target 0); [done|].
  destruct (Z.geb_spec target (node_count g)); [done|].
  cbn [orb].
  apply ShortestPathFacts.search2_modest; try (done || lia).
  apply ShortestPathFacts.searched2_within_init; (done || lia).
Qed.

(** What the constructor, [addEdge] and [setNodeConversion] build from modest
    costs is modest. *)
Lemma modest_create (n : Z) : modest (create n).
Proof.
  intros u e. unfold adj, create; simpl. rewrite lookup_empty; simpl.
  by intros ?%elem_of_nil.
Qed.

Lemma modest_addEdge (g g' : Graph) (u v : Z) (costs : list Z) :
  addEdge g u v costs = Returned g' →
  Forall (λ c, 0 ≤ c ≤ INT_MAX / limit g) costs →
  modest g → modest g'.
Proof.
  intros (_ & _ & _ & Hn & _ & Hadj)%addEdge_Returned Hc Hm x e.
  assert (limit g' = limit g) as -> by (unfold limit; by rewrite Hn).
  rewrite Hadj. intros [He|[[-> ->]|[-> ->]]]; simpl; [by eapply Hm|done..].
Qed.

Lemma modest_setNodeConversion (g g' : Graph) (node : Z) (b : bool) :
  setNodeConversion g node b = Returned g' → modest g → modest g'.
Proof.
  intros (_ & Hn & Hadj & _)%setNodeConversion_Returned Hm x e.
  assert (limit g' = limit g) as -> by (unfold limit; by rewrite Hn).
  rewrite Hadj. apply Hm.
Qed.

End ChannelGraphIntFacts.

(** ** OptimizedEfficientGraph1.cpp *)
Module OptimizedEfficientGraph1Facts.
Import OptimizedEfficientGraph1.

Lemma oeg1_addEdge_bad_length (g : Graph) (u v : Z) (cost_vector : list Z) :
  Z.of_nat (length cost_vector) ≠ CHANNELS →
  addEdge g u v cost_vector = Thrown invalid_argument.
Proof.
  intros H. unfold addEdge.
  by destruct (Z.eqb_spec (Z.of_nat (length cost_vector)) CHANNELS).
Qed.

Lemma oeg1_addEdge_Returned (g g' : Graph) (u v : Z) (cost_vector : list Z) :
  addEdge g u v cost_vector = Returned g' →
  Z.of_nat (length cost_vector) = CHANNELS ∧
  n g' = n g ∧ supports_switch g' = supports_switch g ∧
  ∀ x e, e ∈ adj_at g' x ↔
         e ∈ adj_at g x ∨ (x = u ∧ e = mkEdge v cost_vector)
                        ∨ (x = v ∧ e = mkEdge u cost_vector).
Proof.
  unfold addEdge.
  destruct (Z.eqb_spec (Z.of_nat (length cost_vector)) CHANNELS) as [Hlen|];
    simpl; [|done].
  destruct ((0 <=? u) && (u <? n g) && (0 <=? v) && (v <? n g)); [|done].
  intros [= <-]. split_and!; try done.
  intros x e. unfold adj_at; simpl.
  rewrite !lookup_insert.
  destruct (decide (v = x)) as [->|Hv], (decide (u = x)) as [->|Hu]; simpl;
    rewrite ?lookup_insert, ?decide_True, ?decide_False by done; simpl;
    rewrite ?elem_of_app, ?list_elem_of_singleton; naive_solver.
Qed.

Lemma oeg1_setChannelSwitchSupport_ignored (g : Graph) (node_id : Z)
    (s : bool) :
  node_id < 0 ∨ n g ≤ node_id →
  setChannelSwitchSupport g node_id s = g.
Proof.
  intros H. unfold setChannelSwitchSupport.
  destruct (Z.geb_spec node_id 0), (Z.ltb_spec node_id (n g)); simpl;
    (done || lia).
Qed.

Lemma oeg1_reconstructPath_unreachable (fuel : nat)
    (prev_state_v start_channel_v : gmap Z Z) (source target : Z) :
  reconstructPath fuel (-1) prev_state_v start_channel_v source target
  = Some [].
Proof. done. Qed.

End OptimizedEfficientGraph1Facts.

(** ** OptimizedEfficientGraph3.cpp *)
Module OptimizedEfficientGraph3Facts.
Import OptimizedEfficientGraph3.

Lemma oeg3_same_node (g : Graph) (source : Z) (fuel : nat) :
  findMinCostPath g source source fuel = Some [(source, -1)].
Proof. unfold findMinCostPath. by rewrite Z.eqb_refl. Qed.

End OptimizedEfficientGraph3Facts.

(** ** The answers of the three [OptimizedEfficientGraph] variants *)
Module FindMinCostFacts.
Import OptimizedEfficientGraph.

Lemma search_S (g : Graph) (target : Z) (fuel : nat) (st : Search) :
  search g target (S fuel) st =
  match pq_pop pair_leb (pq st) with
  | None => Some (-1)
  | Some ((cost, state_id), rest) =>
      let st' := {| dist := dist st; pq := rest |} in
      if cost >? dist_at (dist st) state_id then search g target fuel st'
      else
        let u := Z.quot state_id STATE_COUNT in
        let channel := Z.rem state_id STATE_COUNT in
        if (u =? target) && negb (channel =? 100) then Some cost
        else search g target fuel (expand g u channel cost st')
  end.
Proof. done. Qed.

(** From a source without edges nothing is reached: not even the source
    itself, which counts as reached only after a first segment. *)
Lemma findMinCost_isolated (g : Graph) (source target : Z) (fuel : nat) :
  0 ≤ source → adj_at g source = [] →
  findMinCost g source target (S (S fuel)) = Some (-1).
Proof.
  intros Hs Hadj. unfold findMinCost. rewrite search_S.
  cbn [pq pq_push pq_pop pq_extract dist].
  unfold dist_at at 1. rewrite lookup_insert_eq. cbn [default].
  change (0 >? 0) with false. cbv iota zeta.
  replace (Z.quot (source * STATE_COUNT + 100) STATE_COUNT) with source
    by (unfold STATE_COUNT; apply Z.quot_unique with (r := 100); lia).
  replace (Z.rem (source * STATE_COUNT + 100) STATE_COUNT) with 100
    by (unfold STATE_COUNT; apply Z.rem_unique with (q := source); lia).
  rewrite Z.eqb_refl, andb_false_r. unfold expand. rewrite Hadj.
  cbn [fold_left]. by rewrite search_S.
Qed.

End FindMinCostFacts.

Module FindMinCostPath1Facts.
Import OptimizedEfficientGraph1.

Lemma relax_best (st : Search) (p : PathState) :
  best_final_state (relax st p) = best_final_state st.
Proof. unfold relax. by destruct (_ <? _). Qed.

Lemma expand_edge_best (g : Graph) (current : PathState) (u channel : Z)
    (st : Search) (edge : Edge) :
  best_final_state (expand_edge g current u channel st edge)
  = best_final_state st.
Proof.
  assert (∀ st0, best_final_state (start_segments current edge st0)
                 = best_final_state st0) as Hstart.
  { intros st0. unfold start_segments.
    apply (fold_left_preserves _
             (λ a, best_final_state a = best_final_state st0)); [|done].
    intros a seg_size _ Ha.
    apply (fold_left_preserves _
             (λ a, best_final_state a = best_final_state st0)); [|done].
    intros a' start _ Ha'. destruct (_ >=? _); [done|].
    by rewrite relax_best. }
  assert (∀ st0, best_final_state (continue_segment current channel edge st0)
                 = best_final_state st0) as Hcont.
  { intros st0. unfold continue_segment.
    destruct (_ <? _); [|done]. destruct (_ <? _); [|done].
    by rewrite relax_best. }
  unfold expand_edge. destruct (channel =? 100); [done|].
  destruct (supports g u || _); [|done]. by rewrite Hstart, Hcont.
Qed.

Lemma record_predecessor_best (current : PathState) (st : Search) :
  best_final_state (record_predecessor current st) = best_final_state st.
Proof. unfold record_predecessor. by destruct (_ && _). Qed.

(** The final state the search keeps, if any, is a state of the target. *)
Lemma search_final (g : Graph) (target : Z) :
  ∀ fuel st st',
    best_final_state st = -1 ∨
      Z.quot (best_final_state st) STATE_COUNT = target →
    search g target fuel st = Some st' →
    best_final_state st' = -1 ∨
      Z.quot (best_final_state st') STATE_COUNT = target.
Proof.
  induction fuel as [|fuel IH]; intros st st' Hst; simpl; [done|].
  destruct (pq_pop path_leb (pq st)) as [[current rest]|]; [|by intros [= <-]].
  destruct (_ >? _); [by apply IH|].
  destruct (_ >? _); [by apply IH|].
  destruct (Z.eqb_spec (Z.quot (state current) STATE_COUNT) target)
    as [Hu|Hu]; simpl.
  - destruct (negb _); simpl.
    + destruct (_ <? _); apply IH; simpl; [by right|].
      by rewrite record_predecessor_best.
    + apply IH.
      apply (fold_left_preserves _
               (λ a, best_final_state a = -1 ∨
                     Z.quot (best_final_state a) STATE_COUNT = target)).
      * intros a e _ Ha. by rewrite expand_edge_best.
      * by rewrite record_predecessor_best.
  - apply IH.
    apply (fold_left_preserves _
             (λ a, best_final_state a = -1 ∨
                   Z.quot (best_final_state a) STATE_COUNT = target)).
    + intros a e _ Ha. by rewrite expand_edge_best.
    + by rewrite record_predecessor_best.
Qed.

Lemma walk_back_first (fuel : nat) (prev_state_v start_channel_v : gmap Z Z)
    (current_state : Z) (l : list (Z * Z)) :
  walk_back fuel prev_state_v start_channel_v current_state = Some l →
  current_state ≠ -1 →
  ∃ l', l = (Z.quot current_state STATE_COUNT,
             link_at start_channel_v current_state) :: l'.
Proof.
  destruct fuel; simpl; [done|].
  destruct (Z.eqb_spec current_state (-1)); [done|].
  destruct (walk_back fuel _ _ _); [|done]. intros [= <-] _. by eexists.
Qed.

(** In the path [findMinCostPath] returns the source and the target carry
    the channel -1, and the last entry is the target. *)
Lemma findMinCostPath_ends (g : Graph) (source target : Z) (fuel : nat)
    (path : list (Z * Z)) :
  findMinCostPath g source target fuel = Some path →
  (∀ node channel, (node, channel) ∈ path →
                   node = source ∨ node = target → channel = -1) ∧
  (path ≠ [] → last path = Some (target, -1)).
Proof.
  unfold findMinCostPath.
  destruct (search g target fuel _) as [st|] eqn:Hs; [|done].
  apply search_final in Hs; [|by left]. unfold reconstructPath.
  destruct (Z.eqb_spec (best_final_state st) (-1)) as [|Hne].
  { intros [= <-]. split; [|done]. intros ?? H. by apply elem_of_nil in H. }
  destruct (walk_back fuel _ _ _) as [l|] eqn:Hw; [|done].
  intros [= <-]. split.
  - intros node channel [[n c] [Heq _]]%list_elem_of_fmap Hn.
    destruct (Z.eqb_spec n source), (Z.eqb_spec n target); simpl in Heq;
      injection Heq as -> ->; (done || lia).
  - intros _. destruct (walk_back_first _ _ _ _ _ Hw Hne) as [l' ->].
    destruct Hs as [?|Hq]; [done|].
    rewrite reverse_cons, map_app. simpl. rewrite last_snoc.
    rewrite Hq, Z.eqb_refl, orb_true_r. done.
Qed.

(** *** The predecessor links lead back to the start state *)

Import FindMinCostPathSpec.

Lemma in_range_create (node_count : Z) : in_range (create node_count).
Proof.
  intros u e. unfold adj_at; simpl. rewrite lookup_empty; simpl.
  by intros ?%elem_of_nil.
Qed.

Lemma in_range_addEdge (g g' : Graph) (u v : Z) (cost_vector : list Z) :
  addEdge g u v cost_vector = Returned g' → in_range g → in_range g'.
Proof.
  intros Hadd Hg.
  pose proof (OptimizedEfficientGraph1Facts.oeg1_addEdge_Returned _ _ _ _ _
                Hadd) as (_ & Hn & _ & Hadj).
  assert (0 ≤ u < n g ∧ 0 ≤ v < n g) as [Hu Hv].
  { revert Hadd. unfold addEdge. destruct (negb _); [done|].
    destruct (Z.leb_spec 0 u), (Z.ltb_spec u (n g)), (Z.leb_spec 0 v),
      (Z.ltb_spec v (n g)); simpl; (done || lia). }
  intros x e. rewrite Hadj, Hn. intros [He|[[_ ->]|[_ ->]]]; simpl; [|done..].
  by apply (Hg x).
Qed.

Lemma linked_insert (source : Z) (prev_state_v : gmap Z Z) (k v s : Z) :
  v ≠ -1 → linked source prev_state_v s →
  linked source (<[k := v]> prev_state_v) s.
Proof.
  intros Hv [?|H]; [by left|right]. unfold link_at in *.
  rewrite lookup_insert. by destruct (decide (k = s)).
Qed.

Lemma relax_rooted (source : Z) (st : Search) (p : PathState) :
  rooted1 source st →
  0 ≤ state p → prev_state p ≠ -1 →
  linked source (prev_states st) (prev_state p) →
  rooted1 source (relax st p) ∧ prev_states (relax st p) = prev_states st.
Proof.
  intros (Hq & Hp & Hb) Hs Hpr Hl. unfold relax.
  destruct (_ <? _); [|done]. split; [|done]. split_and!; simpl; [|done..].
  intros x [->|Hx]%elem_of_cons; [|by apply Hq]. done.
Qed.

Lemma expand_edge_rooted (g : Graph) (source : Z) (current : PathState)
    (u channel : Z) (st : Search) (edge : Edge) :
  0 ≤ to edge → 0 ≤ state current → 0 ≤ channel →
  rooted1 source st ∧ linked source (prev_states st) (state current) →
  rooted1 source (expand_edge g current u channel st edge) ∧
  linked source (prev_states (expand_edge g current u channel st edge))
         (state current).
Proof.
  intros Hto Hs Hch.
  set (Q := λ a : Search,
         rooted1 source a ∧ linked source (prev_states a) (state current)).
  assert (∀ a new_cost new_state start,
            0 ≤ new_state → Q a →
            Q (relax a (mkPathState new_cost new_state (state current) start)))
    as Hrelax.
  { intros a new_cost new_state start Hn [Ha Hl].
    destruct (relax_rooted source a
                (mkPathState new_cost new_state (state current) start))
      as [Hr Heq]; simpl; [done|done|lia|done|].
    split; [done|]. by rewrite Heq. }
  assert (∀ a, Q a → Q (start_segments current edge a)) as Hstart.
  { intros a Ha. unfold start_segments.
    apply fold_left_preserves; [|done]. intros a1 seg_size Hseg Ha1.
    apply fold_left_preserves; [|done].
    intros a2 start Hst%elem_of_upto Ha2.
    destruct (_ >=? _); [done|]. apply Hrelax; [|done].
    assert (1 ≤ seg_size) by (set_solver by lia).
    unfold STATE_COUNT. lia. }
  assert (∀ a, Q a → Q (continue_segment current channel edge a)) as Hcont.
  { intros a Ha. unfold continue_segment.
    destruct (_ <? _); [|done]. destruct (_ <? _); [|done].
    apply Hrelax; [|done]. unfold STATE_COUNT. lia. }
  intros Hst. unfold expand_edge. destruct (channel =? 100); [by apply Hstart|].
  destruct (supports g u || _); [|by apply Hcont].
  by apply Hstart, Hcont.
Qed.

Lemma record_predecessor_rooted (source : Z) (current : PathState)
    (st : Search) :
  rooted1 source st →
  (prev_state current = -1 → state current = source * STATE_COUNT + 100) →
  (prev_state current ≠ -1 →
   linked source (prev_states st) (prev_state current)) →
  rooted1 source (record_predecessor current st) ∧
  linked source (prev_states (record_predecessor current st))
         (state current).
Proof.
  intros (Hq & Hp & Hb) Hstart Hlinked. unfold record_predecessor.
  destruct (Z.eqb_spec (prev_state current) (-1)) as [Heq|Hne]; simpl.
  { split; [done|]. left. by apply Hstart. }
  destruct (Z.eqb_spec (link_at (prev_states st) (state current)) (-1))
    as [Hnone|Hsome]; simpl.
  - split.
    + split_and!; simpl.
      * intros x Hx. destruct (Hq x Hx) as (? & ? & Hl).
        split_and!; [done..|]. intros ?. by apply linked_insert, Hl.
      * intros s p [[<- <-]|[_ H]]%lookup_insert_Some.
        -- split; [done|]. by apply linked_insert, Hlinked.
        -- destruct (Hp _ _ H). split; [done|]. by apply linked_insert.
      * destruct Hb as [?|?]; [by left|right]. by apply linked_insert.
    + right. unfold link_at. by rewrite lookup_insert_eq.
  - split; [done|]. by right.
Qed.

Lemma search_rooted (g : Graph) (source target : Z) :
  in_range g →
  ∀ fuel st st', rooted1 source st → search g target fuel st = Some st' →
                 rooted1 source st'.
Proof.
  intros Hg. induction fuel as [|fuel IH]; intros st st' Hst; simpl; [done|].
  destruct (pq_pop path_leb (pq st)) as [[current rest]|] eqn:Hpop;
    [|by intros [= <-]].
  assert (rooted1 source (with_pq st rest)) as Hrest.
  { destruct Hst as (Hq & Hp & Hb). split_and!; [|done..].
    intros x Hx. apply Hq. apply (pq_pop_elem _ _ _ _ Hpop). by right. }
  destruct (proj1 Hst current) as (Hs & Hstart & Hlinked).
  { apply (pq_pop_elem _ _ _ _ Hpop). by left. }
  destruct (_ >? _); [by apply IH|].
  destruct (_ >? _); [by apply IH|].
  destruct (record_predecessor_rooted source current (with_pq st rest))
    as [Hrec Hcur]; [done..|].
  assert (rooted1 source
            (fold_left
               (expand_edge g current (Z.quot (state current) STATE_COUNT)
                  (Z.rem (state current) STATE_COUNT))
               (adj_at g (Z.quot (state current) STATE_COUNT))
               (record_predecessor current (with_pq st rest)))) as Hexp.
  { refine (proj1 (fold_left_preserves _
      (λ a, rooted1 source a ∧ linked source (prev_states a) (state current))
      _ _ _ _)); [|done].
    intros a e He Ha. apply expand_edge_rooted; [|done| |done].
    - by destruct (Hg _ _ He).
    - apply Z.rem_nonneg; [done|lia]. }
  destruct ((Z.quot (state current) STATE_COUNT =? target)
            && negb (Z.rem (state current) STATE_COUNT =? 100));
    [|by apply IH].
  destruct (_ <? _); apply IH; [|done].
  destruct Hrec as (Hq & Hp & Hb). split_and!; [done..|by right].
Qed.

Lemma walk_back_root1 (source : Z) (prev_state_v start_channel_v : gmap Z Z) :
  0 ≤ source →
  (∀ s p, prev_state_v !! s = Some p →
          p ≠ -1 ∧ linked source prev_state_v p) →
  ∀ fuel s l,
    linked source prev_state_v s → s ≠ -1 →
    walk_back fuel prev_state_v start_channel_v s = Some l →
    ∃ c, last l = Some (source, c).
Proof.
  intros Hsrc Hp. induction fuel as [|fuel IH]; intros s l Hl Hs; simpl;
    [done|].
  destruct (Z.eqb_spec s (-1)); [done|].
  destruct (walk_back fuel prev_state_v start_channel_v
              (link_at prev_state_v s)) as [l'|] eqn:Hw; [|done].
  intros [= <-].
  destruct (decide (link_at prev_state_v s = -1)) as [Hnone|Hsome].
  - rewrite Hnone in Hw. destruct fuel; [done|]. simpl in Hw.
    injection Hw as <-. destruct Hl as [->|?]; [|done]. eexists. simpl.
    do 2 f_equal. unfold STATE_COUNT.
    symmetry. apply Z.quot_unique with (r := 100); lia.
  - assert (prev_state_v !! s = Some (link_at prev_state_v s)) as Hlook.
    { unfold link_at in *. by destruct (prev_state_v !! s). }
    destruct (Hp _ _ Hlook) as [Hne Hl'].
    destruct (IH _ _ Hl' Hne Hw) as [c Hc]. exists c.
    destruct l' as [|y l']; [done|]. done.
Qed.

(** A non-empty path that [findMinCostPath] returns starts at the source. *)
Lemma findMinCostPath_starts (g : Graph) (source target : Z) (fuel : nat)
    (path : list (Z * Z)) :
  in_range g → 0 ≤ source →
  findMinCostPath g source target fuel = Some path →
  path ≠ [] → head path = Some (source, -1).
Proof.
  intros Hg Hsrc. unfold findMinCostPath.
  destruct (search g target fuel _) as [st|] eqn:Hs; [|done].
  apply (search_rooted g source target Hg) in Hs as (_ & Hp & Hb).
  2: { split_and!; simpl.
       - intros x ->%list_elem_of_singleton. simpl.
         split_and!; [unfold STATE_COUNT; lia|done|done].
       - intros s p. by rewrite lookup_empty.
       - by left. }
  unfold reconstructPath.
  destruct (Z.eqb_spec (best_final_state st) (-1)) as [|Hne];
    [by intros [= <-]|].
  destruct Hb as [?|Hb]; [done|].
  destruct (walk_back fuel _ _ _) as [l|] eqn:Hw; [|done].
  intros [= <-] _.
  destruct (walk_back_root1 source _ _ Hsrc Hp _ _ _ Hb Hne Hw) as [c Hc].
  apply last_Some in Hc as [l' ->].
  rewrite reverse_app. simpl. by rewrite Z.eqb_refl.
Qed.

(** *** A target that no sequence of edges leads to *)

Lemma relax_reached (g : Graph) (source target : Z) (st : Search)
    (p : PathState) :
  reached1 g source target st →
  0 ≤ state p → joined g source (Z.quot (state p) STATE_COUNT) →
  reached1 g source target (relax st p).
Proof.
  intros [Hq Hb] Hs Hj. unfold relax. destruct (_ <? _); [|done].
  split; [|done]. simpl. intros x [->|Hx]%elem_of_cons; [done|by apply Hq].
Qed.

Lemma expand_edge_reached (g : Graph) (source target : Z)
    (current : PathState) (u channel : Z) (st : Search) (edge : Edge) :
  0 ≤ to edge → edge ∈ adj_at g u → joined g source u → 0 ≤ channel →
  reached1 g source target st →
  reached1 g source target (expand_edge g current u channel st edge).
Proof.
  intros Hto He Hu Hch.
  assert (∀ ch, 0 ≤ ch < STATE_COUNT →
                0 ≤ to edge * STATE_COUNT + ch ∧
                joined g source (Z.quot (to edge * STATE_COUNT + ch)
                                        STATE_COUNT)) as Hnew.
  { intros ch Hc. unfold STATE_COUNT in *. split; [lia|].
    replace (Z.quot (to edge * 101 + ch) 101) with (to edge).
    - by eapply joined_step.
    - apply Z.quot_unique with (r := ch); lia. }
  assert (∀ a, reached1 g source target a →
               reached1 g source target (start_segments current edge a))
    as Hstart.
  { intros a Ha. unfold start_segments.
    apply fold_left_preserves; [|done]. intros a1 seg_size Hseg Ha1.
    apply fold_left_preserves; [|done].
    intros a2 start Hst%elem_of_upto Ha2.
    destruct (_ >=? _); [done|].
    assert (1 ≤ seg_size ≤ 3) by (set_solver by lia).
    apply relax_reached; [done|simpl..]; apply Hnew;
      unfold STATE_COUNT, CHANNELS in *; lia. }
  assert (∀ a, reached1 g source target a →
               reached1 g source target
                 (continue_segment current channel edge a)) as Hcont.
  { intros a Ha. unfold continue_segment.
    destruct (Z.ltb_spec channel (CHANNELS - 1)); [|done].
    destruct (_ <? _); [|done].
    apply relax_reached; [done|simpl..]; apply Hnew;
      unfold STATE_COUNT, CHANNELS in *; lia. }
  intros Hst. unfold expand_edge. destruct (channel =? 100); [by apply Hstart|].
  destruct (supports g u || _); [|by apply Hcont].
  by apply Hstart, Hcont.
Qed.

Lemma search_reached (g : Graph) (source target : Z) :
  in_range g →
  ∀ fuel st st', reached1 g source target st →
                 search g target fuel st = Some st' →
                 reached1 g source target st'.
Proof.
  intros Hg. induction fuel as [|fuel IH]; intros st st' Hst; simpl; [done|].
  destruct (pq_pop path_leb (pq st)) as [[current rest]|] eqn:Hpop;
    [|by intros [= <-]].
  assert (reached1 g source target (with_pq st rest)) as Hrest.
  { destruct Hst as [Hq Hb]. split; [|done].
    intros x Hx. apply Hq. apply (pq_pop_elem _ _ _ _ Hpop). by right. }
  destruct (proj1 Hst current) as [Hs Hj].
  { apply (pq_pop_elem _ _ _ _ Hpop). by left. }
  destruct (_ >? _); [by apply IH|].
  destruct (_ >? _); [by apply IH|].
  assert (reached1 g source target
            (record_predecessor current (with_pq st rest))) as Hrec.
  { unfold record_predecessor. by destruct (_ && _). }
  destruct ((Z.quot (state current) STATE_COUNT =? target)
            && negb (Z.rem (state current) STATE_COUNT =? 100)) eqn:Ht.
  - apply andb_true_iff in Ht as [Ht%Z.eqb_eq _].
    destruct (_ <? _); apply IH; [|done].
    split; [exact (proj1 Hrec)|right; by rewrite <- Ht].
  - apply IH. apply fold_left_preserves; [|done].
    intros a e He Ha. apply expand_edge_reached; [|done..| |done].
    + by destruct (Hg _ _ He).
    + apply Z.rem_nonneg; [done|lia].
Qed.

(** *** The search comes to an end *)

Lemma weight1_nonneg (g : Graph) (st : Search) :
  bounded1 st → 0 ≤ weight1 g st.
Proof.
  intros [Hd _]. unfold weight1.
  assert (0 ≤ ChannelGraphSpec.zsum (λ s, dist_at (dist st) s - INT_MIN)
                (upto (n g * STATE_COUNT - 1))); [|lia].
  apply ChannelGraphFacts.zsum_nonneg. intros s. specialize (Hd s). lia.
Qed.

Lemma relax_weight (g : Graph) (st : Search) (p : PathState) (B : Z) :
  0 ≤ state p < n g * STATE_COUNT → INT_MIN ≤ cost p ≤ INT_MAX →
  bounded1 st ∧ weight1 g st ≤ B →
  bounded1 (relax st p) ∧ weight1 g (relax st p) ≤ B.
Proof.
  intros Hs Hc [[Hd Hq] HB]. unfold relax.
  destruct (Z.ltb_spec (cost p) (dist_at (dist st) (state p))); [|done].
  split; [split|]; simpl.
  - intros s. unfold dist_at.
    destruct (decide (s = state p)) as [->|Hne].
    + by rewrite lookup_insert_eq.
    + rewrite lookup_insert_ne by done. apply Hd.
  - intros x [->|Hx]%elem_of_cons; [lia|by apply Hq].
  - unfold weight1 in *. simpl.
    rewrite (ChannelGraphFacts.zsum_update
               (λ s, dist_at (dist st) s - INT_MIN)
               (λ s, dist_at (<[state p := cost p]> (dist st)) s - INT_MIN)
               _ (state p)).
    + unfold dist_at at 3. rewrite lookup_insert_eq. simpl.
      unfold pq_push. simpl. lia.
    + apply ChannelGraphFacts.NoDup_upto.
    + apply elem_of_upto. lia.
    + intros y Hy. unfold dist_at. by rewrite lookup_insert_ne.
Qed.

Lemma expand_edge_weight (g : Graph) (current : PathState) (u channel : Z)
    (st : Search) (edge : Edge) (B : Z) :
  0 ≤ to edge < n g → 0 ≤ channel →
  bounded1 st ∧ weight1 g st ≤ B →
  bounded1 (expand_edge g current u channel st edge) ∧
  weight1 g (expand_edge g current u channel st edge) ≤ B.
Proof.
  intros Hto Hch.
  assert (∀ a, bounded1 a ∧ weight1 g a ≤ B →
               bounded1 (start_segments current edge a) ∧
               weight1 g (start_segments current edge a) ≤ B) as Hstart.
  { intros a Ha. unfold start_segments.
    apply (fold_left_preserves _ (λ a, bounded1 a ∧ weight1 g a ≤ B));
      [|done].
    intros a1 seg_size Hseg Ha1.
    apply (fold_left_preserves _ (λ a, bounded1 a ∧ weight1 g a ≤ B));
      [|done].
    intros a2 start Hst%elem_of_upto Ha2.
    destruct (_ >=? _); [done|].
    assert (1 ≤ seg_size ≤ 3) by (set_solver by lia).
    apply relax_weight; [simpl|simpl; apply IntFacts.wrap_range|done].
    unfold STATE_COUNT, CHANNELS in *. lia. }
  assert (∀ a, bounded1 a ∧ weight1 g a ≤ B →
               bounded1 (continue_segment current channel edge a) ∧
               weight1 g (continue_segment current channel edge a) ≤ B)
    as Hcont.
  { intros a Ha. unfold continue_segment.
    destruct (Z.ltb_spec channel (CHANNELS - 1)); [|done].
    destruct (_ <? _); [|done].
    apply relax_weight; [simpl|simpl; apply IntFacts.wrap_range|done].
    unfold STATE_COUNT, CHANNELS in *. lia. }
  intros Hst. unfold expand_edge. destruct (channel =? 100); [by apply Hstart|].
  destruct (supports g u || _); [|by apply Hcont].
  by apply Hstart, Hcont.
Qed.

Lemma search_ends (g : Graph) (target : Z) :
  in_range g →
  ∀ fuel st, bounded1 st → weight1 g st < Z.of_nat fuel →
             ∃ st', search g target fuel st = Some st'.
Proof.
  intros Hg. induction fuel as [|fuel IH]; intros st Hst Hw.
  { pose proof (weight1_nonneg g st Hst). lia. }
  simpl.
  destruct (pq_pop path_leb (pq st)) as [[current rest]|] eqn:Hpop;
    [|by eexists].
  assert (bounded1 (with_pq st rest) ∧
          weight1 g (with_pq st rest) ≤ weight1 g st - 1) as [Hrest Hwr].
  { destruct Hst as [Hd Hq]. split; [split; [done|]|].
    - intros x Hx. apply Hq. apply (pq_pop_elem _ _ _ _ Hpop). by right.
    - unfold weight1. simpl. rewrite (pq_pop_length _ _ _ _ Hpop). lia. }
  assert (0 ≤ state current) as Hs.
  { apply (proj2 Hst). apply (pq_pop_elem _ _ _ _ Hpop). by left. }
  destruct (_ >? _); [apply IH; [done|lia]|].
  destruct (_ >? _); [apply IH; [done|lia]|].
  assert (bounded1 (record_predecessor current (with_pq st rest)) ∧
          weight1 g (record_predecessor current (with_pq st rest))
            ≤ weight1 g st - 1) as [Hrec Hwc].
  { unfold record_predecessor. by destruct (_ && _). }
  destruct (_ && _).
  - destruct (_ <? _); apply IH; try done; unfold weight1 in *; simpl; lia.
  - assert (bounded1 (fold_left
                        (expand_edge g current
                           (Z.quot (state current) STATE_COUNT)
                           (Z.rem (state current) STATE_COUNT))
                        (adj_at g (Z.quot (state current) STATE_COUNT))
                        (record_predecessor current (with_pq st rest))) ∧
            weight1 g (fold_left
                         (expand_edge g current
                            (Z.quot (state current) STATE_COUNT)
                            (Z.rem (state current) STATE_COUNT))
                         (adj_at g (Z.quot (state current) STATE_COUNT))
                         (record_predecessor current (with_pq st rest)))
              ≤ weight1 g st - 1) as [Hb Hwb].
    { apply (fold_left_preserves _
               (λ a, bounded1 a ∧ weight1 g a ≤ weight1 g st - 1)); [|done].
      intros a e He Ha. apply expand_edge_weight; [|
        |done].
      - exact (Hg _ _ He).
      - apply Z.rem_nonneg; [done|lia]. }
    apply IH; [done|lia].
Qed.

(** When no sequence of edges leads from the source to the target, the
    answer is the empty path. *)
Lemma findMinCostPath_unreachable (g : Graph) (source target : Z)
    (fuel : nat) (path : list (Z * Z)) :
  in_range g → 0 ≤ source → ¬ joined g source target →
  findMinCostPath g source target fuel = Some path →
  path = [].
Proof.
  intros Hg Hsrc Hno. unfold findMinCostPath.
  destruct (search g target fuel _) as [st|] eqn:Hs; [|done].
  apply (search_reached g source target Hg) in Hs as [_ [Hb|?]]; [|done|].
  - unfold reconstructPath. rewrite Hb. simpl. by intros [= <-].
  - split; [|by left]. simpl. intros x ->%list_elem_of_singleton. simpl.
    unfold STATE_COUNT. split; [lia|].
    replace (Z.quot (source * 101 + 100) 101) with source;
      [apply joined_here|].
    apply Z.quot_unique with (r := 100); lia.
Qed.

(** And an answer there is: the search ends. *)
Lemma findMinCostPath_unreachable_ends (g : Graph) (source target : Z) :
  in_range g → 0 ≤ source → ¬ joined g source target →
  ∃ fuel0, ∀ fuel, (fuel0 ≤ fuel)%nat →
    findMinCostPath g source target fuel = Some [].
Proof.
  intros Hg Hsrc Hno.
  set (init := {| dist := <[source * STATE_COUNT + 100 := 0]> ∅;
                  prev_states := ∅; start_channels := ∅;
                  pq := pq_push (mkPathState 0 (source * STATE_COUNT + 100)
                                             (-1) (-1)) [];
                  min_cost := INT_MAX; best_final_state := -1 |}).
  assert (bounded1 init) as Hinit.
  { split.
    - intros s. unfold init, dist_at. simpl.
      destruct (decide (s = source * STATE_COUNT + 100)) as [->|Hne].
      + rewrite lookup_insert_eq. simpl. unfold INT_MIN, INT_MAX. lia.
      + rewrite lookup_insert_ne by done. rewrite lookup_empty. simpl.
        unfold INT_MIN, INT_MAX. lia.
    - intros x ->%list_elem_of_singleton. simpl. unfold STATE_COUNT. lia. }
  pose proof (weight1_nonneg g init Hinit) as Hw.
  exists (S (Z.to_nat (weight1 g init))). intros fuel Hfuel.
  destruct (search_ends g target Hg fuel init Hinit) as [st Hst]; [lia|].
  assert (findMinCostPath g source target fuel
          = reconstructPath fuel (best_final_state st) (prev_states st)
              (start_channels st) source target) as Heq.
  { unfold findMinCostPath. fold init. by rewrite Hst. }
  destruct (reconstructPath fuel (best_final_state st) (prev_states st)
              (start_channels st) source target) as [path|] eqn:Hp.
  - rewrite Heq. f_equal.
    by apply (findMinCostPath_unreachable g source target fuel path).
  - exfalso. apply (search_reached g source target Hg) in Hst as [_ [Hb|?]];
      [|done|].
    + unfold reconstructPath in Hp. by rewrite Hb in Hp.
    + split; [|by left]. simpl. intros x ->%list_elem_of_singleton. simpl.
      unfold STATE_COUNT. split; [lia|].
      replace (Z.quot (source * 101 + 100) 101) with source;
        [apply joined_here|].
      apply Z.quot_unique with (r := 100); lia.
Qed.

End FindMinCostPath1Facts.

Module FindMinCostPath3Facts.
Import OptimizedEfficientGraph3.

Lemma start_segments_best (current : State) (edge : Edge) (st : Search) :
  best_state (start_segments current edge st) = best_state st.
Proof.
  unfold start_segments.
  apply (fold_left_preserves _ (λ a, best_state a = best_state st)); [|done].
  intros a seg_size _ Ha.
  apply (fold_left_preserves _ (λ a, best_state a = best_state st)); [|done].
  intros a' start _ Ha'. by destruct (_ >=? _).
Qed.

Lemma continue_segment_best (current : State) (edge : Edge) (st : Search) :
  best_state (continue_segment current edge st) = best_state st.
Proof.
  unfold continue_segment. destruct (_ && _); [|done]. by destruct (_ <? _).
Qed.

Lemma expand_edge_best3 (g : Graph) (current : State) (st : Search)
    (edge : Edge) :
  best_state (expand_edge g current st edge) = best_state st.
Proof.
  unfold expand_edge. destruct (decide _); [done|].
  destruct (_ =? _); [apply start_segments_best|].
  destruct (_ || _); [|apply continue_segment_best].
  by rewrite start_segments_best, continue_segment_best.
Qed.

(** The state the search keeps as the best one, if any, is at the target. *)
Lemma search_best (g : Graph) (target : Z) :
  ∀ fuel st st',
    (∀ s, best_state st = Some s → node s = target) →
    search g target fuel st = Some st' →
    ∀ s, best_state st' = Some s → node s = target.
Proof.
  induction fuel as [|fuel IH]; intros st st' Hst; simpl; [done|].
  destruct (pq_pop state_leb (pq st)) as [[current rest]|]; [|by intros [= <-]].
  destruct (_ >? _); [by apply IH|].
  destruct (Z.eqb_spec (node current) target) as [Hu|Hu].
  - destruct (_ <? _); apply IH; simpl; [|done]. by intros s [= <-].
  - apply IH.
    apply (fold_left_preserves _
             (λ a, ∀ s, best_state a = Some s → node s = target)); [|done].
    intros a e _ Ha. by rewrite expand_edge_best3.
Qed.

Lemma trace_back_first (source : Z) (fuel : nat) (predecessor : gmap Z State)
    (current : State) (l : list State) :
  trace_back source fuel predecessor current = Some l →
  ∃ l', l = current :: l'.
Proof.
  destruct fuel; simpl; [done|].
  destruct (_ =? _); [intros [= <-]; by eexists|].
  destruct (predecessor !! _); [|intros [= <-]; by eexists].
  destruct (trace_back _ _ _ _); [|done]. intros [= <-]. by eexists.
Qed.

Lemma path_entry_masked (source target : Z) (state : State)
    (node channel : Z) :
  path_entry source target state = (node, channel) →
  node = source ∨ node = target → channel = -1.
Proof.
  unfold path_entry.
  destruct (Z.eqb_spec (OptimizedEfficientGraph3.node state) source),
    (Z.eqb_spec (OptimizedEfficientGraph3.node state) target); simpl;
    intros [= <- <-]; (done || lia).
Qed.

(** In the path [findMinCostPath] returns the source and the target carry
    the channel -1, and the last entry is the target. *)
Lemma findMinCostPath3_ends (g : Graph) (source target : Z) (fuel : nat)
    (path : list (Z * Z)) :
  findMinCostPath g source target fuel = Some path →
  (∀ node channel, (node, channel) ∈ path →
                   node = source ∨ node = target → channel = -1) ∧
  (path ≠ [] → last path = Some (target, -1)).
Proof.
  unfold findMinCostPath. destruct (Z.eqb_spec source target) as [<-|Hne].
  { intros [= <-]. split; [|done].
    by intros node channel [= -> ->]%list_elem_of_singleton. }
  destruct (search g target fuel _) as [st|] eqn:Hs; [|done].
  assert (∀ s, best_state st = Some s → node s = target) as Hbest.
  { eapply search_best; [|exact Hs]. simpl. by intros s [=]. }
  unfold reconstructPath. destruct (best_state st) as [final|]; simpl.
  - destruct (trace_back source fuel _ final) as [l|] eqn:Ht; [|done].
    intros [= <-]. split.
    + intros node channel [state [Heq _]]%list_elem_of_fmap.
      by eapply path_entry_masked.
    + intros _. destruct (trace_back_first _ _ _ _ _ Ht) as [l' ->].
      rewrite reverse_cons, map_app. simpl. rewrite last_snoc.
      unfold path_entry. rewrite (Hbest final eq_refl), Z.eqb_refl, orb_true_r.
      done.
  - intros [= <-]. split; [|done]. intros ?? H. by apply elem_of_nil in H.
Qed.

(** *** [validatePath] *)

Lemma nodes_distinct_spec (path : list (Z * Z)) :
  ∀ visited_nodes,
    nodes_distinct visited_nodes path = true ↔
    NoDup path.*1 ∧ ∀ x, x ∈ path.*1 → x ∉ visited_nodes.
Proof.
  induction path as [|[n c] path IH]; intros vis; simpl.
  - split; [|done]. intros _. split; [constructor|].
    intros x H. by apply elem_of_nil in H.
  - destruct (decide (n ∈ vis)) as [Hn|Hn].
    + split; [done|]. intros [_ H]. exfalso. apply (H n); [by left|done].
    + rewrite IH, NoDup_cons. split.
      * intros [Hnd Hvis]. split_and!; [|done|].
        -- intros Hin. apply (Hvis _ Hin). set_solver.
        -- intros x [->|Hx]%elem_of_cons; [done|].
           specialize (Hvis _ Hx). set_solver.
      * intros [[Hn' Hnd] Hvis]. split; [done|].
        intros x Hx. apply not_elem_of_union. split.
        -- intros ->%elem_of_singleton. done.
        -- apply Hvis. by right.
Qed.

(** [validatePath] accepts exactly the paths that start at the source, end
    at the target and hold no node twice. *)
Lemma validatePath_spec (path : list (Z * Z)) (source target : Z) :
  validatePath path source target = true ↔
  (∃ c, head path = Some (source, c)) ∧
  (∃ c, last path = Some (target, c)) ∧
  NoDup path.*1.
Proof.
  unfold validatePath. destruct path as [|[n0 c0] path].
  { split; [done|]. by intros [[c ?] _]. }
  cbn [fst]. destruct (Z.eqb_spec n0 source) as [Hn0|Hn0]; cbn [negb].
  2: { split; [done|]. intros ([c [= ? ?]] & _). done. }
  subst n0.
  destruct (last ((source, c0) :: path)) as [[nl cl]|] eqn:Hl.
  2: { split; [done|]. by intros (_ & [c ?] & _). }
  cbn [fst]. destruct (Z.eqb_spec nl target) as [Hnl|Hnl]; cbn [negb].
  2: { split; [done|]. intros (_ & [c [= ? ?]] & _). done. }
  subst nl. rewrite nodes_distinct_spec. split.
  - intros [Hnd _]. split_and!; [by eexists|by eexists|done].
  - intros (_ & _ & Hnd). split; [done|]. intros x _. set_solver.
Qed.

(** *** The predecessor links lead back to the source *)

Import FindMinCostPathSpec.

Lemma linked3_insert (source : Z) (predecessor : gmap Z State) (k : Z)
    (p s : State) :
  linked3 source predecessor s → linked3 source (<[k := p]> predecessor) s.
Proof.
  intros [?|H]; [by left|right]. rewrite lookup_insert.
  by destruct (decide _).
Qed.

Lemma push_state_rooted (source : Z) (current : State)
    (v new_cost ch cons : Z) (st : Search) :
  rooted3 source st ∧ linked3 source (best_predecessor st) current →
  rooted3 source (push_state current v new_cost ch cons st) ∧
  linked3 source (best_predecessor (push_state current v new_cost ch cons st))
          current.
Proof.
  intros [(Hq & Hp & Hb) Hc]. unfold push_state. simpl.
  split; [|by apply linked3_insert]. split_and!; simpl.
  - intros x [->|Hx]%elem_of_cons.
    + right. simpl. by rewrite lookup_insert_eq.
    + by apply linked3_insert, Hq.
  - intros k p [[_ <-]|[_ H]]%lookup_insert_Some;
      apply linked3_insert; [done|by eapply Hp].
  - intros s Hs. by apply linked3_insert, Hb.
Qed.

Lemma expand_edge_rooted3 (g : Graph) (source : Z) (current : State)
    (st : Search) (edge : Edge) :
  rooted3 source st ∧ linked3 source (best_predecessor st) current →
  rooted3 source (expand_edge g current st edge) ∧
  linked3 source (best_predecessor (expand_edge g current st edge)) current.
Proof.
  set (Q := λ a : Search,
         rooted3 source a ∧ linked3 source (best_predecessor a) current).
  assert (∀ a, Q a → Q (start_segments current edge a)) as Hstart.
  { intros a Ha. unfold start_segments.
    apply fold_left_preserves; [|done]. intros a1 seg_size _ Ha1.
    apply fold_left_preserves; [|done]. intros a2 start _ Ha2.
    destruct (_ >=? _); [done|]. by apply push_state_rooted. }
  assert (∀ a, Q a → Q (continue_segment current edge a)) as Hcont.
  { intros a Ha. unfold continue_segment.
    destruct (_ && _); [|done]. destruct (_ <? _); [|done].
    by apply push_state_rooted. }
  intros Hst. unfold expand_edge. destruct (decide _); [done|].
  destruct (_ =? _); [by apply Hstart|].
  destruct (_ || _); [|by apply Hcont]. by apply Hstart, Hcont.
Qed.

Lemma search_rooted3 (g : Graph) (source target : Z) :
  ∀ fuel st st', rooted3 source st → search g target fuel st = Some st' →
                 rooted3 source st'.
Proof.
  induction fuel as [|fuel IH]; intros st st' Hst; simpl; [done|].
  destruct (pq_pop state_leb (pq st)) as [[current rest]|] eqn:Hpop;
    [|by intros [= <-]].
  destruct Hst as (Hq & Hp & Hb).
  assert (linked3 source (best_predecessor st) current) as Hcur.
  { apply Hq. apply (pq_pop_elem _ _ _ _ Hpop). by left. }
  assert (∀ x, x ∈ rest → linked3 source (best_predecessor st) x) as Hrest.
  { intros x Hx. apply Hq. apply (pq_pop_elem _ _ _ _ Hpop). by right. }
  destruct (_ >? _); [by apply IH|].
  destruct (_ =? _).
  - destruct (_ <? _); apply IH; [|done].
    split_and!; simpl; [done..|]. by intros s [= <-].
  - apply IH.
    refine (proj1 (fold_left_preserves _
      (λ a, rooted3 source a ∧ linked3 source (best_predecessor a) current)
      _ _ _ _)); [|done].
    intros a e _ Ha. by apply expand_edge_rooted3.
Qed.

Lemma trace_back_root (source : Z) (predecessor : gmap Z State) :
  (∀ k p, predecessor !! k = Some p → linked3 source predecessor p) →
  ∀ fuel current l,
    linked3 source predecessor current →
    trace_back source fuel predecessor current = Some l →
    ∃ s, last l = Some s ∧ node s = source.
Proof.
  intros Hp. induction fuel as [|fuel IH]; intros current l Hc; simpl;
    [done|].
  destruct (Z.eqb_spec (node current) source) as [Heq|Hne].
  { intros [= <-]. by exists current. }
  destruct Hc as [?|[p Hlook]]; [done|]. rewrite Hlook.
  destruct (trace_back source fuel predecessor p) as [l'|] eqn:Ht; [|done].
  intros [= <-].
  destruct (IH _ _ (Hp _ _ Hlook) Ht) as (s & Hs & Hn). exists s.
  split; [|done]. by destruct l'.
Qed.

(** A non-empty path that [findMinCostPath] returns starts at the source:
    the walk back never stops at a state without predecessor. *)
Lemma findMinCostPath3_starts (g : Graph) (source target : Z) (fuel : nat)
    (path : list (Z * Z)) :
  findMinCostPath g source target fuel = Some path →
  path ≠ [] → head path = Some (source, -1).
Proof.
  unfold findMinCostPath. destruct (Z.eqb_spec source target) as [<-|Hne].
  { by intros [= <-]. }
  destruct (search g target fuel _) as [st|] eqn:Hs; [|done].
  apply (search_rooted3 g source target) in Hs as (_ & Hp & Hb).
  2: { split_and!; simpl.
       - intros x ->%list_elem_of_singleton. by left.
       - intros k p. by rewrite lookup_empty.
       - done. }
  unfold reconstructPath. destruct (best_state st) as [final|];
    [|by intros [= <-]].
  destruct (trace_back source fuel _ final) as [l|] eqn:Ht; [|done].
  intros [= <-] _.
  destruct (trace_back_root source _ Hp _ _ _ (Hb _ eq_refl) Ht)
    as (s & Hl & Hn).
  apply last_Some in Hl as [l' ->].
  rewrite reverse_app. simpl. unfold path_entry.
  by rewrite Hn, Z.eqb_refl.
Qed.

End FindMinCostPath3Facts.

(** ** The segment loop and the construction of the later variants *)
Module SegmentCostFacts.

Lemma foldr_add_acc (l : list Z) (a : Z) :
  foldr Z.add a l = foldr Z.add 0 l + a.
Proof. induction l as [|x l IH]; simpl; [done|]. rewrite IH. lia. Qed.

(** [for (i = 0; i < n; i++) total += costs[start + i]] adds up the [n]
    costs from [start] on. *)
Lemma loop_sum (costs : list Z) (start : Z) (n : nat) :
  0 ≤ start → start + Z.of_nat n ≤ Z.of_nat (length costs) →
  fold_left (λ total i, total + vget costs (start + i))
            (seqZ 0 (Z.of_nat n)) 0
  = foldr Z.add 0 (take n (drop (Z.to_nat start) costs)).
Proof.
  intros Hs. induction n as [|n IH]; intros Hn; [done|].
  rewrite seqZ_S, fold_left_app. simpl. rewrite IH by lia.
  destruct (lookup_lt_is_Some_2 costs (Z.to_nat start + n)) as [x Hx]; [lia|].
  rewrite (take_S_r _ _ x) by (by rewrite lookup_drop).
  rewrite foldr_snoc, (foldr_add_acc _ (x + 0)). f_equal.
  rewrite (vget_lookup _ _ x); [lia|lia|].
  by replace (Z.to_nat (start + (0 + Z.of_nat n)))
    with (Z.to_nat start + n)%nat by lia.
Qed.

Lemma loop_segment_sum (costs : list Z) (start size : Z) :
  0 ≤ start → 0 ≤ size → start + size ≤ Z.of_nat (length costs) →
  fold_left (λ total i, total + vget costs (start + i)) (upto (size - 1)) 0
  = segment_sum costs start size.
Proof.
  intros Hs Hz Hl. unfold upto, segment_sum.
  replace (size - 1 + 1) with (Z.of_nat (Z.to_nat size)) by lia.
  apply loop_sum; lia.
Qed.

(** The same loop on [int]s, when no cost is negative and the sum is an
    [int]. *)
Lemma int_loop_segment_sum (costs : list Z) (start size : Z) :
  0 ≤ start → 0 ≤ size → start + size ≤ Z.of_nat (length costs) →
  Forall (λ c, 0 ≤ c) costs → segment_sum costs start size ≤ INT_MAX →
  fold_left (λ total i, int_add total (vget costs (start + i)))
            (upto (size - 1)) 0
  = segment_sum costs start size.
Proof.
  intros Hs Hz Hl Hnn Hmax.
  rewrite <- (loop_segment_sum costs start size) in Hmax by done.
  rewrite IntFacts.sum_costs_exact by done.
  by apply loop_segment_sum.
Qed.

Lemma oeg1_getSegmentCost_sum (e : OptimizedEfficientGraph1.Edge)
    (start size : Z) :
  0 ≤ start → 0 ≤ size →
  start + size ≤ Z.of_nat (length (OptimizedEfficientGraph1.costs e)) →
  Forall (λ c, 0 ≤ c) (OptimizedEfficientGraph1.costs e) →
  segment_sum (OptimizedEfficientGraph1.costs e) start size ≤ INT_MAX →
  OptimizedEfficientGraph1.getSegmentCost e start size
  = segment_sum (OptimizedEfficientGraph1.costs e) start size.
Proof. apply int_loop_segment_sum. Qed.

Lemma oeg3_getSegmentCost_sum (e : OptimizedEfficientGraph3.Edge)
    (start size : Z) :
  0 ≤ start → 0 ≤ size →
  start + size ≤ Z.of_nat (length (OptimizedEfficientGraph3.costs e)) →
  Forall (λ c, 0 ≤ c) (OptimizedEfficientGraph3.costs e) →
  segment_sum (OptimizedEfficientGraph3.costs e) start size ≤ INT_MAX →
  OptimizedEfficientGraph3.getSegmentCost e start size
  = segment_sum (OptimizedEfficientGraph3.costs e) start size.
Proof. apply int_loop_segment_sum. Qed.

Lemma oeg3_addEdge_bad_length (g : OptimizedEfficientGraph3.Graph) (u v : Z)
    (cost_vector : list Z) :
  Z.of_nat (length cost_vector) ≠ CHANNELS →
  OptimizedEfficientGraph3.addEdge g u v cost_vector = Thrown invalid_argument.
Proof.
  intros H. unfold OptimizedEfficientGraph3.addEdge.
  by destruct (Z.eqb_spec (Z.of_nat (length cost_vector)) CHANNELS).
Qed.

Lemma oeg3_addEdge_Returned (g g' : OptimizedEfficientGraph3.Graph) (u v : Z)
    (cost_vector : list Z) :
  OptimizedEfficientGraph3.addEdge g u v cost_vector = Returned g' →
  Z.of_nat (length cost_vector) = CHANNELS ∧
  OptimizedEfficientGraph3.n g' = OptimizedEfficientGraph3.n g ∧
  OptimizedEfficientGraph3.supports_switch g'
    = OptimizedEfficientGraph3.supports_switch g ∧
  ∀ x e, e ∈ OptimizedEfficientGraph3.adj_at g' x ↔
         e ∈ OptimizedEfficientGraph3.adj_at g x
         ∨ (x = u ∧ e = OptimizedEfficientGraph3.mkEdge v cost_vector)
         ∨ (x = v ∧ e = OptimizedEfficientGraph3.mkEdge u cost_vector).
Proof.
  unfold OptimizedEfficientGraph3.addEdge.
  destruct (Z.eqb_spec (Z.of_nat (length cost_vector)) CHANNELS) as [Hlen|];
    simpl; [|done].
  destruct ((0 <=? u) && (u <? OptimizedEfficientGraph3.n g) && (0 <=? v)
            && (v <? OptimizedEfficientGraph3.n g)); [|done].
  intros [= <-]. split_and!; try done.
  intros x e. unfold OptimizedEfficientGraph3.adj_at; simpl.
  rewrite !lookup_insert.
  destruct (decide (v = x)) as [->|Hv], (decide (u = x)) as [->|Hu]; simpl;
    rewrite ?lookup_insert, ?decide_True, ?decide_False by done; simpl;
    rewrite ?elem_of_app, ?list_elem_of_singleton; naive_solver.
Qed.

Lemma oeg1_setChannelSwitchSupport_sets (g : OptimizedEfficientGraph1.Graph)
    (node_id : Z) (s : bool) :
  0 ≤ node_id < OptimizedEfficientGraph1.n g →
  ∀ x, OptimizedEfficientGraph1.supports
         (OptimizedEfficientGraph1.setChannelSwitchSupport g node_id s) x
       = if decide (x = node_id) then s
         else OptimizedEfficientGraph1.supports g x.
Proof.
  intros H x. unfold OptimizedEfficientGraph1.setChannelSwitchSupport.
  destruct (Z.geb_spec node_id 0); [|lia].
  destruct (Z.ltb_spec node_id (OptimizedEfficientGraph1.n g)); [|lia].
  unfold OptimizedEfficientGraph1.supports. simpl.
  rewrite lookup_insert. destruct (decide (node_id = x)) as [->|Hne].
  - by rewrite decide_True.
  - by rewrite decide_False by congruence.
Qed.

Lemma oeg3_setChannelSwitchSupport_sets (g : OptimizedEfficientGraph3.Graph)
    (node_id : Z) (s : bool) :
  0 ≤ node_id < OptimizedEfficientGraph3.n g →
  ∀ x, OptimizedEfficientGraph3.supports
         (OptimizedEfficientGraph3.setChannelSwitchSupport g node_id s) x
       = if decide (x = node_id) then s
         else OptimizedEfficientGraph3.supports g x.
Proof.
  intros H x. unfold OptimizedEfficientGraph3.setChannelSwitchSupport.
  destruct (Z.geb_spec node_id 0); [|lia].
  destruct (Z.ltb_spec node_id (OptimizedEfficientGraph3.n g)); [|lia].
  unfold OptimizedEfficientGraph3.supports. simpl.
  rewrite lookup_insert. destruct (decide (node_id = x)) as [->|Hne].
  - by rewrite decide_True.
  - by rewrite decide_False by congruence.
Qed.

Lemma oeg3_setChannelSwitchSupport_ignored
    (g : OptimizedEfficientGraph3.Graph) (node_id : Z) (s : bool) :
  node_id < 0 ∨ OptimizedEfficientGraph3.n g ≤ node_id →
  OptimizedEfficientGraph3.setChannelSwitchSupport g node_id s = g.
Proof.
  intros H. unfold OptimizedEfficientGraph3.setChannelSwitchSupport.
  destruct (Z.geb_spec node_id 0),
    (Z.ltb_spec node_id (OptimizedEfficientGraph3.n g)); simpl;
    (done || lia).
Qed.

End SegmentCostFacts.

Module ExamplesFacts.
Import Examples.
Import ChannelGraphSpec.
Import ChannelGraphFacts.

Lemma valid_create (n : Z) : valid (ChannelGraph.create n).
Proof. split; [apply well_formed_create|apply nonnegative_create]. Qed.

Lemma valid_addEdge (g : ChannelGraph.Graph) (u v : Z) (costs : list Z)
    (k : ChannelGraph.Graph → outcome ChannelGraph.Graph) :
  Forall (λ c, 0 ≤ c) costs →
  valid g →
  (∀ g', valid g' → valid (cg_grow (k g'))) →
  valid (cg_grow (and_then (ChannelGraph.addEdge g u v costs) k)).
Proof.
  intros Hc [Hwf Hnn] Hk.
  destruct (ChannelGraph.addEdge g u v costs) as [g'| |] eqn:E; simpl;
    try apply valid_create.
  apply Hk. split;
    [by eapply well_formed_addEdge|by eapply nonnegative_addEdge].
Qed.

Lemma valid_setNodeConversion (g : ChannelGraph.Graph) (node : Z) (b : bool)
    (k : ChannelGraph.Graph → outcome ChannelGraph.Graph) :
  valid g →
  (∀ g', valid g' → valid (cg_grow (k g'))) →
  valid (cg_grow (and_then (ChannelGraph.setNodeConversion g node b) k)).
Proof.
  intros [Hwf Hnn] Hk.
  destruct (ChannelGraph.setNodeConversion g node b) as [g'| |] eqn:E; simpl;
    try apply valid_create.
  apply Hk. split;
    [by eapply well_formed_setNodeConversion
    |by eapply nonnegative_setNodeConversion].
Qed.

Lemma valid_last_addEdge (g : ChannelGraph.Graph) (u v : Z) (costs : list Z) :
  Forall (λ c, 0 ≤ c) costs → valid g →
  valid (cg_grow (ChannelGraph.addEdge g u v costs)).
Proof.
  intros Hc [Hwf Hnn].
  destruct (ChannelGraph.addEdge g u v costs) as [g'| |] eqn:E; simpl;
    try apply valid_create.
  split; [by eapply well_formed_addEdge|by eapply nonnegative_addEdge].
Qed.

Lemma valid_last_setNodeConversion (g : ChannelGraph.Graph) (node : Z)
    (b : bool) :
  valid g → valid (cg_grow (ChannelGraph.setNodeConversion g node b)).
Proof.
  intros [Hwf Hnn].
  destruct (ChannelGraph.setNodeConversion g node b) as [g'| |] eqn:E; simpl;
    try apply valid_create.
  split; [by eapply well_formed_setNodeConversion
         |by eapply nonnegative_setNodeConversion].
Qed.

Lemma costs_with_nonneg (other : Z) (i : nat) (v : Z) :
  0 ≤ other → 0 ≤ v → Forall (λ c, 0 ≤ c) (costs_with other i v).
Proof.
  intros Ho Hv. unfold costs_with.
  apply Forall_insert; [|done]. by apply Forall_replicate.
Qed.

Lemma costs_with_int (other : Z) (i : nat) (v : Z) :
  INT_MIN ≤ other ≤ INT_MAX → INT_MIN ≤ v ≤ INT_MAX →
  Forall (λ c, INT_MIN ≤ c ≤ INT_MAX) (costs_with other i v).
Proof.
  intros Ho Hv. unfold costs_with.
  apply Forall_insert; [|done]. by apply Forall_replicate.
Qed.

Ltac valid_graph :=
  repeat first
    [ apply valid_addEdge;
      [first [apply Forall_replicate; lia | apply costs_with_nonneg; lia]
      | | intros ? ?]
    | apply valid_setNodeConversion; [|intros ? ?]
    | apply valid_last_addEdge;
      [first [apply Forall_replicate; lia | apply costs_with_nonneg; lia]|]
    | apply valid_last_setNodeConversion
    | apply valid_create
    | assumption ].

Lemma cg_chain_valid : valid cg_chain.
Proof. unfold cg_chain, cg_chain_build. valid_graph. Qed.

Lemma cg_island_valid : valid cg_island.
Proof. unfold cg_island, cg_island_build. valid_graph. Qed.

Lemma cg_detour_valid : valid cg_detour.
Proof. unfold cg_detour, cg_detour_build. valid_graph. Qed.

(** The same for modest costs; the node count goes along, as the bound on
    the costs depends on it. *)
Lemma modest_grow_addEdge (n : Z) (g : ChannelGraph.Graph) (u v : Z)
    (costs : list Z) (k : ChannelGraph.Graph → outcome ChannelGraph.Graph) :
  Forall (λ c, 0 ≤ c ≤ INT_MAX / (3 * (n * CHANNELS + 1))) costs →
  modest g ∧ ChannelGraph.node_count g = n →
  (∀ g', modest g' ∧ ChannelGraph.node_count g' = n →
         modest (cg_grow (k g'))) →
  modest (cg_grow (and_then (ChannelGraph.addEdge g u v costs) k)).
Proof.
  intros Hc [Hm Hn] Hk.
  destruct (ChannelGraph.addEdge g u v costs) as [g'| |] eqn:E; simpl;
    try apply ChannelGraphIntFacts.modest_create.
  apply Hk. split.
  - eapply ChannelGraphIntFacts.modest_addEdge; [done| |done].
    unfold limit. by rewrite Hn.
  - by apply addEdge_Returned in E as (_ & _ & _ & -> & _).
Qed.

Lemma modest_grow_setNodeConversion (n : Z) (g : ChannelGraph.Graph)
    (node : Z) (b : bool)
    (k : ChannelGraph.Graph → outcome ChannelGraph.Graph) :
  modest g ∧ ChannelGraph.node_count g = n →
  (∀ g', modest g' ∧ ChannelGraph.node_count g' = n →
         modest (cg_grow (k g'))) →
  modest (cg_grow (and_then (ChannelGraph.setNodeConversion g node b) k)).
Proof.
  intros [Hm Hn] Hk.
  destruct (ChannelGraph.setNodeConversion g node b) as [g'| |] eqn:E; simpl;
    try apply ChannelGraphIntFacts.modest_create.
  apply Hk. split.
  - by eapply ChannelGraphIntFacts.modest_setNodeConversion.
  - by apply setNodeConversion_Returned in E as (_ & -> & _).
Qed.

Lemma modest_last_addEdge (n : Z) (g : ChannelGraph.Graph) (u v : Z)
    (costs : list Z) :
  Forall (λ c, 0 ≤ c ≤ INT_MAX / (3 * (n * CHANNELS + 1))) costs →
  modest g ∧ ChannelGraph.node_count g = n →
  modest (cg_grow (ChannelGraph.addEdge g u v costs)).
Proof.
  intros Hc [Hm Hn].
  destruct (ChannelGraph.addEdge g u v costs) as [g'| |] eqn:E; simpl;
    try apply ChannelGraphIntFacts.modest_create.
  eapply ChannelGraphIntFacts.modest_addEdge; [done| |done].
  unfold limit. by rewrite Hn.
Qed.

Lemma modest_last_setNodeConversion (g : ChannelGraph.Graph) (node : Z)
    (b : bool) :
  modest g → modest (cg_grow (ChannelGraph.setNodeConversion g node b)).
Proof.
  intros Hm.
  destruct (ChannelGraph.setNodeConversion g node b) as [g'| |] eqn:E; simpl;
    try apply ChannelGraphIntFacts.modest_create.
  by eapply ChannelGraphIntFacts.modest_setNodeConversion.
Qed.

Ltac modest_costs :=
  first
    [ apply Forall_replicate; vm_compute; split; discriminate
    | apply Forall_insert;
      [apply Forall_replicate|]; vm_compute; split; discriminate ].

Ltac modest_graph n :=
  repeat first
    [ apply (modest_grow_addEdge n); [modest_costs| |intros ? ?]
    | apply (modest_grow_setNodeConversion n); [|intros ? ?]
    | apply (modest_last_addEdge n); [modest_costs|]
    | apply modest_last_setNodeConversion
    | split; [apply ChannelGraphIntFacts.modest_create|reflexivity]
    | match goal with H : modest ?g ∧ _ |- modest ?g => exact (proj1 H) end
    | assumption ].

Lemma cg_chain_modest : modest cg_chain.
Proof. unfold cg_chain, cg_chain_build. modest_graph 3. Qed.

Lemma cg_island_modest : modest cg_island.
Proof. unfold cg_island, cg_island_build. modest_graph 3. Qed.

Lemma cg_detour_modest : modest cg_detour.
Proof. unfold cg_detour, cg_detour_build. modest_graph 4. Qed.

Lemma cg_chain_built : cg_chain_build = Returned cg_chain.
Proof. vm_compute. reflexivity. Qed.

Lemma cg_island_built : cg_island_build = Returned cg_island.
Proof. vm_compute. reflexivity. Qed.

Lemma cg_detour_built : cg_detour_build = Returned cg_detour.
Proof. vm_compute. reflexivity. Qed.

Lemma oeg3_detour_built : oeg3_detour_build = Returned oeg3_detour.
Proof. vm_compute. reflexivity. Qed.

Lemma cg_island_not_connected :
  ¬ connected cg_island 1 0 2.
Proof.
  pose proof cg_island_built as Hb. unfold cg_island_build in Hb.
  apply addEdge_Returned in Hb as (_ & _ & _ & _ & _ & Hadj).
  assert (∀ v c, walk cg_island 1 0 v c → v = 0 ∨ v = 1) as Hwalk.
  { intros v c Hw. induction Hw as [e c He _|u cu e c _ IH He _ _].
    - apply Hadj in He as [He|[[_ ->]|[_ ->]]]; simpl; [|lia..].
      unfold ChannelGraph.adj in He. simpl in He.
      rewrite lookup_empty in He. by apply elem_of_nil in He.
    - apply Hadj in He as [He|[[_ ->]|[_ ->]]]; simpl; [|lia..].
      unfold ChannelGraph.adj in He. simpl in He.
      rewrite lookup_empty in He. by apply elem_of_nil in He. }
  intros [?|[c Hw]]; [done|]. apply Hwalk in Hw. lia.
Qed.

(** Where the costs are not modest the sums of the code wrap around: over
    two edges of 1500000000 each the cost that ChannelGraph2.cpp returns is
    3000000000 - 2^32, and two costs of [INT_MAX] add up to -2 in
    [calculateChannelCost] and in the index of
    OptimizedEfficientGraph.cpp. *)
Example cg2_heavy_query :
  cg_heavy_build = Returned cg_heavy ∧
  ChannelGraph2.findShortestPath cg_heavy 0 2 1 3000
  = Some (Returned ([(0, 0); (1, 0); (2, 0)], -1294967296)).
Proof. split; vm_compute; reflexivity. Qed.

Example segment_cost_wraps :
  ChannelGraph.calculateChannelCost (replicate 100 INT_MAX) 0 2 = -2 ∧
  OptimizedEfficientGraph.getSegmentCost
    (OptimizedEfficientGraph.precomputeEdge 1 (replicate 100 INT_MAX)) 0 2
  = -2.
Proof. split; vm_compute; reflexivity. Qed.

(** Scenario 1 of the specification: cost 8 over three nodes. *)
Example cg_chain_query :
  ChannelGraph.findShortestPath cg_chain 0 2 1 300
  = Some (Returned ([(0, 0); (1, 0); (2, 0)], 8)).
Proof. vm_compute. reflexivity. Qed.

Example cg2_chain_query :
  ChannelGraph2.findShortestPath cg_chain 0 2 1 300
  = Some (Returned ([(0, 0); (1, 0); (2, 0)], 8)).
Proof. vm_compute. reflexivity. Qed.

(** The checks of ChannelGraph2.cpp turn the detour into an error. *)
Example cg2_detour_query :
  ChannelGraph2.findShortestPath cg_detour 0 3 1 1000
  = Some (Thrown runtime_error).
Proof. vm_compute. reflexivity. Qed.

(** The asserted tests of ChannelGraph2.cpp. *)
Example cg2_test2 :
  ∃ path, ChannelGraph2.findShortestPath (cg_grow cg_test2_build) 0 2 1 400
          = Some (Returned (path, 2)).
Proof. eexists. vm_compute. reflexivity. Qed.

Example cg2_test3 :
  ∃ path, ChannelGraph2.findShortestPath (cg_grow cg_test3_build) 0 2 1 400
          = Some (Returned (path, 2)).
Proof. eexists. vm_compute. reflexivity. Qed.

Example cg2_test5 :
  ∃ path, ChannelGraph2.findShortestPath (cg_grow cg_test5_build) 0 1 3 400
          = Some (Returned (path, 3)).
Proof. eexists. vm_compute. reflexivity. Qed.

Example cg2_test6 :
  ChannelGraph2.findShortestPath cg_island 0 2 1 400
  = Some (Returned ([], INT_MAX)).
Proof. vm_compute. reflexivity. Qed.

Example cg2_test8 :
  ∃ path, ChannelGraph2.findShortestPath (cg_grow cg_test8_build) 0 2 1 400
          = Some (Returned (path, 2)) ∧ path.*1 = [0; 1; 2].
Proof. eexists. split; vm_compute; reflexivity. Qed.

Example cg2_test9 :
  ∃ ch, ChannelGraph2.findShortestPath cg_island 0 0 1 400
        = Some (Returned ([(0, ch)], 0)).
Proof. eexists. vm_compute. reflexivity. Qed.

(** Node 2 is out of reach: the search of OptimizedEfficientGraph1.cpp ends
    without a final state and the path is empty. *)
Example oeg1_island_query :
  OptimizedEfficientGraph1.findMinCostPath oeg1_island 0 2 1000 = Some [].
Proof. vm_compute. reflexivity. Qed.

(** [reconstructPath] of OptimizedEfficientGraph3.cpp stops without a word at
    a state whose key has no predecessor: the path it returns then does not
    start at the source. *)
Example oeg3_reconstructPath_truncates :
  OptimizedEfficientGraph3.reconstructPath 0 3 10
    (Some (OptimizedEfficientGraph3.mkState 7 3 4 1 {[3]})) ∅
  = Some [(3, -1)].
Proof. vm_compute. reflexivity. Qed.

(** The island network: the edge 0 - 1 is found in both directions, node 2
    is not. *)
Example cg_island_query_01 :
  ChannelGraph.findShortestPath cg_island 0 1 1 400
  = Some (Returned ([(0, 0); (1, 0)], 1)).
Proof. vm_compute. reflexivity. Qed.

Example cg_island_query_10 :
  ChannelGraph.findShortestPath cg_island 1 0 1 400
  = Some (Returned ([(1, 0); (0, 0)], 1)).
Proof. vm_compute. reflexivity. Qed.

Example cg_island_query_02 :
  ChannelGraph.findShortestPath cg_island 0 2 1 400
  = Some (Returned ([], INT_MAX)).
Proof. vm_compute. reflexivity. Qed.

Example cg2_island_query_01 :
  ChannelGraph2.findShortestPath cg_island 0 1 1 400
  = Some (Returned ([(0, 0); (1, 0)], 1)).
Proof. vm_compute. reflexivity. Qed.

Example cg2_island_query_02 :
  ChannelGraph2.findShortestPath cg_island 0 2 1 400
  = Some (Returned ([], INT_MAX)).
Proof. vm_compute. reflexivity. Qed.

Lemma cg_test8_valid : valid cg_test8.
Proof. unfold cg_test8, cg_test8_build. valid_graph. Qed.

Lemma cg_test8_modest : modest cg_test8.
Proof. unfold cg_test8, cg_test8_build. modest_graph 3. Qed.

Lemma cg_detour_conv_modest : modest cg_detour_conv.
Proof. apply modest_last_setNodeConversion, cg_detour_modest. Qed.

Lemma cg_island_bridge_modest : modest cg_island_bridge.
Proof.
  apply (modest_last_addEdge 3); [modest_costs|].
  split; [apply cg_island_modest|reflexivity].
Qed.

Lemma cg_island_symmetric : ShortestPathSpec.symmetric cg_island.
Proof.
  eapply ShortestPathFacts.symmetric_addEdge; [apply cg_island_built|].
  apply ShortestPathFacts.symmetric_create.
Qed.

Lemma cg_island_route : ShortestPathSpec.route cg_island 1 0 1 0 1.
Proof.
  assert (ChannelGraph.mkEdge 1 (replicate 100 1) ∈ ChannelGraph.adj cg_island 0)
    as He by (vm_compute; left).
  apply (ShortestPathSpec.route_first cg_island 1 0 _ 0 He).
  unfold CHANNELS. lia.
Qed.

Lemma oeg_pair_built : oeg_pair_build = Returned oeg_pair.
Proof. vm_compute. reflexivity. Qed.

Example oeg_pair_query :
  OptimizedEfficientGraph.findMinCost oeg_pair 0 1 1000 = Some 1.
Proof. vm_compute. reflexivity. Qed.

Example oeg1_island_query_01 :
  OptimizedEfficientGraph1.findMinCostPath oeg1_island 0 1 1000
  = Some [(0, -1); (1, -1)].
Proof. vm_compute. reflexivity. Qed.

Example oeg3_detour_query :
  OptimizedEfficientGraph3.findMinCostPath oeg3_detour 0 3 4000
  = Some [(0, -1); (1, 5); (2, 0); (1, 0); (3, -1)].
Proof. vm_compute. reflexivity. Qed.

Lemma oeg1_island_in_range : FindMinCostPathSpec.in_range oeg1_island.
Proof.
  apply (FindMinCostPath1Facts.in_range_addEdge
           (OptimizedEfficientGraph1.create 3) oeg1_island 0 1
           (replicate 100 1)).
  - vm_compute. reflexivity.
  - apply FindMinCostPath1Facts.in_range_create.
Qed.

Lemma oeg1_island_not_joined : ¬ FindMinCostPathSpec.joined oeg1_island 0 2.
Proof.
  assert (oeg1_island_build = Returned oeg1_island) as Hb
    by (vm_compute; reflexivity).
  unfold oeg1_island_build in Hb.
  apply OptimizedEfficientGraph1Facts.oeg1_addEdge_Returned in Hb
    as (_ & _ & _ & Hadj).
  assert (∀ v, FindMinCostPathSpec.joined oeg1_island 0 v → v = 0 ∨ v = 1)
    as Hj.
  { intros v Hv. induction Hv as [|u e _ IH He]; [by left|].
    apply Hadj in He as [He|[[_ ->]|[_ ->]]]; simpl; [|lia..].
    unfold OptimizedEfficientGraph1.adj_at in He. simpl in He.
    rewrite lookup_empty in He. by apply elem_of_nil in He. }
  intros H. apply Hj in H. lia.
Qed.

End ExamplesFacts.

(** * The claims of the specification *)

Import ChannelGraphSpec ChannelGraphFacts.
Import Examples ExamplesFacts.

(** C1. The specification asks that no returned path repeats a node. Two
    variants return such a path on the networks [oeg3_detour] and
    [cg_detour], which [addEdge] accepts and whose costs are positive:
    [findMinCostPath] of OptimizedEfficientGraph3.cpp goes 0, 1, 2, 1, 3, and
    [findShortestPath] of ChannelGraph.cpp goes 0, 1, 2, 1, 3 as well. *)
Theorem C1_returned_path_repeats_a_node :
  oeg3_detour_build = Returned oeg3_detour ∧
  OptimizedEfficientGraph3.findMinCostPath oeg3_detour 0 3 4000
    = Some [(0, -1); (1, 5); (2, 0); (1, 0); (3, -1)] ∧
  cg_detour_build = Returned cg_detour ∧ valid cg_detour ∧
  ChannelGraph.findShortestPath cg_detour 0 3 1 1000
    = Some (Returned ([(0, 0); (1, 0); (2, 0); (1, 5); (3, 5)], 4)) ∧
  ¬ NoDup [(0, -1); (1, 5); (2, 0); (1, 0); (3, -1)].*1 ∧
  ¬ NoDup [(0, 0); (1, 0); (2, 0); (1, 5); (3, 5)].*1.
Proof.
  split_and!.
  - apply oeg3_detour_built.
  - vm_compute. reflexivity.
  - apply cg_detour_built.
  - apply cg_detour_valid.
  - vm_compute. reflexivity.
  - simpl. rewrite !NoDup_cons. intros (_ & H & _). apply H. set_solver.
  - simpl. rewrite !NoDup_cons. intros (_ & H & _). apply H. set_solver.
Qed.

(** C2. Spectrum continuity. In a path returned by [findShortestPath],
    three consecutive entries [a], [b], [c] with [b] not converting carry the
    same start channel at [b] and at [c]: the edges [(a,b)] and [(b,c)] use
    the same segment. For ChannelGraph2.cpp this holds of every returned
    path. For ChannelGraph.cpp it holds of every returned path when [b] is
    not the source, and without that proviso on a valid graph with [modest]
    costs, where no sum of costs leaves the range of [int] and the source is
    not entered again. The searches generate nothing else: out of a node
    that neither converts nor is the source the only start channel tried is
    the current one, and in [findMinCost] of OptimizedEfficientGraph.cpp the
    only transition out of a non-converting node with a running sequence
    below the last channel is the continuation by one channel. *)
Theorem C2_spectrum_continuity :
  (∀ g source target w fuel path cost l1 a ca b cb c cc l2,
     ChannelGraph.findShortestPath g source target w fuel
       = Some (Returned (path, cost)) →
     path = l1 ++ (a, ca) :: (b, cb) :: (c, cc) :: l2 →
     ChannelGraph.supports g b = false →
     b ≠ source ∨ (well_formed g ∧ modest g) →
     cc = cb) ∧
  (∀ g source target w fuel path cost l1 a ca b cb c cc l2,
     ChannelGraph2.findShortestPath g source target w fuel
       = Some (Returned (path, cost)) →
     path = l1 ++ (a, ca) :: (b, cb) :: (c, cc) :: l2 →
     ChannelGraph.supports g b = false →
     cc = cb) ∧
  (∀ g source w u u_start_ch,
     ChannelGraph.supports g u = false → u ≠ source →
     ChannelGraph.possible_start_channels g source w u u_start_ch
       = [u_start_ch] ∧
     ∀ v_start_ch,
       v_start_ch ∈ ChannelGraph2.possible_start_channels g source w u
                      u_start_ch →
       v_start_ch = u_start_ch) ∧
  (∀ g u channel cost edge,
     OptimizedEfficientGraph.supports g u = false →
     channel ≠ 100 → channel < CHANNELS - 1 →
     OptimizedEfficientGraph.transitions g u channel cost edge
     = [(OptimizedEfficientGraph.to edge * OptimizedEfficientGraph.STATE_COUNT
         + (channel + 1),
         int_add cost (vget (OptimizedEfficientGraph.single_costs edge)
                            (channel + 1)))]).
Proof.
  split_and!.
  - intros g source target w fuel path cost l1 a ca b cb c cc l2
      Hr -> Hb Hcase.
    assert (adjacent (a, ca) (b, cb)
              (l1 ++ (a, ca) :: (b, cb) :: (c, cc) :: l2)) as Hab
      by (by exists l1, ((c, cc) :: l2)).
    assert (adjacent (b, cb) (c, cc)
              (l1 ++ (a, ca) :: (b, cb) :: (c, cc) :: l2)) as Hbc.
    { exists (l1 ++ [(a, ca)]), l2. by rewrite <- app_assoc. }
    destruct Hcase as [Hne|[Hwf Hm]].
    + by eapply ChannelGraphIntFacts.cg_int_continuity.
    + rewrite ChannelGraphIntFacts.cg_exact in Hr by done.
      pose proof (ChannelGraphIntFacts.modest_nonnegative g Hm) as Hnn.
      eapply cg_continuity; [done..|]. by eapply cg_source_first.
  - intros g source target w fuel path cost l1 a ca b cb c cc l2 Hr Hp Hb.
    by eapply ChannelGraphIntFacts.cg2_int_continuity_inner.
  - intros g source w u uch Hs Hu. split.
    + unfold ChannelGraph.possible_start_channels. rewrite Hs.
      by destruct (Z.eqb_spec u source).
    + intros vch. unfold ChannelGraph2.possible_start_channels. rewrite Hs.
      destruct (Z.eqb_spec u source); [done|]. simpl.
      destruct (uch <=? CHANNELS - w).
      * by intros ->%list_elem_of_singleton.
      * by intros ?%elem_of_nil.
  - apply OptimizedEfficientGraphFacts.transitions_continue_only.
Qed.

Lemma C2_witness :
  ChannelGraph.findShortestPath cg_chain 0 2 1 300
    = Some (Returned ([(0, 0); (1, 0); (2, 0)], 8)) ∧
  ChannelGraph2.findShortestPath cg_chain 0 2 1 300
    = Some (Returned ([(0, 0); (1, 0); (2, 0)], 8)) ∧
  ChannelGraph.supports cg_chain 1 = false ∧
  (0 : Z) = 0 ∧ (0 : Z) = 0 ∧ (0 : Z) = 0 ∧
  ChannelGraph.possible_start_channels cg_chain 0 1 1 7 = [7] ∧
  OptimizedEfficientGraph.transitions (OptimizedEfficientGraph.create 2) 1 4 0
    (OptimizedEfficientGraph.precomputeEdge 0 (replicate 100 1))
  = [(5, 1)].
Proof.
  destruct C2_spectrum_continuity as (H1 & H2 & H3 & H4).
  split; [vm_compute; reflexivity|].
  split; [vm_compute; reflexivity|].
  split; [reflexivity|].
  split_and!.
  - apply (H1 cg_chain 0 2 1 300%nat [(0, 0); (1, 0); (2, 0)] 8
              [] 0 0 1 0 2 0 []).
    + vm_compute. reflexivity.
    + reflexivity.
    + reflexivity.
    + left. discriminate.
  - apply (H1 cg_chain 0 2 1 300%nat [(0, 0); (1, 0); (2, 0)] 8
              [] 0 0 1 0 2 0 []).
    + vm_compute. reflexivity.
    + reflexivity.
    + reflexivity.
    + right. split; [apply cg_chain_valid|apply cg_chain_modest].
  - apply (H2 cg_chain 0 2 1 300%nat [(0, 0); (1, 0); (2, 0)] 8
              [] 0 0 1 0 2 0 []).
    + vm_compute. reflexivity.
    + reflexivity.
    + reflexivity.
  - apply (H3 cg_chain 0 1 1 7); [reflexivity|lia].
  - apply (H4 (OptimizedEfficientGraph.create 2) 1 4 0
              (OptimizedEfficientGraph.precomputeEdge 0 (replicate 100 1)));
      [reflexivity|lia|unfold CHANNELS; lia].
Defined.

(** C3. On a valid graph with [modest] costs, where no sum of costs leaves
    the range of [int], the cost returned with a non-empty path is the sum,
    over the consecutive entries of the path, of the cost of the segment of
    the requested width that starts at the channel recorded for the arrival
    node, on an edge between the two nodes; so for [findShortestPath] of
    ChannelGraph.cpp and for the one of ChannelGraph2.cpp. And an answer
    there is: with a valid width and both nodes in range the query comes to
    an end, [findShortestPath] of ChannelGraph.cpp with a returned pair and
    the one of ChannelGraph2.cpp with a returned pair or the exception of
    its path check. *)
Theorem C3_cost_is_sum_of_segments
    (g : ChannelGraph.Graph) (source target w : Z) :
  well_formed g → modest g →
  (∀ fuel path cost,
     ChannelGraph.findShortestPath g source target w fuel
       = Some (Returned (path, cost)) →
     path ≠ [] →
     path_sum g w path cost) ∧
  (∀ fuel path cost,
     ChannelGraph2.findShortestPath g source target w fuel
       = Some (Returned (path, cost)) →
     path ≠ [] →
     path_sum g w path cost) ∧
  (1 ≤ w ≤ 3 →
   0 ≤ source < ChannelGraph.node_count g →
   0 ≤ target < ChannelGraph.node_count g →
   ∃ fuel0, ∀ fuel, (fuel0 ≤ fuel)%nat →
     (∃ path cost,
        ChannelGraph.findShortestPath g source target w fuel
          = Some (Returned (path, cost))) ∧
     (∃ r, ChannelGraph2.findShortestPath g source target w fuel = Some r ∧
           r ≠ Undefined)).
Proof.
  intros Hwf Hm.
  pose proof (ChannelGraphIntFacts.modest_nonnegative g Hm) as Hnn.
  split_and!.
  - intros fuel path cost Hr Hne.
    rewrite ChannelGraphIntFacts.cg_exact in Hr by done.
    apply path_cost_sum; [done| | |by eapply cg_cost].
    + by apply findShortestPath_Returned in Hr as (? & _).
    + by eapply cg_channels.
  - intros fuel path cost Hr Hne.
    rewrite ChannelGraphIntFacts.cg2_exact in Hr by done.
    apply path_cost_sum; [done| | |by eapply ChannelGraph2Facts.cg2_cost].
    + by apply ChannelGraph2Facts.findShortestPath2_Returned
        in Hr as (? & _).
    + by eapply ChannelGraph2Facts.cg2_channels.
  - intros Hw Hs Ht.
    destruct (cg_terminates g source target w) as [f1 H1]; try done.
    destruct (ChannelGraph2Facts.cg2_terminates g source target w)
      as [f2 H2]; try done.
    exists (f1 `max` f2)%nat. intros fuel Hfuel.
    rewrite ChannelGraphIntFacts.cg_exact, ChannelGraphIntFacts.cg2_exact
      by done.
    split.
    + apply H1. lia.
    + apply H2. lia.
Qed.

Lemma C3_witness :
  ChannelGraph.findShortestPath cg_chain 0 2 1 300
    = Some (Returned ([(0, 0); (1, 0); (2, 0)], 8)) ∧
  ChannelGraph2.findShortestPath cg_island 0 1 1 400
    = Some (Returned ([(0, 0); (1, 0)], 1)) ∧
  path_sum cg_chain 1 [(0, 0); (1, 0); (2, 0)] 8 ∧
  path_sum cg_island 1 [(0, 0); (1, 0)] 1 ∧
  ∃ fuel0, ∀ fuel, (fuel0 ≤ fuel)%nat →
    (∃ path cost,
       ChannelGraph.findShortestPath cg_chain 0 2 1 fuel
         = Some (Returned (path, cost))) ∧
    (∃ r, ChannelGraph2.findShortestPath cg_chain 0 2 1 fuel = Some r ∧
          r ≠ Undefined).
Proof.
  destruct (C3_cost_is_sum_of_segments cg_chain 0 2 1) as (H1 & _ & H3).
  - apply cg_chain_valid.
  - apply cg_chain_modest.
  - destruct (C3_cost_is_sum_of_segments cg_island 0 1 1) as (_ & H2 & _).
    + apply cg_island_valid.
    + apply cg_island_modest.
    + split; [vm_compute; reflexivity|].
      split; [vm_compute; reflexivity|].
      split_and!.
      * apply (H1 300%nat); [vm_compute; reflexivity|discriminate].
      * apply (H2 400%nat); [vm_compute; reflexivity|discriminate].
      * apply H3.
        -- lia.
        -- vm_compute. split; [discriminate|reflexivity].
        -- vm_compute. split; [discriminate|reflexivity].
Defined.

(** C4, as stated, fails on ChannelGraph.cpp: with source and target both 0
    the path holds channel 0, not the sentinel -1. *)
Lemma C4_counterexample :
  ChannelGraph.findShortestPath (ChannelGraph.create 1) 0 0 1 2
    = Some (Returned ([(0, 0)], 0)) ∧
  ChannelGraph.findShortestPath (ChannelGraph.create 1) 0 0 1 2
    ≠ Some (Returned ([(0, -1)], 0)).
Proof. split; [vm_compute; reflexivity|vm_compute; discriminate]. Qed.

(** C4, amended. When source and target are the same node, [findShortestPath]
    (ChannelGraph.cpp and ChannelGraph2.cpp, valid width, node in range)
    returns the one-entry path [(source, 0)], with start channel 0, and
    cost 0; [findMinCostPath] of OptimizedEfficientGraph3.cpp returns the
    one-entry path [(source, -1)]. No edge is traversed in either. *)
Theorem C4_same_source_and_target
    (g : ChannelGraph.Graph) (source w : Z) (fuel : nat) :
  1 ≤ w ≤ 3 → 0 ≤ source < ChannelGraph.node_count g →
  ChannelGraph.findShortestPath g source source w (S (S fuel))
    = Some (Returned ([(source, 0)], 0)) ∧
  ChannelGraph2.findShortestPath g source source w (S (S fuel))
    = Some (Returned ([(source, 0)], 0)) ∧
  ∀ g3 fuel3,
    OptimizedEfficientGraph3.findMinCostPath g3 source source fuel3
    = Some [(source, -1)].
Proof.
  intros Hw Hs. split_and!.
  - by apply ChannelGraphIntFacts.cg_int_same_node.
  - by apply ChannelGraphIntFacts.cg2_int_same_node.
  - intros g3 fuel3. apply OptimizedEfficientGraph3Facts.oeg3_same_node.
Qed.

Lemma C4_witness :
  ChannelGraph.findShortestPath cg_chain 1 1 2 2
    = Some (Returned ([(1, 0)], 0)) ∧
  ChannelGraph2.findShortestPath cg_chain 1 1 2 2
    = Some (Returned ([(1, 0)], 0)) ∧
  ∀ g3 fuel3,
    OptimizedEfficientGraph3.findMinCostPath g3 1 1 fuel3 = Some [(1, -1)].
Proof.
  apply (C4_same_source_and_target cg_chain 1 2 0).
  - lia.
  - vm_compute. split; [discriminate|reflexivity].
Defined.

(** C5. On a valid graph with [modest] costs, where no sum of costs leaves
    the range of [int], with a valid width and both nodes in range, when no
    sequence of edges that respects the width and the continuity constraint
    leads from the source to the target, [findShortestPath] (ChannelGraph.cpp
    and ChannelGraph2.cpp) ends and returns the empty path with the cost
    [INT_MAX]; it returns, it does not throw. [findMinCostPath] of
    OptimizedEfficientGraph1.cpp, on a graph whose edges lead to nodes of the
    graph, whatever the costs, ends and returns the empty path when no
    sequence of edges leads from the source to the target: no final state is
    found, and that is the case in which [reconstructPath] answers the empty
    path. *)
Theorem C5_unreachable_returns_empty_path :
  (∀ g source target w,
     well_formed g → modest g →
     1 ≤ w ≤ 3 →
     0 ≤ source < ChannelGraph.node_count g →
     0 ≤ target < ChannelGraph.node_count g →
     ¬ connected g w source target →
     ∃ fuel0, ∀ fuel, (fuel0 ≤ fuel)%nat →
       ChannelGraph.findShortestPath g source target w fuel
         = Some (Returned ([], INT_MAX)) ∧
       ChannelGraph2.findShortestPath g source target w fuel
         = Some (Returned ([], INT_MAX))) ∧
  (∀ g source target,
     FindMinCostPathSpec.in_range g → 0 ≤ source →
     ¬ FindMinCostPathSpec.joined g source target →
     ∃ fuel0, ∀ fuel, (fuel0 ≤ fuel)%nat →
       OptimizedEfficientGraph1.findMinCostPath g source target fuel
       = Some []).
Proof.
  split.
  - intros g source target w Hwf Hm Hw Hs Ht Hcon.
    pose proof (ChannelGraphIntFacts.modest_nonnegative g Hm) as Hnn.
    destruct (cg_unreachable g source target w) as [f1 H1]; try done.
    destruct (ChannelGraph2Facts.cg2_unreachable g source target w)
      as [f2 H2]; try done.
    exists (f1 `max` f2)%nat. intros fuel Hfuel.
    rewrite ChannelGraphIntFacts.cg_exact, ChannelGraphIntFacts.cg2_exact
      by done.
    split.
    + apply H1. lia.
    + apply H2. lia.
  - apply FindMinCostPath1Facts.findMinCostPath_unreachable_ends.
Qed.

Lemma C5_witness :
  (∃ fuel0, ∀ fuel, (fuel0 ≤ fuel)%nat →
     ChannelGraph.findShortestPath cg_island 0 2 1 fuel
       = Some (Returned ([], INT_MAX)) ∧
     ChannelGraph2.findShortestPath cg_island 0 2 1 fuel
       = Some (Returned ([], INT_MAX))) ∧
  (∃ fuel0, ∀ fuel, (fuel0 ≤ fuel)%nat →
     OptimizedEfficientGraph1.findMinCostPath oeg1_island 0 2 fuel
     = Some []).
Proof.
  destruct C5_unreachable_returns_empty_path as [H1 H2].
  split.
  - apply (H1 cg_island 0 2 1).
    + apply cg_island_valid.
    + apply cg_island_modest.
    + lia.
    + vm_compute. split; [discriminate|reflexivity].
    + vm_compute. split; [discriminate|reflexivity].
    + apply cg_island_not_connected.
  - apply (H2 oeg1_island 0 2).
    + apply oeg1_island_in_range.
    + lia.
    + apply oeg1_island_not_joined.
Defined.

(** C6. The precomputed index is the direct sum: for a vector of 100 costs
    that are [int]s, a width from 1 to 3 and a start with
    [start + w <= 100], [getSegmentCost] on the precomputed edge is what
    [calculateChannelCost] adds up, whatever the costs; and both are the sum
    of [costs[start..start+w)] when no cost is negative and that sum is an
    [int]. *)
Theorem C6_segment_index_is_direct_sum
    (to : Z) (costs : list Z) (start w : Z) :
  Z.of_nat (length costs) = CHANNELS →
  Forall (λ c, INT_MIN ≤ c ≤ INT_MAX) costs →
  1 ≤ w ≤ 3 → 0 ≤ start → start + w ≤ CHANNELS →
  OptimizedEfficientGraph.getSegmentCost
    (OptimizedEfficientGraph.precomputeEdge to costs) start w
    = ChannelGraph.calculateChannelCost costs start w ∧
  (Forall (λ c, 0 ≤ c) costs → segment_sum costs start w ≤ INT_MAX →
   OptimizedEfficientGraph.getSegmentCost
     (OptimizedEfficientGraph.precomputeEdge to costs) start w
     = segment_sum costs start w ∧
   ChannelGraph.calculateChannelCost costs start w
     = segment_sum costs start w).
Proof.
  intros Hlen Hint Hw H0 H1.
  pose proof (OptimizedEfficientGraphFacts.getSegmentCost_direct
                to costs start w Hint Hw H0 H1) as Hd.
  split; [done|]. intros Hnn Hmax.
  assert (OptimizedEfficientGraph.getSegmentCost
            (OptimizedEfficientGraph.precomputeEdge to costs) start w
          = segment_sum costs start w) as Hs.
  { apply OptimizedEfficientGraphFacts.getSegmentCost_precomputed;
      try done.
    apply Forall_forall. intros c Hc. split.
    - by apply (proj1 (Forall_forall _ _) Hnn).
    - by apply (proj1 (Forall_forall _ _) Hint). }
  split; [done|]. by rewrite <- Hd.
Qed.

Lemma C6_witness :
  OptimizedEfficientGraph.getSegmentCost
    (OptimizedEfficientGraph.precomputeEdge 1 (costs_with 10 11 1)) 10 3
    = ChannelGraph.calculateChannelCost (costs_with 10 11 1) 10 3 ∧
  OptimizedEfficientGraph.getSegmentCost
    (OptimizedEfficientGraph.precomputeEdge 1 (costs_with 10 11 1)) 10 3
    = segment_sum (costs_with 10 11 1) 10 3 ∧
  ChannelGraph.calculateChannelCost (costs_with 10 11 1) 10 3
    = segment_sum (costs_with 10 11 1) 10 3.
Proof.
  destruct (C6_segment_index_is_direct_sum 1 (costs_with 10 11 1) 10 3)
    as [H1 H2].
  - reflexivity.
  - apply costs_with_int; vm_compute; split; discriminate.
  - lia.
  - lia.
  - vm_compute. discriminate.
  - split; [exact H1|]. apply H2.
    + apply costs_with_nonneg; lia.
    + vm_compute. discriminate.
Defined.

(** C7. [findShortestPath] (ChannelGraph.cpp and ChannelGraph2.cpp) checks
    its inputs before it searches: it throws [invalid_argument] when the
    width is not 1, 2 or 3, and [out_of_range] when the source or the target
    is outside [0, N); the width is looked at first, so that a query with
    both defects is answered with [invalid_argument]. Nothing is searched:
    the answer does not depend on the fuel, and no path is returned. *)
Theorem C7_inputs_are_validated
    (g : ChannelGraph.Graph) (source target w : Z) (fuel : nat) :
  (w < 1 ∨ 3 < w →
   ChannelGraph.findShortestPath g source target w fuel
     = Some (Thrown invalid_argument) ∧
   ChannelGraph2.findShortestPath g source target w fuel
     = Some (Thrown invalid_argument)) ∧
  (1 ≤ w ≤ 3 →
   source < 0 ∨ ChannelGraph.node_count g ≤ source ∨
   target < 0 ∨ ChannelGraph.node_count g ≤ target →
   ChannelGraph.findShortestPath g source target w fuel
     = Some (Thrown out_of_range) ∧
   ChannelGraph2.findShortestPath g source target w fuel
     = Some (Thrown out_of_range)).
Proof.
  unfold ChannelGraph.findShortestPath, ChannelGraph2.findShortestPath.
  split.
  - intros Hw.
    destruct (Z.ltb_spec w 1), (Z.gtb_spec w 3); simpl; (done || lia).
  - intros Hw Hr.
    destruct (Z.ltb_spec w 1), (Z.gtb_spec w 3); simpl; try lia.
    destruct (Z.ltb_spec source 0),
      (Z.geb_spec source (ChannelGraph.node_count g)),
      (Z.ltb_spec target 0),
      (Z.geb_spec target (ChannelGraph.node_count g)); simpl; (done || lia).
Qed.

Lemma C7_witness :
  (ChannelGraph.findShortestPath cg_chain 0 2 4 0
     = Some (Thrown invalid_argument) ∧
   ChannelGraph2.findShortestPath cg_chain 0 2 4 0
     = Some (Thrown invalid_argument)) ∧
  (ChannelGraph.findShortestPath cg_chain 0 3 1 0
     = Some (Thrown out_of_range) ∧
   ChannelGraph2.findShortestPath cg_chain 0 3 1 0
     = Some (Thrown out_of_range)).
Proof.
  split.
  - apply (proj1 (C7_inputs_are_validated cg_chain 0 2 4 0)). lia.
  - apply (proj2 (C7_inputs_are_validated cg_chain 0 3 1 0)); [lia|].
    right. right. right. vm_compute. discriminate.
Defined.

(** C8, as stated, fails on OptimizedEfficientGraph1.cpp: setting the
    capability of node 5 of a one-node graph returns normally and leaves the
    graph as it was. *)
Lemma C8_counterexample :
  OptimizedEfficientGraph1.setChannelSwitchSupport
    (OptimizedEfficientGraph1.create 1) 5 true
  = OptimizedEfficientGraph1.create 1.
Proof. reflexivity. Qed.

(** C8, amended. In ChannelGraph.cpp [addEdge] throws [out_of_range] when [u]
    or [v] is outside [0, N) and, both being inside, [invalid_argument] when
    the cost vector does not have 100 entries; otherwise it returns, and the node
    count and the capabilities are unchanged and the adjacency lists have
    gained exactly the edge to [v] in the list of [u] and the edge to [u] in
    the list of [v], both with the given cost vector; [setNodeConversion]
    throws [out_of_range] when the node is outside [0, N). In
    OptimizedEfficientGraph1.cpp [addEdge] throws [invalid_argument] when the
    cost vector does not have 100 entries and, when it returns, has inserted
    the same two edges; [setChannelSwitchSupport] leaves the graph unchanged,
    without error, when the node is outside [0, N). *)
Theorem C8_construction_is_validated :
  (∀ g u v costs,
     u < 0 ∨ ChannelGraph.node_count g ≤ u ∨
     v < 0 ∨ ChannelGraph.node_count g ≤ v →
     ChannelGraph.addEdge g u v costs = Thrown out_of_range) ∧
  (∀ g u v costs,
     0 ≤ u < ChannelGraph.node_count g → 0 ≤ v < ChannelGraph.node_count g →
     Z.of_nat (length costs) ≠ CHANNELS →
     ChannelGraph.addEdge g u v costs = Thrown invalid_argument) ∧
  (∀ g u v costs,
     0 ≤ u < ChannelGraph.node_count g → 0 ≤ v < ChannelGraph.node_count g →
     Z.of_nat (length costs) = CHANNELS →
     ∃ g', ChannelGraph.addEdge g u v costs = Returned g') ∧
  (∀ g u v costs g',
     ChannelGraph.addEdge g u v costs = Returned g' →
     ChannelGraph.node_count g' = ChannelGraph.node_count g ∧
     ChannelGraph.node_support_convert g'
       = ChannelGraph.node_support_convert g ∧
     ∀ x e, e ∈ ChannelGraph.adj g' x ↔
            e ∈ ChannelGraph.adj g x
            ∨ (x = u ∧ e = ChannelGraph.mkEdge v costs)
            ∨ (x = v ∧ e = ChannelGraph.mkEdge u costs)) ∧
  (∀ g node support,
     node < 0 ∨ ChannelGraph.node_count g ≤ node →
     ChannelGraph.setNodeConversion g node support = Thrown out_of_range) ∧
  (∀ g u v costs,
     Z.of_nat (length costs) ≠ CHANNELS →
     OptimizedEfficientGraph1.addEdge g u v costs = Thrown invalid_argument) ∧
  (∀ g u v costs g',
     OptimizedEfficientGraph1.addEdge g u v costs = Returned g' →
     ∀ x e, e ∈ OptimizedEfficientGraph1.adj_at g' x ↔
            e ∈ OptimizedEfficientGraph1.adj_at g x
            ∨ (x = u ∧ e = OptimizedEfficientGraph1.mkEdge v costs)
            ∨ (x = v ∧ e = OptimizedEfficientGraph1.mkEdge u costs)) ∧
  (∀ g node_id supports,
     node_id < 0 ∨ OptimizedEfficientGraph1.n g ≤ node_id →
     OptimizedEfficientGraph1.setChannelSwitchSupport g node_id supports = g).
Proof.
  split_and!.
  - apply addEdge_out_of_range.
  - apply addEdge_bad_length.
  - apply addEdge_succeeds.
  - intros g u v costs g' H.
    by apply addEdge_Returned in H as (_ & _ & _ & ? & ? & ?).
  - apply setNodeConversion_out_of_range.
  - apply OptimizedEfficientGraph1Facts.oeg1_addEdge_bad_length.
  - intros g u v costs g' H.
    by apply OptimizedEfficientGraph1Facts.oeg1_addEdge_Returned
      in H as (_ & _ & _ & ?).
  - apply OptimizedEfficientGraph1Facts.oeg1_setChannelSwitchSupport_ignored.
Qed.

Lemma C8_witness :
  ChannelGraph.addEdge (ChannelGraph.create 3) 0 3 (replicate 100 1)
    = Thrown out_of_range ∧
  ChannelGraph.addEdge (ChannelGraph.create 3) 0 1 (replicate 99 1)
    = Thrown invalid_argument ∧
  (∀ x e, e ∈ ChannelGraph.adj cg_island x ↔
          e ∈ ChannelGraph.adj (ChannelGraph.create 3) x
          ∨ (x = 0 ∧ e = ChannelGraph.mkEdge 1 (replicate 100 1))
          ∨ (x = 1 ∧ e = ChannelGraph.mkEdge 0 (replicate 100 1))) ∧
  ChannelGraph.setNodeConversion (ChannelGraph.create 3) 3 true
    = Thrown out_of_range ∧
  OptimizedEfficientGraph1.addEdge (OptimizedEfficientGraph1.create 3) 0 1
    (replicate 99 1) = Thrown invalid_argument ∧
  OptimizedEfficientGraph1.setChannelSwitchSupport
    (OptimizedEfficientGraph1.create 3) 3 true
  = OptimizedEfficientGraph1.create 3.
Proof.
  destruct C8_construction_is_validated
    as (H1 & H2 & _ & H3 & H4 & H5 & _ & H7).
  split_and!.
  - apply H1. right. right. right. vm_compute. discriminate.
  - apply H2; [vm_compute; split; (discriminate || reflexivity)..|].
    vm_compute. discriminate.
  - apply (H3 (ChannelGraph.create 3) 0 1 (replicate 100 1) cg_island).
    vm_compute. reflexivity.
  - apply H4. right. vm_compute. discriminate.
  - apply H5. vm_compute. discriminate.
  - apply H7. right. vm_compute. discriminate.
Defined.

(** C9. The specification asks for a fatal error when the walk along the
    predecessor links repeats a node. On [oeg3_detour], from 0 to 3,
    [findMinCostPath] of OptimizedEfficientGraph3.cpp returns normally; the
    path that its [reconstructPath] walked starts at the source, ends at the
    target and holds node 1 twice, the second time where the links lead back
    to it. *)
Theorem C9_corrupt_path_is_returned_silently :
  ∃ path,
    OptimizedEfficientGraph3.findMinCostPath oeg3_detour 0 3 4000
      = Some path ∧
    path !! 0%nat = Some (0, -1) ∧
    path !! 1%nat = Some (1, 5) ∧
    path !! 3%nat = Some (1, 0) ∧
    path !! 4%nat = Some (3, -1).
Proof.
  eexists. split; [vm_compute; reflexivity|]. by split_and!.
Qed.

(** C10. Every start channel in a non-empty path returned by
    [findShortestPath] (ChannelGraph.cpp and ChannelGraph2.cpp) lies in
    [0, CHANNELS - width]: a segment of the requested width starts there and
    stays inside the 100 channels. *)
Theorem C10_returned_channels_in_range
    (g : ChannelGraph.Graph) (source target w : Z) (fuel : nat)
    (path : list (Z * Z)) (cost : Z) :
  ChannelGraph.findShortestPath g source target w fuel
    = Some (Returned (path, cost)) ∨
  ChannelGraph2.findShortestPath g source target w fuel
    = Some (Returned (path, cost)) →
  ∀ n c, (n, c) ∈ path → 0 ≤ c ≤ CHANNELS - w.
Proof.
  intros [Hr|Hr].
  - by eapply ChannelGraphIntFacts.cg_int_channels.
  - by eapply ChannelGraphIntFacts.cg2_int_channels.
Qed.

Lemma C10_witness :
  ChannelGraph.findShortestPath cg_chain 0 2 1 300
    = Some (Returned ([(0, 0); (1, 0); (2, 0)], 8)) ∧
  ∀ n c, (n, c) ∈ [(0, 0); (1, 0); (2, 0)] → 0 ≤ c ≤ CHANNELS - 1.
Proof.
  split; [vm_compute; reflexivity|].
  apply (C10_returned_channels_in_range cg_chain 0 2 1 300%nat _ 8).
  left. vm_compute. reflexivity.
Defined.

(** * Further properties of the code *)

Import ShortestPathSpec.

(** X1. [findShortestPath] of ChannelGraph.cpp returns a least cost. On a
    valid graph with [modest] costs, where no sum of costs leaves the range
    of [int], the cost returned with a non-empty path is below [INT_MAX]; it
    is 0 when source and target are the same node, and otherwise the cost of
    a route from the source to the target; and no route from the source to
    the target costs less. *)
Theorem X1_returned_cost_is_least
    (g : ChannelGraph.Graph) (source target w : Z) (fuel : nat)
    (path : list (Z * Z)) (cost : Z) :
  well_formed g → modest g →
  ChannelGraph.findShortestPath g source target w fuel
    = Some (Returned (path, cost)) →
  path ≠ [] →
  cost < INT_MAX ∧
  ((source = target ∧ cost = 0) ∨
   (source ≠ target ∧ ∃ ch, route g w source target ch cost)) ∧
  ∀ ch D, route g w source target ch D → cost ≤ D.
Proof.
  intros Hwf Hm Hr Hne.
  rewrite ChannelGraphIntFacts.cg_exact in Hr by done.
  pose proof (ChannelGraphIntFacts.modest_nonnegative g Hm) as Hnn.
  by destruct (ShortestPathFacts.cg_least g source target w fuel path cost
                 Hwf Hnn Hr) as [H _]; apply H.
Qed.

Lemma X1_witness :
  8 < INT_MAX ∧
  (((0 : Z) = 2 ∧ (8 : Z) = 0) ∨
   ((0 : Z) ≠ 2 ∧ ∃ ch, route cg_chain 1 0 2 ch 8)) ∧
  ∀ ch D, route cg_chain 1 0 2 ch D → 8 ≤ D.
Proof.
  apply (X1_returned_cost_is_least cg_chain 0 2 1 300%nat
           [(0, 0); (1, 0); (2, 0)] 8).
  - apply cg_chain_valid.
  - apply cg_chain_modest.
  - vm_compute. reflexivity.
  - discriminate.
Defined.

(** X2. When [findShortestPath] of ChannelGraph.cpp returns the empty path
    on a valid graph with [modest] costs, the cost is [INT_MAX], source and
    target differ, and every route from the source to the target costs
    [INT_MAX] or more: the empty answer is given only when nothing cheaper
    exists. *)
Theorem X2_empty_path_means_no_route
    (g : ChannelGraph.Graph) (source target w : Z) (fuel : nat) (cost : Z) :
  well_formed g → modest g →
  ChannelGraph.findShortestPath g source target w fuel
    = Some (Returned ([], cost)) →
  cost = INT_MAX ∧ source ≠ target ∧
  ∀ ch D, route g w source target ch D → INT_MAX ≤ D.
Proof.
  intros Hwf Hm Hr.
  rewrite ChannelGraphIntFacts.cg_exact in Hr by done.
  pose proof (ChannelGraphIntFacts.modest_nonnegative g Hm) as Hnn.
  by destruct (ShortestPathFacts.cg_least g source target w fuel [] cost
                 Hwf Hnn Hr) as [_ H]; apply H.
Qed.

Lemma X2_witness :
  INT_MAX = INT_MAX ∧ (0 : Z) ≠ 2 ∧
  ∀ ch D, route cg_island 1 0 2 ch D → INT_MAX ≤ D.
Proof.
  apply (X2_empty_path_means_no_route cg_island 0 2 1 400%nat INT_MAX).
  - apply cg_island_valid.
  - apply cg_island_modest.
  - vm_compute. reflexivity.
Defined.

(** X3. [findShortestPath] of ChannelGraph.cpp finds every target within
    reach: on a valid graph with [modest] costs, with a valid width and both
    nodes in range, when some route from the source to the target costs less
    than [INT_MAX], the query ends and returns a non-empty path with a cost
    that is not above the cost of that route. *)
Theorem X3_reachable_target_is_found
    (g : ChannelGraph.Graph) (source target w ch D : Z) :
  well_formed g → modest g →
  1 ≤ w ≤ 3 →
  0 ≤ source < ChannelGraph.node_count g →
  0 ≤ target < ChannelGraph.node_count g →
  route g w source target ch D → D < INT_MAX →
  ∃ fuel0, ∀ fuel, (fuel0 ≤ fuel)%nat →
    ∃ path cost,
      ChannelGraph.findShortestPath g source target w fuel
        = Some (Returned (path, cost)) ∧
      path ≠ [] ∧ cost ≤ D.
Proof.
  intros Hwf Hm Hw Hs Ht Hroute HD.
  pose proof (ChannelGraphIntFacts.modest_nonnegative g Hm) as Hnn.
  destruct (ShortestPathFacts.cg_found g source target w ch D)
    as [fuel0 H]; try done.
  exists fuel0. intros fuel Hfuel.
  rewrite ChannelGraphIntFacts.cg_exact by done. by apply H.
Qed.

Lemma X3_witness :
  ∃ fuel0, ∀ fuel, (fuel0 ≤ fuel)%nat →
    ∃ path cost,
      ChannelGraph.findShortestPath cg_island 0 1 1 fuel
        = Some (Returned (path, cost)) ∧
      path ≠ [] ∧ cost ≤ 1.
Proof.
  apply (X3_reachable_target_is_found cg_island 0 1 1 0 1).
  - apply cg_island_valid.
  - apply cg_island_modest.
  - lia.
  - vm_compute. split; [discriminate|reflexivity].
  - vm_compute. split; [discriminate|reflexivity].
  - apply cg_island_route.
  - reflexivity.
Defined.

(** X4. A non-empty path returned by [findShortestPath] of ChannelGraph.cpp
    on a valid graph with [modest] costs starts at the source and ends at
    the target, and the source is not entered again after the first
    entry. *)
Theorem X4_path_runs_from_source_to_target
    (g : ChannelGraph.Graph) (source target w : Z) (fuel : nat)
    (path : list (Z * Z)) (cost : Z) :
  well_formed g → modest g →
  ChannelGraph.findShortestPath g source target w fuel
    = Some (Returned (path, cost)) →
  path ≠ [] →
  (∃ c0, head path = Some (source, c0)) ∧
  (∃ ct, last path = Some (target, ct)) ∧
  ∀ x b cb, adjacent x (b, cb) path → b ≠ source.
Proof.
  intros Hwf Hm Hr Hne.
  rewrite ChannelGraphIntFacts.cg_exact in Hr by done.
  pose proof (ChannelGraphIntFacts.modest_nonnegative g Hm) as Hnn.
  destruct (ShortestPathFacts.cg_endpoints g source target w fuel path cost)
    as (c0 & ct & Hh & Hl); [done..|].
  split_and!; [by exists c0|by exists ct|].
  intros x b cb Hadj. by eapply cg_source_first.
Qed.

Lemma X4_witness :
  (∃ c0, head [(0, 0); (1, 0); (2, 0)] = Some (0, c0)) ∧
  (∃ ct, last [(0, 0); (1, 0); (2, 0)] = Some (2, ct)) ∧
  ∀ x b cb, adjacent x (b, cb) [(0, 0); (1, 0); (2, 0)] → b ≠ 0.
Proof.
  apply (X4_path_runs_from_source_to_target cg_chain 0 2 1 300%nat
           [(0, 0); (1, 0); (2, 0)] 8).
  - apply cg_chain_valid.
  - apply cg_chain_modest.
  - vm_compute. reflexivity.
  - discriminate.
Defined.

(** X5. [findShortestPath] of ChannelGraph2.cpp returns a least cost as
    well: on a valid graph with [modest] costs the cost returned with a
    non-empty path is below [INT_MAX], is 0 when source and target are the
    same node and otherwise the cost of a route from the source to the
    target, and no route from the source to the target costs less. *)
Theorem X5_checked_variant_cost_is_least
    (g : ChannelGraph.Graph) (source target w : Z) (fuel : nat)
    (path : list (Z * Z)) (cost : Z) :
  well_formed g → modest g →
  ChannelGraph2.findShortestPath g source target w fuel
    = Some (Returned (path, cost)) →
  path ≠ [] →
  cost < INT_MAX ∧
  ((source = target ∧ cost = 0) ∨
   (source ≠ target ∧ ∃ ch, route g w source target ch cost)) ∧
  ∀ ch D, route g w source target ch D → cost ≤ D.
Proof.
  intros Hwf Hm Hr Hne.
  rewrite ChannelGraphIntFacts.cg2_exact in Hr by done.
  pose proof (ChannelGraphIntFacts.modest_nonnegative g Hm) as Hnn.
  by destruct (ShortestPathFacts.cg2_least g source target w fuel path cost
                 Hwf Hnn Hr) as [H _]; apply H.
Qed.

Lemma X5_witness :
  8 < INT_MAX ∧
  (((0 : Z) = 2 ∧ (8 : Z) = 0) ∨
   ((0 : Z) ≠ 2 ∧ ∃ ch, route cg_chain 1 0 2 ch 8)) ∧
  ∀ ch D, route cg_chain 1 0 2 ch D → 8 ≤ D.
Proof.
  apply (X5_checked_variant_cost_is_least cg_chain 0 2 1 300%nat
           [(0, 0); (1, 0); (2, 0)] 8).
  - apply cg_chain_valid.
  - apply cg_chain_modest.
  - vm_compute. reflexivity.
  - discriminate.
Defined.

(** X6. When [findShortestPath] of ChannelGraph2.cpp returns the empty path
    on a valid graph with [modest] costs, the cost is [INT_MAX], source and
    target differ, and every route from the source to the target costs
    [INT_MAX] or more. *)
Theorem X6_checked_variant_empty_path
    (g : ChannelGraph.Graph) (source target w : Z) (fuel : nat) (cost : Z) :
  well_formed g → modest g →
  ChannelGraph2.findShortestPath g source target w fuel
    = Some (Returned ([], cost)) →
  cost = INT_MAX ∧ source ≠ target ∧
  ∀ ch D, route g w source target ch D → INT_MAX ≤ D.
Proof.
  intros Hwf Hm Hr.
  rewrite ChannelGraphIntFacts.cg2_exact in Hr by done.
  pose proof (ChannelGraphIntFacts.modest_nonnegative g Hm) as Hnn.
  by destruct (ShortestPathFacts.cg2_least g source target w fuel [] cost
                 Hwf Hnn Hr) as [_ H]; apply H.
Qed.

Lemma X6_witness :
  INT_MAX = INT_MAX ∧ (0 : Z) ≠ 2 ∧
  ∀ ch D, route cg_island 1 0 2 ch D → INT_MAX ≤ D.
Proof.
  apply (X6_checked_variant_empty_path cg_island 0 2 1 400%nat INT_MAX).
  - apply cg_island_valid.
  - apply cg_island_modest.
  - vm_compute. reflexivity.
Defined.

(** X7. A non-empty path returned by [findShortestPath] of ChannelGraph2.cpp
    is a simple path from the source to the target: it starts at the source,
    ends at the target and holds no node twice, on every graph. *)
Theorem X7_checked_variant_path_is_simple
    (g : ChannelGraph.Graph) (source target w : Z) (fuel : nat)
    (path : list (Z * Z)) (cost : Z) :
  ChannelGraph2.findShortestPath g source target w fuel
    = Some (Returned (path, cost)) →
  path ≠ [] →
  (∃ c0, head path = Some (source, c0)) ∧
  (∃ ct, last path = Some (target, ct)) ∧
  NoDup path.*1.
Proof.
  intros Hr Hne. by eapply ChannelGraphIntFacts.cg2_int_simple.
Qed.

Lemma X7_witness :
  (∃ c0, head [(0, 0); (1, 0); (2, 0)] = Some (0, c0)) ∧
  (∃ ct, last [(0, 0); (1, 0); (2, 0)] = Some (2, ct)) ∧
  NoDup [(0, 0); (1, 0); (2, 0)].*1.
Proof.
  apply (X7_checked_variant_path_is_simple cg_chain 0 2 1 300%nat
           [(0, 0); (1, 0); (2, 0)] 8).
  - vm_compute. reflexivity.
  - discriminate.
Defined.

(** X8. The two variants agree. When [findShortestPath] of ChannelGraph.cpp
    and [findShortestPath] of ChannelGraph2.cpp both return for the same
    query on a valid graph with [modest] costs, they return the same cost,
    and the one path is empty exactly when the other is. *)
Theorem X8_variants_return_the_same_cost
    (g : ChannelGraph.Graph) (source target w : Z) (fuel1 fuel2 : nat)
    (path1 path2 : list (Z * Z)) (cost1 cost2 : Z) :
  well_formed g → modest g →
  ChannelGraph.findShortestPath g source target w fuel1
    = Some (Returned (path1, cost1)) →
  ChannelGraph2.findShortestPath g source target w fuel2
    = Some (Returned (path2, cost2)) →
  cost1 = cost2 ∧ (path1 = [] ↔ path2 = []).
Proof.
  intros Hwf Hm H1 H2.
  rewrite ChannelGraphIntFacts.cg_exact in H1 by done.
  rewrite ChannelGraphIntFacts.cg2_exact in H2 by done.
  pose proof (ChannelGraphIntFacts.modest_nonnegative g Hm) as Hnn.
  by eapply ShortestPathFacts.cg_cg2_agree.
Qed.

Lemma X8_witness :
  (1 : Z) = 1 ∧ ([(0, 0); (1, 0)] = [] ↔ [(0, 0); (1, 0)] = ([] : list (Z * Z))).
Proof.
  apply (X8_variants_return_the_same_cost cg_island 0 1 1 400%nat 400%nat
           [(0, 0); (1, 0)] [(0, 0); (1, 0)] 1 1).
  - apply cg_island_valid.
  - apply cg_island_modest.
  - vm_compute. reflexivity.
  - vm_compute. reflexivity.
Defined.

(** X9. The way back costs the same. On a valid graph with [modest] costs
    in which every edge has its twin in the other direction, as [addEdge]
    enters them, what
    [findShortestPath] of ChannelGraph.cpp returns from [source] to [target]
    and what it returns from [target] to [source] cost the same, and the one
    path is empty exactly when the other is. *)
Theorem X9_cost_is_the_same_both_ways
    (g : ChannelGraph.Graph) (source target w : Z) (fuel1 fuel2 : nat)
    (path1 path2 : list (Z * Z)) (cost1 cost2 : Z) :
  well_formed g → modest g → symmetric g →
  ChannelGraph.findShortestPath g source target w fuel1
    = Some (Returned (path1, cost1)) →
  ChannelGraph.findShortestPath g target source w fuel2
    = Some (Returned (path2, cost2)) →
  cost1 = cost2 ∧ (path1 = [] ↔ path2 = []).
Proof.
  intros Hwf Hm Hsym H1 H2.
  rewrite ChannelGraphIntFacts.cg_exact in H1, H2 by done.
  pose proof (ChannelGraphIntFacts.modest_nonnegative g Hm) as Hnn.
  by eapply ShortestPathFacts.cg_both_ways.
Qed.

Lemma X9_witness :
  (1 : Z) = 1 ∧ ([(0, 0); (1, 0)] = [] ↔ [(1, 0); (0, 0)] = ([] : list (Z * Z))).
Proof.
  apply (X9_cost_is_the_same_both_ways cg_island 0 1 1 400%nat 400%nat
           [(0, 0); (1, 0)] [(1, 0); (0, 0)] 1 1).
  - apply cg_island_valid.
  - apply cg_island_modest.
  - apply cg_island_symmetric.
  - vm_compute. reflexivity.
  - vm_compute. reflexivity.
Defined.

(** X10. What the constructor, [addEdge] and [setNodeConversion] of
    ChannelGraph.cpp build stays a valid graph. The graph of the constructor
    has edges only to nodes of the graph, each with 100 costs, none negative,
    each with its twin in the other direction (it has no edge at all);
    [addEdge], when it returns and is given no negative cost, and
    [setNodeConversion], when it returns, keep all of that. *)
Theorem X10_construction_keeps_the_graph_valid :
  (∀ n, well_formed (ChannelGraph.create n) ∧
        nonnegative (ChannelGraph.create n) ∧
        symmetric (ChannelGraph.create n)) ∧
  (∀ g g' u v costs,
     ChannelGraph.addEdge g u v costs = Returned g' →
     Forall (λ c, 0 ≤ c) costs →
     well_formed g ∧ nonnegative g ∧ symmetric g →
     well_formed g' ∧ nonnegative g' ∧ symmetric g') ∧
  (∀ g g' node support,
     ChannelGraph.setNodeConversion g node support = Returned g' →
     well_formed g ∧ nonnegative g ∧ symmetric g →
     well_formed g' ∧ nonnegative g' ∧ symmetric g').
Proof.
  split_and!.
  - intros n. split_and!.
    + apply well_formed_create.
    + apply nonnegative_create.
    + apply ShortestPathFacts.symmetric_create.
  - intros g g' u v costs Hr Hc (Hwf & Hnn & Hsym). split_and!.
    + by eapply well_formed_addEdge.
    + by eapply nonnegative_addEdge.
    + by eapply ShortestPathFacts.symmetric_addEdge.
  - intros g g' node support Hr (Hwf & Hnn & Hsym). split_and!.
    + by eapply well_formed_setNodeConversion.
    + by eapply nonnegative_setNodeConversion.
    + by eapply ShortestPathFacts.symmetric_setNodeConversion.
Qed.

Lemma X10_witness :
  well_formed cg_island ∧ nonnegative cg_island ∧ symmetric cg_island.
Proof.
  destruct X10_construction_keeps_the_graph_valid as (H1 & H2 & _).
  apply (H2 (ChannelGraph.create 3) cg_island 0 1 (replicate 100 1)).
  - vm_compute. reflexivity.
  - apply Forall_replicate. lia.
  - apply H1.
Defined.

(** X11. [addEdge] of ChannelGraph.cpp appends. When it returns, the
    adjacency list of [u] is the former one followed by the edge to [v], and
    by the edge to [u] as well when [u] and [v] are the same node (a loop is
    entered twice); the list of [v], when [v] is another node, is the former
    one followed by the edge to [u]; the lists of all other nodes are
    unchanged. *)
Theorem X11_addEdge_appends
    (g g' : ChannelGraph.Graph) (u v : Z) (costs : list Z) :
  ChannelGraph.addEdge g u v costs = Returned g' →
  ChannelGraph.adj g' u
    = ChannelGraph.adj g u ++ [ChannelGraph.mkEdge v costs]
      ++ (if decide (u = v) then [ChannelGraph.mkEdge u costs] else []) ∧
  (u ≠ v →
   ChannelGraph.adj g' v
     = ChannelGraph.adj g v ++ [ChannelGraph.mkEdge u costs]) ∧
  (∀ x, x ≠ u → x ≠ v → ChannelGraph.adj g' x = ChannelGraph.adj g x).
Proof. apply ShortestPathFacts.addEdge_adj. Qed.

Lemma X11_witness :
  ChannelGraph.adj cg_island 0
    = ChannelGraph.adj (ChannelGraph.create 3) 0
      ++ [ChannelGraph.mkEdge 1 (replicate 100 1)]
      ++ (if decide ((0 : Z) = 1)
          then [ChannelGraph.mkEdge 0 (replicate 100 1)] else []) ∧
  ((0 : Z) ≠ 1 →
   ChannelGraph.adj cg_island 1
     = ChannelGraph.adj (ChannelGraph.create 3) 1
       ++ [ChannelGraph.mkEdge 0 (replicate 100 1)]) ∧
  (∀ x, x ≠ 0 → x ≠ 1 →
        ChannelGraph.adj cg_island x
        = ChannelGraph.adj (ChannelGraph.create 3) x).
Proof.
  apply (X11_addEdge_appends (ChannelGraph.create 3) cg_island 0 1
           (replicate 100 1)).
  vm_compute. reflexivity.
Defined.

(** X12. [setNodeConversion] of ChannelGraph.cpp, for a node of the graph,
    returns; afterwards the node has the capability that was set, every other
    node has the one it had, and the node count and the adjacency lists are
    unchanged. *)
Theorem X12_setNodeConversion_sets_one_node
    (g : ChannelGraph.Graph) (node : Z) (support : bool) :
  0 ≤ node < ChannelGraph.node_count g →
  ∃ g', ChannelGraph.setNodeConversion g node support = Returned g' ∧
        ChannelGraph.supports g' node = support ∧
        (∀ x, x ≠ node →
              ChannelGraph.supports g' x = ChannelGraph.supports g x) ∧
        ChannelGraph.node_count g' = ChannelGraph.node_count g ∧
        ∀ x, ChannelGraph.adj g' x = ChannelGraph.adj g x.
Proof.
  intros Hn.
  destruct (ShortestPathFacts.setNodeConversion_succeeds g node support Hn)
    as [g' Hr].
  exists g'. split; [done|].
  apply setNodeConversion_Returned in Hr as (_ & Hc & Hadj & Hs).
  split_and!; [|intros x Hx|done|done].
  - rewrite Hs. by rewrite decide_True.
  - rewrite Hs. by rewrite decide_False.
Qed.

Lemma X12_witness :
  ∃ g', ChannelGraph.setNodeConversion cg_island 2 true = Returned g' ∧
        ChannelGraph.supports g' 2 = true ∧
        (∀ x, x ≠ 2 →
              ChannelGraph.supports g' x = ChannelGraph.supports cg_island x) ∧
        ChannelGraph.node_count g' = ChannelGraph.node_count cg_island ∧
        ∀ x, ChannelGraph.adj g' x = ChannelGraph.adj cg_island x.
Proof.
  apply (X12_setNodeConversion_sets_one_node cg_island 2 true).
  vm_compute. split; [discriminate|reflexivity].
Defined.

(** X14. From a source without edges [findMinCost] of
    OptimizedEfficientGraph.cpp answers -1 for every target, the source
    itself included: a node counts as reached only at the end of a first
    segment. *)
Theorem X14_findMinCost_from_an_isolated_source
    (g : OptimizedEfficientGraph.Graph) (source target : Z) (fuel : nat) :
  0 ≤ source < OptimizedEfficientGraph.n g →
  OptimizedEfficientGraph.adj_at g source = [] →
  OptimizedEfficientGraph.findMinCost g source target (S (S fuel))
  = Some (-1).
Proof. intros [Hs _]. by apply FindMinCostFacts.findMinCost_isolated. Qed.

Lemma X14_witness :
  OptimizedEfficientGraph.findMinCost (OptimizedEfficientGraph.create 3) 1 1 2
  = Some (-1).
Proof.
  apply (X14_findMinCost_from_an_isolated_source
           (OptimizedEfficientGraph.create 3) 1 1 0).
  - vm_compute. split; [discriminate|reflexivity].
  - reflexivity.
Defined.

(** X15. In every path that [findMinCostPath] of
    OptimizedEfficientGraph1.cpp returns for two nodes of the graph, the
    entries of the source and of the target carry the channel -1, and the
    last entry of a non-empty path is the target. *)
Theorem X15_first_variant_path_ends_at_the_target
    (g : OptimizedEfficientGraph1.Graph) (source target : Z) (fuel : nat)
    (path : list (Z * Z)) :
  0 ≤ source < OptimizedEfficientGraph1.n g →
  0 ≤ target < OptimizedEfficientGraph1.n g →
  OptimizedEfficientGraph1.findMinCostPath g source target fuel = Some path →
  (∀ node channel, (node, channel) ∈ path →
                   node = source ∨ node = target → channel = -1) ∧
  (path ≠ [] → last path = Some (target, -1)).
Proof. intros _ _. apply FindMinCostPath1Facts.findMinCostPath_ends. Qed.

Lemma X15_witness :
  (∀ node channel, (node, channel) ∈ [(0, -1); (1, -1)] →
                   node = 0 ∨ node = 1 → channel = -1) ∧
  ([(0, -1); (1, -1)] ≠ [] → last [(0, -1); (1, -1)] = Some (1, -1)).
Proof.
  apply (X15_first_variant_path_ends_at_the_target oeg1_island 0 1 1000%nat).
  - vm_compute. split; [discriminate|reflexivity].
  - vm_compute. split; [discriminate|reflexivity].
  - vm_compute. reflexivity.
Defined.

(** X16. In every path that [findMinCostPath] of
    OptimizedEfficientGraph3.cpp returns for two nodes of the graph, the
    entries of the source and of the target carry the channel -1, and the
    last entry of a non-empty path is the target. *)
Theorem X16_third_variant_path_ends_at_the_target
    (g : OptimizedEfficientGraph3.Graph) (source target : Z) (fuel : nat)
    (path : list (Z * Z)) :
  0 ≤ source < OptimizedEfficientGraph3.n g →
  0 ≤ target < OptimizedEfficientGraph3.n g →
  OptimizedEfficientGraph3.findMinCostPath g source target fuel = Some path →
  (∀ node channel, (node, channel) ∈ path →
                   node = source ∨ node = target → channel = -1) ∧
  (path ≠ [] → last path = Some (target, -1)).
Proof. intros _ _. apply FindMinCostPath3Facts.findMinCostPath3_ends. Qed.

Lemma X16_witness :
  (∀ node channel,
     (node, channel) ∈ [(0, -1); (1, 5); (2, 0); (1, 0); (3, -1)] →
     node = 0 ∨ node = 3 → channel = -1) ∧
  ([(0, -1); (1, 5); (2, 0); (1, 0); (3, -1)] ≠ [] →
   last [(0, -1); (1, 5); (2, 0); (1, 0); (3, -1)] = Some (3, -1)).
Proof.
  apply (X16_third_variant_path_ends_at_the_target oeg3_detour 0 3
           4000%nat).
  - vm_compute. split; [discriminate|reflexivity].
  - vm_compute. split; [discriminate|reflexivity].
  - vm_compute. reflexivity.
Defined.

(** X17. [validatePath] of OptimizedEfficientGraph3.cpp accepts exactly the
    paths that are not empty, start at the source, end at the target and
    hold no node twice. *)
Theorem X17_validatePath_accepts_simple_paths
    (path : list (Z * Z)) (source target : Z) :
  OptimizedEfficientGraph3.validatePath path source target = true ↔
  (∃ c, head path = Some (source, c)) ∧
  (∃ c, last path = Some (target, c)) ∧
  NoDup path.*1.
Proof. apply FindMinCostPath3Facts.validatePath_spec. Qed.

(** X18. Every non-empty path that [findShortestPath] of ChannelGraph2.cpp
    returns passes [validatePath], the check of
    OptimizedEfficientGraph3.cpp, for the source and the target of the
    query. *)
Theorem X18_checked_variant_passes_validatePath
    (g : ChannelGraph.Graph) (source target w : Z) (fuel : nat)
    (path : list (Z * Z)) (cost : Z) :
  ChannelGraph2.findShortestPath g source target w fuel
    = Some (Returned (path, cost)) →
  path ≠ [] →
  OptimizedEfficientGraph3.validatePath path source target = true.
Proof.
  intros Hr Hne. apply FindMinCostPath3Facts.validatePath_spec.
  by eapply ChannelGraphIntFacts.cg2_int_simple.
Qed.

Lemma X18_witness :
  OptimizedEfficientGraph3.validatePath [(0, 0); (1, 0); (2, 0)] 0 2 = true.
Proof.
  apply (X18_checked_variant_passes_validatePath cg_chain 0 2 1 300%nat
           [(0, 0); (1, 0); (2, 0)] 8).
  - vm_compute. reflexivity.
  - discriminate.
Defined.

(** X19. [findShortestPath] of ChannelGraph2.cpp finds every target within
    reach unless the check of its path stops it: on a valid graph with
    [modest] costs, with a valid width and both nodes in range, when some
    route from the source to the target costs less than [INT_MAX], the query
    ends, either with a non-empty path whose cost is not above the cost of
    that route, or with [runtime_error]. *)
Theorem X19_checked_variant_finds_or_throws
    (g : ChannelGraph.Graph) (source target w ch D : Z) :
  well_formed g → modest g →
  1 ≤ w ≤ 3 →
  0 ≤ source < ChannelGraph.node_count g →
  0 ≤ target < ChannelGraph.node_count g →
  route g w source target ch D → D < INT_MAX →
  ∃ fuel0, ∀ fuel, (fuel0 ≤ fuel)%nat →
    (∃ path cost,
       ChannelGraph2.findShortestPath g source target w fuel
         = Some (Returned (path, cost)) ∧
       path ≠ [] ∧ cost ≤ D) ∨
    ChannelGraph2.findShortestPath g source target w fuel
      = Some (Thrown runtime_error).
Proof.
  intros Hwf Hm Hw Hs Ht Hroute HD.
  pose proof (ChannelGraphIntFacts.modest_nonnegative g Hm) as Hnn.
  destruct (ShortestPathFacts.cg2_found g source target w ch D)
    as [fuel0 H]; try done.
  exists fuel0. intros fuel Hfuel.
  rewrite ChannelGraphIntFacts.cg2_exact by done. by apply H.
Qed.

Lemma X19_witness :
  ∃ fuel0, ∀ fuel, (fuel0 ≤ fuel)%nat →
    (∃ path cost,
       ChannelGraph2.findShortestPath cg_island 0 1 1 fuel
         = Some (Returned (path, cost)) ∧
       path ≠ [] ∧ cost ≤ 1) ∨
    ChannelGraph2.findShortestPath cg_island 0 1 1 fuel
      = Some (Thrown runtime_error).
Proof.
  apply (X19_checked_variant_finds_or_throws cg_island 0 1 1 0 1).
  - apply cg_island_valid.
  - apply cg_island_modest.
  - lia.
  - vm_compute. split; [discriminate|reflexivity].
  - vm_compute. split; [discriminate|reflexivity].
  - apply cg_island_route.
  - reflexivity.
Defined.

(** X20. The loop of [getSegmentCost] in OptimizedEfficientGraph1.cpp and in
    OptimizedEfficientGraph3.cpp adds up the [segment_size] costs from
    [start_channel] on, for every size, as long as the segment lies inside
    the cost vector, no cost is negative and the sum is an [int]. *)
Theorem X20_getSegmentCost_loop_is_the_segment_sum :
  (∀ e start size,
     0 ≤ start → 0 ≤ size →
     start + size ≤ Z.of_nat (length (OptimizedEfficientGraph1.costs e)) →
     Forall (λ c, 0 ≤ c) (OptimizedEfficientGraph1.costs e) →
     segment_sum (OptimizedEfficientGraph1.costs e) start size ≤ INT_MAX →
     OptimizedEfficientGraph1.getSegmentCost e start size
     = segment_sum (OptimizedEfficientGraph1.costs e) start size) ∧
  (∀ e start size,
     0 ≤ start → 0 ≤ size →
     start + size ≤ Z.of_nat (length (OptimizedEfficientGraph3.costs e)) →
     Forall (λ c, 0 ≤ c) (OptimizedEfficientGraph3.costs e) →
     segment_sum (OptimizedEfficientGraph3.costs e) start size ≤ INT_MAX →
     OptimizedEfficientGraph3.getSegmentCost e start size
     = segment_sum (OptimizedEfficientGraph3.costs e) start size).
Proof.
  split.
  - intros e start size H0 H1 H2 H3 H4.
    by apply SegmentCostFacts.oeg1_getSegmentCost_sum.
  - intros e start size H0 H1 H2 H3 H4.
    by apply SegmentCostFacts.oeg3_getSegmentCost_sum.
Qed.

Lemma X20_witness :
  OptimizedEfficientGraph1.getSegmentCost
    (OptimizedEfficientGraph1.mkEdge 1 (costs_with 10 11 1)) 10 3
  = segment_sum (costs_with 10 11 1) 10 3 ∧
  OptimizedEfficientGraph3.getSegmentCost
    (OptimizedEfficientGraph3.mkEdge 1 (costs_with 10 11 1)) 10 3
  = segment_sum (costs_with 10 11 1) 10 3.
Proof.
  destruct X20_getSegmentCost_loop_is_the_segment_sum as [H1 H3].
  split.
  - apply (H1 (OptimizedEfficientGraph1.mkEdge 1 (costs_with 10 11 1)) 10 3).
    + lia.
    + lia.
    + vm_compute. discriminate.
    + apply costs_with_nonneg; lia.
    + vm_compute. discriminate.
  - apply (H3 (OptimizedEfficientGraph3.mkEdge 1 (costs_with 10 11 1)) 10 3).
    + lia.
    + lia.
    + vm_compute. discriminate.
    + apply costs_with_nonneg; lia.
    + vm_compute. discriminate.
Defined.

(** X21. [addEdge] of OptimizedEfficientGraph3.cpp checks the cost vector
    before anything else: it throws [invalid_argument] when the vector does
    not have 100 entries; when it returns, the vector has 100 entries, the
    node count and the capabilities are unchanged and the adjacency lists
    have gained exactly the edge to [v] in the list of [u] and the edge to
    [u] in the list of [v], both with the given costs. *)
Theorem X21_third_variant_addEdge :
  (∀ g u v cost_vector,
     Z.of_nat (length cost_vector) ≠ CHANNELS →
     OptimizedEfficientGraph3.addEdge g u v cost_vector
     = Thrown invalid_argument) ∧
  (∀ g g' u v cost_vector,
     OptimizedEfficientGraph3.addEdge g u v cost_vector = Returned g' →
     Z.of_nat (length cost_vector) = CHANNELS ∧
     OptimizedEfficientGraph3.n g' = OptimizedEfficientGraph3.n g ∧
     OptimizedEfficientGraph3.supports_switch g'
       = OptimizedEfficientGraph3.supports_switch g ∧
     ∀ x e, e ∈ OptimizedEfficientGraph3.adj_at g' x ↔
            e ∈ OptimizedEfficientGraph3.adj_at g x
            ∨ (x = u ∧ e = OptimizedEfficientGraph3.mkEdge v cost_vector)
            ∨ (x = v ∧ e = OptimizedEfficientGraph3.mkEdge u cost_vector)).
Proof.
  split.
  - apply SegmentCostFacts.oeg3_addEdge_bad_length.
  - apply SegmentCostFacts.oeg3_addEdge_Returned.
Qed.

Lemma X21_witness :
  OptimizedEfficientGraph3.addEdge (OptimizedEfficientGraph3.create 3) 0 1
    (replicate 99 1) = Thrown invalid_argument ∧
  (∀ x e, e ∈ OptimizedEfficientGraph3.adj_at oeg3_pair x ↔
          e ∈ OptimizedEfficientGraph3.adj_at
                (OptimizedEfficientGraph3.create 3) x
          ∨ (x = 0 ∧ e = OptimizedEfficientGraph3.mkEdge 1 (replicate 100 1))
          ∨ (x = 1 ∧ e = OptimizedEfficientGraph3.mkEdge 0 (replicate 100 1))).
Proof.
  destruct X21_third_variant_addEdge as [H1 H2].
  split.
  - apply H1. vm_compute. discriminate.
  - apply (H2 (OptimizedEfficientGraph3.create 3) oeg3_pair 0 1
              (replicate 100 1)).
    vm_compute. reflexivity.
Defined.

(** X22. [setChannelSwitchSupport] of OptimizedEfficientGraph1.cpp and of
    OptimizedEfficientGraph3.cpp sets the capability of a node of the graph
    and of no other node; for a node outside the graph the third variant,
    like the first, changes nothing and signals nothing. *)
Theorem X22_setChannelSwitchSupport_sets_one_node :
  (∀ g node_id s,
     0 ≤ node_id < OptimizedEfficientGraph1.n g →
     ∀ x, OptimizedEfficientGraph1.supports
            (OptimizedEfficientGraph1.setChannelSwitchSupport g node_id s) x
          = if decide (x = node_id) then s
            else OptimizedEfficientGraph1.supports g x) ∧
  (∀ g node_id s,
     0 ≤ node_id < OptimizedEfficientGraph3.n g →
     ∀ x, OptimizedEfficientGraph3.supports
            (OptimizedEfficientGraph3.setChannelSwitchSupport g node_id s) x
          = if decide (x = node_id) then s
            else OptimizedEfficientGraph3.supports g x) ∧
  (∀ g node_id s,
     node_id < 0 ∨ OptimizedEfficientGraph3.n g ≤ node_id →
     OptimizedEfficientGraph3.setChannelSwitchSupport g node_id s = g).
Proof.
  split_and!.
  - apply SegmentCostFacts.oeg1_setChannelSwitchSupport_sets.
  - apply SegmentCostFacts.oeg3_setChannelSwitchSupport_sets.
  - apply SegmentCostFacts.oeg3_setChannelSwitchSupport_ignored.
Qed.

Lemma X22_witness :
  OptimizedEfficientGraph1.supports
    (OptimizedEfficientGraph1.setChannelSwitchSupport oeg1_island 1 true) 1
  = true ∧
  OptimizedEfficientGraph3.supports
    (OptimizedEfficientGraph3.setChannelSwitchSupport
       (OptimizedEfficientGraph3.create 4) 1 true) 2
  = false ∧
  OptimizedEfficientGraph3.setChannelSwitchSupport
    (OptimizedEfficientGraph3.create 4) 4 true
  = OptimizedEfficientGraph3.create 4.
Proof.
  destruct X22_setChannelSwitchSupport_sets_one_node as (H1 & H2 & H3).
  split_and!.
  - apply (H1 oeg1_island 1 true).
    vm_compute. split; [discriminate|reflexivity].
  - apply (H2 (OptimizedEfficientGraph3.create 4) 1 true).
    vm_compute. split; [discriminate|reflexivity].
  - apply H3. right. vm_compute. discriminate.
Defined.

(** X23. Conversion can only help. When [setNodeConversion] switches
    conversion on at a node of a valid graph with [modest] costs, what
    [findShortestPath] of ChannelGraph.cpp returns for a query afterwards
    costs no more than what it returns for the same query before. *)
Theorem X23_conversion_never_raises_the_cost
    (g g' : ChannelGraph.Graph) (node source target w : Z)
    (fuel fuel' : nat) (path path' : list (Z * Z)) (cost cost' : Z) :
  well_formed g → modest g →
  ChannelGraph.setNodeConversion g node true = Returned g' →
  ChannelGraph.findShortestPath g source target w fuel
    = Some (Returned (path, cost)) →
  ChannelGraph.findShortestPath g' source target w fuel'
    = Some (Returned (path', cost')) →
  cost' ≤ cost.
Proof.
  intros Hwf Hm Hset H1 H2.
  rewrite ChannelGraphIntFacts.cg_exact in H1 by done.
  rewrite ChannelGraphIntFacts.cg_exact in H2
    by (by eapply well_formed_setNodeConversion
        || by eapply ChannelGraphIntFacts.modest_setNodeConversion).
  pose proof (ChannelGraphIntFacts.modest_nonnegative g Hm) as Hnn.
  by eapply ShortestPathFacts.cg_conversion_helps.
Qed.

Lemma X23_witness : (2 : Z) ≤ 4.
Proof.
  apply (X23_conversion_never_raises_the_cost cg_detour cg_detour_conv 1
           0 3 1 1000%nat 1000%nat
           [(0, 0); (1, 0); (2, 0); (1, 5); (3, 5)]
           [(0, 0); (1, 0); (3, 5)] 4 2).
  - apply cg_detour_valid.
  - apply cg_detour_modest.
  - vm_compute. reflexivity.
  - vm_compute. reflexivity.
  - vm_compute. reflexivity.
Defined.

(** X24. One more edge can only help. When [addEdge] enters an edge with
    [modest] costs into a valid graph with [modest] costs, what
    [findShortestPath] of ChannelGraph.cpp returns for a query afterwards
    costs no more than what it returns for the same query before. *)
Theorem X24_an_edge_never_raises_the_cost
    (g g' : ChannelGraph.Graph) (u v : Z) (costs : list Z)
    (source target w : Z) (fuel fuel' : nat) (path path' : list (Z * Z))
    (cost cost' : Z) :
  well_formed g → modest g →
  Forall (λ c, 0 ≤ c ≤ INT_MAX / limit g) costs →
  ChannelGraph.addEdge g u v costs = Returned g' →
  ChannelGraph.findShortestPath g source target w fuel
    = Some (Returned (path, cost)) →
  ChannelGraph.findShortestPath g' source target w fuel'
    = Some (Returned (path', cost')) →
  cost' ≤ cost.
Proof.
  intros Hwf Hm Hc Hadd H1 H2.
  rewrite ChannelGraphIntFacts.cg_exact in H1 by done.
  rewrite ChannelGraphIntFacts.cg_exact in H2
    by (by eapply well_formed_addEdge
        || by eapply ChannelGraphIntFacts.modest_addEdge).
  pose proof (ChannelGraphIntFacts.modest_nonnegative g Hm) as Hnn.
  eapply ShortestPathFacts.cg_edge_helps; [done..| |done|done|done].
  eapply Forall_impl; [exact Hc|]. simpl. lia.
Qed.

Lemma X24_witness : 2 ≤ INT_MAX.
Proof.
  apply (X24_an_edge_never_raises_the_cost cg_island cg_island_bridge 1 2
           (replicate 100 1) 0 2 1 400%nat 1000%nat
           [] [(0, 0); (1, 0); (2, 0)] INT_MAX 2).
  - apply cg_island_valid.
  - apply cg_island_modest.
  - apply Forall_replicate. vm_compute. split; discriminate.
  - vm_compute. reflexivity.
  - vm_compute. reflexivity.
  - vm_compute. reflexivity.
Defined.

(** X25. A wider connection is never cheaper. On a valid graph with
    [modest] costs, what [findShortestPath] of ChannelGraph.cpp returns for
    a width costs no more than what it returns, for the same two nodes, for
    a larger width. *)
Theorem X25_a_wider_connection_is_never_cheaper
    (g : ChannelGraph.Graph) (source target w w' : Z)
    (fuel fuel' : nat) (path path' : list (Z * Z)) (cost cost' : Z) :
  well_formed g → modest g → w ≤ w' →
  ChannelGraph.findShortestPath g source target w fuel
    = Some (Returned (path, cost)) →
  ChannelGraph.findShortestPath g source target w' fuel'
    = Some (Returned (path', cost')) →
  cost ≤ cost'.
Proof.
  intros Hwf Hm Hw H1 H2.
  rewrite ChannelGraphIntFacts.cg_exact in H1, H2 by done.
  pose proof (ChannelGraphIntFacts.modest_nonnegative g Hm) as Hnn.
  by eapply ShortestPathFacts.cg_width_costs.
Qed.

Lemma X25_witness : (8 : Z) ≤ 16.
Proof.
  apply (X25_a_wider_connection_is_never_cheaper cg_chain 0 2 1 2
           300%nat 1000%nat
           [(0, 0); (1, 0); (2, 0)] [(0, 0); (1, 0); (2, 0)] 8 16).
  - apply cg_chain_valid.
  - apply cg_chain_modest.
  - lia.
  - vm_compute. reflexivity.
  - vm_compute. reflexivity.
Defined.

(** X26. Through a node that converts, the whole way costs at most the two
    halves. On a valid graph with [modest] costs, when [findShortestPath] of
    ChannelGraph.cpp
    returns a non-empty path from [source] to [middle] and one from [middle]
    to [target], [middle] converts, and the two costs together stay below
    [INT_MAX], what it returns from [source] to [target] is a non-empty path
    whose cost is at most the sum of the two. *)
Theorem X26_triangle_through_a_converting_node
    (g : ChannelGraph.Graph) (source middle target w : Z)
    (fuel1 fuel2 fuel : nat) (path1 path2 path : list (Z * Z))
    (cost1 cost2 cost : Z) :
  well_formed g → modest g →
  ChannelGraph.supports g middle = true →
  ChannelGraph.findShortestPath g source middle w fuel1
    = Some (Returned (path1, cost1)) →
  ChannelGraph.findShortestPath g middle target w fuel2
    = Some (Returned (path2, cost2)) →
  ChannelGraph.findShortestPath g source target w fuel
    = Some (Returned (path, cost)) →
  path1 ≠ [] → path2 ≠ [] → cost1 + cost2 < INT_MAX →
  path ≠ [] ∧ cost ≤ cost1 + cost2.
Proof.
  intros Hwf Hm Hmid H1 H2 H3.
  rewrite ChannelGraphIntFacts.cg_exact in H1, H2, H3 by done.
  pose proof (ChannelGraphIntFacts.modest_nonnegative g Hm) as Hnn.
  by eapply ShortestPathFacts.cg_triangle.
Qed.

Lemma X26_witness :
  [(0, 0); (1, 0); (2, 0)] ≠ ([] : list (Z * Z)) ∧ (2 : Z) ≤ 1 + 1.
Proof.
  apply (X26_triangle_through_a_converting_node cg_test8 0 1 2 1
           1000%nat 1000%nat 1000%nat
           [(0, 0); (1, 0)] [(1, 0); (2, 0)] [(0, 0); (1, 0); (2, 0)] 1 1 2).
  - apply cg_test8_valid.
  - apply cg_test8_modest.
  - reflexivity.
  - vm_compute. reflexivity.
  - vm_compute. reflexivity.
  - vm_compute. reflexivity.
  - discriminate.
  - discriminate.
  - reflexivity.
Defined.

(** X27. When every edge of the graph leads to a node of the graph, as is
    the case after the constructor and after calls of [addEdge] of
    OptimizedEfficientGraph1.cpp with nodes of the graph ([addEdge] itself
    does not check them), a non-empty path that [findMinCostPath] returns
    for two nodes of the graph starts with the entry [(source, -1)]: the
    predecessor links of the best final state lead back to the start
    state. *)
Theorem X27_first_variant_path_starts_at_the_source
    (g : OptimizedEfficientGraph1.Graph) (source target : Z) (fuel : nat)
    (path : list (Z * Z)) :
  FindMinCostPathSpec.in_range g →
  0 ≤ source < OptimizedEfficientGraph1.n g →
  0 ≤ target < OptimizedEfficientGraph1.n g →
  OptimizedEfficientGraph1.findMinCostPath g source target fuel = Some path →
  path ≠ [] → head path = Some (source, -1).
Proof.
  intros Hg [Hs _] _. by apply FindMinCostPath1Facts.findMinCostPath_starts.
Qed.

Lemma X27_witness : head [(0, -1); (1, -1)] = Some (0, -1).
Proof.
  apply (X27_first_variant_path_starts_at_the_source oeg1_island 0 1
           1000%nat).
  - apply ExamplesFacts.oeg1_island_in_range.
  - vm_compute. split; [discriminate|reflexivity].
  - vm_compute. split; [discriminate|reflexivity].
  - vm_compute. reflexivity.
  - discriminate.
Defined.

(** X28. A non-empty path that [findMinCostPath] of
    OptimizedEfficientGraph3.cpp returns for two nodes of the graph starts
    with the entry [(source, -1)]: [reconstructPath] never stops at a state
    without predecessor, since every state the search stores has one or is
    at the source. *)
Theorem X28_third_variant_path_starts_at_the_source
    (g : OptimizedEfficientGraph3.Graph) (source target : Z) (fuel : nat)
    (path : list (Z * Z)) :
  0 ≤ source < OptimizedEfficientGraph3.n g →
  0 ≤ target < OptimizedEfficientGraph3.n g →
  OptimizedEfficientGraph3.findMinCostPath g source target fuel = Some path →
  path ≠ [] → head path = Some (source, -1).
Proof. intros _ _. apply FindMinCostPath3Facts.findMinCostPath3_starts. Qed.

Lemma X28_witness :
  head [(0, -1); (1, 5); (2, 0); (1, 0); (3, -1)] = Some (0, -1).
Proof.
  apply (X28_third_variant_path_starts_at_the_source oeg3_detour 0 3
           4000%nat).
  - vm_compute. split; [discriminate|reflexivity].
  - vm_compute. split; [discriminate|reflexivity].
  - vm_compute. reflexivity.
  - discriminate.
Defined.
